(** * rtl_synth: the Verilog-to-74xx synthesis pipeline

    A shallow embedding of [src/synth/netlist/verilog_to_pcb_final.py]:
    - [VerilogParser]: the statement level of the parser, that is
      [_parse_assign_statement] with the expression compiler behind it
      ([_rewrite_ternary_to_bool], [_tokenize_boolean_expr],
      [_shunting_yard], [_rpn_to_ast], [_new_temp], [_ast_to_gates]) and
      the [always] branch of [_parse_body];
    - [sanitize_signal_name] and [flatten_module_gates];
    - [GateToICMapper]: the catalog and [map_gates_to_ics];
    - [KiCadNetlistExporter]: [_merge_signals_by_name], [_write_nets]
      and [_add_unused_pins_to_gnd]; [NetlistComponents]: the
      components section of [export_netlist] with [_get_footprint];
    - [SourceReader]: the reading of a file into [Module] records, that
      is [_remove_comments], [parse_content], [_extract_module_body],
      [_parse_module], [_parse_ports], [_parse_port_declaration],
      [_parse_wire_declaration], [_parse_module_instantiation] and the
      loop of [_parse_body].  Regular expressions are embedded as the
      scanners that they denote;
    - [KiCadExporter]: the placement, [_calculate_positions] and
      [_get_pin_position].

    Conventions of the embedding.
    - Python [str] is [string]; characters are the 8-bit characters of
      Rocq, classified as Python classifies the code points 0..255.
    - A Python [dict] is an insertion-ordered association list with
      unique keys ([Dict]); a [set] is a duplicate-free list.
    - Code that can raise or loop returns an [outcome].
    - [self._temp_counter] is threaded explicitly through the compiler.
    - A Python list used as a stack is kept with its top at the head.
    - The back pointer [Gate.ic_instance] is not part of the model, and
      the drawing coordinate [ICInstance.position] is kept beside the
      ICs, as the list that [_calculate_positions] computes.

    The file has three parts: the model, the vocabulary of the
    properties, and the properties with their proofs.  *)

From Stdlib Require Import Bool Arith Lia List Ascii String NArith.
From Stdlib Require Import DecimalString DecimalNat DecimalFacts.
From Stdlib Require Import Permutation.
From Stdlib Require Import ZArith.
Import ListNotations.

Open Scope string_scope.
Open Scope list_scope.

(* ------------------------------------------------------------------ *)
(** ** Outcomes of Python code *)

Inductive exn : Type :=
| IndexError   (* pop from an empty list, index out of range *)
| TypeError    (* subscripting a [str] with a [str] *)
| KeyError     (* a key that a [dict] does not hold *)
| RecursionError.  (* the interpreter's recursion limit is exceeded *)

Inductive outcome (A : Type) : Type :=
| Ok (a : A)
| Raise (e : exn)
| Hang.        (* the loop never leaves its current state *)

Arguments Ok {A} a.
Arguments Raise {A} e.
Arguments Hang {A}.

Definition bind {A B} (m : outcome A) (k : A -> outcome B) : outcome B :=
  match m with
  | Ok a => k a
  | Raise e => Raise e
  | Hang => Hang
  end.

Notation "x <- m ;; k" := (bind m (fun x => k))
  (at level 61, m at next level, right associativity).

(* ------------------------------------------------------------------ *)
(** ** Characters and strings as Python sees them *)

Module Py.

Definition code (c : ascii) : N := N_of_ascii c.

Definition between (lo hi n : N) : bool := (lo <=? n)%N && (n <=? hi)%N.

(** [str.isspace] and the regular-expression class [\s]. *)
Definition isspace (c : ascii) : bool :=
  let n := code c in
  between 9 13 n || between 28 32 n || (n =? 133)%N || (n =? 160)%N.

Definition is_upper (c : ascii) : bool := between 65 90 (code c).
Definition is_lower (c : ascii) : bool := between 97 122 (code c).
Definition is_digit (c : ascii) : bool := between 48 57 (code c).

(** [str.isalnum] on the code points 0..255. *)
Definition isalnum (c : ascii) : bool :=
  let n := code c in
  is_upper c || is_lower c || is_digit c
  || (n =? 170)%N || (n =? 178)%N || (n =? 179)%N || (n =? 181)%N
  || (n =? 185)%N || (n =? 186)%N || between 188 190 n
  || between 192 214 n || between 216 246 n || between 248 255 n.

(** The class [\w] of [re] on [str] patterns. *)
Definition is_word (c : ascii) : bool := isalnum c || (c =? "_")%char.

(** The classes [[A-Za-z_]] and [[A-Za-z0-9_]]. *)
Definition is_ident_start (c : ascii) : bool :=
  is_upper c || is_lower c || (c =? "_")%char.
Definition is_ident_char (c : ascii) : bool :=
  is_ident_start c || is_digit c.

Fixpoint all_chars (p : ascii -> bool) (s : string) : bool :=
  match s with
  | "" => true
  | String c tl => p c && all_chars p tl
  end.

Fixpoint contains (c : ascii) (s : string) : bool :=
  match s with
  | "" => false
  | String d tl => (d =? c)%char || contains c tl
  end.

(** [s.lstrip()], [s.rstrip()], [s.strip()]. *)
Fixpoint lstrip (s : string) : string :=
  match s with
  | "" => ""
  | String c tl => if isspace c then lstrip tl else s
  end.

Fixpoint rstrip_by (p : ascii -> bool) (s : string) : string :=
  match s with
  | "" => ""
  | String c tl =>
      match rstrip_by p tl with
      | "" => if p c then "" else String c ""
      | r => String c r
      end
  end.

Definition rstrip (s : string) : string := rstrip_by isspace s.
Definition strip (s : string) : string := rstrip (lstrip s).

(** [s[n:]], [s[:n]] and [s[a:b]] for indices that are not negative. *)
Fixpoint drop (n : nat) (s : string) : string :=
  match n, s with
  | O, _ => s
  | S n', "" => ""
  | S n', String _ tl => drop n' tl
  end.

Fixpoint take (n : nat) (s : string) : string :=
  match n, s with
  | O, _ => ""
  | S n', "" => ""
  | S n', String c tl => String c (take n' tl)
  end.

Definition slice (a b : nat) (s : string) : string := take (b - a) (drop a s).

(** [s.split(sep, 1)] for a one-character [sep] that occurs in [s]:
    the text before the first [sep] and the text after it. *)
Fixpoint split1 (sep : ascii) (s : string) : option (string * string) :=
  match s with
  | "" => None
  | String c tl =>
      if (c =? sep)%char then Some ("", tl)
      else match split1 sep tl with
           | Some (a, b) => Some (String c a, b)
           | None => None
           end
  end.

(** [s.startswith(p)] and [p in s]. *)
Fixpoint startswith (p s : string) : bool :=
  match p, s with
  | "", _ => true
  | String a p', String b s' => (a =? b)%char && startswith p' s'
  | String _ _, "" => false
  end.

Fixpoint has_substring (p s : string) : bool :=
  startswith p s ||
  match s with
  | "" => false
  | String _ tl => has_substring p tl
  end.

(** The longest prefix of [s] made of characters in the class [p], and
    the text after it: what a greedy [p*] consumes. *)
Fixpoint span (p : ascii -> bool) (s : string) : string * string :=
  match s with
  | "" => ("", "")
  | String c tl =>
      if p c then let (run, rest) := span p tl in (String c run, rest)
      else ("", s)
  end.

(** [str(n)] for a natural number. *)
Definition str_of_nat (n : nat) : string :=
  NilEmpty.string_of_uint (Nat.to_uint n).

(** [re.match(r'^\w+$', s)]: [$] also matches before a final newline. *)
Fixpoint match_plus_dollar (p : ascii -> bool) (s : string) : bool :=
  match s with
  | "" => false
  | String c tl =>
      p c && match tl with
             | "" => true
             | String "010"%char "" => true
             | _ => match_plus_dollar p tl
             end
  end.

Definition match_word_plus (s : string) : bool := match_plus_dollar is_word s.

(** [re.match(r'^[A-Za-z_][A-Za-z0-9_]*$', s)]. *)
Definition match_identifier (s : string) : bool :=
  match s with
  | "" => false
  | String c tl =>
      is_ident_start c &&
      match tl with
      | "" => true
      | String "010"%char "" => true
      | _ => match_plus_dollar is_ident_char tl
      end
  end.

End Py.

(* ------------------------------------------------------------------ *)
(** ** Insertion-ordered dictionaries *)

Module Dict.

Definition t (V : Type) : Type := list (string * V).

Fixpoint get {V} (d : t V) (k : string) : option V :=
  match d with
  | [] => None
  | (k', v) :: tl => if (k' =? k)%string then Some v else get tl k
  end.

Definition mem {V} (d : t V) (k : string) : bool :=
  match get d k with Some _ => true | None => false end.

(** [d[k] = v]: an existing key keeps its position. *)
Fixpoint set {V} (d : t V) (k : string) (v : V) : t V :=
  match d with
  | [] => [(k, v)]
  | (k', v') :: tl =>
      if (k' =? k)%string then (k, v) :: tl else (k', v') :: set tl k v
  end.

Fixpoint remove {V} (d : t V) (k : string) : t V :=
  match d with
  | [] => []
  | (k', v') :: tl =>
      if (k' =? k)%string then tl else (k', v') :: remove tl k
  end.

Definition keys {V} (d : t V) : list string := map fst d.

End Dict.

(* ------------------------------------------------------------------ *)
(** ** Data model (the dataclasses of the source) *)

Record Signal : Type := mkSignal {
  sig_name : string;
  width : nat;
  is_input : bool;
  is_output : bool;
  is_internal : bool;
  is_wire : bool
}.

Record Gate : Type := mkGate {
  gate_type : string;          (* "AND", "OR", "XOR", "NOT", "DFF", "ALIAS" *)
  inputs : list string;
  output : string;
  instance_name : string
}.

Record ModuleInstance : Type := mkInstance {
  module_name : string;
  inst_name : string;                 (* [instance_name] of the source *)
  connections : Dict.t string         (* port -> signal *)
}.

Record Module : Type := mkModule {
  name : string;
  mod_inputs : list Signal;           (* [inputs] *)
  mod_outputs : list Signal;          (* [outputs] *)
  internal_signals : list Signal;
  gates : list Gate;
  instances : list ModuleInstance
}.

Record ICInstance : Type := mkIC {
  part_number : string;
  package : string;
  instance_id : string;
  gates_of_ic : list Gate;            (* [gates] *)
  pin_assignments : Dict.t string     (* pin -> signal *)
}.

(* ------------------------------------------------------------------ *)
(** ** Net names *)

(** [str.replace] for a one-character pattern. *)
Fixpoint replace_char (c : ascii) (by_ : string) (s : string) : string :=
  match s with
  | "" => ""
  | String d tl =>
      if (d =? c)%char then (by_ ++ replace_char c by_ tl)%string
      else String d (replace_char c by_ tl)
  end.

Definition sanitize_signal_name (name : string) : string :=
  let name := Py.strip name in
  let name := replace_char "]" "" (replace_char "[" "_" name) in
  replace_char ":" "_" name.

(* ------------------------------------------------------------------ *)
(** ** Expression compiler ([VerilogParser]) *)

Module VerilogParser.

Import Py.

(** *** [_rewrite_ternary_to_bool] *)

(** The scan of [find_top_ternary]: [i] is the index of the head of [s],
    [q_pos] is [None] for the source's [-1]. *)
Fixpoint find_top_ternary_loop (s : string) (i depth : nat)
    (q_pos : option nat) : option (nat * nat) :=
  match s with
  | "" => None
  | String c tl =>
      if (c =? "(")%char then find_top_ternary_loop tl (S i) (S depth) q_pos
      else if (c =? ")")%char then
        find_top_ternary_loop tl (S i) (Nat.pred depth) q_pos
      else if (c =? "?")%char && (depth =? 0)%nat then
        match q_pos with
        | None => find_top_ternary_loop tl (S i) depth (Some i)
        | Some _ => find_top_ternary_loop tl (S i) depth q_pos
        end
      else if (c =? ":")%char && (depth =? 0)%nat then
        match q_pos with
        | Some q => Some (q, i)
        | None => find_top_ternary_loop tl (S i) depth q_pos
        end
      else find_top_ternary_loop tl (S i) depth q_pos
  end.

Definition find_top_ternary (s : string) : option (nat * nat) :=
  find_top_ternary_loop s 0 0 None.

(** The f-string that [rewrite] returns. *)
Definition ternary_text (cond_r then_r else_r : string) : string :=
  ("((" ++ cond_r ++ ") & (" ++ then_r ++ ")) | ((~(" ++ cond_r ++ ")) & ("
        ++ else_r ++ "))")%string.

(** [rewrite] recurses on three proper substrings of [s]; [fuel] bounds
    the recursion depth and [length s] always suffices
    (see [rewrite_fuel_enough]). *)
Fixpoint rewrite_fuel (fuel : nat) (s : string) : string :=
  match fuel with
  | O => s
  | S f =>
      match find_top_ternary s with
      | None => s
      | Some (q_idx, colon_idx) =>
          let cond := strip (take q_idx s) in
          let then_part := strip (slice (S q_idx) colon_idx s) in
          let else_part := strip (drop (S colon_idx) s) in
          let cond_r := rewrite_fuel f cond in
          let then_r := rewrite_fuel f then_part in
          let else_r := rewrite_fuel f else_part in
          ternary_text cond_r then_r else_r
      end
  end.

Definition rewrite (s : string) : string := rewrite_fuel (String.length s) s.

Definition _rewrite_ternary_to_bool (expr : string) : string :=
  let expr := strip expr in
  if negb (contains "?" expr) then expr else rewrite expr.

(** *** [_tokenize_boolean_expr] *)

Definition is_op_char (c : ascii) : bool :=
  contains c "()~&^|".

(** The outer loop advances over [s]; the inner loop [scan] is the
    source's [while j < len(expr) and ...].  A character that is neither
    blank, nor an operator, nor a word character leaves [j = i]: the
    loop appends an empty token and repeats at the same index forever. *)
Fixpoint tokenize_from (s : string) (tokens : list string)
    : outcome (list string) :=
  match s with
  | "" => Ok tokens
  | String c tl =>
      if isspace c then tokenize_from tl tokens
      else if is_op_char c then tokenize_from tl (tokens ++ [String c ""])
      else if is_word c then
        (fix scan (w : string) (r : string) {struct r} :=
           match r with
           | "" => Ok (tokens ++ [w])
           | String d r' =>
               if is_word d then scan (w ++ String d "")%string r'
               else tokenize_from r (tokens ++ [w])
           end) (String c "") tl
      else Hang
  end.

Definition _tokenize_boolean_expr (expr : string) : outcome (list string) :=
  tokenize_from expr [].

(** *** [_shunting_yard] *)

Definition prec (t : string) : option nat :=
  if (t =? "~")%string then Some 4
  else if (t =? "&")%string then Some 3
  else if (t =? "^")%string then Some 2
  else if (t =? "|")%string then Some 1
  else None.

Definition right_assoc (t : string) : bool := (t =? "~")%string.

(** The operator stack [ops] is kept with its top ([ops[-1]]) at the
    head; [output] grows at its end, as in the source. *)

(** [while ops and ops[-1] != '(': output.append(ops.pop())], then the
    guarded [ops.pop()] of the parenthesis. *)
Fixpoint close_paren (output ops : list string) : list string * list string :=
  match ops with
  | [] => (output, [])
  | o :: ops' =>
      if (o =? "(")%string then (output, ops')
      else close_paren (output ++ [o]) ops'
  end.

(** The [while] loop run before an operator [t] of precedence [pt] is
    pushed. *)
Fixpoint pop_higher (pt : nat) (output ops : list string)
    : list string * list string :=
  match ops with
  | [] => (output, [])
  | o :: ops' =>
      match prec o with
      | Some po =>
          if (negb (right_assoc o) && (pt <=? po)%nat)
             || (right_assoc o && (pt <? po)%nat)
          then pop_higher pt (output ++ [o]) ops'
          else (output, ops)
      | None => (output, ops)
      end
  end.

Definition sy_step (st : list string * list string) (t : string)
    : list string * list string :=
  let (output, ops) := st in
  if match_identifier t then (output ++ [t], ops)
  else if (t =? "(")%string then (output, t :: ops)
  else if (t =? ")")%string then close_paren output ops
  else match prec t with
       | Some pt =>
           let (output', ops') := pop_higher pt output ops in
           (output', t :: ops')
       | None => (output, ops)
       end.

(** [while ops: output.append(ops.pop())]. *)
Definition sy_flush (st : list string * list string) : list string :=
  fst st ++ snd st.

Definition _shunting_yard (tokens : list string) : list string :=
  sy_flush (fold_left sy_step tokens ([], [])).

(** *** [_rpn_to_ast] *)

Inductive binop : Type := and | xor | or.

(** The tuples [('id', t)], [('not', a)] and [(op, a, b)]. *)
Inductive ast : Type :=
| id (t : string)
| not (a : ast)
| bin (op : binop) (a b : ast).

(** The stack is kept with its top at the head.  A token that is
    neither an identifier nor an operator is skipped. *)
Definition rpn_step (stack : list ast) (t : string) : outcome (list ast) :=
  if match_identifier t then Ok (id t :: stack)
  else if (t =? "~")%string then
    match stack with
    | a :: stack' => Ok (not a :: stack')
    | [] => Raise IndexError
    end
  else if (t =? "&")%string || (t =? "^")%string || (t =? "|")%string then
    match stack with
    | b :: a :: stack' =>
        let op := if (t =? "&")%string then and
                  else if (t =? "^")%string then xor else or in
        Ok (bin op a b :: stack')
    | _ => Raise IndexError
    end
  else Ok stack.

Fixpoint rpn_loop (rpn : list string) (stack : list ast)
    : outcome (list ast) :=
  match rpn with
  | [] => Ok stack
  | t :: rest => stack' <- rpn_step stack t ;; rpn_loop rest stack'
  end.

(** [stack[-1] if stack else None]. *)
Definition _rpn_to_ast (rpn : list string) : outcome (option ast) :=
  stack <- rpn_loop rpn [] ;; Ok (hd_error stack).

(** *** [_new_temp] and [_ast_to_gates] *)

(** The new name and the incremented [_temp_counter]. *)
Definition _new_temp (base : string) (counter : nat) : string * nat :=
  (("tmp_" ++ base ++ "_" ++ str_of_nat (S counter))%string, S counter).

Definition op_map (op : binop) : string :=
  match op with and => "AND" | or => "OR" | xor => "XOR" end.

(** The result is the returned signal name, the counter and the list
    [acc] after the call.  As in the source, the temporary of a child
    is drawn before the child is lowered. *)
Fixpoint ast_to_gates (node : ast) (target : string) (counter : nat)
    (acc : list Gate) : string * nat * list Gate :=
  match node with
  | id src =>
      if negb (target =? src)%string then (src, counter, acc)
      else (target, counter, acc)
  | not a =>
      let (tn, c1) := _new_temp "n" counter in
      let '(a_sig, c2, acc1) := ast_to_gates a tn c1 acc in
      (target, c2,
       acc1 ++ [mkGate "NOT" [a_sig] target ("NOT_1_" ++ target)%string])
  | bin op a b =>
      let (tl, c1) := _new_temp "l" counter in
      let '(left_sig, c2, acc1) := ast_to_gates a tl c1 acc in
      let (tr, c3) := _new_temp "r" c2 in
      let '(right_sig, c4, acc2) := ast_to_gates b tr c3 acc1 in
      (target, c4,
       acc2 ++ [mkGate (op_map op) [left_sig; right_sig] target
                       (op_map op ++ "_2_" ++ target)%string])
  end.

(** [_ast_to_gates] with its first test, [if node is None]. *)
Definition _ast_to_gates (node : option ast) (target : string)
    (counter : nat) (acc : list Gate) : string * nat * list Gate :=
  match node with
  | None => (target, counter, acc)
  | Some n => ast_to_gates n target counter acc
  end.

(** *** [_parse_boolean_expr_to_gates] and [_parse_assign_statement] *)

(** The gates of the assignment and the counter afterwards. *)
Definition _parse_boolean_expr_to_gates (expr output : string)
    (counter : nat) : outcome (list Gate * nat) :=
  let expr := _rewrite_ternary_to_bool expr in
  tokens <- _tokenize_boolean_expr expr ;;
  let rpn := _shunting_yard tokens in
  match rpn with
  | [] => Ok ([], counter)
  | _ =>
      tree <- _rpn_to_ast rpn ;;
      let '(_, counter', gates) := _ast_to_gates tree output counter [] in
      Ok (gates, counter')
  end.

Definition _parse_assign_statement (line : string) (counter : nat)
    : outcome (list Gate * nat) :=
  let expr := strip (drop 6 line) in
  match split1 "=" expr with
  | None => Ok ([], counter)
  | Some (output, expression) =>
      let output := strip output in
      let expression := rstrip_by (fun c => (c =? ";")%char) (strip expression) in
      if match_word_plus expression
      then Ok ([mkGate "ALIAS" [expression] output ""], counter)
      else _parse_boolean_expr_to_gates expression output counter
  end.

(** *** The [always] branch of [_parse_body] *)

(** The text scanned for non-blocking assignments: the lines after a
    [begin] up to the first line that starts with [end], or the line
    itself. *)
Fixpoint accumulate_block (following : list string) (block : string)
    : string :=
  match following with
  | [] => block
  | l :: rest =>
      let l2 := strip l in
      if startswith "end" l2 then block
      else accumulate_block rest (block ++ " " ++ l2)%string
  end.

Definition always_block (line : string) (following : list string) : string :=
  if has_substring "begin" line && negb (has_substring "end" line)
  then accumulate_block following ""
  else line.

(** [posedge\s+(\w+)] matched at the head of [s]: group 1. *)
Definition match_posedge_at (s : string) : option string :=
  if startswith "posedge" s then
    let (blanks, r) := span isspace (drop 7 s) in
    match blanks with
    | "" => None
    | _ => match fst (span is_word r) with
           | "" => None
           | clk => Some clk
           end
    end
  else None.

(** [re.search(r'posedge\s+(\w+)', header)]: the leftmost match. *)
Fixpoint search_posedge (s : string) : option string :=
  match match_posedge_at s with
  | Some clk => Some clk
  | None => match s with
            | "" => None
            | String _ tl => search_posedge tl
            end
  end.

(** [(\w+)\s*<=\s*(\w+)\s*;?] matched at the head of [s]: groups 1 and
    2 and the text after the match.  The classes [\w] and [\s] are
    disjoint from each other and from [<], so the greedy runs are the
    only way to match. *)
Definition match_nonblocking_at (s : string)
    : option (string * string * string) :=
  let (q, r1) := span is_word s in
  match q with
  | "" => None
  | _ =>
      match snd (span isspace r1) with
      | String "<" (String "=" r3) =>
          let (d, r5) := span is_word (snd (span isspace r3)) in
          match d with
          | "" => None
          | _ =>
              let r6 := snd (span isspace r5) in
              let r7 := match r6 with
                        | String ";" r => r
                        | _ => r6
                        end in
              Some (q, d, r7)
          end
      | _ => None
      end
  end.

(** [re.finditer]: after a match the search resumes behind it, otherwise
    one character further.  Every turn consumes a character, so
    [fuel = len(block)] turns suffice. *)
Fixpoint finditer_nonblocking (fuel : nat) (s : string)
    : list (string * string) :=
  match fuel with
  | O => []
  | S fuel' =>
      match s with
      | "" => []
      | String _ tl =>
          match match_nonblocking_at s with
          | Some (q, d, rest) => (q, d) :: finditer_nonblocking fuel' rest
          | None => finditer_nonblocking fuel' tl
          end
      end
  end.

Definition nonblocking_assignments (block : string) : list (string * string) :=
  finditer_nonblocking (String.length block) block.

(** The DFF gates appended for one [always] statement. *)
Definition always_gates (header block : string) : list Gate :=
  match search_posedge header with
  | Some clk =>
      map (fun qd =>
             mkGate "DFF"
                    [sanitize_signal_name (snd qd); sanitize_signal_name clk]
                    (sanitize_signal_name (fst qd)) "")
          (nonblocking_assignments block)
  | None => []
  end.

End VerilogParser.

(* ------------------------------------------------------------------ *)
(** ** Hierarchy flattener *)

(** The dictionary built by the loop over [inst.connections.items()]. *)
Definition port_map_of (conns : Dict.t string) : Dict.t string :=
  fold_left (fun pm kv => Dict.set pm (fst kv) (sanitize_signal_name (snd kv)))
            conns [].

(** The renaming applied to one net of an inlined gate. *)
Definition map_net (inst : ModuleInstance) (port_map : Dict.t string)
    (base : string) : string :=
  match Dict.get port_map base with
  | Some actual => actual
  | None => (inst_name inst ++ "_" ++ base)%string
  end.

(** The body of [for g in sub_gates]. *)
Definition inline_gate (inst : ModuleInstance) (port_map : Dict.t string)
    (g : Gate) : Gate :=
  mkGate (gate_type g)
         (map (map_net inst port_map) (inputs g))
         (map_net inst port_map (output g))
         (inst_name inst ++ "_" ++ instance_name g)%string.

(** The virtual primitive [UNIT_DFFE]: the gates it appends. *)
Definition unit_dffe_gates (inst : ModuleInstance) : list Gate :=
  let conns := connections inst in
  let d_port := if Dict.mem conns "D" then "D" else "d" in
  let clk_port := if Dict.mem conns "CLK" then "CLK" else "clk" in
  let q_port := if Dict.mem conns "Q" then "Q" else "q" in
  match Dict.get conns d_port, Dict.get conns clk_port, Dict.get conns q_port with
  | Some d, Some clk, Some q =>
      [mkGate "DFF"
              [sanitize_signal_name d; sanitize_signal_name clk]
              (sanitize_signal_name q)
              (inst_name inst ++ "_DFF")%string]
  | _, _, _ => []
  end.

(** The copy made of a local gate when the module has no instance. *)
Definition copy_gate (g : Gate) : Gate :=
  mkGate (gate_type g) (map sanitize_signal_name (inputs g))
         (sanitize_signal_name (output g)) (instance_name g).

(** [for inst in module.instances]; [flatten_sub] is the recursive call
    on a submodule. *)
Fixpoint inline_instances (flatten_sub : Module -> outcome (list Gate))
    (modules : Dict.t Module) (insts : list ModuleInstance)
    (flat : list Gate) : outcome (list Gate) :=
  match insts with
  | [] => Ok flat
  | inst :: rest =>
      if (module_name inst =? "UNIT_DFFE")%string then
        inline_instances flatten_sub modules rest (flat ++ unit_dffe_gates inst)
      else
        match Dict.get modules (module_name inst) with
        | None => inline_instances flatten_sub modules rest flat
        | Some sub =>
            sub_gates <- flatten_sub sub ;;
            let port_map := port_map_of (connections inst) in
            inline_instances flatten_sub modules rest
              (flat ++ map (inline_gate inst port_map) sub_gates)
        end
  end.

(** [fuel] is the number of nested calls the interpreter still allows;
    a hierarchy deeper than that (a cyclic one, for instance) ends in
    [RecursionError]. *)
Fixpoint flatten_module_gates (fuel : nat) (module : Module)
    (modules : Dict.t Module) : outcome (list Gate) :=
  match fuel with
  | O => Raise RecursionError
  | S fuel' =>
      let flat :=
        match instances module with
        | [] => map copy_gate (gates module)
        | _ :: _ => []
        end in
      inline_instances (fun sub => flatten_module_gates fuel' sub modules)
                       modules (instances module) flat
  end.

(* ------------------------------------------------------------------ *)
(** ** Gate-to-IC packer ([GateToICMapper]) *)

Module GateToICMapper.

(** A value of a [pinout] dictionary: the dictionary of a gate slot, or
    the pin number stored under ['vcc'] and ['gnd']. *)
Inductive pin_entry : Type :=
| Slot (slot_inputs : list string) (slot_output : string)
| Pin (p : string).

Record mapping : Type := mkMapping {
  m_part_number : string;
  m_package : string;
  gates_per_ic : nat;
  pinout : Dict.t pin_entry
}.

Definition quad_pinout : Dict.t pin_entry :=
  [ ("gate1", Slot ["1"; "2"] "3");
    ("gate2", Slot ["4"; "5"] "6");
    ("gate3", Slot ["9"; "10"] "8");
    ("gate4", Slot ["12"; "13"] "11");
    ("vcc", Pin "14");
    ("gnd", Pin "7") ].

Definition ic_mappings : Dict.t mapping :=
  [ ("AND", mkMapping "74HC08" "DIP-14" 4 quad_pinout);
    ("OR", mkMapping "74HC32" "DIP-14" 4 quad_pinout);
    ("XOR", mkMapping "74HC86" "DIP-14" 4 quad_pinout);
    ("NOT", mkMapping "74HC04" "DIP-14" 6
       [ ("gate1", Slot ["1"] "2");
         ("gate2", Slot ["3"] "4");
         ("gate3", Slot ["5"] "6");
         ("gate4", Slot ["9"] "8");
         ("gate5", Slot ["11"] "10");
         ("gate6", Slot ["13"] "12");
         ("vcc", Pin "14");
         ("gnd", Pin "7") ]);
    ("DFF", mkMapping "74HC74" "DIP-14" 2
       [ ("gate1", Slot ["2"; "3"] "5");
         ("gate2", Slot ["12"; "11"] "9");
         ("vcc", Pin "14");
         ("gnd", Pin "7") ]) ].

(** *** Grouping: the first loop of [map_gates_to_ics] *)

(** [gate_counts[k].append(g)] on a [defaultdict(list)]. *)
Fixpoint group_add (gate_counts : Dict.t (list Gate)) (k : string) (g : Gate)
    : Dict.t (list Gate) :=
  match gate_counts with
  | [] => [(k, [g])]
  | (k', l) :: tl =>
      if (k' =? k)%string then (k', l ++ [g]) :: tl
      else (k', l) :: group_add tl k g
  end.

(** The state is [(gate_counts, passthrough_links)]. *)
Definition group_step (st : Dict.t (list Gate) * list (string * string))
    (gate : Gate) : outcome (Dict.t (list Gate) * list (string * string)) :=
  let (gate_counts, passthrough_links) := st in
  if (gate_type gate =? "ALIAS")%string then
    match inputs gate with
    | src :: _ => Ok (gate_counts, passthrough_links ++ [(output gate, src)])
    | [] => Raise IndexError
    end
  else Ok (group_add gate_counts (gate_type gate) gate, passthrough_links).

Fixpoint group_gates (gates : list Gate)
    (st : Dict.t (list Gate) * list (string * string))
    : outcome (Dict.t (list Gate) * list (string * string)) :=
  match gates with
  | [] => Ok st
  | gate :: rest => st' <- group_step st gate ;; group_gates rest st'
  end.

(** *** Building one IC *)

(** [for j, input_signal in enumerate(gate.inputs)] with its guard
    [j < len(pinout['inputs'])]. *)
Fixpoint bind_inputs (pa : Dict.t string) (pins signals : list string)
    : Dict.t string :=
  match pins, signals with
  | pin :: pins', input_signal :: signals' =>
      bind_inputs (Dict.set pa pin input_signal) pins' signals'
  | _, _ => pa
  end.

(** One turn of [for i, gate in enumerate(ic_gates)] once
    [pinout = mapping['pinout'][gate_name]] is known.  Subscripting the
    pin number of ['vcc'] or ['gnd'] with a string is a [TypeError]. *)
Definition place_gate (entry : pin_entry) (ic : ICInstance) (gate : Gate)
    : outcome ICInstance :=
  match entry with
  | Slot slot_inputs slot_output =>
      let pa := bind_inputs (pin_assignments ic) slot_inputs (inputs gate) in
      let pa := Dict.set pa slot_output (output gate) in
      Ok (mkIC (part_number ic) (package ic) (instance_id ic)
               (gates_of_ic ic ++ [gate]) pa)
  | Pin _ => Raise TypeError
  end.

(** [gate_names] and [ic_gates] advance together; the guard
    [i < len(gate_names)] ends the placement when the names run out. *)
Fixpoint place_gates (pinout : Dict.t pin_entry) (gate_names : list string)
    (gs : list Gate) (ic : ICInstance) : outcome ICInstance :=
  match gate_names, gs with
  | gate_name :: names', gate :: gs' =>
      match Dict.get pinout gate_name with
      | Some entry =>
          ic' <- place_gate entry ic gate ;; place_gates pinout names' gs' ic'
      | None => Raise KeyError
      end
  | _, _ => Ok ic
  end.

Definition pin_of (pinout : Dict.t pin_entry) (k : string) : string :=
  match Dict.get pinout k with
  | Some (Pin p) => p
  | _ => ""
  end.

(** The body of [for ic_num in range(...)]; [n_ics] is
    [len(ic_instances)] at that moment. *)
Definition build_ic (m : mapping) (gate_list : list Gate) (ic_num n_ics : nat)
    : outcome ICInstance :=
  let ic := mkIC (m_part_number m) (m_package m)
                 ("U" ++ Py.str_of_nat (n_ics + 1))%string [] [] in
  let start_idx := ic_num * gates_per_ic m in
  let end_idx := Nat.min (start_idx + gates_per_ic m) (List.length gate_list) in
  let ic_gates := firstn (end_idx - start_idx) (skipn start_idx gate_list) in
  let gate_names := Dict.keys (pinout m) in
  ic <- place_gates (pinout m) gate_names ic_gates ic ;;
  let pa := Dict.set (pin_assignments ic) (pin_of (pinout m) "vcc") "VCC" in
  let pa := Dict.set pa (pin_of (pinout m) "gnd") "GND" in
  Ok (mkIC (part_number ic) (package ic) (instance_id ic) (gates_of_ic ic) pa).

Fixpoint build_ics (m : mapping) (gate_list : list Gate) (ic_nums : list nat)
    (ic_instances : list ICInstance) : outcome (list ICInstance) :=
  match ic_nums with
  | [] => Ok ic_instances
  | ic_num :: rest =>
      ic <- build_ic m gate_list ic_num (List.length ic_instances) ;;
      build_ics m gate_list rest (ic_instances ++ [ic])
  end.

(** [(len(gate_list) + gates_per_ic - 1) // gates_per_ic]. *)
Definition ic_count (n gates_per_ic : nat) : nat :=
  (n + gates_per_ic - 1) / gates_per_ic.

(** [for gate_type, gate_list in gate_counts.items()]. *)
Fixpoint pack_groups (gate_counts : Dict.t (list Gate))
    (ic_instances : list ICInstance) : outcome (list ICInstance) :=
  match gate_counts with
  | [] => Ok ic_instances
  | (gate_type, gate_list) :: rest =>
      match Dict.get ic_mappings gate_type with
      | Some m =>
          let n := ic_count (List.length gate_list) (gates_per_ic m) in
          ics <- build_ics m gate_list (seq 0 n) ic_instances ;;
          pack_groups rest ics
      | None => pack_groups rest ic_instances
      end
  end.

(** The synthetic IC that carries the alias links. *)
Definition alias_ic (passthrough_links : list (string * string)) : ICInstance :=
  mkIC "ALIAS" "N/A" "ALIAS" []
       (fold_left (fun pa ds => Dict.set pa (fst ds) (snd ds))
                  passthrough_links []).

Definition map_gates_to_ics (gates : list Gate) : outcome (list ICInstance) :=
  st <- group_gates gates ([], []) ;;
  let (gate_counts, passthrough_links) := st in
  ic_instances <- pack_groups gate_counts [] ;;
  match passthrough_links with
  | [] => Ok ic_instances
  | _ => Ok (ic_instances ++ [alias_ic passthrough_links])
  end.

End GateToICMapper.

(* ------------------------------------------------------------------ *)
(** ** Net writer ([KiCadNetlistExporter]) *)

Module KiCadNetlistExporter.

(** An endpoint [(ref, pin)] and a net of the [(nets ...)] section.  The
    net code, drawn at random by the source, and the concrete syntax are
    not part of the model. *)
Definition node : Type := (string * string)%type.

Record Net : Type := mkNet {
  net_name : string;
  net_nodes : list node
}.

Definition node_eqb (a b : node) : bool :=
  (fst a =? fst b)%string && (snd a =? snd b)%string.

(** [s.add(x)] and [s |= t] on sets kept as duplicate-free lists. *)
Definition set_add (x : node) (s : list node) : list node :=
  if existsb (node_eqb x) s then s else s ++ [x].

Definition set_union (s t : list node) : list node :=
  fold_left (fun acc x => set_add x acc) t s.

(** [sorted(connections)]: tuples of strings in lexicographic order. *)
Definition node_leb (a b : node) : bool :=
  match String.compare (fst a) (fst b) with
  | Lt => true
  | Gt => false
  | Eq => String.leb (snd a) (snd b)
  end.

Fixpoint insert_sorted (x : node) (l : list node) : list node :=
  match l with
  | [] => [x]
  | y :: l' => if node_leb x y then x :: l else y :: insert_sorted x l'
  end.

Definition sorted (s : list node) : list node :=
  fold_right insert_sorted [] s.

(** *** [_merge_signals_by_name] *)

(** [sig.width or 1]. *)
Definition width_or_1 (w : nat) : nat :=
  match w with
  | O => 1
  | _ => w
  end.

Definition merge_step (merged : Dict.t Signal) (sig : Signal) : Dict.t Signal :=
  match Dict.get merged (sig_name sig) with
  | None => Dict.set merged (sig_name sig) sig
  | Some existing =>
      if (width_or_1 (width existing) <? width_or_1 (width sig))%nat
      then Dict.set merged (sig_name sig) sig
      else merged
  end.

Definition _merge_signals_by_name (signals : list Signal) : list Signal :=
  map snd (fold_left merge_step signals []).

(** *** [_write_nets] *)

(** [nets[k].add(x)] on a [defaultdict(set)]. *)
Definition nets_add (nets : Dict.t (list node)) (k : string) (x : node)
    : Dict.t (list node) :=
  match Dict.get nets k with
  | Some s => Dict.set nets k (set_add x s)
  | None => Dict.set nets k [x]
  end.

(** The connector nets of one port; [prefix] is [JIN_] or [JOUT_]. *)
Definition add_connectors (prefix : string) (nets : Dict.t (list node))
    (signal : Signal) : Dict.t (list node) :=
  let nm := sig_name signal in
  if (1 <? width signal)%nat then
    fold_left
      (fun nets i =>
         let bit := (nm ++ "_" ++ Py.str_of_nat i)%string in
         nets_add nets bit ((prefix ++ bit)%string, "1"))
      (seq 0 (width signal)) nets
  else nets_add nets nm ((prefix ++ nm)%string, "1").

Definition is_power (signal : string) : bool :=
  (signal =? "VCC")%string || (signal =? "GND")%string.

(** The loop "Add internal nets from IC pin assignments"; the state is
    [(nets, alias_links)]. *)
Definition add_ic_pins (st : Dict.t (list node) * list (string * string))
    (ic : ICInstance) : Dict.t (list node) * list (string * string) :=
  let (nets, alias_links) := st in
  if (part_number ic =? "ALIAS")%string
  then (nets, alias_links ++ pin_assignments ic)
  else (fold_left
          (fun nets ps =>
             if is_power (snd ps) then nets
             else nets_add nets (snd ps) (instance_id ic, fst ps))
          (pin_assignments ic) nets,
        alias_links).

(** The pins of all ICs bound to the power net [rail], then pin
    [cap_pin] of every decoupling capacitor. *)
Definition power_connections (rail cap_pin : string)
    (ic_instances : list ICInstance) (decoupling_caps : list string)
    : list node :=
  let pins :=
    fold_left
      (fun acc ic =>
         fold_left
           (fun acc ps =>
              if (snd ps =? rail)%string
              then set_add (instance_id ic, fst ps) acc else acc)
           (pin_assignments ic) acc)
      ic_instances [] in
  fold_left (fun acc cref => set_add (cref, cap_pin) acc) decoupling_caps pins.

Definition power_net (rail cap_pin : string) (ic_instances : list ICInstance)
    (decoupling_caps : list string) : list Net :=
  match power_connections rail cap_pin ic_instances decoupling_caps with
  | [] => []
  | conns => [mkNet rail (sorted conns)]
  end.

(** One alias link [(dst, src)]: [nets[dst] |= nets[src]], then
    [del nets[src]] unless both are the same key. *)
Definition merge_alias (nets : Dict.t (list node)) (link : string * string)
    : Dict.t (list node) :=
  let (dst, src) := link in
  match Dict.get nets src with
  | None => nets
  | Some from_src =>
      let into :=
        match Dict.get nets dst with
        | Some s => s
        | None => []
        end in
      let nets := Dict.set nets dst (set_union into from_src) in
      if negb (dst =? src)%string then Dict.remove nets src else nets
  end.

(** The nets dictionary when the signal nets are written. *)
Definition signal_nets_dict (module : Module) (ic_instances : list ICInstance)
    : Dict.t (list node) :=
  let nets := fold_left (add_connectors "JIN_")
                        (_merge_signals_by_name (mod_inputs module)) [] in
  let nets := fold_left (add_connectors "JOUT_")
                        (_merge_signals_by_name (mod_outputs module)) nets in
  let (nets, alias_links) := fold_left add_ic_pins ic_instances (nets, []) in
  fold_left merge_alias alias_links nets.

Definition signal_nets (module : Module) (ic_instances : list ICInstance)
    : list Net :=
  map (fun kv =>
         mkNet (fst kv)
               (filter (fun nd => negb (fst nd =? "ALIAS")%string)
                       (sorted (snd kv))))
      (signal_nets_dict module ic_instances).

(** *** [_add_unused_pins_to_gnd] *)

Definition is_74xx_part (p : string) : bool :=
  existsb (String.eqb p) ["74HC08"; "74HC32"; "74HC86"; "74HC04"; "74HC74"].

(** [all_pins.get(part, [])] and [power_pins.get(part, [])], as
    strings. *)
Definition all_pins (p : string) : list string :=
  if is_74xx_part p then map Py.str_of_nat (seq 1 14) else [].

Definition power_pins (p : string) : list string :=
  if is_74xx_part p then ["7"; "14"] else [].

Definition mem_string (x : string) (l : list string) : bool :=
  existsb (String.eqb x) l.

(** The pins of [all_ic_pins_str - used_pins_str - power_ic_pins_str].
    The source walks a Python set, whose order is unspecified; the model
    lists the pins in increasing order. *)
Definition unused_ic_pins (ic : ICInstance) : list string :=
  filter (fun pin =>
            negb (mem_string pin (Dict.keys (pin_assignments ic)))
            && negb (mem_string pin (power_pins (part_number ic))))
         (all_pins (part_number ic)).

Definition unused_pins (ic_instances : list ICInstance) : list node :=
  flat_map (fun ic => map (fun pin => (instance_id ic, pin)) (unused_ic_pins ic))
           ic_instances.

Definition _add_unused_pins_to_gnd (ic_instances : list ICInstance)
    : list Net :=
  match unused_pins ic_instances with
  | [] => []
  | nodes => [mkNet "GND_UNUSED" nodes]
  end.

(** The nets written to the file, in order. *)
Definition _write_nets (module : Module) (ic_instances : list ICInstance)
    (decoupling_caps : list string) : list Net :=
  power_net "VCC" "1" ic_instances decoupling_caps
  ++ power_net "GND" "2" ic_instances decoupling_caps
  ++ signal_nets module ic_instances
  ++ _add_unused_pins_to_gnd ic_instances.

(** The capacitor references that [export_netlist] passes on: one per
    IC whose part number starts with [74]. *)
Definition cap_refs (ic_instances : list ICInstance) : list string :=
  map (fun idx => ("C" ++ Py.str_of_nat idx)%string)
      (seq 1 (List.length
                (filter (fun ic => Py.startswith "74" (part_number ic))
                        ic_instances))).

End KiCadNetlistExporter.

(** The nets section of the netlist of a top-level module: flatten,
    pack, write, as [main] does. *)
Definition synthesized_nets (fuel : nat) (module : Module)
    (modules : Dict.t Module) : outcome (list KiCadNetlistExporter.Net) :=
  flat <- flatten_module_gates fuel module modules ;;
  ic_instances <- GateToICMapper.map_gates_to_ics flat ;;
  Ok (KiCadNetlistExporter._write_nets module ic_instances
        (KiCadNetlistExporter.cap_refs ic_instances)).

(* ------------------------------------------------------------------ *)
(** ** The components section ([KiCadNetlistExporter.export_netlist]) *)

Module NetlistComponents.

Import KiCadNetlistExporter.

(** A [(comp ...)] entry: its reference, value and footprint.  The time
    stamp written with it is not part of the model. *)
Record Component : Type := mkComponent {
  comp_ref : string;
  comp_value : string;
  comp_footprint : string
}.

(** [footprints.get(package, 'Package_DIP:DIP-14_W7.62mm')]. *)
Definition _get_footprint (package : string) : string :=
  if (package =? "DIP-14")%string then "Package_DIP:DIP-14_W7.62mm"
  else if (package =? "DIP-16")%string then "Package_DIP:DIP-16_W7.62mm"
  else if (package =? "DIP-8")%string then "Package_DIP:DIP-8_W7.62mm"
  else "Package_DIP:DIP-14_W7.62mm".

(** [_write_connector_component] with the arguments of its calls. *)
Definition connector (ref : string) : Component :=
  mkComponent ref "Conn_01x01"
    "Connector_PinHeader_2.54mm:PinHeader_1x01_P2.54mm_Vertical".

(** One connector reference: written unless [seen_refs] holds it.  The
    state is the components written so far and [seen_refs]. *)
Definition write_connector (st : list Component * list string)
    (ref : string) : list Component * list string :=
  let (comps, seen_refs) := st in
  if mem_string ref seen_refs then st
  else (comps ++ [connector ref], seen_refs ++ [ref]).

(** The connectors of one port; [prefix] is [JIN_] or [JOUT_]. *)
Definition write_connectors (prefix : string)
    (st : list Component * list string) (sig : Signal)
    : list Component * list string :=
  if (1 <? width sig)%nat then
    fold_left
      (fun st i =>
         write_connector st
           (prefix ++ sig_name sig ++ "_" ++ Py.str_of_nat i)%string)
      (seq 0 (width sig)) st
  else write_connector st (prefix ++ sig_name sig)%string.

(** [_write_component_netlist]. *)
Definition ic_component (ic : ICInstance) : Component :=
  mkComponent (instance_id ic) (part_number ic) (_get_footprint (package ic)).

(** [_write_capacitor_component] with the arguments of its call. *)
Definition capacitor (ref : string) : Component :=
  mkComponent ref "0.1uF" "Capacitor_THT:C_Disc_D5.0mm_W2.5mm_P5.00mm".

(** The components section: the connectors of the inputs and of the
    outputs, the ICs that are no alias pseudo-IC, and one decoupling
    capacitor per IC whose part number starts with [74]. *)
Definition components (module : Module) (ic_instances : list ICInstance)
    : list Component :=
  let st := fold_left (write_connectors "JIN_")
                      (_merge_signals_by_name (mod_inputs module)) ([], []) in
  let st := fold_left (write_connectors "JOUT_")
                      (_merge_signals_by_name (mod_outputs module)) st in
  fst st
  ++ map ic_component
         (filter (fun ic => negb (part_number ic =? "ALIAS")%string)
                 ic_instances)
  ++ map capacitor (cap_refs ic_instances).

End NetlistComponents.

(* ------------------------------------------------------------------ *)
(** ** From the text of a file to modules ([VerilogParser]) *)

(** The part of [VerilogParser] that reads a file: [_remove_comments],
    [parse_content] and [_extract_module_body], [_parse_ports] with
    [_parse_port_declaration], [_parse_wire_declaration],
    [_parse_module_instantiation] and the loop of [_parse_body].  The
    regular expressions are modelled by the scans they perform: every
    repetition in them is followed by a character outside its class,
    so the greedy (or, for [.*?], the lazy) run is the only way to
    match and no backtracking is involved. *)
Module SourceReader.

Import Py VerilogParser.

(** *** Text operations of Python *)

Definition newline : ascii := "010"%char.

(** [str.lower] on the code points 0..255. *)
Definition lower_char (c : ascii) : ascii :=
  let n := code c in
  if between 65 90 n || (between 192 222 n && negb (n =? 215)%N)
  then ascii_of_N (n + 32) else c.

Fixpoint lower (s : string) : string :=
  match s with
  | "" => ""
  | String c tl => String (lower_char c) (lower tl)
  end.

(** [s.split(sep)] for a one-character [sep]. *)
Fixpoint split (sep : ascii) (s : string) : list string :=
  match s with
  | "" => [""]
  | String c tl =>
      if (c =? sep)%char then "" :: split sep tl
      else match split sep tl with
           | h :: r => String c h :: r
           | [] => [String c ""]
           end
  end.

(** [s.endswith(p)]. *)
Fixpoint endswith (p s : string) : bool :=
  (s =? p)%string ||
  match s with
  | "" => false
  | String _ tl => endswith p tl
  end.

(** [int(s)] for a run of ASCII digits, most significant first. *)
Fixpoint int_from (acc : nat) (s : string) : nat :=
  match s with
  | "" => acc
  | String c tl => int_from (10 * acc + (N.to_nat (code c) - 48)) tl
  end.

Definition int (s : string) : nat := int_from 0 s.

(** [abs(a - b)]. *)
Definition abs_diff (a b : nat) : nat := (a - b) + (b - a).

(** [s[pos:pos+len(kw)].lower() == kw], and a keyword of a pattern
    compiled with [re.IGNORECASE], at the head of [s]. *)
Definition keyword_at (kw s : string) : bool :=
  (lower (take (String.length kw) s) =? kw)%string.

(** *** [_remove_comments] *)

(** [re.sub(r'//.*$', '', content, flags=re.MULTILINE)]: from [//] to
    the end of the line, the newline excluded. *)
Fixpoint line_comments (in_comment : bool) (s : string) : string :=
  match s with
  | "" => ""
  | String c tl =>
      if in_comment then
        if (c =? newline)%char then String c (line_comments false tl)
        else line_comments true tl
      else
        match c, tl with
        | "/"%char, String "/"%char tl' => line_comments true tl'
        | _, _ => String c (line_comments false tl)
        end
  end.

(** [re.sub(r'/\*.*?\*/', '', content, flags=re.DOTALL)]: from [/*] to
    the first [*/] behind it.  A [/*] that is never closed matches
    nothing, and then nothing behind it matches either. *)
Fixpoint block_comments (in_comment : bool) (s : string) : string :=
  match s with
  | "" => ""
  | String c tl =>
      if in_comment then
        match c, tl with
        | "*"%char, String "/"%char tl' => block_comments false tl'
        | _, _ => block_comments true tl
        end
      else
        match c, tl with
        | "/"%char, String "*"%char tl' =>
            if has_substring "*/" tl' then block_comments true tl' else s
        | _, _ => String c (block_comments false tl)
        end
  end.

Definition _remove_comments (content : string) : string :=
  block_comments false (line_comments false content).

(** *** [_extract_module_body] *)

(** The loop of [_extract_module_body]: [s] is [content[pos:]], and
    [skip] counts the characters that [pos += 6] and [pos += 9] still
    have to pass.  The result is the [pos] of the early [return]. *)
Fixpoint scan_body (s : string) (skip pos : nat) (brace_count : Z)
    (in_module : bool) : option nat :=
  match s with
  | "" => None
  | String _ tl =>
      match skip with
      | S k => scan_body tl k (S pos) brace_count in_module
      | O =>
          if keyword_at "module" s
          then scan_body tl 5 (S pos) (brace_count + 1)%Z true
          else if keyword_at "endmodule" s then
            if in_module && (brace_count =? 1)%Z then Some pos
            else scan_body tl 8 (S pos) (brace_count - 1)%Z in_module
          else scan_body tl 0 (S pos) brace_count in_module
      end
  end.

Definition _extract_module_body (content : string) (start_pos : nat)
    : string :=
  match scan_body (drop start_pos content) 0 start_pos 0%Z false with
  | Some pos => strip (slice start_pos pos content)
  | None => strip (drop start_pos content)
  end.

(** *** Declarations of ports and wires *)

(** [\[(\d+):(\d+)\]\s+] at the head of [s]: groups 1 and 2 and the
    text behind the match. *)
Definition match_range (s : string) : option (string * string * string) :=
  match s with
  | String "["%char r1 =>
      let (msb, r2) := span is_digit r1 in
      match msb, r2 with
      | String _ _, String ":"%char r3 =>
          let (lsb, r4) := span is_digit r3 in
          match lsb, r4 with
          | String _ _, String "]"%char r5 =>
              let (blanks, r6) := span isspace r5 in
              match blanks with
              | "" => None
              | _ => Some (msb, lsb, r6)
              end
          | _, _ => None
          end
      | _, _ => None
      end
  | _ => None
  end.

(** [\s+(?:\[(\d+):(\d+)\]\s+)?(\w+)] at the head of [s]: the range,
    when there is one, the name and the text behind the match.  When
    the range is followed by no word the optional group is given up,
    and the name cannot start at the bracket. *)
Definition match_ranged_name (s : string)
    : option (option (string * string) * string * string) :=
  let (blanks, r1) := span isspace s in
  match blanks with
  | "" => None
  | _ =>
      match match_range r1 with
      | Some (msb, lsb, r2) =>
          let (nm, rest) := span is_word r2 in
          match nm with
          | "" => None
          | _ => Some (Some (msb, lsb), nm, rest)
          end
      | None =>
          let (nm, rest) := span is_word r1 in
          match nm with
          | "" => None
          | _ => Some (None, nm, rest)
          end
      end
  end.

(** [(input|output)] at the head of [s]: group 1 and the text behind. *)
Definition match_direction (s : string) : option (string * string) :=
  if keyword_at "input" s then Some (take 5 s, drop 5 s)
  else if keyword_at "output" s then Some (take 6 s, drop 6 s)
  else None.

(** [(input|output)\s+(?:\[(\d+):(\d+)\]\s+)?(\w+)], compiled with
    [re.IGNORECASE], at the head of [s]. *)
Definition match_port (s : string)
    : option (string * option (string * string) * string * string) :=
  match match_direction s with
  | Some (direction, r) =>
      match match_ranged_name r with
      | Some (range, nm, rest) => Some (direction, range, nm, rest)
      | None => None
      end
  | None => None
  end.

(** [abs(msb - lsb) + 1] with [msb = lsb = 0] when there is no range. *)
Definition range_width (range : option (string * string)) : nat :=
  match range with
  | Some (msb, lsb) => abs_diff (int msb) (int lsb) + 1
  | None => 1
  end.

Definition port_signal (direction : string)
    (range : option (string * string)) (nm : string) : Signal :=
  let direction := lower direction in
  mkSignal nm (range_width range)
           (direction =? "input")%string (direction =? "output")%string
           false false.

(** [module.inputs.append(sig)] or [module.outputs.append(sig)]. *)
Definition add_port (module : Module) (sig : Signal) : Module :=
  if is_input sig
  then mkModule (name module) (mod_inputs module ++ [sig])
                (mod_outputs module) (internal_signals module)
                (gates module) (instances module)
  else mkModule (name module) (mod_inputs module)
                (mod_outputs module ++ [sig]) (internal_signals module)
                (gates module) (instances module).

Definition _parse_port_declaration (module : Module) (line : string)
    : Module :=
  match match_port line with
  | Some (direction, range, nm, _) =>
      add_port module (port_signal direction range nm)
  | None => module
  end.

(** [re.finditer] of the port pattern: after a match the search
    resumes behind it, otherwise one character further.  Every turn
    consumes a character, so [fuel = len(header)] turns suffice. *)
Fixpoint finditer_ports (fuel : nat) (s : string) : list Signal :=
  match fuel with
  | O => []
  | S fuel' =>
      match s with
      | "" => []
      | String _ tl =>
          match match_port s with
          | Some (direction, range, nm, rest) =>
              port_signal direction range nm :: finditer_ports fuel' rest
          | None => finditer_ports fuel' tl
          end
      end
  end.

(** [re.match(r'(input|output)\s+', line, re.IGNORECASE)]. *)
Definition is_port_line (line : string) : bool :=
  match match_direction line with
  | Some (_, r) =>
      match fst (span isspace r) with
      | "" => false
      | _ => true
      end
  | None => false
  end.

Definition _parse_ports (module : Module) (port_list body : string)
    : Module :=
  let header := replace_char newline " " port_list in
  let module :=
    fold_left add_port (finditer_ports (String.length header) header)
              module in
  fold_left
    (fun module line =>
       let line := strip line in
       if (line =? "")%string || startswith "//" line then module
       else if is_port_line line then _parse_port_declaration module line
       else module)
    (split newline body) module.

(** [wire\s+(?:\[(\d+):(\d+)\]\s+)?(\w+)], compiled with
    [re.IGNORECASE], matched at the head of the line. *)
Definition _parse_wire_declaration (module : Module) (line : string)
    : Module :=
  if keyword_at "wire" line then
    match match_ranged_name (drop 4 line) with
    | Some (range, nm, _) =>
        mkModule (name module) (mod_inputs module) (mod_outputs module)
                 (internal_signals module
                  ++ [mkSignal nm (range_width range) false false true true])
                 (gates module) (instances module)
    | None => module
    end
  else module.

(** *** [_parse_module_instantiation] *)

(** [(\w+)\s+(\w+)\s*\(] at the head of [s]: groups 1 and 2 and the
    text behind the parenthesis. *)
Definition match_instance_head (s : string)
    : option (string * string * string) :=
  let (w1, r1) := span is_word s in
  match w1 with
  | "" => None
  | _ =>
      let (blanks, r2) := span isspace r1 in
      match blanks with
      | "" => None
      | _ =>
          let (w2, r3) := span is_word r2 in
          match w2 with
          | "" => None
          | _ =>
              match snd (span isspace r3) with
              | String "("%char r4 => Some (w1, w2, r4)
              | _ => None
              end
          end
      end
  end.

(** [(.*?)\);] with [re.DOTALL]: the text before the first [);] and
    the text behind it. *)
Fixpoint until_close (s : string) : option (string * string) :=
  match s with
  | "" => None
  | String c tl =>
      match c, tl with
      | ")"%char, String ";"%char rest => Some ("", rest)
      | _, _ =>
          match until_close tl with
          | Some (a, rest) => Some (String c a, rest)
          | None => None
          end
      end
  end.

Fixpoint last_char (s : string) : option ascii :=
  match s with
  | "" => None
  | String c "" => Some c
  | String _ tl => last_char tl
  end.

(** [\.(\w+)\s*\(\s*([^\)]+)\s*\)] at the head of [s]: groups 1 and 2
    and the text behind the match.  The class [[^\)]] holds the
    blanks: group 2 runs up to the closing parenthesis, and when only
    blanks stand between the parentheses it is the last of them. *)
Definition match_connection (s : string)
    : option (string * string * string) :=
  match s with
  | String "."%char r0 =>
      let (port, r1) := span is_word r0 in
      match port with
      | "" => None
      | _ =>
          match snd (span isspace r1) with
          | String "("%char r2 =>
              let (blanks, r3) := span isspace r2 in
              let (signal, r4) := span (fun c => negb (c =? ")")%char) r3 in
              match r4 with
              | String ")"%char r5 =>
                  match signal with
                  | "" =>
                      match last_char blanks with
                      | Some b => Some (port, String b "", r5)
                      | None => None
                      end
                  | _ => Some (port, signal, r5)
                  end
              | _ => None
              end
          | _ => None
          end
      end
  | _ => None
  end.

Fixpoint finditer_connections (fuel : nat) (s : string)
    : list (string * string) :=
  match fuel with
  | O => []
  | S fuel' =>
      match s with
      | "" => []
      | String _ tl =>
          match match_connection s with
          | Some (port, signal, rest) =>
              (port, signal) :: finditer_connections fuel' rest
          | None => finditer_connections fuel' tl
          end
      end
  end.

Definition _parse_module_instantiation (line : string)
    : option ModuleInstance :=
  match match_instance_head line with
  | Some (module_name, instance_name, r) =>
      match until_close r with
      | Some (connections_str, _) =>
          Some (mkInstance module_name instance_name
                  (fold_left
                     (fun connections ps =>
                        Dict.set connections (fst ps) (snd ps))
                     (finditer_connections (String.length connections_str)
                                           connections_str)
                     []))
      | None => None
      end
  | None => None
  end.

(** *** [_parse_body] *)

(** The lines behind an [always] block: [i] stops at the first line
    that starts with [end], and the [i += 1] that follows passes it. *)
Fixpoint after_block (following : list string) : list string :=
  match following with
  | [] => []
  | l :: rest =>
      if startswith "end" (strip l) then rest else after_block rest
  end.

(** The text of an instantiation that runs over several lines, and the
    lines behind it. *)
Fixpoint accumulate_instance (following : list string) (inst_text : string)
    : string * list string :=
  match following with
  | [] => (inst_text, [])
  | l :: rest =>
      let inst_text := (inst_text ++ " " ++ strip l)%string in
      if endswith ");" (strip inst_text) then (inst_text, rest)
      else accumulate_instance rest inst_text
  end.

Definition with_more_gates (module : Module) (gs : list Gate) : Module :=
  mkModule (name module) (mod_inputs module) (mod_outputs module)
           (internal_signals module) (gates module ++ gs) (instances module).

Definition with_instance (module : Module) (inst : option ModuleInstance)
    : Module :=
  match inst with
  | Some i =>
      mkModule (name module) (mod_inputs module) (mod_outputs module)
               (internal_signals module) (gates module)
               (instances module ++ [i])
  | None => module
  end.

(** The [while] loop over the lines; [counter] is [_temp_counter].
    Every turn passes at least one line, so [fuel = len(lines)] turns
    suffice. *)
Fixpoint parse_lines (fuel : nat) (lines : list string) (module : Module)
    (counter : nat) : outcome (Module * nat) :=
  match fuel with
  | O => Ok (module, counter)
  | S fuel' =>
      match lines with
      | [] => Ok (module, counter)
      | l :: rest =>
          let line := strip l in
          if (line =? "")%string || startswith "//" line
          then parse_lines fuel' rest module counter
          else if startswith "wire" line
          then parse_lines fuel' rest (_parse_wire_declaration module line)
                           counter
          else if startswith "assign" line then
            gc <- _parse_assign_statement line counter ;;
            parse_lines fuel' rest (with_more_gates module (fst gc)) (snd gc)
          else if startswith "always" line then
            let multi := has_substring "begin" line
                         && negb (has_substring "end" line) in
            let rest' := if multi then after_block rest else rest in
            parse_lines fuel' rest'
              (with_more_gates module
                 (always_gates line (always_block line rest)))
              counter
          else
            match match_instance_head line with
            | Some _ =>
                let (inst_text, rest') :=
                  if endswith ");" (strip line) then (line, rest)
                  else accumulate_instance rest line in
                parse_lines fuel' rest'
                  (with_instance module
                     (_parse_module_instantiation inst_text))
                  counter
            | None => parse_lines fuel' rest module counter
            end
      end
  end.

Definition _parse_body (module : Module) (body : string) (counter : nat)
    : outcome (Module * nat) :=
  let lines := split newline body in
  parse_lines (List.length lines) lines module counter.

Definition _parse_module (nm port_list body : string) (counter : nat)
    : outcome (Module * nat) :=
  let module := mkModule nm [] [] [] [] [] in
  let module := _parse_ports module port_list body in
  _parse_body module body counter.

(** *** [parse_content] *)

(** [module\s+(\w+)\s*\((.*?)\);] with [re.IGNORECASE | re.DOTALL] at
    the head of [s]: groups 1 and 2 and the text behind the match. *)
Definition match_module_header (s : string)
    : option (string * string * string) :=
  if keyword_at "module" s then
    let (blanks, r1) := span isspace (drop 6 s) in
    match blanks with
    | "" => None
    | _ =>
        let (nm, r2) := span is_word r1 in
        match nm with
        | "" => None
        | _ =>
            match snd (span isspace r2) with
            | String "("%char r3 =>
                match until_close r3 with
                | Some (port_list, rest) => Some (nm, port_list, rest)
                | None => None
                end
            | _ => None
            end
        end
    end
  else None.

(** [re.finditer] of the header pattern over [content]: the name, the
    port list and [match.end()] of every match; [s] is [content[pos:]]. *)
Fixpoint finditer_headers (fuel : nat) (s : string) (pos : nat)
    : list (string * string * nat) :=
  match fuel with
  | O => []
  | S fuel' =>
      match s with
      | "" => []
      | String _ tl =>
          match match_module_header s with
          | Some (nm, port_list, rest) =>
              let end_pos := pos + (String.length s - String.length rest) in
              (nm, port_list, end_pos) :: finditer_headers fuel' rest end_pos
          | None => finditer_headers fuel' tl (S pos)
          end
      end
  end.

(** The loop [for match in modules]; the state is [self.modules] and
    [self._temp_counter]. *)
Fixpoint parse_modules (content : string)
    (headers : list (string * string * nat))
    (modules : Dict.t Module) (counter : nat)
    : outcome (Dict.t Module * nat) :=
  match headers with
  | [] => Ok (modules, counter)
  | (module_name, port_list, start_pos) :: rest =>
      let body := _extract_module_body content start_pos in
      mc <- _parse_module module_name port_list body counter ;;
      parse_modules content rest
                    (Dict.set modules module_name (fst mc)) (snd mc)
  end.

(** [parse_content] on a parser that has parsed nothing yet. *)
Definition parse_content (content : string) : outcome (Dict.t Module) :=
  let content := _remove_comments content in
  mc <- parse_modules content
          (finditer_headers (String.length content) content 0) [] 0 ;;
  Ok (fst mc).

End SourceReader.

(* ------------------------------------------------------------------ *)
(** ** The schematic exporter: placement *)

Module KiCadExporter.

Local Open Scope Z_scope.

(** [math.ceil(math.sqrt(n))].  The square root of a float is rounded
    correctly, and below [2^52] the root of a number that is no square
    lies farther from the integers than the rounding error: the result
    is the least [c] with [n <= c * c]. *)
Definition ceil_sqrt (n : nat) : nat :=
  let r := Nat.sqrt n in
  if (r * r =? n)%nat then r else S r.

(** The position of the IC at index [i]. *)
Definition position (cols i : nat) : Z * Z :=
  let row := (i / cols)%nat in
  let col := (i mod cols)%nat in
  (1000 + Z.of_nat col * 2000, 1000 + Z.of_nat row * 1500).

(** The positions that [_calculate_positions] assigns, in the order of
    [ic_instances].  With no IC the loop does not run and [cols = 0]
    divides nothing. *)
Definition _calculate_positions (ic_instances : list ICInstance)
    : list (Z * Z) :=
  let cols := ceil_sqrt (List.length ic_instances) in
  map (position cols) (seq 0 (List.length ic_instances)).

(** [_get_pin_position] behind [pin_num = int(pin)]. *)
Definition _get_pin_position (pin_num : Z) (ic_x ic_y : Z) : Z * Z :=
  if pin_num <=? 7
  then (ic_x - 100, ic_y - 200 + (pin_num - 1) * 50)
  else (ic_x + 100, ic_y - 200 + (14 - pin_num) * 50).

End KiCadExporter.

(* ------------------------------------------------------------------ *)
(** * Vocabulary of the properties

    What the statements below speak about: the expected values of the
    scenarios, the rules in the words of the specification, the example
    designs, and the measures used by the proofs. *)

Import VerilogParser GateToICMapper.

(** An input or output port of an example design. *)
Definition port (nm : string) (w : nat) (inp : bool) : Signal :=
  mkSignal nm w inp (negb inp) false false.

(** ** Scenario D: the carry of a full adder *)

(** The temporaries that the compiler draws for the carry when
    [_temp_counter] is [n] before the statement. *)
Definition carry_t1 (n : nat) : string :=
  ("tmp_l_" ++ Py.str_of_nat (1 + n))%string.
Definition carry_t2 (n : nat) : string :=
  ("tmp_r_" ++ Py.str_of_nat (6 + n))%string.
Definition carry_t3 (n : nat) : string :=
  ("tmp_r_" ++ Py.str_of_nat (4 + n))%string.

Definition carry_gates (n : nat) : list Gate :=
  let t1 := carry_t1 n in
  let t2 := carry_t2 n in
  let t3 := carry_t3 n in
  [ mkGate "AND" ["a"; "b"] t1 ("AND_2_" ++ t1)%string;
    mkGate "XOR" ["a"; "b"] t2 ("XOR_2_" ++ t2)%string;
    mkGate "AND" ["cin"; t2] t3 ("AND_2_" ++ t3)%string;
    mkGate "OR" [t1; t3] "co" "OR_2_co" ].

Definition carry_ics (n : nat) : list ICInstance :=
  let t1 := carry_t1 n in
  let t2 := carry_t2 n in
  let t3 := carry_t3 n in
  [ mkIC "74HC08" "DIP-14" "U1"
         [ mkGate "AND" ["a"; "b"] t1 ("AND_2_" ++ t1)%string;
           mkGate "AND" ["cin"; t2] t3 ("AND_2_" ++ t3)%string ]
         [ ("1", "a"); ("2", "b"); ("3", t1);
           ("4", "cin"); ("5", t2); ("6", t3);
           ("14", "VCC"); ("7", "GND") ];
    mkIC "74HC86" "DIP-14" "U2"
         [ mkGate "XOR" ["a"; "b"] t2 ("XOR_2_" ++ t2)%string ]
         [ ("1", "a"); ("2", "b"); ("3", t2); ("14", "VCC"); ("7", "GND") ];
    mkIC "74HC32" "DIP-14" "U3"
         [ mkGate "OR" [t1; t3] "co" "OR_2_co" ]
         [ ("1", t1); ("2", t3); ("3", "co"); ("14", "VCC"); ("7", "GND") ] ].

(** ** Inlining an instance *)

(** The renaming of a net of an inlined gate, read off the
    instantiation: the sanitized actual when the net is connected,
    the instance-prefixed name otherwise. *)
Definition actual_or_local (inst : ModuleInstance) (n : string) : string :=
  match Dict.get (connections inst) n with
  | Some actual => sanitize_signal_name actual
  | None => (inst_name inst ++ "_" ++ n)%string
  end.

Definition formal_ports (sub : Module) : list string :=
  map sig_name (mod_inputs sub) ++ map sig_name (mod_outputs sub).

(** The rule in the words of the specification: a net [n] that is a
    formal port of [sub] becomes the mapped actual, any other net
    becomes [L_n]. *)
Definition stated_net_rule (sub : Module) (inst : ModuleInstance)
    (n n' : string) : Prop :=
  (In n (formal_ports sub) ->
     exists actual, Dict.get (connections inst) n = Some actual
                    /\ n' = sanitize_signal_name actual)
  /\ (~ In n (formal_ports sub) -> n' = (inst_name inst ++ "_" ++ n)%string).

Definition inlining_as_stated : Prop :=
  forall fuel modules module flat inst sub,
    flatten_module_gates (S fuel) module modules = Ok flat ->
    In inst (instances module) ->
    module_name inst <> "UNIT_DFFE" ->
    Dict.get modules (module_name inst) = Some sub ->
    exists sub_gates,
      flatten_module_gates fuel sub modules = Ok sub_gates /\
      forall g, In g sub_gates ->
        exists g', In g' flat /\ gate_type g' = gate_type g
                   /\ Forall2 (stated_net_rule sub inst) (inputs g) (inputs g')
                   /\ stated_net_rule sub inst (output g) (output g').

(** [module] with its parsed gate list replaced. *)
Definition with_gates (module : Module) (gs : list Gate) : Module :=
  mkModule (name module) (mod_inputs module) (mod_outputs module)
           (internal_signals module) gs (instances module).

(** The instances below [m] nest at most [d] levels of declared
    modules: a hierarchy without cycle has such a [d]. *)
Fixpoint hierarchy_within (d : nat) (modules : Dict.t Module) (m : Module)
    : Prop :=
  forall inst sub,
    In inst (instances m) ->
    module_name inst <> "UNIT_DFFE" ->
    Dict.get modules (module_name inst) = Some sub ->
    match d with
    | O => False
    | S d' => hierarchy_within d' modules sub
    end.

(** A leaf instantiated with one port connected, one internal net
    connected and two ports left open. *)
Module HalfConnected.

(** module leaf(input a, input b, output y);
      wire t;  assign t = a & b;  assign y = ~t;  endmodule *)
Definition leaf : Module :=
  mkModule "leaf" [port "a" 1 true; port "b" 1 true] [port "y" 1 false]
           [mkSignal "t" 1 false false true true]
           [ mkGate "AND" ["a"; "b"] "t" "AND_2_t";
             mkGate "NOT" ["t"] "y" "NOT_1_y" ]
           [].

(** leaf u1 (.a(x), .t(w));   -- [b] and [y] are left open *)
Definition u1 : ModuleInstance :=
  mkInstance "leaf" "u1" [("a", "x"); ("t", "w")].

Definition top : Module :=
  mkModule "top" [port "x" 1 true] [port "w" 1 false] [] [] [u1].

Definition modules : Dict.t Module := [("leaf", leaf); ("top", top)].

Definition flat : list Gate :=
  [ mkGate "AND" ["x"; "u1_b"] "w" "u1_AND_2_t";
    mkGate "NOT" ["w"] "u1_y" "u1_NOT_1_y" ].

End HalfConnected.

(** ** Packing *)

(** The list stored under [k], empty when [k] is no key. *)
Definition group_of (gate_counts : Dict.t (list Gate)) (k : string)
    : list Gate :=
  match Dict.get gate_counts k with
  | Some l => l
  | None => []
  end.

Definition is_kind (k : string) (g : Gate) : bool :=
  (gate_type g =? k)%string.

Definition is_alias (g : Gate) : bool := is_kind "ALIAS" g.

(** Every ALIAS gate carries the net it ties to. *)
Definition alias_sources_present (gates : list Gate) : Prop :=
  forall g, In g gates -> gate_type g = "ALIAS" -> inputs g <> [].

Definition link_of (g : Gate) : string * string :=
  (output g, hd "" (inputs g)).

(** Every catalog entry lists [gates_per_ic] slots before its power
    pins. *)
Definition slots_first (m : mapping) : bool :=
  forallb (fun gate_name =>
             match Dict.get (pinout m) gate_name with
             | Some (Slot _ _) => true
             | _ => false
             end)
          (firstn (gates_per_ic m) (Dict.keys (pinout m)))
  && (gates_per_ic m <=? List.length (Dict.keys (pinout m)))%nat
  && (0 <? gates_per_ic m)%nat.

(** The power pins of a DIP-14 part are bound to the power nets. *)
Definition powered (ic : ICInstance) : Prop :=
  Dict.get (pin_assignments ic) "14" = Some "VCC"
  /\ Dict.get (pin_assignments ic) "7" = Some "GND".

Definition has_part (p : string) (ic : ICInstance) : bool :=
  (part_number ic =? p)%string.

Definition count_part (p : string) (ics : list ICInstance) : nat :=
  List.length (filter (has_part p) ics).

(** The ceiling of [n / c] as the specification writes it. *)
Definition ceil_div (n c : nat) : nat :=
  n / c + (if (n mod c =? 0)%nat then 0 else 1).

Definition count_kind (k : string) (gates : list Gate) : nat :=
  List.length (filter (is_kind k) gates).

Definition real_parts : list string :=
  ["74HC08"; "74HC32"; "74HC86"; "74HC04"; "74HC74"].

(** The number of ICs of part [p] that the second loop allocates. *)
Fixpoint ics_for (gate_counts : Dict.t (list Gate)) (p : string) : nat :=
  match gate_counts with
  | [] => 0
  | (k, l) :: rest =>
      match Dict.get ic_mappings k with
      | Some m =>
          if (m_part_number m =? p)%string
          then ic_count (List.length l) (gates_per_ic m) else 0
      | None => 0
      end + ics_for rest p
  end.

(** Five AND gates, an inverter and an alias. *)
Module FiveAnds.

Definition and_gate (o : string) : Gate := mkGate "AND" ["a"; "b"] o "".

Definition gates : list Gate :=
  [ and_gate "y1"; and_gate "y2"; mkGate "ALIAS" ["y1"] "z" "";
    and_gate "y3"; mkGate "NOT" ["a"] "na" ""; and_gate "y4"; and_gate "y5" ].

End FiveAnds.

(** ** Arity and drivers *)



(** The left-hand side of an assign statement, as
    [_parse_assign_statement] computes it. *)
Definition assign_lhs (line : string) : string :=
  match Py.split1 "=" (Py.strip (Py.drop 6 line)) with
  | Some (output, _) => Py.strip output
  | None => ""
  end.

(** The bases of the temporaries of [_ast_to_gates]. *)
Definition temp_bases : list string := ["n"; "l"; "r"].

(** [s] is the temporary of index [k] for one of the bases. *)
Definition is_temp (k : nat) (s : string) : Prop :=
  exists b, In b temp_bases
            /\ s = ("tmp_" ++ b ++ "_" ++ Py.str_of_nat k)%string.

(** The left-hand side of an assign statement as the flat list names
    it. *)
Definition sanitized_lhs (line : string) : string :=
  sanitize_signal_name (assign_lhs line).

(** Characters that [sanitize_signal_name] leaves alone. *)
Definition plain_char (c : ascii) : bool :=
  negb (Py.isspace c) && negb (c =? "[")%char && negb (c =? "]")%char
  && negb (c =? ":")%char.

(** The nets driven by the gates that one call of [_ast_to_gates] adds:
    the target, or temporaries drawn during the call. *)
Definition drawn_between (n n' : nat) (target o : string) : Prop :=
  o = target \/ exists k, n < k <= n' /\ is_temp k o.

Definition single_driver (flat : list Gate) : Prop :=
  NoDup (map output flat).

(** The turns of the loop of [_parse_body] on lines that start with
    [assign]: the gates are appended to [module.gates]. *)
Fixpoint parse_assign_lines (lines : list string) (counter : nat)
    (module_gates : list Gate) : outcome (list Gate * nat) :=
  match lines with
  | [] => Ok (module_gates, counter)
  | line :: rest =>
      gc <- _parse_assign_statement line counter ;;
      parse_assign_lines rest (snd gc) (module_gates ++ fst gc)
  end.

(** The nets that the flat list of a module without instances names
    for the gates [gs] of the module. *)
Definition flat_outputs (gs : list Gate) : list string :=
  map output (map copy_gate gs).

(** Two designs in which two gates drive one net. *)
Module DoubleDriven.

(** module top(input a, input b, output y);
      assign y = a & b;
      assign y = a | b;
    endmodule *)
Definition twice : Module :=
  mkModule "top" [port "a" 1 true; port "b" 1 true] [port "y" 1 false] []
           [ mkGate "AND" ["a"; "b"] "y" "AND_2_y";
             mkGate "OR" ["a"; "b"] "y" "OR_2_y" ]
           [].

(** module top(input x, input y, output [1:0] a, output a_0);
      assign a[0] = x & y;
      assign a_0 = x | y;
    endmodule *)
Definition bit_and_scalar : Module :=
  mkModule "top" [port "x" 1 true; port "y" 1 true]
           [port "a" 2 false; port "a_0" 1 false] []
           [ mkGate "AND" ["x"; "y"] "a[0]" "AND_2_a[0]";
             mkGate "OR" ["x"; "y"] "a_0" "OR_2_a_0" ]
           [].

End DoubleDriven.

(** module fa(input a, input b, input cin, output s, output co);
      assign s = a ^ b ^ cin;
      assign co = (a&b)|(cin&(a^b));
    endmodule *)
Module FullAdder.

Definition lines : list string :=
  ["assign s = a ^ b ^ cin;"; "assign co = (a&b)|(cin&(a^b));"].

Definition fa : Module :=
  mkModule "fa" [port "a" 1 true; port "b" 1 true; port "cin" 1 true]
           [port "s" 1 false; port "co" 1 false] []
           (match parse_assign_lines lines 0 [] with
            | Ok (gs, _) => gs
            | _ => []
            end)
           [].

End FullAdder.

(** ** Parentheses *)

(** Blanks and parentheses. *)
Definition blank_or_paren (c : ascii) : bool :=
  Py.isspace c || (c =? "(")%char || (c =? ")")%char.

Definition is_paren (t : string) : Prop := t = "(" \/ t = ")".

(** Closing a parenthesis that was never opened: the depth of the
    parentheses of a token list, as the operator stack counts it. *)
Definition paren_depth_step (d : nat) (t : string) : nat :=
  if (t =? "(")%string then S d
  else if (t =? ")")%string then Nat.pred d
  else d.

Definition paren_depth (tokens : list string) : nat :=
  fold_left paren_depth_step tokens 0.

Definition open_parens (ops : list string) : nat :=
  List.length (filter (fun o => (o =? "(")%string) ops).

(** The depth of the parentheses after [s], from depth [d]; [None] when
    a parenthesis is closed that was not opened. *)
Fixpoint walk (d : nat) (s : string) : option nat :=
  match s with
  | "" => Some d
  | String c tl =>
      if (c =? "(")%char then walk (S d) tl
      else if (c =? ")")%char then
        match d with
        | O => None
        | S d' => walk d' tl
        end
      else walk d tl
  end.

Definition balanced (s : string) : Prop := walk 0 s = Some 0.

(** [strip] is idempotent and leaves the rewritten text alone. *)
Definition starts_clean (s : string) : Prop :=
  match s with
  | "" => True
  | String c _ => Py.isspace c = false
  end.

Definition ends_clean (s : string) : Prop :=
  s <> "" /\ Py.rstrip s = s.

(** ** Nets *)

(** A design without gates, and one whose only IC is full. *)
Module EmptyAndFull.

(** module top(input a, input [1:0] b, output y); endmodule *)
Definition empty : Module :=
  mkModule "top" [port "a" 1 true; port "b" 2 true] [port "y" 1 false]
           [] [] [].

(** The same ports around four AND gates, which fill a 74HC08. *)
Definition full : Module :=
  mkModule "top" [port "a" 1 true; port "b" 2 true] [port "y" 1 false] []
           [ mkGate "AND" ["a"; "b_0"] "t1" "";
             mkGate "AND" ["a"; "b_1"] "t2" "";
             mkGate "AND" ["t1"; "t2"] "t3" "";
             mkGate "AND" ["t3"; "b_1"] "y" "" ]
           [].

End EmptyAndFull.

Section NetVocabulary.

Import KiCadNetlistExporter.

Definition net_names (nets : list KiCadNetlistExporter.Net) : list string :=
  map KiCadNetlistExporter.net_name nets.

(** The nets of the connectors of one port. *)
Definition connector_names (signal : Signal) : list string :=
  if (1 <? width signal)%nat
  then map (fun i => (sig_name signal ++ "_" ++ Py.str_of_nat i)%string)
           (seq 0 (width signal))
  else [sig_name signal].

(** The signals on the pins of the real ICs, power nets apart. *)
Definition pin_signals (ic : ICInstance) : list string :=
  if (part_number ic =? "ALIAS")%string then []
  else filter (fun sg => negb (is_power sg)) (map snd (pin_assignments ic)).

(** The links carried by the alias pseudo-ICs. *)
Definition alias_links_of (ic : ICInstance) : list (string * string) :=
  if (part_number ic =? "ALIAS")%string then pin_assignments ic else [].

(** A net disappears only as the source of an alias link to another
    net. *)
Definition alias_sources (ics : list ICInstance) : list string :=
  map snd (filter (fun ds => negb (fst ds =? snd ds)%string)
                  (flat_map alias_links_of ics)).

(** Every connector net and every net on a pin of a real IC is
    written, unless an alias link merged it into another net. *)
Definition signal_names (module : Module) (ics : list ICInstance)
    : list string :=
  flat_map connector_names (_merge_signals_by_name (mod_inputs module))
  ++ flat_map connector_names (_merge_signals_by_name (mod_outputs module))
  ++ flat_map pin_signals ics.

End NetVocabulary.

Definition full_nets : list KiCadNetlistExporter.Net :=
  Eval vm_compute in
    match synthesized_nets 1 EmptyAndFull.full [] with
    | Ok nets => nets
    | _ => []
    end.

(* ------------------------------------------------------------------ *)
(** ** Tokens and expressions *)

(** The characters the tokenizer can consume. *)
Definition token_char (c : ascii) : bool :=
  Py.isspace c || is_op_char c || Py.is_word c.

(** [expr] with its blanks deleted. *)
Fixpoint without_blanks (s : string) : string :=
  match s with
  | "" => ""
  | String c tl =>
      if Py.isspace c then without_blanks tl else String c (without_blanks tl)
  end.

(** The tokens written one after the other. *)
Definition joined (tokens : list string) : string :=
  fold_right append "" tokens.

(** An operator or parenthesis, or a run of word characters. *)
Definition is_token (t : string) : bool :=
  match t with
  | "" => false
  | String c "" => is_op_char c || Py.is_word c
  | _ => Py.all_chars Py.is_word t
  end.

(** The four operator tokens. *)
Definition is_operator (t : string) : bool :=
  match prec t with
  | Some _ => true
  | None => false
  end.

(** What a token of the RPN can be: an identifier, an operator, or an
    opening parenthesis that was never closed. *)
Definition rpn_token (t : string) : bool :=
  Py.match_identifier t || is_operator t || (t =? "(")%string.

(** The token of a binary operator. *)
Definition symbol (op : binop) : string :=
  match op with
  | and => "&"
  | xor => "^"
  | or => "|"
  end.

(** An identifier of the shunting yard, without the final newline that
    [$] tolerates. *)
Definition is_identifier (s : string) : bool :=
  match s with
  | "" => false
  | String c tl => Py.is_ident_start c && Py.all_chars Py.is_ident_char tl
  end.

Fixpoint identifiers (e : ast) : list string :=
  match e with
  | id x => [x]
  | not a => identifiers a
  | bin _ a b => identifiers a ++ identifiers b
  end.

(** An expression written with all its parentheses. *)
Fixpoint show (e : ast) : string :=
  match e with
  | id x => x
  | not a => "(~" ++ show a ++ ")"
  | bin op a b => "(" ++ show a ++ " " ++ symbol op ++ " " ++ show b ++ ")"
  end.

Fixpoint tokens_of (e : ast) : list string :=
  match e with
  | id x => [x]
  | not a => ["("; "~"] ++ tokens_of a ++ [")"]
  | bin op a b => ["("] ++ tokens_of a ++ [symbol op] ++ tokens_of b ++ [")"]
  end.

Fixpoint rpn_of (e : ast) : list string :=
  match e with
  | id x => [x]
  | not a => rpn_of a ++ ["~"]
  | bin op a b => rpn_of a ++ rpn_of b ++ [symbol op]
  end.

(** The gates and the counter that [_parse_boolean_expr_to_gates]
    returns once the expression is read as the tree [e]. *)
Definition lowered (e : ast) (target : string) (counter : nat)
    : list Gate * nat :=
  let '(_, counter', gates) := ast_to_gates e target counter [] in
  (gates, counter').

(** The number of operators and of nodes of a tree. *)
Fixpoint operators (e : ast) : nat :=
  match e with
  | id _ => 0
  | not a => S (operators a)
  | bin _ a b => S (operators a + operators b)
  end.

Fixpoint nodes (e : ast) : nat :=
  match e with
  | id _ => 1
  | not a => S (nodes a)
  | bin _ a b => S (nodes a + nodes b)
  end.

(** [o2] binds tighter than [o1]. *)
Definition tighter (o2 o1 : binop) : bool :=
  match prec (symbol o1), prec (symbol o2) with
  | Some p1, Some p2 => (p1 <? p2)%nat
  | _, _ => false
  end.

(** ** The meaning of expressions and of gate lists *)

(** The logic values of the nets. *)
Definition valuation : Type := string -> bool.

Definition update (v : valuation) (net : string) (b : bool) : valuation :=
  fun x => if (x =? net)%string then b else v x.

Definition apply_op (op : binop) (a b : bool) : bool :=
  match op with
  | and => a && b
  | xor => xorb a b
  | or => a || b
  end.

Fixpoint eval_ast (e : ast) (v : valuation) : bool :=
  match e with
  | id x => v x
  | not a => negb (eval_ast a v)
  | bin op a b => apply_op op (eval_ast a v) (eval_ast b v)
  end.

(** The value that a combinational gate drives on its output. *)
Definition gate_value (g : Gate) (v : valuation) : option bool :=
  match inputs g with
  | [a] => if (gate_type g =? "NOT")%string then Some (negb (v a)) else None
  | [a; b] =>
      if (gate_type g =? "AND")%string then Some (v a && v b)
      else if (gate_type g =? "OR")%string then Some (v a || v b)
      else if (gate_type g =? "XOR")%string then Some (xorb (v a) (v b))
      else None
  | _ => None
  end.

(** The gates evaluated in the order of the list. *)
Fixpoint run_gates (gs : list Gate) (v : valuation) : option valuation :=
  match gs with
  | [] => Some v
  | g :: rest =>
      match gate_value g v with
      | Some b => run_gates rest (update v (output g) b)
      | None => None
      end
  end.

(** ** Hierarchies *)

(** Every instance names a module that is not declared. *)
Definition all_undeclared (modules : Dict.t Module) (m : Module) : Prop :=
  forall inst, In inst (instances m) ->
    module_name inst <> "UNIT_DFFE"
    /\ Dict.get modules (module_name inst) = None.

(** A module that instantiates itself. *)
Module SelfInstance.

Definition loop : Module :=
  mkModule "loop" [port "a" 1 true] [port "y" 1 false] []
           [mkGate "NOT" ["a"] "y" "NOT_1_y"]
           [mkInstance "loop" "u1" [("a", "a"); ("y", "y")]].

End SelfInstance.

(** A module whose only instance misspells the name of its submodule. *)
Module Misspelt.

Definition inv : Module :=
  mkModule "inv" [port "a" 1 true] [port "y" 1 false] []
           [mkGate "NOT" ["a"] "y" "NOT_1_y"] [].

Definition top : Module :=
  mkModule "top" [port "x" 1 true] [port "z" 1 false] []
           [mkGate "NOT" ["x"] "t" "NOT_1_t"]
           [mkInstance "inw" "u1" [("a", "x"); ("y", "z")]].

Definition modules : Dict.t Module := [("inv", inv); ("top", top)].

End Misspelt.

(** ** The packed ICs *)

(** The reference designator of the [i]-th IC. *)
Definition designator (i : nat) : string := ("U" ++ Py.str_of_nat i)%string.

(** The gates of the groups that are packed into part [p], in the order
    of the groups. *)
Fixpoint gates_for (gate_counts : Dict.t (list Gate)) (p : string)
    : list Gate :=
  match gate_counts with
  | [] => []
  | (k, l) :: rest =>
      match Dict.get ic_mappings k with
      | Some m => if (m_part_number m =? p)%string then l else []
      | None => []
      end ++ gates_for rest p
  end.

(** An IC of part [part m] that holds at least one gate and no more
    than the part has slots. *)
Definition filled (ic : ICInstance) : Prop :=
  exists k m,
    Dict.get ic_mappings k = Some m
    /\ part_number ic = m_part_number m
    /\ 1 <= List.length (gates_of_ic ic) <= gates_per_ic m.

(** Seven AND gates of a kind that the catalog does not know between
    gates that it knows. *)
Module MixedKinds.

Definition gates : list Gate :=
  [ mkGate "AND" ["a"; "b"] "t1" "";
    mkGate "NAND" ["a"; "b"] "t2" "";
    mkGate "NOT" ["t1"] "t3" "";
    mkGate "AND" ["t1"; "t3"] "t4" "";
    mkGate "ALIAS" ["t4"] "y" "";
    mkGate "AND" ["t4"; "a"] "t5" "";
    mkGate "AND" ["t5"; "a"] "t6" "";
    mkGate "AND" ["t6"; "a"] "t7" "" ].

Definition ics : list ICInstance :=
  Eval vm_compute in
    match map_gates_to_ics gates with
    | Ok ics => ics
    | _ => []
    end.

End MixedKinds.

(** The [i]-th gate slot of a catalog entry: its input pins and its
    output pin. *)
Definition slot_of (m : mapping) (i : nat) : option (list string * string) :=
  match nth_error (Dict.keys (pinout m)) i with
  | Some gate_name =>
      match Dict.get (pinout m) gate_name with
      | Some (Slot slot_inputs slot_output) => Some (slot_inputs, slot_output)
      | _ => None
      end
  | None => None
  end.

(** The gate in slot [i] of the IC has its output net on the output pin
    of the slot and its [j]-th input net on the [j]-th input pin. *)
Definition wired_as (m : mapping) (ic : ICInstance) : Prop :=
  forall i g slot_inputs slot_output,
    nth_error (gates_of_ic ic) i = Some g ->
    slot_of m i = Some (slot_inputs, slot_output) ->
    Dict.get (pin_assignments ic) slot_output = Some (output g)
    /\ forall j pin net,
         nth_error slot_inputs j = Some pin ->
         nth_error (inputs g) j = Some net ->
         Dict.get (pin_assignments ic) pin = Some net.

Definition wired (ic : ICInstance) : Prop :=
  exists k m,
    Dict.get ic_mappings k = Some m
    /\ part_number ic = m_part_number m
    /\ wired_as m ic.

(** The pins that the slots named [gate_names] use. *)
Definition slot_pins (pinout : Dict.t pin_entry) (gate_names : list string)
    : list string :=
  flat_map (fun gate_name =>
              match Dict.get pinout gate_name with
              | Some (Slot slot_inputs slot_output) =>
                  slot_inputs ++ [slot_output]
              | _ => []
              end) gate_names.

Fixpoint distinct (l : list string) : bool :=
  match l with
  | [] => true
  | x :: rest => negb (existsb (String.eqb x) rest) && distinct rest
  end.

(** No pin of a catalog entry is used twice. *)
Definition pins_distinct (m : mapping) : bool :=
  distinct (slot_pins (pinout m) (Dict.keys (pinout m))
            ++ [pin_of (pinout m) "vcc"; pin_of (pinout m) "gnd"]).

(** ** The nodes of the nets *)

(** Some net of the dictionary holds the node [x]. *)
Definition held (nets : Dict.t (list KiCadNetlistExporter.node))
    (x : KiCadNetlistExporter.node) : Prop :=
  exists k s, In (k, s) nets /\ In x s.

(** Every node of every net of the dictionary satisfies [P]. *)
Definition all_nodes (P : KiCadNetlistExporter.node -> Prop)
    (nets : Dict.t (list KiCadNetlistExporter.node)) : Prop :=
  forall k s x, In (k, s) nets -> In x s -> P x.

(** The pins of a DIP-14 package. *)
Definition pin_numbers : list string := map Py.str_of_nat (seq 1 14).

(** No alias link ties a net to a power rail. *)
Definition no_power_alias (ic_instances : list ICInstance) : Prop :=
  forall ic ps,
    In ic ic_instances -> part_number ic = "ALIAS" ->
    In ps (pin_assignments ic) ->
    KiCadNetlistExporter.is_power (snd ps) = false.

(** ** The text of a file *)

(** No keyword of the scan of [_extract_module_body] starts inside [b]
    when [follow] stands behind it. *)
Fixpoint calm (b follow : string) : bool :=
  match b with
  | "" => true
  | String _ tl =>
      negb (SourceReader.keyword_at "module" (b ++ follow))
      && negb (SourceReader.keyword_at "endmodule" (b ++ follow))
      && calm tl follow
  end.

(** Modules written one after the other: before each its gap, then the
    keyword, the text up to its [endmodule], and [tail] at the end. *)
Fixpoint later_modules (ms : list (string * string)) (tail : string)
    : string :=
  match ms with
  | [] => tail
  | (gap, body) :: rest =>
      gap ++ "module" ++ body ++ "endmodule" ++ later_modules rest tail
  end.

(** No keyword starts inside a gap, inside the text of a module or
    inside [tail]. *)
Fixpoint all_calm (ms : list (string * string)) (tail : string) : bool :=
  match ms with
  | [] => calm tail ""
  | (gap, body) :: rest =>
      calm gap ("module" ++ body ++ "endmodule" ++ later_modules rest tail)
      && calm body ("endmodule" ++ later_modules rest tail)
      && all_calm rest tail
  end.

(** ** Declarations *)

(** A port declaration: direction, bus range and name. *)
Record declaration : Type := mkDeclaration {
  d_input : bool;
  d_range : option (nat * nat);
  d_name : string
}.

Definition show_range (range : option (nat * nat)) : string :=
  match range with
  | Some (msb, lsb) =>
      "[" ++ Py.str_of_nat msb ++ ":" ++ Py.str_of_nat lsb ++ "] "
  | None => ""
  end.

Definition show_declaration (d : declaration) : string :=
  (if d_input d then "input" else "output") ++ " "
  ++ show_range (d_range d) ++ d_name d.

(** The declarations as an ANSI port list. *)
Fixpoint show_header (ds : list declaration) : string :=
  match ds with
  | [] => ""
  | d :: rest =>
      show_declaration d
      ++ match rest with
         | [] => ""
         | _ => ", " ++ show_header rest
         end
  end.

(** The signal that a declaration stands for. *)
Definition declared (d : declaration) : Signal :=
  mkSignal (d_name d)
           match d_range d with
           | Some (msb, lsb) => SourceReader.abs_diff msb lsb + 1
           | None => 1
           end
           (d_input d) (negb (d_input d)) false false.

(** A non-empty run of word characters. *)
Definition is_name (s : string) : bool :=
  match s with
  | "" => false
  | _ => Py.all_chars Py.is_word s
  end.

Definition names_ok (ds : list declaration) : bool :=
  forallb (fun d => is_name (d_name d)) ds.

(** No line of the body starts a declaration of a port. *)
Definition no_port_lines (body : string) : bool :=
  forallb (fun line => negb (SourceReader.is_port_line (Py.strip line)))
          (SourceReader.split SourceReader.newline body).

Definition inputs_of (ds : list declaration) : list Signal :=
  map declared (filter d_input ds).

Definition outputs_of (ds : list declaration) : list Signal :=
  map declared (filter (fun d => negb (d_input d)) ds).

(** ** Instantiations *)

Definition show_connection (ps : string * string) : string :=
  "." ++ fst ps ++ "(" ++ snd ps ++ ")".

(** Named connections, separated by commas. *)
Fixpoint show_connections (cs : list (string * string)) : string :=
  match cs with
  | [] => ""
  | c :: rest =>
      show_connection c
      ++ match rest with
         | [] => ""
         | _ => ", " ++ show_connections rest
         end
  end.

Definition show_instance (module_name instance_name : string)
    (cs : list (string * string)) : string :=
  module_name ++ " " ++ instance_name ++ "(" ++ show_connections cs ++ ");".

Definition not_close (c : ascii) : bool := negb (c =? ")")%char.

(** The text of a connected signal: it holds no closing parenthesis
    and does not start with a blank. *)
Definition is_connected (s : string) : bool :=
  match s with
  | "" => false
  | String c _ => negb (Py.isspace c) && Py.all_chars not_close s
  end.

Definition connections_ok (cs : list (string * string)) : bool :=
  forallb (fun ps => is_name (fst ps) && is_connected (snd ps)) cs.

(** The dictionary that the assignments [connections[port] = signal]
    build in the order of [cs]. *)
Definition bindings (cs : list (string * string)) : Dict.t string :=
  fold_left (fun connections ps => Dict.set connections (fst ps) (snd ps))
            cs [].

(** A text put in front of the first component of a match. *)
Definition prepend (p : string) (r : option (string * string))
    : option (string * string) :=
  match r with
  | Some (a, rest) => Some ((p ++ a)%string, rest)
  | None => None
  end.

(** ** Placement *)

Definition same_point (a b : Z * Z) : bool :=
  ((fst a =? fst b) && (snd a =? snd b))%Z.

(** The point where pin [pin_num] of the IC at index [i] is drawn. *)
Definition pin_point (ic_instances : list ICInstance) (i : nat)
    (pin_num : Z) : Z * Z :=
  let xy := nth i (KiCadExporter._calculate_positions ic_instances)
                (0%Z, 0%Z) in
  KiCadExporter._get_pin_position pin_num (fst xy) (snd xy).

(** A pin of a DIP-14 package. *)
Definition is_pin (pin_num : Z) : bool :=
  ((1 <=? pin_num) && (pin_num <=? 14))%Z.

(** ** Headers met in a body *)

(** The header of a module on one line. *)
Definition show_module_header (nm : string) (ds : list declaration)
    : string :=
  "module " ++ nm ++ "(" ++ show_header ds ++ ");".

(** The characters of a written port list. *)
Definition header_char (c : ascii) : bool :=
  Py.is_word c
  || (c =? "[")%char || (c =? "]")%char || (c =? ":")%char
  || (c =? ",")%char || (c =? " ")%char.

(** ** Provenance of the gates *)















(** ** Drivers across the hierarchy *)

(** The flat list of the module that [inst] instantiates; it is empty
    for a module that is not declared and for the virtual
    [UNIT_DFFE]. *)
Definition sub_flat (fuel : nat) (modules : Dict.t Module)
    (inst : ModuleInstance) : list Gate :=
  if (module_name inst =? "UNIT_DFFE")%string then []
  else match Dict.get modules (module_name inst) with
       | Some sub =>
           match flatten_module_gates fuel sub modules with
           | Ok sub_gates => sub_gates
           | _ => []
           end
       | None => []
       end.

(** The nets of the instantiating module that [inst] drives: the net
    connected to every net of its module that a gate drives, or the
    output of the register of a [UNIT_DFFE]. *)
Definition driven_nets (fuel : nat) (modules : Dict.t Module)
    (inst : ModuleInstance) : list string :=
  if (module_name inst =? "UNIT_DFFE")%string
  then map output (unit_dffe_gates inst)
  else flat_map
         (fun o => match Dict.get (port_map_of (connections inst)) o with
                   | Some actual => [actual]
                   | None => []
                   end)
         (map output (sub_flat fuel modules inst)).

(** The local nets of [inst], under the names that the flattener gives
    them: the nets of its module that a gate drives and that the
    instance does not connect, behind the name of the instance. *)
Definition local_nets (fuel : nat) (modules : Dict.t Module)
    (inst : ModuleInstance) : list string :=
  flat_map
    (fun o => match Dict.get (port_map_of (connections inst)) o with
              | Some _ => []
              | None => [(inst_name inst ++ "_" ++ o)%string]
              end)
    (map output (sub_flat fuel modules inst)).

(** The nets that the gates of the instances of a module drive. *)
Definition instance_nets (fuel : nat) (modules : Dict.t Module)
    (insts : list ModuleInstance) : list string :=
  flat_map (fun inst => driven_nets fuel modules inst
                        ++ local_nets fuel modules inst) insts.

(** Neither name, followed by an underscore, starts the other one
    followed by an underscore: the local nets of two such instances
    bear different names. *)
Definition apart (a b : string) : Prop :=
  Py.startswith (a ++ "_") (b ++ "_") = false
  /\ Py.startswith (b ++ "_") (a ++ "_") = false.

Definition names_apart (insts : list ModuleInstance) : Prop :=
  ForallOrdPairs (fun i j => apart (inst_name i) (inst_name j)) insts.

(** No net bears a name that an instance gives to its local nets. *)
Definition no_local_name (insts : list ModuleInstance) (nets : list string)
    : Prop :=
  forall net inst,
    In net nets -> In inst insts ->
    Py.startswith (inst_name inst ++ "_") net = false.

(** Two instances of a leaf whose local net [t] is open in [u1] and
    connected, in [u2], to a net that is called [u1_t]. *)
Module LocalClash.

(** module leaf(input a, input b); wire t; assign t = a & b; endmodule *)
Definition leaf : Module :=
  mkModule "leaf" [port "a" 1 true; port "b" 1 true] []
           [mkSignal "t" 1 false false true true]
           [mkGate "AND" ["a"; "b"] "t" "AND_2_t"] [].

Definition u1 : ModuleInstance :=
  mkInstance "leaf" "u1" [("a", "x"); ("b", "y")].

Definition u2 : ModuleInstance :=
  mkInstance "leaf" "u2" [("a", "x"); ("b", "y"); ("t", "u1_t")].

Definition top : Module :=
  mkModule "top" [port "x" 1 true; port "y" 1 true] [port "u1_t" 1 false]
           [] [] [u1; u2].

Definition modules : Dict.t Module := [("leaf", leaf); ("top", top)].

End LocalClash.

(** The nets that the statements of a body drive by name, in the order
    of the lines: the sanitized left-hand side of every assign
    statement and the outputs of the registers of every always block.
    The lines are passed as the loop of [_parse_body] passes them. *)
Fixpoint statement_targets (fuel : nat) (lines : list string)
    : list string :=
  match fuel with
  | O => []
  | S fuel' =>
      match lines with
      | [] => []
      | l :: rest =>
          let line := Py.strip l in
          if (line =? "")%string || Py.startswith "//" line
          then statement_targets fuel' rest
          else if Py.startswith "wire" line
          then statement_targets fuel' rest
          else if Py.startswith "assign" line
          then sanitized_lhs line :: statement_targets fuel' rest
          else if Py.startswith "always" line then
            let multi := Py.has_substring "begin" line
                         && negb (Py.has_substring "end" line) in
            let rest' := if multi then SourceReader.after_block rest
                         else rest in
            map output (always_gates line (always_block line rest))
            ++ statement_targets fuel' rest'
          else
            match SourceReader.match_instance_head line with
            | Some _ =>
                let (inst_text, rest') :=
                  if SourceReader.endswith ");" (Py.strip line)
                  then (line, rest)
                  else SourceReader.accumulate_instance rest line in
                statement_targets fuel' rest'
            | None => statement_targets fuel' rest
            end
      end
  end.

Definition body_targets (body : string) : list string :=
  let lines := SourceReader.split SourceReader.newline body in
  statement_targets (List.length lines) lines.

(** No name begins like a temporary of the compiler. *)
Definition no_temporary_names (names : list string) : Prop :=
  Forall (fun t => Py.startswith "tmp_" t = false) names.

(** module c(input a, input b, input clk, output q);
      wire t;
      assign t = a & ~b;
      always @(posedge clk) q <= t;
    endmodule *)
Definition clocked_body : string :=
  " wire t;"
  ++ String SourceReader.newline
       (" assign t = a & ~b;"
        ++ String SourceReader.newline
             (" always @(posedge clk) q <= t;"
              ++ String SourceReader.newline "endmodule")).

Definition clocked_module : Module :=
  Eval vm_compute in
    match SourceReader._parse_module
            "c" "input a, input b, input clk, output q" clocked_body 0 with
    | Ok (m, _) => m
    | _ => mkModule "" [] [] [] [] []
    end.

(** ** The nets section: unused pins and rails *)

(** The pin [nd] of a real IC is neither assigned nor a power pin. *)
Definition unassigned (ics : list ICInstance)
    (nd : KiCadNetlistExporter.node) : Prop :=
  exists ic,
    In ic ics /\ fst nd = instance_id ic
    /\ KiCadNetlistExporter.is_74xx_part (part_number ic) = true
    /\ In (snd nd) pin_numbers
    /\ Dict.mem (pin_assignments ic) (snd nd) = false
    /\ snd nd <> "7" /\ snd nd <> "14".

(** The destinations of the alias links. *)
Definition alias_targets (ics : list ICInstance) : list string :=
  map fst (flat_map alias_links_of ics).

(** The nets written for a module and its ICs. *)
Definition written_nets (module : Module) (ics : list ICInstance)
    : list KiCadNetlistExporter.Net :=
  KiCadNetlistExporter._write_nets module ics
    (KiCadNetlistExporter.cap_refs ics).

(** Three designs: one gate in a 74HC08, a full 74HC08 beside a port
    called [GND_UNUSED], and an alias alone. *)
Module UnusedPins.

(** module top(input a, input b, output y); assign y = a & b; endmodule *)
Definition one_and : Module :=
  mkModule "top" [port "a" 1 true; port "b" 1 true] [port "y" 1 false] []
           [mkGate "AND" ["a"; "b"] "y" "AND_2_y"] [].

Definition one_and_ics : list ICInstance :=
  Eval vm_compute in
    match map_gates_to_ics (map copy_gate (gates one_and)) with
    | Ok ics => ics
    | _ => []
    end.

(** The four AND gates of [EmptyAndFull.full] with one more input,
    called [GND_UNUSED]. *)
Definition named : Module :=
  mkModule "top"
           [port "a" 1 true; port "b" 2 true; port "GND_UNUSED" 1 true]
           [port "y" 1 false] []
           (gates EmptyAndFull.full) [].

Definition named_ics : list ICInstance :=
  Eval vm_compute in
    match map_gates_to_ics (map copy_gate (gates named)) with
    | Ok ics => ics
    | _ => []
    end.

(** module top(input b, output y); assign y = b; endmodule *)
Definition alias_only : Module :=
  mkModule "top" [port "b" 1 true] [port "y" 1 false] []
           [mkGate "ALIAS" ["b"] "y" ""] [].

Definition alias_only_ics : list ICInstance :=
  Eval vm_compute in
    match map_gates_to_ics (map copy_gate (gates alias_only)) with
    | Ok ics => ics
    | _ => []
    end.

End UnusedPins.

(* ------------------------------------------------------------------ *)
(** * Properties *)

(** ** Decimal names are injective *)

Lemma str_of_nat_inj (n m : nat) : Py.str_of_nat n = Py.str_of_nat m -> n = m.
Proof.
  unfold Py.str_of_nat. intros H.
  apply (f_equal NilEmpty.uint_of_string) in H.
  rewrite !NilEmpty.usu in H. injection H as H.
  apply (f_equal Nat.of_uint) in H.
  now rewrite !DecimalNat.Unsigned.of_to in H.
Qed.

Lemma append_inj_l (p s1 s2 : string) : (p ++ s1 = p ++ s2)%string -> s1 = s2.
Proof.
  induction p as [|c p IH]; simpl; intros H; [exact H|].
  injection H as H. now apply IH.
Qed.

(* ------------------------------------------------------------------ *)
(** ** Strings *)

Module StringFacts.

Lemma append_nil_r s : (s ++ "")%string = s.
Proof. induction s as [|c s IH]; simpl; [reflexivity|now rewrite IH]. Qed.

Lemma append_assoc s1 s2 s3 :
  ((s1 ++ s2) ++ s3)%string = (s1 ++ s2 ++ s3)%string.
Proof. induction s1 as [|c s1 IH]; simpl; [reflexivity|now rewrite IH]. Qed.

Lemma length_append s1 s2 :
  String.length (s1 ++ s2) = String.length s1 + String.length s2.
Proof. induction s1 as [|c s1 IH]; simpl; [reflexivity|now rewrite IH]. Qed.

Lemma take_append s1 s2 : Py.take (String.length s1) (s1 ++ s2) = s1.
Proof. induction s1 as [|c s1 IH]; simpl; [now destruct s2|now rewrite IH]. Qed.

Lemma drop_append s1 s2 : Py.drop (String.length s1) (s1 ++ s2) = s2.
Proof. induction s1 as [|c s1 IH]; simpl; [reflexivity|exact IH]. Qed.

Lemma drop_add n m s : Py.drop (n + m) s = Py.drop m (Py.drop n s).
Proof.
  revert s. induction n as [|n IH]; intros s; simpl; [reflexivity|].
  destruct s as [|c s]; [now destruct m|apply IH].
Qed.

Lemma length_take n s : String.length (Py.take n s) <= n.
Proof.
  revert s. induction n as [|n IH]; intros [|c s]; simpl; try lia.
  specialize (IH s). lia.
Qed.

Lemma length_drop n s : String.length (Py.drop n s) = String.length s - n.
Proof.
  revert s. induction n as [|n IH]; intros [|c s]; simpl; try lia. apply IH.
Qed.

Lemma length_lstrip s : String.length (Py.lstrip s) <= String.length s.
Proof.
  induction s as [|c s IH]; simpl; [lia|].
  destruct (Py.isspace c); simpl; lia.
Qed.

Lemma length_rstrip_by p s :
  String.length (Py.rstrip_by p s) <= String.length s.
Proof.
  induction s as [|c s IH]; simpl; [lia|].
  destruct (Py.rstrip_by p s); [destruct (p c)|]; simpl in *; lia.
Qed.

Lemma length_strip s : String.length (Py.strip s) <= String.length s.
Proof.
  unfold Py.strip, Py.rstrip.
  pose proof (length_rstrip_by Py.isspace (Py.lstrip s)).
  pose proof (length_lstrip s). lia.
Qed.

Lemma lstrip_starts_clean s : starts_clean (Py.lstrip s).
Proof.
  induction s as [|c s IH]; simpl; [exact I|].
  destruct (Py.isspace c) eqn:B; [exact IH|exact B].
Qed.

Lemma lstrip_clean s : starts_clean s -> Py.lstrip s = s.
Proof. destruct s as [|c s]; simpl; [reflexivity|]. now intros ->. Qed.

Lemma rstrip_starts_clean s : starts_clean s -> starts_clean (Py.rstrip s).
Proof.
  destruct s as [|c s]; simpl; [auto|]. intros B. unfold Py.rstrip.
  cbn [Py.rstrip_by].
  destruct (Py.rstrip_by Py.isspace s); [rewrite B|]; exact B.
Qed.

Lemma rstrip_by_idem p s :
  Py.rstrip_by p (Py.rstrip_by p s) = Py.rstrip_by p s.
Proof.
  induction s as [|c s IH]; [reflexivity|]. cbn [Py.rstrip_by].
  destruct (Py.rstrip_by p s) as [|d r] eqn:R.
  - destruct (p c) eqn:P; [reflexivity|]. cbn [Py.rstrip_by]. now rewrite P.
  - cbn [Py.rstrip_by] in *. rewrite IH. reflexivity.
Qed.

Lemma strip_idem s : Py.strip (Py.strip s) = Py.strip s.
Proof.
  unfold Py.strip.
  rewrite (lstrip_clean (Py.rstrip (Py.lstrip s)))
    by apply rstrip_starts_clean, lstrip_starts_clean.
  apply rstrip_by_idem.
Qed.

Lemma ends_clean_app s1 s2 : ends_clean s2 -> ends_clean (s1 ++ s2).
Proof.
  intros [N R]. induction s1 as [|c s1 [N1 R1]]; [now split|].
  split; [discriminate|]. unfold Py.rstrip in *. cbn [append Py.rstrip_by].
  rewrite R1. now destruct (s1 ++ s2)%string.
Qed.

Lemma contains_nonempty c s : Py.contains c s = true -> exists n, String.length s = S n.
Proof. destruct s; [discriminate|]. simpl. eauto. Qed.

Lemma lstrip_append_clean s1 s2 :
  starts_clean s2 -> s2 <> "" ->
  Py.lstrip (s1 ++ s2) = (Py.lstrip s1 ++ s2)%string.
Proof.
  intros C N. induction s1 as [|c s1 IH]; simpl.
  - now apply lstrip_clean.
  - destruct (Py.isspace c); [exact IH|reflexivity].
Qed.

Lemma split1_append sep s1 s2 :
  Py.contains sep s1 = false ->
  Py.split1 sep (s1 ++ String sep s2) = Some (s1, s2).
Proof.
  induction s1 as [|c s1 IH]; simpl.
  - now rewrite Ascii.eqb_refl.
  - intros H. apply orb_false_iff in H as [Hc H]. rewrite Hc, (IH H).
    reflexivity.
Qed.

Lemma contains_lstrip c s :
  Py.contains c s = false -> Py.contains c (Py.lstrip s) = false.
Proof.
  induction s as [|d s IH]; simpl; [reflexivity|]. intros H.
  apply orb_false_iff in H as [Hd H].
  destruct (Py.isspace d); [auto|]. simpl. now rewrite Hd, H.
Qed.

Lemma rstrip_by_all_kept p s :
  Py.all_chars (fun c => negb (p c)) s = true -> Py.rstrip_by p s = s.
Proof.
  induction s as [|c s IH]; simpl; [reflexivity|]. intros H.
  apply andb_true_iff in H as [Hc H]. rewrite (IH H).
  apply negb_true_iff in Hc. rewrite Hc. now destruct s.
Qed.

Lemma rstrip_by_append_dropped p s c :
  p c = true -> Py.rstrip_by p (s ++ String c "") = Py.rstrip_by p s.
Proof.
  intros Hc. induction s as [|d s IH]; simpl; [now rewrite Hc|].
  now rewrite IH.
Qed.

Lemma word_not_blank c : Py.is_word c = true -> Py.isspace c = false.
Proof.
  destruct c as [[] [] [] [] [] [] [] []]; vm_compute; congruence.
Qed.

Lemma word_not_semicolon c : Py.is_word c = true -> (c =? ";")%char = false.
Proof.
  intros H. destruct (Ascii.eqb_spec c ";") as [->|]; [discriminate|reflexivity].
Qed.

Lemma all_word_match s :
  s <> "" -> Py.all_chars Py.is_word s = true -> Py.match_word_plus s = true.
Proof.
  unfold Py.match_word_plus. induction s as [|c s IH]; [contradiction|].
  intros _ H. cbn [Py.all_chars] in H. apply andb_true_iff in H as [Hc H].
  cbn [Py.match_plus_dollar]. rewrite Hc. simpl.
  destruct s as [|d s]; [reflexivity|].
  destruct d as [[] [] [] [] [] [] [] []]; destruct s;
    try (apply IH; [discriminate|exact H]); try reflexivity.
Qed.

Lemma all_chars_lstrip p s :
  Py.all_chars p s = true -> Py.all_chars p (Py.lstrip s) = true.
Proof.
  induction s as [|c tl IH]; simpl; [reflexivity|]. intros H.
  apply andb_true_iff in H as [Hc Htl].
  destruct (Py.isspace c); [auto|]. simpl. now rewrite Hc, Htl.
Qed.

Lemma all_chars_rstrip_by p q s :
  Py.all_chars p s = true -> Py.all_chars p (Py.rstrip_by q s) = true.
Proof.
  induction s as [|c tl IH]; simpl; [reflexivity|]. intros H.
  apply andb_true_iff in H as [Hc Htl]. specialize (IH Htl).
  destruct (Py.rstrip_by q tl) as [|d r].
  - destruct (q c); simpl; [reflexivity|]. now rewrite Hc.
  - cbn [Py.all_chars] in *. now rewrite Hc, IH.
Qed.

Lemma all_chars_strip p s :
  Py.all_chars p s = true -> Py.all_chars p (Py.strip s) = true.
Proof.
  intros H. unfold Py.strip, Py.rstrip.
  now apply all_chars_rstrip_by, all_chars_lstrip.
Qed.

(** Temporaries are left alone by [sanitize_signal_name]. *)
Lemma all_chars_app p s1 s2 :
  Py.all_chars p (s1 ++ s2) = Py.all_chars p s1 && Py.all_chars p s2.
Proof.
  induction s1 as [|c s1 IH]; simpl; [reflexivity|].
  now rewrite IH, andb_assoc.
Qed.

Lemma replace_char_absent c by_ s :
  Py.contains c s = false -> replace_char c by_ s = s.
Proof.
  induction s as [|d s IH]; simpl; [reflexivity|]. intros H.
  apply orb_false_iff in H as [Hd H]. now rewrite Hd, (IH H).
Qed.

End StringFacts.

Import StringFacts.

(** ** Scenario D: the carry of a full adder *)

Lemma carry_nets_distinct (n : nat) :
  NoDup (map output (carry_gates n) ++ ["a"; "b"; "cin"]).
Proof.
  assert (D23 : carry_t2 n <> carry_t3 n).
  { unfold carry_t2, carry_t3. intros H.
    apply append_inj_l, str_of_nat_inj in H. lia. }
  unfold carry_gates. cbn [map output app].
  unfold carry_t1, carry_t2, carry_t3 in *.
  repeat constructor; simpl; intuition;
    solve [discriminate | congruence].
Qed.

(** C1.  Scenario D, [assign co = (a&b)|(cin&(a^b));], from any value [n]
    of the temporary counter: the statement compiles to exactly the four
    gates AND(a,b)->t1, XOR(a,b)->t2, AND(cin,t2)->t3, OR(t1,t3)->co in
    this order, the temporaries are new names (the seven nets involved
    are pairwise distinct), and the packer turns the list into one
    74HC08 with the two AND gates in its first two slots, one 74HC86
    with the XOR and one 74HC32 with the OR, each in its first slot. *)
Theorem scenario_D_carry (n : nat) :
  _parse_assign_statement "assign co = (a&b)|(cin&(a^b));" n
    = Ok (carry_gates n, 8 + n)
  /\ NoDup (map output (carry_gates n) ++ ["a"; "b"; "cin"])
  /\ map_gates_to_ics (carry_gates n) = Ok (carry_ics n).
Proof.
  split; [reflexivity|].
  split; [apply carry_nets_distinct|].
  reflexivity.
Qed.

(* ------------------------------------------------------------------ *)
(** ** Dictionaries *)

Module DictFacts.

Lemma get_set_same {V} (d : Dict.t V) k v : Dict.get (Dict.set d k v) k = Some v.
Proof.
  induction d as [|[k' v'] d IH]; simpl.
  - now rewrite String.eqb_refl.
  - destruct (String.eqb_spec k' k) as [->|N]; simpl.
    + now rewrite String.eqb_refl.
    + apply String.eqb_neq in N. now rewrite N.
Qed.

Lemma get_set_other {V} (d : Dict.t V) k k' v :
  k <> k' -> Dict.get (Dict.set d k v) k' = Dict.get d k'.
Proof.
  intros N. induction d as [|[k0 v0] d IH]; simpl.
  - apply String.eqb_neq in N. now rewrite N.
  - destruct (String.eqb_spec k0 k) as [->|N0]; simpl.
    + apply String.eqb_neq in N. now rewrite N.
    + now rewrite IH.
Qed.

Lemma get_In_keys {V} (d : Dict.t V) k v :
  Dict.get d k = Some v -> In k (Dict.keys d).
Proof.
  induction d as [|[k0 v0] d IH]; simpl; [discriminate|].
  destruct (String.eqb_spec k0 k); auto.
Qed.

End DictFacts.

(* ------------------------------------------------------------------ *)
(** ** The flattener *)

Section Flatten.

Import DictFacts.

Variable modules : Dict.t Module.

(** The flat list only grows while the instances are visited. *)
Lemma inline_instances_extends rec insts flat flat' :
  inline_instances rec modules insts flat = Ok flat' ->
  exists more, flat' = flat ++ more.
Proof.
  revert flat. induction insts as [|inst rest IH]; simpl; intros flat H.
  - injection H as <-. exists []. now rewrite List.app_nil_r.
  - destruct (module_name inst =? "UNIT_DFFE")%string.
    + apply IH in H as [more ->]. rewrite <- app_assoc. eauto.
    + destruct (Dict.get modules (module_name inst)) as [sub|]; [|eauto].
      destruct (rec sub) as [sub_gates| |]; simpl in H; try discriminate.
      apply IH in H as [more ->]. rewrite <- app_assoc. eauto.
Qed.

(** What the visit of one instance of a declared module leaves in the
    flat list. *)
Lemma inline_instances_In rec insts flat flat' inst sub :
  inline_instances rec modules insts flat = Ok flat' ->
  In inst insts ->
  (module_name inst =? "UNIT_DFFE")%string = false ->
  Dict.get modules (module_name inst) = Some sub ->
  exists sub_gates,
    rec sub = Ok sub_gates /\
    forall g, In g sub_gates ->
      In (inline_gate inst (port_map_of (connections inst)) g) flat'.
Proof.
  revert flat. induction insts as [|i rest IH]; simpl; intros flat H HIn HU HG;
    [contradiction|].
  destruct HIn as [->|HIn].
  - rewrite HU, HG in H.
    destruct (rec sub) as [sub_gates| |]; simpl in H; try discriminate.
    exists sub_gates. split; [reflexivity|]. intros g Hg.
    apply inline_instances_extends in H as [more ->].
    apply in_or_app. left. apply in_or_app. right. now apply in_map.
  - destruct (module_name i =? "UNIT_DFFE")%string; [now apply (IH _ H)|].
    destruct (Dict.get modules (module_name i)) as [sub'|]; [|now apply (IH _ H)].
    destruct (rec sub') as [sg| |]; simpl in H; try discriminate.
    now apply (IH _ H).
Qed.

(** The visit of the instances ends normally when every recursive call
    that it makes does. *)
Lemma inline_instances_returns rec insts flat :
  (forall inst sub,
     In inst insts -> module_name inst <> "UNIT_DFFE" ->
     Dict.get modules (module_name inst) = Some sub ->
     exists sub_gates, rec sub = Ok sub_gates) ->
  exists flat', inline_instances rec modules insts flat = Ok flat'.
Proof.
  revert flat. induction insts as [|inst rest IH]; intros flat Hrec; simpl;
    [eauto|].
  assert (Hrest : forall i sub,
             In i rest -> module_name i <> "UNIT_DFFE" ->
             Dict.get modules (module_name i) = Some sub ->
             exists sub_gates, rec sub = Ok sub_gates)
    by (intros i sub Hin; apply Hrec; now right).
  destruct (String.eqb_spec (module_name inst) "UNIT_DFFE") as [E|N];
    [now apply IH|].
  destruct (Dict.get modules (module_name inst)) as [sub|] eqn:G;
    [|now apply IH].
  destruct (Hrec inst sub (or_introl eq_refl) N G) as [sub_gates ->].
  simpl. now apply IH.
Qed.

(** Flattening returns on every hierarchy without cycle, as soon as the
    recursion limit exceeds its depth. *)
Lemma flatten_returns d :
  forall m, hierarchy_within d modules m ->
  exists flat, flatten_module_gates (S d) m modules = Ok flat.
Proof.
  induction d as [|d IH]; intros m H; cbn [flatten_module_gates];
    apply inline_instances_returns; intros inst sub Hin N G.
  - destruct (H inst sub Hin N G).
  - apply IH. exact (H inst sub Hin N G).
Qed.

End Flatten.

(** The dictionary [port_map] holds the sanitized actual of every
    connection and nothing else. *)
Lemma port_map_fold_get conns acc k :
  NoDup (Dict.keys conns) ->
  Dict.get (fold_left
              (fun pm kv => Dict.set pm (fst kv) (sanitize_signal_name (snd kv)))
              conns acc) k
  = match Dict.get conns k with
    | Some v => Some (sanitize_signal_name v)
    | None => Dict.get acc k
    end.
Proof.
  revert acc. induction conns as [|[k0 v0] tl IH]; simpl; intros acc ND;
    [reflexivity|].
  inversion ND as [|? ? Hnotin ND']; subst.
  rewrite IH by assumption.
  destruct (String.eqb_spec k0 k) as [->|N].
  - destruct (Dict.get tl k) eqn:E.
    + apply DictFacts.get_In_keys in E. contradiction.
    + apply DictFacts.get_set_same.
  - destruct (Dict.get tl k); [reflexivity|].
    now apply DictFacts.get_set_other.
Qed.

Lemma port_map_of_get conns k :
  NoDup (Dict.keys conns) ->
  Dict.get (port_map_of conns) k
    = option_map sanitize_signal_name (Dict.get conns k).
Proof.
  intros ND. unfold port_map_of. rewrite port_map_fold_get by assumption.
  now destruct (Dict.get conns k).
Qed.

(** *** Inlining an instance (C2) *)

Lemma half_connected_flat :
  flatten_module_gates 2 HalfConnected.top HalfConnected.modules
  = Ok HalfConnected.flat.
Proof. reflexivity. Qed.

(** C2, as stated, fails: in [leaf u1 (.a(x), .t(w))] the formal port
    [b] has no actual and becomes [u1_b], and the internal net [t],
    which is no formal port, becomes [w]. *)
Lemma inlining_as_stated_fails : ~ inlining_as_stated.
Proof.
  intros C.
  destruct (C 1 HalfConnected.modules HalfConnected.top HalfConnected.flat
              HalfConnected.u1 HalfConnected.leaf)
    as [sub_gates [Hsub Hall]];
    [reflexivity | simpl; auto | discriminate | reflexivity |].
  injection Hsub as <-.
  destruct (Hall (mkGate "AND" ["a"; "b"] "t" "AND_2_t")) as [g' [Hin [Hty [Hins _]]]];
    [simpl; auto|].
  destruct Hin as [<-|[<-|[]]]; simpl in *; [|discriminate].
  inversion Hins as [|? ? ? ? _ Hb]; subst.
  inversion Hb as [|? ? ? ? [Hrule _] _]; subst.
  destruct Hrule as [actual [Hget _]]; [simpl; auto|].
  discriminate.
Qed.

(** C2, amended.  The flattening of a module over a hierarchy without
    cycle returns, and for each of its instantiations [inst] of a
    declared module [sub] that is not the virtual primitive, every gate
    of the flattened [sub] appears in the parent's flat list with each
    input net and the output net renamed by the connections of the
    instantiation: a net that the instantiation connects becomes the
    sanitized actual, any other net (a formal port left open included)
    becomes [L_net]; the tag becomes [L_tag]. *)
Theorem inlined_nets_follow_connections d modules module :
  hierarchy_within d modules module ->
  exists flat,
    flatten_module_gates (S d) module modules = Ok flat
    /\ forall inst sub,
         In inst (instances module) ->
         NoDup (Dict.keys (connections inst)) ->
         module_name inst <> "UNIT_DFFE" ->
         Dict.get modules (module_name inst) = Some sub ->
         exists sub_gates,
           flatten_module_gates d sub modules = Ok sub_gates /\
           forall g, In g sub_gates ->
             In (mkGate (gate_type g)
                        (map (actual_or_local inst) (inputs g))
                        (actual_or_local inst (output g))
                        (inst_name inst ++ "_" ++ instance_name g)%string)
                flat.
Proof.
  intros Hd. destruct (flatten_returns modules d module Hd) as [flat Hflat].
  exists flat. split; [exact Hflat|].
  intros inst sub Hin ND Hnv Hget. simpl in Hflat.
  apply String.eqb_neq in Hnv.
  destruct (@inline_instances_In modules _ _ _ _ inst sub Hflat Hin Hnv Hget)
    as [sub_gates [Hsub Hall]].
  exists sub_gates. split; [exact Hsub|]. intros g Hg.
  specialize (Hall g Hg). unfold inline_gate in Hall.
  assert (E : forall n, map_net inst (port_map_of (connections inst)) n
                        = actual_or_local inst n).
  { intros n0. unfold map_net, actual_or_local.
    rewrite port_map_of_get by assumption.
    now destruct (Dict.get (connections inst) n0). }
  rewrite E in Hall. rewrite (map_ext _ _ E) in Hall. exact Hall.
Qed.

Lemma inlined_nets_follow_connections_witness :
  exists flat,
    flatten_module_gates 2 HalfConnected.top HalfConnected.modules = Ok flat
    /\ forall inst sub,
         In inst (instances HalfConnected.top) ->
         NoDup (Dict.keys (connections inst)) ->
         module_name inst <> "UNIT_DFFE" ->
         Dict.get HalfConnected.modules (module_name inst) = Some sub ->
         exists sub_gates,
           flatten_module_gates 1 sub HalfConnected.modules = Ok sub_gates /\
           forall g, In g sub_gates ->
             In (mkGate (gate_type g)
                        (map (actual_or_local inst) (inputs g))
                        (actual_or_local inst (output g))
                        (inst_name inst ++ "_" ++ instance_name g)%string)
                flat.
Proof.
  apply (inlined_nets_follow_connections 1 HalfConnected.modules
           HalfConnected.top).
  simpl. intros inst sub [<-|[]] _ G. injection G as <-.
  simpl. intros inst sub [].
Defined.

(** *** Local gates of a module with instances (C3) *)

(** C3.  When the instance list of a module is not empty, its flattened
    gate list does not depend on the gates parsed from its own assign
    statements and always blocks: replacing them by any other list, the
    empty one included, leaves the result unchanged, so none of them is
    in it.  The local gates are copied (sanitized) only by a module
    without instances, whose flat list is exactly that copy. *)
Theorem local_gates_dropped_with_instances fuel module modules :
  instances module <> [] ->
  (forall gs,
     flatten_module_gates fuel (with_gates module gs) modules
       = flatten_module_gates fuel module modules)
  /\ (forall m, instances m = [] ->
        flatten_module_gates (S fuel) m modules
          = Ok (map copy_gate (gates m))).
Proof.
  intros Hne. split.
  - intros gs. destruct fuel as [|fuel']; [reflexivity|]. simpl.
    destruct (instances module) as [|i rest]; [contradiction|reflexivity].
  - intros m Hm. simpl. now rewrite Hm.
Qed.

Lemma local_gates_dropped_with_instances_witness :
  (forall gs,
     flatten_module_gates 2 (with_gates HalfConnected.top gs)
                          HalfConnected.modules
       = flatten_module_gates 2 HalfConnected.top HalfConnected.modules)
  /\ (forall m, instances m = [] ->
        flatten_module_gates 3 m HalfConnected.modules
          = Ok (map copy_gate (gates m))).
Proof.
  apply (@local_gates_dropped_with_instances 2 HalfConnected.top
           HalfConnected.modules).
  discriminate.
Defined.

(* ------------------------------------------------------------------ *)
(** ** The packer *)

Section Grouping.

Lemma group_of_add gc k g k' :
  group_of (group_add gc k g) k'
  = if (k =? k')%string then group_of gc k' ++ [g] else group_of gc k'.
Proof.
  unfold group_of. induction gc as [|[k0 l0] gc IH]; simpl.
  - now destruct (k =? k')%string.
  - destruct (String.eqb_spec k0 k) as [->|N0]; simpl.
    + now destruct (k =? k')%string.
    + destruct (String.eqb_spec k0 k') as [->|N1].
      * apply String.eqb_neq in N0. rewrite String.eqb_sym in N0.
        now rewrite N0.
      * exact IH.
Qed.

Lemma keys_group_add gc k g :
  Dict.keys (group_add gc k g)
  = if Dict.mem gc k then Dict.keys gc else Dict.keys gc ++ [k].
Proof.
  unfold Dict.mem. induction gc as [|[k0 l0] gc IH]; simpl; [reflexivity|].
  destruct (String.eqb_spec k0 k) as [->|N0]; simpl; [reflexivity|].
  rewrite IH. now destruct (Dict.get gc k).
Qed.

Lemma mem_false_not_In {V} (d : Dict.t V) k :
  Dict.mem d k = false -> ~ In k (Dict.keys d).
Proof.
  unfold Dict.mem. induction d as [|[k0 v0] d IH]; simpl; [tauto|].
  destruct (String.eqb_spec k0 k) as [->|N0]; [discriminate|].
  intros H [E|HIn]; [contradiction|]. now apply IH.
Qed.

Lemma NoDup_keys_group_add gc k g :
  NoDup (Dict.keys gc) -> NoDup (Dict.keys (group_add gc k g)).
Proof.
  intros ND. rewrite keys_group_add.
  destruct (Dict.mem gc k) eqn:E; [assumption|].
  apply mem_false_not_In in E.
  apply NoDup_rev in ND. rewrite <- (rev_involutive (_ ++ _)).
  apply NoDup_rev. rewrite rev_app_distr. simpl. constructor; [|assumption].
  now rewrite <- in_rev.
Qed.

(** The first loop of [map_gates_to_ics] ends normally when no ALIAS
    gate has an empty input list; it then holds, per kind, the gates of
    that kind in list order, and the alias links in list order. *)
Lemma group_gates_spec gates gc links :
  alias_sources_present gates ->
  NoDup (Dict.keys gc) ->
  exists gc',
    group_gates gates (gc, links)
      = Ok (gc', links ++ map link_of (filter is_alias gates))
    /\ NoDup (Dict.keys gc')
    /\ forall k, group_of gc' k
         = group_of gc k
           ++ filter (fun g => is_kind k g && negb (is_alias g)) gates.
Proof.
  revert gc links. induction gates as [|g gates IH]; intros gc links HA ND.
  - exists gc. simpl. rewrite !List.app_nil_r. repeat split; auto.
    intros k. now rewrite List.app_nil_r.
  - assert (HA' : alias_sources_present gates).
    { intros g' Hin. apply HA. now right. }
    simpl. unfold is_alias at 1, is_kind at 1.
    destruct (String.eqb_spec (gate_type g) "ALIAS") as [E|N].
    + destruct (inputs g) as [|src rest] eqn:Ei.
      { exfalso. apply (HA g); simpl; auto. }
      simpl. destruct (IH gc (links ++ [(output g, src)]) HA' ND)
        as [gc' [H1 [H2 H3]]].
      exists gc'. rewrite H1. unfold link_of at 2. rewrite Ei. simpl.
      rewrite <- List.app_assoc. simpl. repeat split; auto.
      intros k. rewrite H3. unfold is_alias, is_kind.
      rewrite E. simpl. now rewrite andb_false_r.
    + simpl.
      destruct (IH (group_add gc (gate_type g) g) links HA'
                   (@NoDup_keys_group_add gc (gate_type g) g ND)) as [gc' [H1 [H2 H3]]].
      exists gc'. rewrite H1. repeat split; auto.
      intros k. rewrite H3, group_of_add. unfold is_alias, is_kind.
      destruct (String.eqb_spec (gate_type g) "ALIAS"); [contradiction|].
      simpl. rewrite andb_true_r.
      destruct (gate_type g =? k)%string; [|reflexivity].
      now rewrite <- List.app_assoc.
Qed.

End Grouping.

Section Packing.

(** The catalog, entry by entry. *)
Lemma catalog_cases k m :
  Dict.get ic_mappings k = Some m ->
  (k, m_part_number m, gates_per_ic m)
  = ("AND", "74HC08", 4) \/
  (k, m_part_number m, gates_per_ic m) = ("OR", "74HC32", 4) \/
  (k, m_part_number m, gates_per_ic m) = ("XOR", "74HC86", 4) \/
  (k, m_part_number m, gates_per_ic m) = ("NOT", "74HC04", 6) \/
  (k, m_part_number m, gates_per_ic m) = ("DFF", "74HC74", 2).
Proof.
  unfold ic_mappings. cbn [Dict.get].
  repeat match goal with
         | |- context [String.eqb ?a k] =>
             destruct (String.eqb_spec a k) as [<-|?]
         end; intros H; try discriminate; injection H as <-; simpl; tauto.
Qed.

(** Distinct kinds are packed into distinct parts. *)
Lemma catalog_parts_inj k k' m m' :
  Dict.get ic_mappings k = Some m ->
  Dict.get ic_mappings k' = Some m' ->
  m_part_number m = m_part_number m' -> k = k'.
Proof.
  intros H H' E.
  apply catalog_cases in H. apply catalog_cases in H'.
  repeat match goal with
         | H : _ \/ _ |- _ => destruct H as [H|H]
         end;
    injection H as -> P ?; injection H' as -> P' ?;
    rewrite P, P' in E; solve [reflexivity | discriminate].
Qed.

Lemma catalog_slots_first k m :
  Dict.get ic_mappings k = Some m -> slots_first m = true.
Proof.
  unfold ic_mappings. cbn [Dict.get].
  repeat match goal with
         | |- context [String.eqb ?a k] =>
             destruct (String.eqb_spec a k) as [<-|?]
         end; intros H; try discriminate; injection H as <-; reflexivity.
Qed.

(** Placing at most as many gates as there are leading slots never
    reaches a power pin; the part number and the reference of the IC
    are untouched. *)
Lemma place_gates_ok pinout gate_names gs ic :
  (List.length gs <= List.length gate_names)%nat ->
  forallb (fun gate_name =>
             match Dict.get pinout gate_name with
             | Some (Slot _ _) => true
             | _ => false
             end) (firstn (List.length gs) gate_names) = true ->
  exists ic',
    place_gates pinout gate_names gs ic = Ok ic'
    /\ part_number ic' = part_number ic
    /\ instance_id ic' = instance_id ic
    /\ gates_of_ic ic' = gates_of_ic ic ++ gs.
Proof.
  revert gs ic. induction gate_names as [|nm names IH]; intros gs ic Hlen Hall.
  - destruct gs; simpl in *; [|lia]. exists ic. now rewrite List.app_nil_r.
  - destruct gs as [|g gs]; simpl in *.
    + exists ic. now rewrite List.app_nil_r.
    + apply andb_true_iff in Hall as [Hnm Hall].
      destruct (Dict.get pinout nm) as [[si so|p]|]; try discriminate.
      simpl.
      edestruct (IH gs) as [ic' [H1 [H2 [H3 H4]]]];
        [lia | exact Hall | ].
      exists ic'. rewrite H1. simpl in *. repeat split; auto.
      rewrite H4. now rewrite <- List.app_assoc.
Qed.

Lemma forallb_firstn {A} (p : A -> bool) n n' l :
  (n' <= n)%nat -> forallb p (firstn n l) = true ->
  forallb p (firstn n' l) = true.
Proof.
  revert n n'. induction l as [|x l IH]; intros n n' Hle H.
  - now rewrite firstn_nil.
  - destruct n' as [|n']; [reflexivity|].
    destruct n as [|n]; [lia|]. simpl in *.
    apply andb_true_iff in H as [Hx H]. rewrite Hx. simpl.
    apply (IH n); [lia|assumption].
Qed.

Lemma build_ic_ok k m gate_list ic_num n_ics :
  Dict.get ic_mappings k = Some m ->
  exists ic,
    build_ic m gate_list ic_num n_ics = Ok ic
    /\ part_number ic = m_part_number m
    /\ instance_id ic = ("U" ++ Py.str_of_nat (n_ics + 1))%string
    /\ gates_of_ic ic
       = firstn (gates_per_ic m) (skipn (ic_num * gates_per_ic m) gate_list).
Proof.
  intros Hm. apply catalog_slots_first in Hm. unfold slots_first in Hm.
  apply andb_true_iff in Hm as [Hm Hpos].
  apply andb_true_iff in Hm as [Hslots Hlen].
  apply Nat.leb_le in Hlen. apply Nat.ltb_lt in Hpos.
  unfold build_ic.
  set (start_idx := ic_num * gates_per_ic m).
  set (chunk := firstn _ (skipn start_idx gate_list)).
  assert (Hchunk : chunk = firstn (gates_per_ic m) (skipn start_idx gate_list)).
  { unfold chunk.
    destruct (Nat.le_ge_cases (start_idx + gates_per_ic m)
                              (List.length gate_list)) as [L|L].
    - rewrite Nat.min_l by assumption. f_equal. lia.
    - rewrite Nat.min_r by assumption.
      rewrite !firstn_all2 by (rewrite length_skipn; lia).
      reflexivity. }
  assert (Hcl : (List.length chunk <= gates_per_ic m)%nat).
  { rewrite Hchunk. rewrite length_firstn. lia. }
  edestruct (place_gates_ok (pinout m) (Dict.keys (pinout m)) chunk)
    as [ic' [H1 [H2 [H3 H4]]]].
  - lia.
  - eapply forallb_firstn; [exact Hcl|exact Hslots].
  - rewrite H1. simpl. eexists. split; [reflexivity|]. simpl.
    rewrite H2, H3, H4. simpl. auto.
Qed.

Lemma catalog_power_pins k m :
  Dict.get ic_mappings k = Some m ->
  pin_of (pinout m) "vcc" = "14" /\ pin_of (pinout m) "gnd" = "7".
Proof.
  unfold ic_mappings. cbn [Dict.get].
  repeat match goal with
         | |- context [String.eqb ?a k] =>
             destruct (String.eqb_spec a k) as [<-|?]
         end; intros H; try discriminate; injection H as <-; split; reflexivity.
Qed.

Lemma build_ic_powered k m gate_list ic_num n_ics ic :
  Dict.get ic_mappings k = Some m ->
  build_ic m gate_list ic_num n_ics = Ok ic ->
  powered ic.
Proof.
  intros Hm. destruct (catalog_power_pins k m Hm) as [Ev Eg].
  unfold build_ic. rewrite Ev, Eg.
  destruct (place_gates _ _ _ _) as [ic'| |]; simpl; try discriminate.
  intros H. injection H as <-. unfold powered. simpl. split.
  - rewrite DictFacts.get_set_other by discriminate.
    apply DictFacts.get_set_same.
  - apply DictFacts.get_set_same.
Qed.

Lemma count_part_app p l1 l2 :
  count_part p (l1 ++ l2) = count_part p l1 + count_part p l2.
Proof. unfold count_part. now rewrite filter_app, length_app. Qed.

Lemma build_ics_spec k m gate_list ic_nums ic_instances :
  Dict.get ic_mappings k = Some m ->
  exists new,
    build_ics m gate_list ic_nums ic_instances = Ok (ic_instances ++ new)
    /\ List.length new = List.length ic_nums
    /\ Forall (fun ic => part_number ic = m_part_number m) new
    /\ Forall powered new.
Proof.
  intros Hm. revert ic_instances.
  induction ic_nums as [|i rest IH]; intros ics; simpl.
  - exists []. now rewrite List.app_nil_r.
  - destruct (build_ic_ok k m gate_list i (List.length ics) Hm)
      as [ic [H1 [H2 _]]].
    pose proof (build_ic_powered k m gate_list i (List.length ics) ic Hm H1)
      as P.
    rewrite H1. simpl.
    destruct (IH (ics ++ [ic])) as [new [H3 [H4 [H5 H6]]]].
    exists (ic :: new). rewrite H3, <- List.app_assoc. simpl.
    repeat split; auto.
Qed.

End Packing.

(** *** IC counts (C5) *)

Lemma ic_count_ceil n c : (0 < c)%nat -> ic_count n c = ceil_div n c.
Proof.
  intros Hc. unfold ic_count, ceil_div.
  pose proof (Nat.div_mod_eq n c) as E.
  pose proof (Nat.mod_upper_bound n c ltac:(lia)) as B.
  destruct (Nat.eqb_spec (n mod c) 0) as [Z|NZ].
  - symmetry. rewrite Nat.add_0_r.
    apply (Nat.div_unique _ _ _ (c - 1)); lia.
  - symmetry. apply (Nat.div_unique _ _ _ (n mod c - 1)); lia.
Qed.

Lemma count_part_same p q l :
  Forall (fun ic => part_number ic = q) l ->
  count_part p l = if (q =? p)%string then List.length l else 0.
Proof.
  unfold count_part, has_part. induction 1 as [|ic l Hq _ IH]; simpl.
  - now destruct (q =? p)%string.
  - rewrite Hq. destruct (q =? p)%string; simpl; now rewrite IH.
Qed.

Lemma pack_groups_spec gate_counts ic_instances :
  exists new,
    pack_groups gate_counts ic_instances = Ok (ic_instances ++ new)
    /\ (forall p, count_part p new = ics_for gate_counts p)
    /\ Forall (fun ic => In (part_number ic) real_parts) new
    /\ Forall powered new.
Proof.
  revert ic_instances.
  induction gate_counts as [|[k l] rest IH]; intros ics;
    cbn [pack_groups ics_for].
  - exists []. rewrite List.app_nil_r. repeat split; auto.
  - destruct (Dict.get ic_mappings k) as [m|] eqn:Hm.
    + destruct (build_ics_spec k m l
                  (seq 0 (ic_count (List.length l) (gates_per_ic m))) ics Hm)
        as [new1 [H1 [H2 [H3 P1]]]].
      rewrite H1. simpl.
      destruct (IH (ics ++ new1)) as [new2 [H4 [H5 [H6 P2]]]].
      exists (new1 ++ new2). rewrite H4, List.app_assoc.
      split; [reflexivity|]. split; [|split].
      * intros p. rewrite count_part_app, H5, (count_part_same p _ _ H3).
        now rewrite H2, length_seq.
      * apply Forall_app. split; [|assumption].
        eapply Forall_impl; [|exact H3]. intros ic ->.
        apply catalog_cases in Hm. unfold real_parts.
        destruct Hm as [Hm|[Hm|[Hm|[Hm|Hm]]]];
          injection Hm as _ P _; rewrite P; simpl; tauto.
      * apply Forall_app. now split.
    + destruct (IH ics) as [new [H4 [H5 [H6 P]]]]. exists new. auto.
Qed.

Lemma ic_count_0 c : ic_count 0 c = 0.
Proof.
  unfold ic_count. destruct c as [|c]; [reflexivity|].
  apply Nat.div_small. lia.
Qed.

(** With one entry per kind, the ICs of a part are those of its kind. *)
Lemma ics_for_kind gate_counts k m :
  NoDup (Dict.keys gate_counts) ->
  Dict.get ic_mappings k = Some m ->
  ics_for gate_counts (m_part_number m)
  = ic_count (List.length (group_of gate_counts k)) (gates_per_ic m).
Proof.
  intros ND Hm. unfold group_of.
  induction gate_counts as [|[k0 l0] rest IH]; cbn [ics_for Dict.get].
  - now rewrite ic_count_0.
  - inversion ND as [|? ? Hnotin ND']; subst.
    rewrite IH by assumption.
    destruct (String.eqb_spec k0 k) as [->|N].
    + rewrite Hm, String.eqb_refl.
      destruct (Dict.get rest k) eqn:E.
      * apply DictFacts.get_In_keys in E. contradiction.
      * cbn [List.length]. rewrite ic_count_0. lia.
    + destruct (Dict.get ic_mappings k0) as [m0|] eqn:Hm0; [|reflexivity].
      destruct (String.eqb_spec (m_part_number m0) (m_part_number m)) as [E|_];
        [|reflexivity].
      exfalso. apply N. exact (catalog_parts_inj k0 k m0 m Hm0 Hm E).
Qed.

Lemma filter_kind_not_alias k gates :
  k <> "ALIAS" ->
  filter (fun g => is_kind k g && negb (is_alias g)) gates
  = filter (is_kind k) gates.
Proof.
  intros N. apply filter_ext. intros g. unfold is_alias, is_kind.
  destruct (String.eqb_spec (gate_type g) k) as [E|_]; [|reflexivity].
  destruct (String.eqb_spec (gate_type g) "ALIAS"); [congruence|reflexivity].
Qed.

(** The result of the packer: the real ICs, then the alias pseudo-IC
    when there is an ALIAS gate. *)
Lemma map_gates_to_ics_spec gates :
  alias_sources_present gates ->
  exists real,
    map_gates_to_ics gates
      = Ok (real ++ match filter is_alias gates with
                    | [] => []
                    | als => [alias_ic (map link_of als)]
                    end)
    /\ Forall (fun ic => In (part_number ic) real_parts) real
    /\ Forall powered real
    /\ forall k m, Dict.get ic_mappings k = Some m ->
         count_part (m_part_number m) real
         = ceil_div (count_kind k gates) (gates_per_ic m).
Proof.
  intros HA. unfold map_gates_to_ics.
  destruct (group_gates_spec gates [] [] HA (NoDup_nil _))
    as [gc [H1 [H2 H3]]].
  unfold Dict.t in H1 |- *. rewrite H1. cbn [bind app].
  destruct (pack_groups_spec gc []) as [real [H4 [H5 [H6 P]]]].
  rewrite H4. simpl. exists real. split.
  - destruct (filter is_alias gates); simpl; [now rewrite List.app_nil_r|].
    reflexivity.
  - split; [assumption|]. split; [assumption|]. intros k m Hm.
    rewrite H5, (ics_for_kind gc k m H2 Hm), H3. simpl.
    rewrite filter_kind_not_alias.
    + apply ic_count_ceil.
      pose proof (catalog_slots_first k m Hm) as S. unfold slots_first in S.
      apply andb_true_iff in S as [_ S]. now apply Nat.ltb_lt.
    + intros ->. discriminate.
Qed.

(** C5.  For every gate list whose ALIAS gates carry their source net,
    the packer ends normally and returns the real ICs followed by the
    alias pseudo-IC (present exactly when there is an ALIAS gate).
    Among the real ICs, the number of ICs of each part is the ceiling of
    the number of gates of its kind over the capacity of the part:
    AND/74HC08, OR/74HC32 and XOR/74HC86 hold 4, NOT/74HC04 holds 6,
    DFF/74HC74 holds 2; every real IC is one of these five parts, so an
    ALIAS gate allocates none. *)
Theorem packer_allocates_ceiling gates :
  alias_sources_present gates ->
  exists real,
    map_gates_to_ics gates
      = Ok (real ++ match filter is_alias gates with
                    | [] => []
                    | als => [alias_ic (map link_of als)]
                    end)
    /\ Forall (fun ic => In (part_number ic) real_parts) real
    /\ count_part "74HC08" real = ceil_div (count_kind "AND" gates) 4
    /\ count_part "74HC32" real = ceil_div (count_kind "OR" gates) 4
    /\ count_part "74HC86" real = ceil_div (count_kind "XOR" gates) 4
    /\ count_part "74HC04" real = ceil_div (count_kind "NOT" gates) 6
    /\ count_part "74HC74" real = ceil_div (count_kind "DFF" gates) 2.
Proof.
  intros HA.
  destruct (map_gates_to_ics_spec gates HA) as [real [H1 [H2 [_ H3]]]].
  exists real. split; [exact H1|]. split; [exact H2|].
  repeat split.
  - exact (H3 "AND" _ eq_refl).
  - exact (H3 "OR" _ eq_refl).
  - exact (H3 "XOR" _ eq_refl).
  - exact (H3 "NOT" _ eq_refl).
  - exact (H3 "DFF" _ eq_refl).
Qed.

Lemma packer_allocates_ceiling_witness :
  exists real,
    map_gates_to_ics FiveAnds.gates
      = Ok (real ++ match filter is_alias FiveAnds.gates with
                    | [] => []
                    | als => [alias_ic (map link_of als)]
                    end)
    /\ Forall (fun ic => In (part_number ic) real_parts) real
    /\ count_part "74HC08" real = ceil_div (count_kind "AND" FiveAnds.gates) 4
    /\ count_part "74HC32" real = ceil_div (count_kind "OR" FiveAnds.gates) 4
    /\ count_part "74HC86" real = ceil_div (count_kind "XOR" FiveAnds.gates) 4
    /\ count_part "74HC04" real = ceil_div (count_kind "NOT" FiveAnds.gates) 6
    /\ count_part "74HC74" real = ceil_div (count_kind "DFF" FiveAnds.gates) 2.
Proof.
  apply (packer_allocates_ceiling FiveAnds.gates).
  intros g Hin Hty. unfold FiveAnds.gates in Hin. simpl in Hin.
  repeat (destruct Hin as [<-|Hin]; [discriminate|]). contradiction.
Defined.

(** *** Aliases (C9) *)

(** A list of ALIAS gates only is packed into the pseudo-IC alone. *)
Lemma group_gates_alias_only gates gc links :
  Forall (fun g => gate_type g = "ALIAS" /\ inputs g <> []) gates ->
  group_gates gates (gc, links) = Ok (gc, links ++ map link_of gates).
Proof.
  intros H. revert links. induction H as [|g gates [Hty Hin] _ IH];
    intros links; simpl.
  - now rewrite List.app_nil_r.
  - rewrite Hty. simpl. destruct (inputs g) as [|src rest] eqn:E;
      [contradiction|]. simpl. rewrite IH, <- List.app_assoc.
    unfold link_of at 2. now rewrite E.
Qed.

Lemma alias_only_packing gates :
  gates <> [] ->
  Forall (fun g => gate_type g = "ALIAS" /\ inputs g <> []) gates ->
  map_gates_to_ics gates = Ok [alias_ic (map link_of gates)].
Proof.
  intros Hne H. unfold map_gates_to_ics.
  pose proof (group_gates_alias_only gates [] [] H) as E.
  unfold Dict.t in E |- *. rewrite E. simpl.
  destruct gates; [contradiction|reflexivity].
Qed.

(** C9, at the failing input.  With a blank between the identifier and
    the semicolon the alias test [^\w+$] sees ["b "] and fails, the
    generic compiler lowers the lone identifier to no gate, and the
    assignment is lost; without the blank the ALIAS gate is produced.
    Packing a list of ALIAS gates yields the pseudo-IC only. *)
Theorem alias_lost_before_semicolon (n : nat) :
  _parse_assign_statement "assign y = b ;" n = Ok ([], n)
  /\ _parse_assign_statement "assign y = b;" n
     = Ok ([mkGate "ALIAS" ["b"] "y" ""], n)
  /\ map_gates_to_ics [mkGate "ALIAS" ["b"] "y" ""]
     = Ok [mkIC "ALIAS" "N/A" "ALIAS" [] [("y", "b")]].
Proof. repeat split; reflexivity. Qed.

(* ------------------------------------------------------------------ *)
(** ** Arity of the constructed gates (C6) *)

Section Arity.




(** A register block: every gate is a DFF whose inputs are the data of
    one non-blocking assignment, then the clock of the header. *)
Lemma always_gates_shape header block g :
  In g (always_gates header block) ->
  exists clk q d,
    search_posedge header = Some clk
    /\ In (q, d) (nonblocking_assignments block)
    /\ g = mkGate "DFF"
                  [sanitize_signal_name d; sanitize_signal_name clk]
                  (sanitize_signal_name q) "".
Proof.
  unfold always_gates. destruct (search_posedge header) as [clk|];
    [|contradiction].
  intros H. apply in_map_iff in H as [[q d] [<- Hin]].
  exists clk, q, d. auto.
Qed.







End Arity.

(* ------------------------------------------------------------------ *)
(** ** Drivers of the nets (C7) *)

Section SingleDriver.

Lemma is_temp_inj k k' s : is_temp k s -> is_temp k' s -> k = k'.
Proof.
  intros [b [Hb ->]] [b' [Hb' E]]. unfold temp_bases in *. simpl in Hb, Hb'.
  destruct Hb as [<-|[<-|[<-|[]]]]; destruct Hb' as [<-|[<-|[<-|[]]]];
    simpl in E; try discriminate; injection E as E;
    now apply str_of_nat_inj.
Qed.

Lemma new_temp_eq b counter :
  In b temp_bases ->
  exists t, _new_temp b counter = (t, S counter) /\ is_temp (S counter) t.
Proof. intros Hb. eexists. split; [reflexivity|]. now exists b. Qed.

Lemma ast_to_gates_outputs node :
  forall target n acc,
    exists sig n' new,
      ast_to_gates node target n acc = (sig, n', acc ++ new)
      /\ n <= n'
      /\ Forall (drawn_between n n' target) (map output new)
      /\ ((forall k, n < k -> ~ is_temp k target) -> NoDup (map output new)).
Proof.
  induction node as [src|a IHa|op a IHa b IHb]; intros target n acc;
    cbn [ast_to_gates].
  - exists src, n, []. rewrite List.app_nil_r.
    split; [|repeat split; auto; constructor].
    destruct (String.eqb_spec target src) as [->|]; reflexivity.
  - destruct (new_temp_eq "n" n) as [tn [-> T1]]; [simpl; auto|].
    destruct (IHa tn (S n) acc) as [a_sig [c2 [new1 [E [L [F ND]]]]]].
    rewrite E. eexists target, c2, (new1 ++ [_]).
    rewrite <- List.app_assoc. split; [reflexivity|]. split; [lia|].
    assert (F' : Forall (fun o => exists k, n < k <= c2 /\ is_temp k o)
                        (map output new1)).
    { eapply Forall_impl; [|exact F]. intros o [->|[k [Hk Ho]]].
      - exists (S n). split; [lia|assumption].
      - exists k. split; [lia|assumption]. }
    rewrite map_app. cbn [map output]. split.
    + apply Forall_app. split.
      * eapply Forall_impl; [|exact F']. intros o Ho. now right.
      * constructor; [now left|constructor].
    + intros Htarget. apply NoDup_app.
      * apply ND. intros k Hk Hk'. pose proof (is_temp_inj _ _ _ T1 Hk'). lia.
      * repeat constructor; simpl; tauto.
      * intros o Ho [<-|[]]. rewrite Forall_forall in F'.
        destruct (F' _ Ho) as [k [Hk Hk']]. apply (Htarget k); [lia|assumption].
  - destruct (new_temp_eq "l" n) as [tl [-> T1]]; [simpl; auto|].
    destruct (IHa tl (S n) acc) as [left_sig [c2 [new1 [E1 [L1 [F1 ND1]]]]]].
    rewrite E1.
    destruct (new_temp_eq "r" c2) as [tr [-> T3]]; [simpl; auto|].
    destruct (IHb tr (S c2) (acc ++ new1))
      as [right_sig [c4 [new2 [E2 [L2 [F2 ND2]]]]]].
    rewrite E2. eexists target, c4, (new1 ++ new2 ++ [_]).
    rewrite <- !List.app_assoc. split; [reflexivity|]. split; [lia|].
    assert (F1' : Forall (fun o => exists k, n < k <= c2 /\ is_temp k o)
                         (map output new1)).
    { eapply Forall_impl; [|exact F1]. intros o [->|[k [Hk Ho]]].
      - exists (S n). split; [lia|assumption].
      - exists k. split; [lia|assumption]. }
    assert (F2' : Forall (fun o => exists k, c2 < k <= c4 /\ is_temp k o)
                         (map output new2)).
    { eapply Forall_impl; [|exact F2]. intros o [->|[k [Hk Ho]]].
      - exists (S c2). split; [lia|assumption].
      - exists k. split; [lia|assumption]. }
    rewrite !map_app. cbn [map output]. split.
    + apply Forall_app; split; [|apply Forall_app; split].
      * eapply Forall_impl; [|exact F1']. intros o [k [Hk Ho]].
        right. exists k. split; [lia|assumption].
      * eapply Forall_impl; [|exact F2']. intros o [k [Hk Ho]].
        right. exists k. split; [lia|assumption].
      * constructor; [now left|constructor].
    + intros Htarget. rewrite Forall_forall in F1', F2'.
      apply NoDup_app; [|apply NoDup_app|].
      * apply ND1. intros k Hk Hk'. pose proof (is_temp_inj _ _ _ T1 Hk'). lia.
      * apply ND2. intros k Hk Hk'. pose proof (is_temp_inj _ _ _ T3 Hk'). lia.
      * repeat constructor; simpl; tauto.
      * intros o Ho [<-|[]].
        destruct (F2' _ Ho) as [k [Hk Hk']].
        apply (Htarget k); [lia|assumption].
      * intros o Ho1 Ho2. destruct (F1' _ Ho1) as [k1 [Hk1 Ht1]].
        apply in_app_or in Ho2 as [Ho2|[<-|[]]].
        -- destruct (F2' _ Ho2) as [k2 [Hk2 Ht2]].
           pose proof (is_temp_inj _ _ _ Ht1 Ht2). lia.
        -- apply (Htarget k1); [lia|assumption].
Qed.

End SingleDriver.

Lemma is_temp_starts_tmp k s : is_temp k s -> Py.startswith "tmp_" s = true.
Proof. intros [b [_ ->]]. reflexivity. Qed.

Lemma parse_boolean_expr_outputs expr target n gates n' :
  _parse_boolean_expr_to_gates expr target n = Ok (gates, n') ->
  n <= n'
  /\ Forall (drawn_between n n' target) (map output gates)
  /\ ((forall k, n < k -> ~ is_temp k target) -> single_driver gates).
Proof.
  unfold _parse_boolean_expr_to_gates, single_driver.
  destruct (_tokenize_boolean_expr _) as [tokens| |]; simpl; try discriminate.
  destruct (_shunting_yard tokens) as [|t rpn].
  - intros H. injection H as <- <-. repeat split; auto; constructor.
  - destruct (_rpn_to_ast (t :: rpn)) as [[tree|]| |]; simpl; try discriminate.
    + destruct (ast_to_gates_outputs tree target n [])
        as [sg [c [new [E [L [F ND]]]]]].
      rewrite E. simpl. intros H. injection H as <- <-. auto.
    + intros H. injection H as <- <-. repeat split; auto; constructor.
Qed.

(** The gates of the two designs, as parsed from their statements. *)
Lemma double_driven_parsed :
  parse_assign_lines ["assign y = a & b;"; "assign y = a | b;"] 0 []
    = Ok (gates DoubleDriven.twice, 4)
  /\ parse_assign_lines ["assign a[0] = x & y;"; "assign a_0 = x | y;"] 0 []
     = Ok (gates DoubleDriven.bit_and_scalar, 4).
Proof. split; reflexivity. Qed.

(** C7, as stated, fails.  Two assign statements with the same
    left-hand side give two gates that drive [y]; the distinct nets
    [a[0]] and [a_0] are both sanitized to [a_0]. *)
Lemma single_driver_fails :
  (exists flat,
     flatten_module_gates 1 DoubleDriven.twice
                          [("top", DoubleDriven.twice)] = Ok flat
     /\ map output flat = ["y"; "y"]
     /\ ~ single_driver flat)
  /\ (exists flat,
        flatten_module_gates 1 DoubleDriven.bit_and_scalar
                             [("top", DoubleDriven.bit_and_scalar)] = Ok flat
        /\ map output flat = ["a_0"; "a_0"]
        /\ ~ single_driver flat).
Proof.
  split; eexists; (split; [reflexivity|]); (split; [reflexivity|]);
    unfold single_driver; simpl; intros H;
    inversion H as [|? ? Hn _]; apply Hn; simpl; auto.
Qed.

(** The nets driven by the gates of one assign statement. *)
Lemma assign_statement_outputs line n gates n' :
  (forall k, n < k -> ~ is_temp k (assign_lhs line)) ->
  _parse_assign_statement line n = Ok (gates, n') ->
  single_driver gates
  /\ n <= n'
  /\ Forall (drawn_between n n' (assign_lhs line)) (map output gates).
Proof.
  intros NT. unfold _parse_assign_statement, assign_lhs in *.
  destruct (Py.split1 "=" _) as [[output expression]|].
  - destruct (Py.match_word_plus _).
    + intros H. injection H as <- <-. unfold single_driver. simpl.
      repeat split; auto.
      * repeat constructor; simpl; tauto.
      * repeat constructor.
    + intros H. apply parse_boolean_expr_outputs in H as [L [F ND]]. auto.
  - intros H. injection H as <- <-. unfold single_driver.
    repeat split; auto; constructor.
Qed.

Section LeafModule.

Lemma digits_plain d :
  Py.all_chars plain_char (NilEmpty.string_of_uint d) = true.
Proof. induction d; simpl; auto. Qed.

Lemma plain_chars_absent c s :
  plain_char c = false ->
  Py.all_chars plain_char s = true -> Py.contains c s = false.
Proof.
  intros Hc. induction s as [|d s IH]; simpl; [reflexivity|]. intros H.
  apply andb_true_iff in H as [Hd H]. rewrite (IH H), orb_false_r.
  destruct (Ascii.eqb_spec d c) as [->|]; [congruence|reflexivity].
Qed.

Lemma sanitize_plain s :
  Py.all_chars plain_char s = true -> sanitize_signal_name s = s.
Proof.
  intros H. unfold sanitize_signal_name.
  assert (E : Py.strip s = s).
  { unfold Py.strip, Py.rstrip.
    assert (Hb : Py.all_chars (fun c => negb (Py.isspace c)) s = true).
    { clear -H. induction s as [|c s IH]; simpl in *; [reflexivity|].
      apply andb_true_iff in H as [Hc H]. rewrite (IH H), andb_true_r.
      unfold plain_char in Hc. now destruct (Py.isspace c). }
    rewrite (lstrip_clean s).
    - now apply rstrip_by_all_kept.
    - destruct s as [|c s]; simpl in *; [exact I|].
      apply andb_true_iff in Hb as [Hc _]. now apply negb_true_iff in Hc. }
  rewrite E.
  rewrite (replace_char_absent "[" "_" s)
    by (now apply plain_chars_absent).
  rewrite (replace_char_absent "]" "" s)
    by (now apply plain_chars_absent).
  now apply replace_char_absent, plain_chars_absent.
Qed.

Lemma sanitize_temp k s : is_temp k s -> sanitize_signal_name s = s.
Proof.
  intros [b [Hb ->]]. apply sanitize_plain.
  unfold temp_bases in Hb. simpl in Hb.
  destruct Hb as [<-|[<-|[<-|[]]]]; simpl; apply digits_plain.
Qed.

Lemma assign_statement_flat_outputs line n gates n' :
  Py.startswith "tmp_" (sanitized_lhs line) = false ->
  _parse_assign_statement line n = Ok (gates, n') ->
  n <= n'
  /\ Forall (fun o => o = sanitized_lhs line
                      \/ exists k, n < k <= n' /\ is_temp k o)
            (flat_outputs gates)
  /\ NoDup (flat_outputs gates).
Proof.
  intros Hs H.
  assert (NT : forall k, ~ is_temp k (assign_lhs line)).
  { intros k T. pose proof (sanitize_temp _ _ T) as E.
    apply is_temp_starts_tmp in T. unfold sanitized_lhs in Hs.
    rewrite E in Hs. congruence. }
  destruct (assign_statement_outputs line n gates n' (fun k _ => NT k) H)
    as [ND [L F]].
  split; [exact L|]. unfold flat_outputs, single_driver in *.
  rewrite map_map. cbn [copy_gate output].
  rewrite <- (map_map output sanitize_signal_name).
  assert (F' : Forall (fun o => sanitize_signal_name o = sanitized_lhs line
                                /\ o = assign_lhs line
                                \/ exists k, n < k <= n' /\ is_temp k o
                                             /\ sanitize_signal_name o = o)
                      (map output gates)).
  { eapply Forall_impl; [|exact F]. intros o [->|[k [Hk T]]].
    - left. split; reflexivity.
    - right. exists k. repeat split; try tauto. now apply (sanitize_temp k). }
  clear F. split.
  - apply Forall_forall. intros o Ho. apply in_map_iff in Ho as [o' [<- Ho']].
    rewrite Forall_forall in F'. destruct (F' _ Ho') as [[E _]|[k [Hk [T E]]]].
    + now left.
    + right. exists k. rewrite E. tauto.
  - induction ND as [|o os Hnotin ND IH]; simpl; [constructor|].
    inversion F' as [|? ? Fo Fos]; subst. constructor; [|now apply IH].
    intros Hin. apply in_map_iff in Hin as [o' [E Ho']].
    rewrite Forall_forall in Fos. specialize (Fos _ Ho').
    assert (o' = o); [|now subst].
    destruct Fo as [[Eo ->]|[k [Hk [T Eo]]]];
      destruct Fos as [[Eo' ->]|[k' [Hk' [T' Eo']]]]; try reflexivity.
    + exfalso. rewrite Eo' in E. rewrite <- E in Eo.
      apply is_temp_starts_tmp in T'. rewrite Eo in T'. congruence.
    + exfalso. rewrite Eo in E. rewrite E in Eo'.
      apply is_temp_starts_tmp in T. rewrite <- Eo' in Hs. congruence.
    + congruence.
Qed.

(** The same over the statements of a module body. *)
Lemma assign_lines_flat_outputs lines :
  forall n acc gates n',
    parse_assign_lines lines n acc = Ok (gates, n') ->
    Forall (fun l => Py.startswith "tmp_" (sanitized_lhs l) = false) lines ->
    exists new,
      gates = acc ++ new
      /\ n <= n'
      /\ Forall (fun o => In o (map sanitized_lhs lines)
                          \/ exists k, n < k <= n' /\ is_temp k o)
                (flat_outputs new)
      /\ (NoDup (map sanitized_lhs lines) -> NoDup (flat_outputs new)).
Proof.
  induction lines as [|line rest IH]; intros n acc gates n' H Hs;
    cbn [parse_assign_lines] in H.
  - injection H as <- <-. exists []. rewrite List.app_nil_r.
    repeat split; auto; constructor.
  - inversion Hs as [|? ? Hl Hrest]; subst.
    destruct (_parse_assign_statement line n) as [[gs n1]| |] eqn:E;
      simpl in H; try discriminate.
    destruct (assign_statement_flat_outputs line n gs n1 Hl E)
      as [L1 [F1 ND1]].
    destruct (IH n1 (acc ++ gs) gates n' H Hrest) as [new [-> [L2 [F2 ND2]]]].
    exists (gs ++ new). rewrite <- List.app_assoc.
    split; [reflexivity|]. split; [lia|].
    unfold flat_outputs in *. rewrite !map_app. split.
    + apply Forall_app. split.
      * eapply Forall_impl; [|exact F1]. intros o [->|[k [Hk T]]].
        -- left. now left.
        -- right. exists k. split; [lia|assumption].
      * eapply Forall_impl; [|exact F2]. intros o [Hin|[k [Hk T]]].
        -- left. now right.
        -- right. exists k. split; [lia|assumption].
    + intros ND. cbn [map] in ND. inversion ND as [|? ? Hnotin NDrest]; subst.
      apply NoDup_app; [exact ND1|now apply ND2|].
      intros o Ho1 Ho2. rewrite Forall_forall in F1, F2, Hrest.
      destruct (F1 _ Ho1) as [->|[k1 [Hk1 T1]]];
        destruct (F2 _ Ho2) as [Hin|[k2 [Hk2 T2]]].
      * contradiction.
      * apply is_temp_starts_tmp in T2. congruence.
      * apply in_map_iff in Hin as [l [<- Hl']].
        apply is_temp_starts_tmp in T1. specialize (Hrest _ Hl'). congruence.
      * pose proof (is_temp_inj _ _ _ T1 T2). lia.
Qed.

End LeafModule.

(* ------------------------------------------------------------------ *)
(** ** Malformed right-hand sides (C4) *)

(** C4, as stated, fails.  An opening parenthesis that is never closed
    does not empty the assignment: the gate of [a & b] is emitted.  A
    trailing operator and an empty parenthesis after an operator end in
    the [IndexError] of [stack.pop()]. *)
Lemma malformed_not_dropped :
  _parse_assign_statement "assign y = (a & b;" 0
    = Ok ([mkGate "AND" ["a"; "b"] "y" "AND_2_y"], 2)
  /\ _parse_assign_statement "assign y = a &;" 0 = Raise IndexError
  /\ _parse_assign_statement "assign y = a & ();" 0 = Raise IndexError.
Proof. repeat split; reflexivity. Qed.

Section EmptyExpressions.

Lemma blank_or_paren_no_question s :
  Py.all_chars blank_or_paren s = true -> Py.contains "?" s = false.
Proof.
  induction s as [|c tl IH]; simpl; [reflexivity|]. intros H.
  apply andb_true_iff in H as [Hc Htl]. rewrite (IH Htl), orb_false_r.
  destruct (Ascii.eqb_spec c "?") as [->|]; [discriminate|reflexivity].
Qed.

Lemma paren_is_op c :
  blank_or_paren c = true -> Py.isspace c = false -> is_op_char c = true
  /\ is_paren (String c "").
Proof.
  unfold blank_or_paren. intros H Hs. rewrite Hs in H. simpl in H.
  apply orb_true_iff in H as [H|H]; apply Ascii.eqb_eq in H; subst c;
    split; try reflexivity; [now left|now right].
Qed.

Lemma tokenize_blank_or_paren s :
  Py.all_chars blank_or_paren s = true ->
  forall tokens, exists parens,
    tokenize_from s tokens = Ok (tokens ++ parens) /\ Forall is_paren parens.
Proof.
  induction s as [|c tl IH]; intros H tokens.
  - exists []. simpl. now rewrite List.app_nil_r.
  - cbn [Py.all_chars] in H. apply andb_true_iff in H as [Hc Htl].
    cbn [tokenize_from].
    destruct (Py.isspace c) eqn:Hs; [now apply IH|].
    destruct (paren_is_op c Hc Hs) as [-> Hp].
    destruct (IH Htl (tokens ++ [String c ""])) as [parens [E F]].
    exists (String c "" :: parens). rewrite E, <- List.app_assoc.
    split; [reflexivity|]. now constructor.
Qed.

(** On parentheses alone the shunting yard outputs nothing; what it
    leaves on the operator stack are opening parentheses. *)
Lemma sy_parens_only parens :
  Forall is_paren parens ->
  forall ops, Forall (eq "(") ops ->
    exists ops', fold_left sy_step parens ([], ops) = ([], ops')
                 /\ Forall (eq "(") ops'.
Proof.
  induction 1 as [|t parens [->| ->] _ IH]; intros ops Hops; simpl.
  - eauto.
  - apply IH. now constructor.
  - destruct Hops as [|o ops <- Hops]; simpl; [apply IH; constructor|].
    now apply IH.
Qed.

Lemma rpn_loop_open_parens rpn stack :
  Forall (eq "(") rpn -> rpn_loop rpn stack = Ok stack.
Proof. induction 1 as [|t rpn <- _ IH]; simpl; [reflexivity|exact IH]. Qed.

End EmptyExpressions.

Section UnmatchedClose.

Lemma open_parens_cons o ops :
  open_parens (o :: ops)
  = if (o =? "(")%string then S (open_parens ops) else open_parens ops.
Proof. unfold open_parens. cbn [filter]. now destruct (o =? "(")%string. Qed.

Lemma close_paren_open_parens output ops :
  open_parens (snd (close_paren output ops)) = Nat.pred (open_parens ops).
Proof.
  revert output. induction ops as [|o ops IH]; intros output;
    cbn [close_paren]; [reflexivity|].
  rewrite open_parens_cons.
  destruct (o =? "(")%string; [reflexivity|]. apply IH.
Qed.

Lemma pop_higher_open_parens pt output ops :
  open_parens (snd (pop_higher pt output ops)) = open_parens ops.
Proof.
  revert output. induction ops as [|o ops IH]; intros output;
    cbn [pop_higher]; [reflexivity|].
  destruct (prec o) as [po|] eqn:P; [|reflexivity].
  destruct (_ || _); [|reflexivity].
  rewrite IH, open_parens_cons.
  destruct (String.eqb_spec o "(") as [->|]; [discriminate|reflexivity].
Qed.

Lemma sy_step_open_parens st t :
  open_parens (snd (sy_step st t))
  = paren_depth_step (open_parens (snd st)) t.
Proof.
  destruct st as [output ops].
  destruct (String.eqb_spec t "(") as [->|N1]; [reflexivity|].
  destruct (String.eqb_spec t ")") as [->|N2];
    [exact (close_paren_open_parens output ops)|].
  unfold sy_step, paren_depth_step. cbn [snd].
  apply String.eqb_neq in N1, N2. rewrite N1, N2.
  destruct (Py.match_identifier t); [reflexivity|].
  destruct (prec t) as [pt|] eqn:P; [|reflexivity].
  pose proof (pop_higher_open_parens pt output ops) as E.
  destruct (pop_higher pt output ops) as [output' ops']. cbn [snd] in *.
  now rewrite open_parens_cons, N1.
Qed.

Lemma sy_state_open_parens tokens st :
  open_parens (snd (fold_left sy_step tokens st))
  = fold_left paren_depth_step tokens (open_parens (snd st)).
Proof.
  revert st. induction tokens as [|t tokens IH]; intros st; simpl;
    [reflexivity|].
  now rewrite IH, sy_step_open_parens.
Qed.

Lemma close_paren_none_open output ops :
  open_parens ops = 0 -> close_paren output ops = (output ++ ops, []).
Proof.
  revert output. induction ops as [|o ops IH]; intros output;
    cbn [close_paren].
  - now rewrite List.app_nil_r.
  - rewrite open_parens_cons.
    destruct (o =? "(")%string; [discriminate|].
    intros H. rewrite (IH _ H), <- List.app_assoc. reflexivity.
Qed.

(** A closing parenthesis without an opening one is ignored. *)
Lemma shunting_yard_unmatched_close tokens :
  paren_depth tokens = 0 ->
  _shunting_yard (tokens ++ [")"]) = _shunting_yard tokens.
Proof.
  unfold _shunting_yard, paren_depth. intros H.
  rewrite fold_left_app. simpl.
  pose proof (sy_state_open_parens tokens ([], [])) as E.
  simpl in E. change (open_parens []) with 0 in E. rewrite H in E.
  destruct (fold_left sy_step tokens ([], [])) as [output ops]. simpl in *.
  rewrite (close_paren_none_open output ops E). unfold sy_flush. simpl.
  now rewrite List.app_nil_r.
Qed.

End UnmatchedClose.

(* ------------------------------------------------------------------ *)
(** ** Ternary rewriting (C10) *)

(** C10, as stated, fails on a string whose closing parentheses have no
    opening ones: they hide the second [?] and the second [:] from the
    first pass and expose them, at depth 0, to the second pass. *)
Lemma rewrite_twice_differs :
  _rewrite_ternary_to_bool "a?))?:)):"
    = "((a) & ())?)) | ((~(a)) & ()):))"
  /\ _rewrite_ternary_to_bool (_rewrite_ternary_to_bool "a?))?:)):")
     = "((((a) & ())) & ()) | ((~(a)) & ()))) | ((~(((a) & ()))) & ())))"
  /\ _rewrite_ternary_to_bool (_rewrite_ternary_to_bool "a?))?:)):")
     <> _rewrite_ternary_to_bool "a?))?:)):".
Proof. repeat split; try reflexivity. discriminate. Qed.

Section Ternary.

Lemma walk_app d s1 s2 :
  walk d (s1 ++ s2)
  = match walk d s1 with
    | Some d' => walk d' s2
    | None => None
    end.
Proof.
  revert d. induction s1 as [|c s1 IH]; intros d; simpl; [reflexivity|].
  destruct (c =? "(")%char; [apply IH|].
  destruct (c =? ")")%char; [|apply IH].
  destruct d; [reflexivity|apply IH].
Qed.

Lemma walk_shift k d s d' :
  walk d s = Some d' -> walk (k + d) s = Some (k + d').
Proof.
  revert d. induction s as [|c s IH]; intros d; simpl.
  - intros H. injection H as <-. reflexivity.
  - destruct (c =? "(")%char.
    + intros H. apply IH in H. now rewrite Nat.add_succ_r in H.
    + destruct (c =? ")")%char; [|apply IH].
      destruct d as [|d]; [discriminate|].
      intros H. apply IH in H. now rewrite Nat.add_succ_r.
Qed.

Lemma blank_not_paren c :
  Py.isspace c = true -> (c =? "(")%char = false /\ (c =? ")")%char = false.
Proof.
  intros H. split.
  - destruct (Ascii.eqb_spec c "(") as [->|]; [discriminate|reflexivity].
  - destruct (Ascii.eqb_spec c ")") as [->|]; [discriminate|reflexivity].
Qed.

Lemma walk_lstrip d s : walk d (Py.lstrip s) = walk d s.
Proof.
  induction s as [|c s IH]; simpl; [reflexivity|].
  destruct (Py.isspace c) eqn:B; [|reflexivity].
  destruct (blank_not_paren c B) as [-> ->]. exact IH.
Qed.

Lemma walk_rstrip d s : walk d (Py.rstrip s) = walk d s.
Proof.
  unfold Py.rstrip. revert d.
  induction s as [|c s IH]; intros d; [reflexivity|].
  cbn [Py.rstrip_by].
  destruct (Py.rstrip_by Py.isspace s) as [|c' r] eqn:R.
  - destruct (Py.isspace c) eqn:B.
    + cbn [walk]. destruct (blank_not_paren c B) as [-> ->].
      rewrite <- IH. reflexivity.
    + cbn [walk]. destruct (c =? "(")%char; [now rewrite <- IH|].
      destruct (c =? ")")%char; [|now rewrite <- IH].
      destruct d; [reflexivity|now rewrite <- IH].
  - cbn [walk]. destruct (c =? "(")%char; [apply IH|].
    destruct (c =? ")")%char; [|apply IH].
    destruct d; [reflexivity|apply IH].
Qed.

Lemma walk_strip d s : walk d (Py.strip s) = walk d s.
Proof. unfold Py.strip. now rewrite walk_rstrip, walk_lstrip. Qed.

(** Inside parentheses the scan of [find_top_ternary] only counts. *)
Lemma find_skip s1 rest i k d0 d1 q_pos :
  walk d0 s1 = Some d1 ->
  find_top_ternary_loop (s1 ++ rest) i (S (k + d0)) q_pos
  = find_top_ternary_loop rest (i + String.length s1) (S (k + d1)) q_pos.
Proof.
  revert i d0. induction s1 as [|c s1 IH]; intros i d0;
    cbn [walk append find_top_ternary_loop String.length].
  - intros H. injection H as <-. now rewrite Nat.add_0_r.
  - rewrite Nat.add_succ_r. destruct (c =? "(")%char.
    + intros H. specialize (IH (S i) (S d0) H).
      rewrite Nat.add_succ_r in IH. exact IH.
    + destruct (c =? ")")%char.
      * destruct d0 as [|d0]; [discriminate|]. intros H.
        specialize (IH (S i) d0 H). rewrite Nat.add_succ_r. exact IH.
      * intros H. specialize (IH (S i) d0 H).
        cbn [Nat.eqb]. rewrite !andb_false_r. exact IH.
Qed.

Lemma find_skip_balanced s1 rest i k q_pos :
  balanced s1 ->
  find_top_ternary_loop (s1 ++ rest) i (S k) q_pos
  = find_top_ternary_loop rest (i + String.length s1) (S k) q_pos.
Proof.
  intros B. pose proof (find_skip s1 rest i k 0 0 q_pos B) as H.
  now rewrite Nat.add_0_r in H.
Qed.

(** The text that [rewrite] produces has no ternary at depth 0. *)
Lemma find_ternary_text cond_r then_r else_r :
  balanced cond_r -> balanced then_r -> balanced else_r ->
  find_top_ternary (ternary_text cond_r then_r else_r) = None.
Proof.
  intros Bc Bt Be. unfold find_top_ternary, ternary_text. simpl.
  rewrite find_skip_balanced by assumption. simpl.
  rewrite find_skip_balanced by assumption. simpl.
  rewrite find_skip_balanced by assumption. simpl.
  rewrite find_skip_balanced by assumption. simpl.
  reflexivity.
Qed.

Lemma walk_balanced k s : balanced s -> walk k s = Some k.
Proof.
  intros B. pose proof (walk_shift k 0 s 0 B) as H.
  now rewrite Nat.add_0_r in H.
Qed.

Lemma balanced_ternary_text cond_r then_r else_r :
  balanced cond_r -> balanced then_r -> balanced else_r ->
  balanced (ternary_text cond_r then_r else_r).
Proof.
  unfold ternary_text. intros Bc Bt Be. unfold balanced. simpl.
  rewrite walk_app, (walk_balanced 2 cond_r Bc). simpl.
  rewrite walk_app, (walk_balanced 2 then_r Bt). simpl.
  rewrite walk_app, (walk_balanced 3 cond_r Bc). simpl.
  rewrite walk_app, (walk_balanced 2 else_r Be). simpl.
  reflexivity.
Qed.

(** After the [?]: the scan stops at the first [:] of depth 0. *)
Lemma find_colon s :
  forall i d q q' c,
    find_top_ternary_loop s i d (Some q) = Some (q', c) ->
    walk d s <> None ->
    q' = q
    /\ exists s2 s3,
         s = (s2 ++ String ":" s3)%string
         /\ c = i + String.length s2
         /\ walk d s2 = Some 0
         /\ walk d s = walk 0 s3.
Proof.
  induction s as [|c0 tl IH]; intros i d q q' c H W; [discriminate|].
  cbn [find_top_ternary_loop] in H. cbn [walk] in W |- *.
  destruct (c0 =? "(")%char eqn:E1.
  { destruct (IH _ _ _ _ _ H W) as [-> [s2 [s3 [-> [-> [W2 W3]]]]]].
    split; [reflexivity|]. exists (String c0 s2), s3.
    cbn [append String.length walk]. rewrite E1.
    repeat split; auto; try lia. }
  destruct (c0 =? ")")%char eqn:E2.
  { destruct d as [|d]; [contradiction|]. cbn [Nat.pred] in H.
    destruct (IH _ _ _ _ _ H W) as [-> [s2 [s3 [-> [-> [W2 W3]]]]]].
    split; [reflexivity|]. exists (String c0 s2), s3.
    cbn [append String.length walk]. rewrite E1, E2.
    repeat split; auto; try lia. }
  destruct ((c0 =? "?")%char && (d =? 0)%nat) eqn:E3.
  { destruct (IH _ _ _ _ _ H W) as [-> [s2 [s3 [-> [-> [W2 W3]]]]]].
    split; [reflexivity|]. exists (String c0 s2), s3.
    cbn [append String.length walk]. rewrite E1, E2.
    repeat split; auto; try lia. }
  destruct ((c0 =? ":")%char && (d =? 0)%nat) eqn:E4.
  { injection H as <- <-. split; [reflexivity|].
    apply andb_true_iff in E4 as [Ec Ed].
    apply Ascii.eqb_eq in Ec. apply Nat.eqb_eq in Ed. subst c0 d.
    exists "", tl. cbn [append String.length walk]. repeat split; auto. }
  destruct (IH _ _ _ _ _ H W) as [-> [s2 [s3 [-> [-> [W2 W3]]]]]].
  split; [reflexivity|]. exists (String c0 s2), s3.
  cbn [append String.length walk]. rewrite E1, E2.
  repeat split; auto; try lia.
Qed.

(** A ternary found in a balanced string cuts it into three balanced
    parts. *)
Lemma find_ternary_split s :
  forall i d q c,
    find_top_ternary_loop s i d None = Some (q, c) ->
    walk d s = Some 0 ->
    exists s1 s2 s3,
      s = (s1 ++ String "?" (s2 ++ String ":" s3))%string
      /\ q = i + String.length s1
      /\ c = q + 1 + String.length s2
      /\ walk d s1 = Some 0
      /\ balanced s2 /\ balanced s3.
Proof.
  induction s as [|c0 tl IH]; intros i d q c H W; [discriminate|].
  cbn [find_top_ternary_loop] in H. cbn [walk] in W.
  destruct (c0 =? "(")%char eqn:E1.
  { destruct (IH _ _ _ _ H W) as [s1 [s2 [s3 [-> [-> [-> [W1 [B2 B3]]]]]]]].
    exists (String c0 s1), s2, s3.
    cbn [append String.length walk]. rewrite E1.
    repeat split; auto; lia. }
  destruct (c0 =? ")")%char eqn:E2.
  { destruct d as [|d]; [discriminate|]. cbn [Nat.pred] in H.
    destruct (IH _ _ _ _ H W) as [s1 [s2 [s3 [-> [-> [-> [W1 [B2 B3]]]]]]]].
    exists (String c0 s1), s2, s3.
    cbn [append String.length walk]. rewrite E1, E2.
    repeat split; auto; lia. }
  destruct ((c0 =? "?")%char && (d =? 0)%nat) eqn:E3.
  { apply andb_true_iff in E3 as [Ec Ed].
    apply Ascii.eqb_eq in Ec. apply Nat.eqb_eq in Ed. subst c0 d.
    destruct (find_colon tl (S i) 0 i q c H) as [-> [s2 [s3 [-> [-> [W2 W3]]]]]];
      [congruence|].
    exists "", s2, s3. cbn [append String.length walk].
    repeat split; auto; try lia. unfold balanced. congruence. }
  destruct ((c0 =? ":")%char && (d =? 0)%nat) eqn:E4.
  { destruct (IH _ _ _ _ H W) as [s1 [s2 [s3 [-> [-> [-> [W1 [B2 B3]]]]]]]].
    exists (String c0 s1), s2, s3.
    cbn [append String.length walk]. rewrite E1, E2.
    repeat split; auto; lia. }
  destruct (IH _ _ _ _ H W) as [s1 [s2 [s3 [-> [-> [-> [W1 [B2 B3]]]]]]]].
  exists (String c0 s1), s2, s3.
  cbn [append String.length walk]. rewrite E1, E2.
  repeat split; auto; lia.
Qed.

(** The three slices that [rewrite] takes. *)
Lemma ternary_slices s1 s2 s3 :
  let s := (s1 ++ String "?" (s2 ++ String ":" s3))%string in
  let q := String.length s1 in
  let c := q + 1 + String.length s2 in
  Py.take q s = s1
  /\ Py.slice (S q) c s = s2
  /\ Py.drop (S c) s = s3.
Proof.
  cbv zeta. split; [apply take_append|]. split.
  - unfold Py.slice.
    replace (S (String.length s1)) with (String.length s1 + 1) by lia.
    rewrite drop_add, drop_append. cbn [Py.drop].
    replace (_ - _) with (String.length s2) by lia. apply take_append.
  - replace (S (String.length s1 + 1 + String.length s2))
      with (String.length s1 + (1 + (String.length s2 + 1))) by lia.
    rewrite drop_add, drop_append. cbn [Nat.add Py.drop].
    rewrite drop_add, drop_append. reflexivity.
Qed.

Lemma rewrite_fuel_balanced fuel :
  forall s, balanced s -> balanced (rewrite_fuel fuel s).
Proof.
  induction fuel as [|fuel IH]; intros s B; [exact B|].
  cbn [rewrite_fuel].
  destruct (find_top_ternary s) as [[q c]|] eqn:F; [|exact B].
  destruct (find_ternary_split s 0 0 q c F B)
    as [s1 [s2 [s3 [-> [-> [-> [B1 [B2 B3]]]]]]]].
  cbn [Nat.add].
  destruct (ternary_slices s1 s2 s3) as [T1 [T2 T3]]. cbn [Nat.add] in *.
  rewrite T1, T2, T3.
  apply balanced_ternary_text; apply IH; unfold balanced;
    rewrite walk_strip; assumption.
Qed.

(** What one pass returns on a balanced string. *)
Lemma rewrite_fuel_shape fuel s :
  balanced s ->
  (find_top_ternary s = None /\ rewrite_fuel (S fuel) s = s)
  \/ exists cond_r then_r else_r,
       rewrite_fuel (S fuel) s = ternary_text cond_r then_r else_r
       /\ balanced cond_r /\ balanced then_r /\ balanced else_r.
Proof.
  intros B. cbn [rewrite_fuel].
  destruct (find_top_ternary s) as [[q c]|] eqn:F; [right|left; auto].
  destruct (find_ternary_split s 0 0 q c F B)
    as [s1 [s2 [s3 [-> [-> [-> [B1 [B2 B3]]]]]]]].
  cbn [Nat.add].
  destruct (ternary_slices s1 s2 s3) as [T1 [T2 T3]]. cbn [Nat.add] in *.
  rewrite T1, T2, T3. do 3 eexists. split; [reflexivity|].
  repeat split; apply rewrite_fuel_balanced; unfold balanced;
    rewrite walk_strip; assumption.
Qed.

Lemma strip_ternary_text cond_r then_r else_r :
  Py.strip (ternary_text cond_r then_r else_r)
  = ternary_text cond_r then_r else_r.
Proof.
  unfold Py.strip. rewrite lstrip_clean by reflexivity.
  unfold ternary_text. repeat apply ends_clean_app. now split.
Qed.

End Ternary.

(** A stripped text without a ternary at depth 0 is a fixed point. *)
Lemma rewrite_ternary_fixed r :
  Py.strip r = r ->
  (Py.contains "?" r = true -> find_top_ternary r = None) ->
  _rewrite_ternary_to_bool r = r.
Proof.
  intros S F. unfold _rewrite_ternary_to_bool. rewrite S.
  destruct (Py.contains "?" r) eqn:Q; cbn [negb]; [|reflexivity].
  unfold rewrite. destruct (contains_nonempty _ _ Q) as [f ->].
  cbn [rewrite_fuel]. now rewrite (F eq_refl).
Qed.

(** C10, amended.  On every expression whose parentheses are balanced,
    a second application of the ternary rewriting returns the result of
    the first: the rewritten text has every [?] inside parentheses. *)
Theorem rewrite_ternary_idempotent expr :
  balanced expr ->
  _rewrite_ternary_to_bool (_rewrite_ternary_to_bool expr)
  = _rewrite_ternary_to_bool expr.
Proof.
  intros B.
  assert (Be : balanced (Py.strip expr))
    by (unfold balanced; now rewrite walk_strip).
  assert (R : exists r, _rewrite_ternary_to_bool expr = r
                        /\ Py.strip r = r
                        /\ (Py.contains "?" r = true ->
                            find_top_ternary r = None)).
  { unfold _rewrite_ternary_to_bool.
    destruct (Py.contains "?" (Py.strip expr)) eqn:Q; cbn [negb].
    - unfold rewrite. destruct (contains_nonempty _ _ Q) as [f ->].
      destruct (rewrite_fuel_shape f _ Be)
        as [[Fn ->]|[cond_r [then_r [else_r [-> [Bc [Bt Bl]]]]]]].
      + eexists. split; [reflexivity|]. split; [apply strip_idem|auto].
      + eexists. split; [reflexivity|].
        split; [apply strip_ternary_text|].
        intros _. now apply find_ternary_text.
    - eexists. split; [reflexivity|]. split; [apply strip_idem|].
      congruence. }
  destruct R as [r [-> [S F]]]. now apply rewrite_ternary_fixed.
Qed.

Lemma rewrite_ternary_idempotent_witness :
  _rewrite_ternary_to_bool
    (_rewrite_ternary_to_bool "s ? (p ? a : b) : c ? d : e")
  = _rewrite_ternary_to_bool "s ? (p ? a : b) : c ? d : e".
Proof.
  apply (rewrite_ternary_idempotent "s ? (p ? a : b) : c ? d : e").
  reflexivity.
Defined.

(** *** The fuel of [rewrite] *)

Section RewriteFuel.

Lemma find_bounds s :
  forall i d q_pos q c,
    find_top_ternary_loop s i d q_pos = Some (q, c) ->
    (forall q0, q_pos = Some q0 -> q0 < i) ->
    q < c /\ c < i + String.length s.
Proof.
  induction s as [|c0 tl IH]; intros i d q_pos q c H Hq; [discriminate|].
  cbn [find_top_ternary_loop String.length] in *.
  assert (Hq' : forall q0, q_pos = Some q0 -> q0 < S i)
    by (intros q0 E; specialize (Hq q0 E); lia).
  assert (Step : forall d', find_top_ternary_loop tl (S i) d' q_pos = Some (q, c) ->
                            q < c /\ c < i + S (String.length tl)).
  { intros d' H'. destruct (IH _ _ _ _ _ H' Hq'). lia. }
  destruct (c0 =? "(")%char; [now apply (Step (S d))|].
  destruct (c0 =? ")")%char; [now apply (Step (Nat.pred d))|].
  destruct ((c0 =? "?")%char && (d =? 0)%nat).
  { destruct q_pos as [q0|]; [now apply (Step d)|].
    destruct (IH _ _ _ _ _ H) as [? ?]; [|lia].
    intros q0 E. injection E as <-. lia. }
  destruct ((c0 =? ":")%char && (d =? 0)%nat); [|now apply (Step d)].
  destruct q_pos as [q0|]; [|now apply (Step d)].
  injection H as <- <-. specialize (Hq q0 eq_refl). lia.
Qed.

(** Any fuel of at least [len(s)] gives the same text: the recursion of
    [rewrite] is on strictly shorter strings. *)
Lemma rewrite_fuel_enough f1 :
  forall f2 s,
    String.length s <= f1 -> String.length s <= f2 ->
    rewrite_fuel f1 s = rewrite_fuel f2 s.
Proof.
  assert (E0 : forall f, rewrite_fuel f "" = "") by (intros [|f]; reflexivity).
  induction f1 as [|f1 IH]; intros f2 s H1 H2.
  - destruct s; [now rewrite E0|simpl in H1; lia].
  - destruct f2 as [|f2]; [destruct s; [now rewrite E0|simpl in H2; lia]|].
    cbn [rewrite_fuel].
    destruct (find_top_ternary s) as [[q c]|] eqn:F; [|reflexivity].
    destruct (find_bounds s 0 0 None q c F) as [Hqc Hc]; [discriminate|].
    cbn [Nat.add] in Hc.
    pose proof (length_strip (Py.take q s)).
    pose proof (length_take q s).
    pose proof (length_strip (Py.slice (S q) c s)).
    pose proof (length_take (c - S q) (Py.drop (S q) s)).
    pose proof (length_strip (Py.drop (S c) s)).
    pose proof (length_drop (S c) s).
    unfold Py.slice in *.
    rewrite (IH f2 (Py.strip (Py.take q s))) by lia.
    rewrite (IH f2 (Py.strip (Py.take (c - S q) (Py.drop (S q) s)))) by lia.
    rewrite (IH f2 (Py.strip (Py.drop (S c) s))) by lia.
    reflexivity.
Qed.

End RewriteFuel.

(* ------------------------------------------------------------------ *)
(** ** The nets section (C8) *)

(** C8, as stated, fails.  A module without gates has no IC: its nets
    section holds the connector nets only.  A module whose only IC has
    every slot in use has no unused pin: no [GND_UNUSED] net. *)
Lemma nets_section_lacks_power_and_unused :
  (exists nets,
     synthesized_nets 1 EmptyAndFull.empty [] = Ok nets
     /\ net_names nets = ["a"; "b_0"; "b_1"; "y"]
     /\ ~ In "VCC" (net_names nets) /\ ~ In "GND" (net_names nets)
     /\ ~ In "GND_UNUSED" (net_names nets))
  /\ (exists nets,
        synthesized_nets 1 EmptyAndFull.full [] = Ok nets
        /\ net_names nets
           = ["VCC"; "GND"; "a"; "b_0"; "b_1"; "y"; "t1"; "t2"; "t3"]
        /\ ~ In "GND_UNUSED" (net_names nets)).
Proof.
  split.
  - exists (KiCadNetlistExporter.signal_nets EmptyAndFull.empty []).
    split; [vm_compute; reflexivity|].
    assert (E : net_names (KiCadNetlistExporter.signal_nets
                             EmptyAndFull.empty [])
                = ["a"; "b_0"; "b_1"; "y"]) by (vm_compute; reflexivity).
    rewrite E. repeat split; simpl; intuition discriminate.
  - destruct (synthesized_nets 1 EmptyAndFull.full []) as [nets| |] eqn:S;
      try (vm_compute in S; discriminate).
    exists nets. split; [reflexivity|].
    assert (E : net_names nets
                = ["VCC"; "GND"; "a"; "b_0"; "b_1"; "y"; "t1"; "t2"; "t3"]).
    { vm_compute in S. injection S as <-. vm_compute. reflexivity. }
    rewrite E. split; [reflexivity|]. simpl. intuition discriminate.
Qed.

Section Nets.

Import KiCadNetlistExporter.

Lemma mem_set {V} (d : Dict.t V) k v p :
  Dict.mem (Dict.set d k v) p = Dict.mem d p || (k =? p)%string.
Proof.
  unfold Dict.mem. destruct (String.eqb_spec k p) as [->|N].
  - rewrite DictFacts.get_set_same. now rewrite orb_true_r.
  - rewrite DictFacts.get_set_other by assumption. now rewrite orb_false_r.
Qed.

Lemma mem_remove_other {V} (d : Dict.t V) k p :
  k <> p -> Dict.mem d p = true -> Dict.mem (Dict.remove d k) p = true.
Proof.
  unfold Dict.mem. intros N. induction d as [|[k0 v0] d IH]; simpl; [auto|].
  destruct (String.eqb_spec k0 k) as [->|N0].
  - apply String.eqb_neq in N. now rewrite N.
  - simpl. destruct (k0 =? p)%string; auto.
Qed.

Lemma mem_In_keys {V} (d : Dict.t V) p :
  Dict.mem d p = true -> In p (Dict.keys d).
Proof.
  unfold Dict.mem. destruct (Dict.get d p) eqn:E; [|discriminate].
  intros _. now apply DictFacts.get_In_keys in E.
Qed.

Lemma get_In {V} (d : Dict.t V) k v : Dict.get d k = Some v -> In (k, v) d.
Proof.
  induction d as [|[k0 v0] d IH]; simpl; [discriminate|].
  destruct (String.eqb_spec k0 k) as [->|]; [|auto].
  intros H. injection H as <-. now left.
Qed.

Lemma mem_nets_add nets k x p :
  Dict.mem (nets_add nets k x) p = Dict.mem nets p || (k =? p)%string.
Proof. unfold nets_add. destruct (Dict.get nets k); apply mem_set. Qed.

(** *** Signal nets *)

Lemma add_connectors_mem prefix nets signal p :
  Dict.mem (add_connectors prefix nets signal) p
  = Dict.mem nets p || mem_string p (connector_names signal).
Proof.
  unfold add_connectors, connector_names.
  destruct (1 <? width signal)%nat.
  - generalize (seq 0 (width signal)). intros l. revert nets.
    induction l as [|i l IH]; intros nets; simpl.
    + now rewrite orb_false_r.
    + rewrite IH, mem_nets_add, <- orb_assoc. f_equal. f_equal.
      apply String.eqb_sym.
  - rewrite mem_nets_add. simpl. rewrite orb_false_r. f_equal.
    apply String.eqb_sym.
Qed.

Lemma fold_add_connectors_mem prefix signals nets p :
  Dict.mem (fold_left (add_connectors prefix) signals nets) p
  = Dict.mem nets p || mem_string p (flat_map connector_names signals).
Proof.
  revert nets. induction signals as [|sg signals IH]; intros nets; simpl.
  - now rewrite orb_false_r.
  - rewrite IH, add_connectors_mem, <- orb_assoc. f_equal.
    unfold mem_string. now rewrite existsb_app.
Qed.

Lemma add_ic_pins_spec ic nets links :
  exists nets',
    add_ic_pins (nets, links) ic = (nets', links ++ alias_links_of ic)
    /\ forall p, Dict.mem nets' p
                 = Dict.mem nets p || mem_string p (pin_signals ic).
Proof.
  unfold add_ic_pins, alias_links_of, pin_signals.
  destruct (part_number ic =? "ALIAS")%string.
  - exists nets. split; [reflexivity|]. intros p. now rewrite orb_false_r.
  - eexists. rewrite List.app_nil_r. split; [reflexivity|]. intros p.
    generalize (pin_assignments ic). intros pa. revert nets.
    induction pa as [|[pin sg] pa IH]; intros nets; simpl.
    + now rewrite orb_false_r.
    + rewrite IH. destruct (is_power sg); simpl; [reflexivity|].
      rewrite mem_nets_add, <- orb_assoc. f_equal. f_equal.
      apply String.eqb_sym.
Qed.

Lemma fold_add_ic_pins_spec ics nets links :
  exists nets',
    fold_left add_ic_pins ics (nets, links)
      = (nets', links ++ flat_map alias_links_of ics)
    /\ forall p, Dict.mem nets' p
                 = Dict.mem nets p || mem_string p (flat_map pin_signals ics).
Proof.
  revert nets links. induction ics as [|ic ics IH]; intros nets links;
    cbn [fold_left flat_map].
  - exists nets. rewrite List.app_nil_r. split; [reflexivity|].
    intros p. now rewrite orb_false_r.
  - destruct (add_ic_pins_spec ic nets links) as [nets1 [-> M1]].
    destruct (IH nets1 (links ++ alias_links_of ic)) as [nets2 [-> M2]].
    exists nets2. rewrite <- List.app_assoc. split; [reflexivity|].
    intros p. rewrite M2, M1, <- orb_assoc. f_equal.
    unfold mem_string. now rewrite existsb_app.
Qed.

Lemma merge_alias_keeps nets link p :
  Dict.mem nets p = true ->
  (snd link = p -> fst link = p) ->
  Dict.mem (merge_alias nets link) p = true.
Proof.
  destruct link as [dst src]. simpl. intros M K. unfold merge_alias.
  destruct (Dict.get nets src) as [from_src|]; [|exact M].
  destruct (String.eqb_spec dst src) as [E|N]; simpl.
  - rewrite mem_set, M. reflexivity.
  - apply mem_remove_other.
    + intros ->. apply N. now apply K.
    + rewrite mem_set, M. reflexivity.
Qed.

Lemma fold_merge_alias_keeps links nets p :
  Dict.mem nets p = true ->
  ~ In p (map snd (filter (fun ds => negb (fst ds =? snd ds)%string) links)) ->
  Dict.mem (fold_left merge_alias links nets) p = true.
Proof.
  revert nets. induction links as [|[dst src] links IH]; intros nets M K;
    cbn [fold_left]; [exact M|].
  cbn [filter map fst snd] in K. apply IH.
  - apply merge_alias_keeps; [exact M|]. cbn [fst snd]. intros ->.
    destruct (String.eqb_spec dst p) as [E|N]; [exact E|].
    exfalso. apply K. cbn [negb map snd]. now left.
  - destruct (negb (dst =? src)%string); [|exact K].
    cbn [map snd] in K. intros H. apply K. now right.
Qed.

Lemma mem_string_In p l : In p l -> mem_string p l = true.
Proof.
  intros H. unfold mem_string. apply existsb_exists. exists p.
  split; [exact H|apply String.eqb_refl].
Qed.

Lemma signal_nets_complete module ics p :
  In p (signal_names module ics) ->
  ~ In p (alias_sources ics) ->
  In p (net_names (signal_nets module ics)).
Proof.
  intros Hp Ha. unfold net_names, signal_nets. rewrite map_map. simpl.
  change (map (fun x => fst x) (signal_nets_dict module ics))
    with (Dict.keys (signal_nets_dict module ics)).
  apply mem_In_keys. unfold signal_nets_dict.
  destruct (fold_add_ic_pins_spec ics
              (fold_left (add_connectors "JOUT_")
                 (_merge_signals_by_name (mod_outputs module))
                 (fold_left (add_connectors "JIN_")
                    (_merge_signals_by_name (mod_inputs module)) [])) [])
    as [nets' [E M]].
  unfold Dict.t in E |- *. rewrite E. simpl.
  apply fold_merge_alias_keeps; [|exact Ha].
  rewrite M, !fold_add_connectors_mem. unfold signal_names in Hp.
  apply in_app_or in Hp as [Hp|Hp];
    [|apply in_app_or in Hp as [Hp|Hp]];
    apply mem_string_In in Hp; rewrite Hp;
    rewrite ?orb_true_r; reflexivity.
Qed.

End Nets.

Section PowerAndUnused.

Import KiCadNetlistExporter.

Lemma set_add_In x y s : In x s \/ x = y -> In x (set_add y s).
Proof.
  unfold set_add. destruct (existsb (node_eqb y) s) eqn:E.
  - intros [H| ->]; [exact H|].
    apply existsb_exists in E as [z [Hz Ez]]. unfold node_eqb in Ez.
    apply andb_true_iff in Ez as [E1 E2].
    apply String.eqb_eq in E1, E2. destruct y, z. simpl in *. now subst.
  - intros [H| ->]; apply in_or_app; [now left|right; now left].
Qed.

Lemma power_pins_fold_mono rail id pa acc n :
  In n acc ->
  In n (fold_left (fun acc ps =>
                     if (snd ps =? rail)%string
                     then set_add (id, fst ps) acc else acc) pa acc).
Proof.
  revert acc. induction pa as [|[pin sg] pa IH]; intros acc H; simpl;
    [exact H|].
  apply IH. destruct (sg =? rail)%string; [|exact H].
  apply set_add_In. now left.
Qed.

Lemma power_pins_fold_adds rail id pa acc pin :
  In (pin, rail) pa ->
  In (id, pin)
     (fold_left (fun acc ps =>
                   if (snd ps =? rail)%string
                   then set_add (id, fst ps) acc else acc) pa acc).
Proof.
  revert acc. induction pa as [|[pin0 sg] pa IH]; intros acc H; simpl;
    [contradiction|].
  destruct H as [E|H]; [|now apply IH].
  injection E as -> ->. rewrite String.eqb_refl.
  apply power_pins_fold_mono, set_add_In. now right.
Qed.

(** A pin tied to a power rail puts the rail into the nets section. *)
Lemma power_net_present rail cap_pin ics caps ic pin :
  In ic ics -> In (pin, rail) (pin_assignments ic) ->
  In rail (net_names (power_net rail cap_pin ics caps)).
Proof.
  intros Hic Hpin. unfold power_net.
  assert (N : In (instance_id ic, pin)
                 (power_connections rail cap_pin ics caps)).
  { unfold power_connections.
    assert (M : forall caps acc n, In n acc ->
              In n (fold_left (fun acc cref => set_add (cref, cap_pin) acc)
                              caps acc)).
    { induction caps0 as [|c caps0 IH]; intros acc n H; simpl; [exact H|].
      apply IH, set_add_In. now left. }
    apply M. generalize (@nil node).
    induction ics as [|ic0 ics IH]; intros acc; [contradiction|].
    cbn [fold_left]. destruct Hic as [->|Hic].
    - assert (O : forall ics acc n, In n acc ->
                In n (fold_left
                        (fun acc ic =>
                           fold_left
                             (fun acc ps =>
                                if (snd ps =? rail)%string
                                then set_add (instance_id ic, fst ps) acc
                                else acc) (pin_assignments ic) acc)
                        ics acc)).
      { induction ics0 as [|i ics0 IH0]; intros acc0 n H; simpl; [exact H|].
        apply IH0. now apply power_pins_fold_mono. }
      apply O. now apply power_pins_fold_adds.
    - now apply IH. }
  destruct (power_connections rail cap_pin ics caps); [contradiction|].
  simpl. now left.
Qed.

Lemma group_gates_ok_sources gates :
  forall st st', group_gates gates st = Ok st' -> alias_sources_present gates.
Proof.
  induction gates as [|g gates IH]; intros st st' H g' Hin Hty;
    [contradiction|].
  cbn [group_gates] in H.
  destruct (group_step st g) as [st1| |] eqn:E; simpl in H; try discriminate.
  destruct Hin as [<-|Hin]; [|exact (IH _ _ H g' Hin Hty)].
  unfold group_step in E. destruct st as [gc links]. rewrite Hty in E.
  simpl in E. intros Hnil. rewrite Hnil in E. discriminate.
Qed.

Lemma map_gates_ok_sources gates ics :
  map_gates_to_ics gates = Ok ics -> alias_sources_present gates.
Proof.
  unfold map_gates_to_ics.
  destruct (group_gates gates ([], [])) as [st| |] eqn:E; simpl;
    try discriminate.
  intros _. exact (group_gates_ok_sources _ _ _ E).
Qed.

(** The real ICs that the packer returns are powered. *)
Lemma packed_real_ics_powered gates ics ic :
  map_gates_to_ics gates = Ok ics ->
  In ic ics -> is_74xx_part (part_number ic) = true -> powered ic.
Proof.
  intros H Hin Hpart.
  destruct (map_gates_to_ics_spec gates (map_gates_ok_sources _ _ H))
    as [real [E [_ [P _]]]].
  rewrite E in H. injection H as <-.
  apply in_app_or in Hin as [Hin|Hin].
  - rewrite Forall_forall in P. now apply P.
  - destruct (filter is_alias gates); [contradiction|].
    destruct Hin as [<-|[]]. discriminate.
Qed.

End PowerAndUnused.

(** *** The alias statement in its usual form *)

Section AliasStatement.

(** An assign statement [assign lhs = rhs;] whose right-hand side is a
    run of word characters written next to the semicolon yields the one
    ALIAS gate. *)
Lemma alias_statement lhs rhs n :
  Py.contains "=" lhs = false ->
  rhs <> "" -> Py.all_chars Py.is_word rhs = true ->
  _parse_assign_statement ("assign" ++ lhs ++ "=" ++ rhs ++ ";") n
  = Ok ([mkGate "ALIAS" [rhs] (Py.strip lhs) ""], n).
Proof.
  intros Hl Hne Hw. unfold _parse_assign_statement.
  change (Py.drop 6 ("assign" ++ lhs ++ "=" ++ rhs ++ ";"))
    with (lhs ++ "=" ++ rhs ++ ";")%string.
  assert (Ec : ends_clean (rhs ++ ";")).
  { apply ends_clean_app. now split. }
  assert (Sc : starts_clean rhs).
  { destruct rhs as [|c r]; [exact I|]. simpl in *.
    apply andb_true_iff in Hw as [Hc _]. now apply word_not_blank. }
  assert (E1 : Py.strip (lhs ++ "=" ++ rhs ++ ";")
               = (Py.lstrip lhs ++ "=" ++ rhs ++ ";")%string).
  { unfold Py.strip. rewrite lstrip_append_clean by (simpl; auto; discriminate).
    apply (ends_clean_app (Py.lstrip lhs) ("=" ++ rhs ++ ";")).
    apply (ends_clean_app "=" (rhs ++ ";")). exact Ec. }
  rewrite E1.
  change (Py.lstrip lhs ++ "=" ++ rhs ++ ";")%string
    with (Py.lstrip lhs ++ String "=" (rhs ++ ";"))%string.
  rewrite split1_append by now apply contains_lstrip.
  assert (E2 : Py.strip (Py.lstrip lhs) = Py.strip lhs).
  { unfold Py.strip. now rewrite (lstrip_clean _ (lstrip_starts_clean lhs)). }
  assert (E3 : Py.strip (rhs ++ ";") = (rhs ++ ";")%string).
  { unfold Py.strip. rewrite lstrip_clean; [apply Ec|].
    destruct rhs; [contradiction|exact Sc]. }
  rewrite E2, E3.
  rewrite rstrip_by_append_dropped by reflexivity.
  rewrite rstrip_by_all_kept.
  - now rewrite all_word_match.
  - clear -Hw. induction rhs as [|c r IH]; [reflexivity|].
    simpl in *. apply andb_true_iff in Hw as [Hc Hw].
    rewrite (word_not_semicolon c Hc). simpl. now apply IH.
Qed.

End AliasStatement.

(* ------------------------------------------------------------------ *)
(** ** The tokenizer *)

Section Tokenizer.

Lemma word_not_op c : Py.is_word c = true -> is_op_char c = false.
Proof.
  destruct c as [[] [] [] [] [] [] [] []]; vm_compute; congruence.
Qed.

Lemma span_length p s :
  String.length (snd (Py.span p s)) <= String.length s.
Proof.
  induction s as [|c s IH]; simpl; [lia|].
  destruct (p c); simpl; [|lia].
  destruct (Py.span p s); simpl in *. lia.
Qed.

Lemma span_all p s : Py.all_chars p (fst (Py.span p s)) = true.
Proof.
  induction s as [|c s IH]; simpl; [reflexivity|].
  destruct (p c) eqn:E; simpl; [|reflexivity].
  destruct (Py.span p s); simpl in *. now rewrite E.
Qed.

Lemma span_append p s :
  (fst (Py.span p s) ++ snd (Py.span p s))%string = s.
Proof.
  induction s as [|c s IH]; simpl; [reflexivity|].
  destruct (p c); simpl; [|reflexivity].
  destruct (Py.span p s); simpl in *. now rewrite IH.
Qed.

(** A word character opens a token that runs to the end of the word. *)
Lemma tokenize_word c tl tokens :
  Py.is_word c = true ->
  tokenize_from (String c tl) tokens
  = tokenize_from (snd (Py.span Py.is_word tl))
                  (tokens ++ [String c (fst (Py.span Py.is_word tl))]).
Proof.
  intros W. cbn [tokenize_from].
  rewrite (word_not_blank c W), (word_not_op c W), W.
  assert (G : forall r w,
    (fix scan (w : string) (r : string) {struct r} : outcome (list string) :=
       match r with
       | "" => Ok (tokens ++ [w])
       | String d r' =>
           if Py.is_word d then scan (w ++ String d "")%string r'
           else tokenize_from r (tokens ++ [w])
       end) w r
    = tokenize_from (snd (Py.span Py.is_word r))
                    (tokens ++ [(w ++ fst (Py.span Py.is_word r))%string])).
  { induction r as [|d r IH]; intros w.
    - cbn. now rewrite append_nil_r.
    - cbn [Py.span]. destruct (Py.is_word d) eqn:D.
      + rewrite IH. destruct (Py.span Py.is_word r) as [run rest].
        cbn [fst snd]. now rewrite append_assoc.
      + cbn [fst snd]. now rewrite append_nil_r. }
  apply (G tl (String c "")).
Qed.

Lemma tokenize_step c tl tokens :
  tokenize_from (String c tl) tokens
  = if Py.isspace c then tokenize_from tl tokens
    else if is_op_char c then tokenize_from tl (tokens ++ [String c ""])
    else if Py.is_word c
         then tokenize_from (snd (Py.span Py.is_word tl))
                (tokens ++ [String c (fst (Py.span Py.is_word tl))])
         else Hang.
Proof.
  destruct (Py.is_word c) eqn:W.
  - rewrite (tokenize_word c tl tokens W).
    now rewrite (word_not_blank c W), (word_not_op c W).
  - cbn [tokenize_from]. now rewrite W.
Qed.

Lemma all_chars_span_rest p q s :
  Py.all_chars p s = Py.all_chars p (fst (Py.span q s))
                     && Py.all_chars p (snd (Py.span q s)).
Proof.
  rewrite <- (span_append q s) at 1. apply all_chars_app.
Qed.

Lemma word_chars_token_chars s :
  Py.all_chars Py.is_word s = true -> Py.all_chars token_char s = true.
Proof.
  induction s as [|c s IH]; simpl; [reflexivity|]. intros H.
  apply andb_true_iff in H as [Hc H]. rewrite (IH H), andb_true_r.
  unfold token_char. now rewrite Hc, orb_true_r.
Qed.

Lemma tokenize_from_outcome n :
  forall s tokens, String.length s <= n ->
    if Py.all_chars token_char s
    then exists out, tokenize_from s tokens = Ok out
    else tokenize_from s tokens = Hang.
Proof.
  induction n as [|n IH]; intros s tokens L.
  - destruct s; [|simpl in L; lia]. simpl. now exists tokens.
  - destruct s as [|c tl]; [simpl; now exists tokens|].
    simpl in L. rewrite tokenize_step. cbn [Py.all_chars].
    unfold token_char at 1.
    destruct (Py.isspace c); [apply IH; lia|].
    destruct (is_op_char c); [apply IH; lia|].
    destruct (Py.is_word c); [|reflexivity]. cbn [orb andb].
    rewrite (all_chars_span_rest token_char Py.is_word tl).
    rewrite (word_chars_token_chars _ (span_all Py.is_word tl)).
    cbn [andb]. apply IH.
    pose proof (span_length Py.is_word tl). lia.
Qed.

Lemma without_blanks_words run rest :
  Py.all_chars Py.is_word run = true ->
  without_blanks (run ++ rest) = (run ++ without_blanks rest)%string.
Proof.
  induction run as [|c run IH]; simpl; [reflexivity|]. intros H.
  apply andb_true_iff in H as [Hc H].
  now rewrite (word_not_blank c Hc), (IH H).
Qed.

Lemma joined_app l1 l2 : joined (l1 ++ l2) = (joined l1 ++ joined l2)%string.
Proof.
  induction l1 as [|t l1 IH]; simpl; [reflexivity|].
  now rewrite IH, append_assoc.
Qed.

Lemma tokenize_from_new n :
  forall s tokens out, String.length s <= n ->
    tokenize_from s tokens = Ok out ->
    exists new, out = tokens ++ new
                /\ joined new = without_blanks s
                /\ Forall (fun t => is_token t = true) new.
Proof.
  induction n as [|n IH]; intros s tokens out L.
  - destruct s; [|simpl in L; lia]. simpl. intros H. injection H as <-.
    exists []. now rewrite List.app_nil_r.
  - destruct s as [|c tl].
    { simpl. intros H. injection H as <-.
      exists []. now rewrite List.app_nil_r. }
    simpl in L. rewrite tokenize_step. cbn [without_blanks].
    destruct (Py.isspace c) eqn:B; [apply IH; lia|].
    destruct (is_op_char c) eqn:O.
    { intros H. apply IH in H as [new [-> [J F]]]; [|lia].
      exists (String c "" :: new). rewrite <- List.app_assoc. simpl.
      repeat split; [now rewrite J|].
      constructor; [simpl; now rewrite O|exact F]. }
    destruct (Py.is_word c) eqn:W; [|discriminate].
    pose proof (span_length Py.is_word tl) as SL.
    pose proof (span_all Py.is_word tl) as SA.
    pose proof (span_append Py.is_word tl) as SE.
    destruct (Py.span Py.is_word tl) as [run rest]. cbn [fst snd] in *.
    intros H. apply IH in H as [new [-> [J F]]]; [|lia].
    exists (String c run :: new). rewrite <- List.app_assoc. simpl.
    repeat split.
    + rewrite J, <- SE. now rewrite without_blanks_words.
    + constructor; [|exact F].
      destruct run as [|d run]; simpl; [now rewrite W, orb_true_r|].
      simpl in SA. now rewrite W, SA.
Qed.

End Tokenizer.

(** X1.  The tokenizer returns exactly on the expressions made of
    blanks, the characters [()~&^|] and word characters; on any other
    character (the bracket of a bit select, [+], [?])
    its loop stops advancing and never ends.  It never raises. *)
Theorem tokenizer_returns_or_hangs expr :
  (Py.all_chars token_char expr = true ->
     exists tokens, _tokenize_boolean_expr expr = Ok tokens)
  /\ (Py.all_chars token_char expr = false ->
        _tokenize_boolean_expr expr = Hang).
Proof.
  pose proof (tokenize_from_outcome (String.length expr) expr []
                (Nat.le_refl _)) as H.
  unfold _tokenize_boolean_expr.
  destruct (Py.all_chars token_char expr); split; intros E;
    try discriminate; exact H.
Qed.

(** X2.  The token list spells the expression: written one after the
    other the tokens give the expression without its blanks, and every
    token is one of [()~&^|] or a non-empty run of word characters. *)
Theorem tokens_spell_expression expr tokens :
  _tokenize_boolean_expr expr = Ok tokens ->
  joined tokens = without_blanks expr
  /\ Forall (fun t => is_token t = true) tokens.
Proof.
  intros H.
  destruct (tokenize_from_new (String.length expr) expr [] tokens
              (Nat.le_refl _) H) as [new [-> [J F]]].
  now split.
Qed.

Lemma tokens_spell_expression_witness :
  joined ["("; "a"; "&"; "b1"; ")"; "|"; "~"; "c"] = "(a&b1)|~c"
  /\ Forall (fun t => is_token t = true)
            ["("; "a"; "&"; "b1"; ")"; "|"; "~"; "c"].
Proof.
  apply (tokens_spell_expression "(a & b1) | ~c"
           ["("; "a"; "&"; "b1"; ")"; "|"; "~"; "c"]).
  reflexivity.
Defined.

(* ------------------------------------------------------------------ *)
(** ** The shunting yard *)

Section ShuntingYard.

(** What the operator stack holds. *)
Let stacked (o : string) : Prop :=
  Py.match_identifier o = false /\ (is_operator o = true \/ o = "(").

Lemma operator_cases t :
  is_operator t = true -> t = "~" \/ t = "&" \/ t = "^" \/ t = "|".
Proof.
  unfold is_operator, prec.
  destruct (String.eqb_spec t "~"); [auto|].
  destruct (String.eqb_spec t "&"); [auto|].
  destruct (String.eqb_spec t "^"); [auto|].
  destruct (String.eqb_spec t "|"); [auto|discriminate].
Qed.

Lemma operator_not_identifier t :
  is_operator t = true -> Py.match_identifier t = false.
Proof.
  intros H. destruct (operator_cases t H) as [->|[->|[->| ->]]]; reflexivity.
Qed.

Lemma close_paren_moves output ops :
  exists moved rest,
    close_paren output ops = (output ++ moved, rest)
    /\ (ops = moved ++ rest \/ ops = moved ++ "(" :: rest).
Proof.
  revert output. induction ops as [|o ops IH]; intros output; cbn [close_paren].
  - exists [], []. rewrite List.app_nil_r. auto.
  - destruct (String.eqb_spec o "(") as [->|N].
    + exists [], ops. rewrite List.app_nil_r. auto.
    + destruct (IH (output ++ [o])) as [moved [rest [E H]]].
      exists (o :: moved), rest. rewrite E, <- List.app_assoc.
      split; [reflexivity|]. destruct H as [-> | ->]; auto.
Qed.

Lemma pop_higher_moves pt output ops :
  exists moved rest,
    pop_higher pt output ops = (output ++ moved, rest)
    /\ ops = moved ++ rest.
Proof.
  revert output. induction ops as [|o ops IH]; intros output; cbn [pop_higher].
  - exists [], []. now rewrite List.app_nil_r.
  - destruct (prec o) as [po|].
    + destruct (_ || _).
      * destruct (IH (output ++ [o])) as [moved [rest [E H]]].
        exists (o :: moved), rest. rewrite E, <- List.app_assoc.
        split; [reflexivity|]. now rewrite H.
      * exists [], (o :: ops). now rewrite List.app_nil_r.
    + exists [], (o :: ops). now rewrite List.app_nil_r.
Qed.

Lemma stacked_no_identifier ops :
  Forall stacked ops -> filter Py.match_identifier ops = [].
Proof.
  induction 1 as [|o ops [H _] _ IH]; simpl; [reflexivity|].
  now rewrite H.
Qed.

Lemma stacked_rpn_tokens ops :
  Forall stacked ops -> Forall (fun t => rpn_token t = true) ops.
Proof.
  apply Forall_impl. intros o [_ [H| ->]]; unfold rpn_token.
  - now rewrite H, orb_true_r.
  - reflexivity.
Qed.

Lemma filter_operator_paren l1 l2 :
  filter is_operator (l1 ++ "(" :: l2) = filter is_operator (l1 ++ l2).
Proof. now rewrite !filter_app. Qed.

(** One token: the stack keeps its shape, the identifiers reach the
    output at once, the operators stay in the state, and the output
    is made of tokens of the RPN. *)
Lemma sy_step_keeps st t :
  Forall stacked (snd st) ->
  Forall (fun t => rpn_token t = true) (fst st) ->
  let st' := sy_step st t in
  Forall stacked (snd st')
  /\ Forall (fun t => rpn_token t = true) (fst st')
  /\ filter Py.match_identifier (fst st')
     = filter Py.match_identifier (fst st) ++ filter Py.match_identifier [t]
  /\ Permutation (filter is_operator (fst st' ++ snd st'))
                 (filter is_operator (fst st ++ snd st)
                  ++ filter is_operator [t]).
Proof.
  destruct st as [output ops]. cbn [fst snd]. intros S R.
  unfold sy_step. cbn [filter].
  destruct (Py.match_identifier t) eqn:I.
  - cbn [fst snd]. repeat split; auto.
    + apply Forall_app. split; [exact R|].
      constructor; [|constructor]. unfold rpn_token. now rewrite I.
    + rewrite filter_app. cbn [filter]. now rewrite I.
    + assert (O : is_operator t = false).
      { destruct (is_operator t) eqn:O; [|reflexivity].
        apply operator_not_identifier in O. congruence. }
      rewrite O, List.app_nil_r, !filter_app. cbn [filter]. rewrite O.
      now rewrite List.app_nil_r.
  - destruct (String.eqb_spec t "(") as [->|N1].
    + cbn [fst snd]. repeat split; auto.
      * constructor; [|exact S]. split; auto.
      * now rewrite List.app_nil_r.
      * change (is_operator "(") with false.
        rewrite List.app_nil_r, filter_operator_paren. apply Permutation_refl.
    + destruct (String.eqb_spec t ")") as [->|N2].
      * destruct (close_paren_moves output ops) as [moved [rest [E H]]].
        rewrite E. cbn [fst snd]. change (is_operator ")") with false.
        rewrite !List.app_nil_r.
        assert (Sm : Forall stacked moved /\ Forall stacked rest).
        { destruct H as [-> | ->]; apply Forall_app in S as [S1 S2];
            [auto|]. inversion S2; auto. }
        destruct Sm as [Sm Sr]. repeat split; auto.
        -- apply Forall_app. split; [exact R|now apply stacked_rpn_tokens].
        -- rewrite filter_app, (stacked_no_identifier moved Sm).
           now rewrite List.app_nil_r.
        -- rewrite <- List.app_assoc.
           destruct H as [-> | ->]; [apply Permutation_refl|].
           rewrite (List.app_assoc output moved ("(" :: rest)).
           rewrite filter_operator_paren, <- List.app_assoc.
           apply Permutation_refl.
      * destruct (prec t) as [pt|] eqn:P.
        -- destruct (pop_higher_moves pt output ops) as [moved [rest [E H]]].
           rewrite E. cbn [fst snd]. subst ops.
           apply Forall_app in S as [Sm Sr].
           assert (O : is_operator t = true) by (unfold is_operator; now rewrite P).
           rewrite O. repeat split; auto.
           ++ constructor; [|exact Sr]. split; auto.
           ++ apply Forall_app. split; [exact R|now apply stacked_rpn_tokens].
           ++ rewrite filter_app, (stacked_no_identifier moved Sm).
              now rewrite List.app_nil_r.
           ++ rewrite <- List.app_assoc, !filter_app. cbn [filter]. rewrite O.
              rewrite <- !List.app_assoc. apply Permutation_app_head.
              apply Permutation_app_head. apply Permutation_cons_append.
        -- cbn [fst snd].
           assert (O : is_operator t = false) by (unfold is_operator; now rewrite P).
           rewrite O, !List.app_nil_r. repeat split; auto.
Qed.

Lemma sy_fold_keeps tokens :
  forall st,
    Forall stacked (snd st) ->
    Forall (fun t => rpn_token t = true) (fst st) ->
    let st' := fold_left sy_step tokens st in
    Forall stacked (snd st')
    /\ Forall (fun t => rpn_token t = true) (fst st')
    /\ filter Py.match_identifier (fst st')
       = filter Py.match_identifier (fst st)
         ++ filter Py.match_identifier tokens
    /\ Permutation (filter is_operator (fst st' ++ snd st'))
                   (filter is_operator (fst st ++ snd st)
                    ++ filter is_operator tokens).
Proof.
  induction tokens as [|t tokens IH]; intros st S R; cbn [fold_left].
  - cbn zeta. rewrite !List.app_nil_r. repeat split; auto.
  - destruct (sy_step_keeps st t S R) as [S1 [R1 [I1 P1]]].
    destruct (IH (sy_step st t) S1 R1) as [S2 [R2 [I2 P2]]].
    cbn zeta. repeat split; auto.
    + rewrite I2, I1, <- List.app_assoc.
      change (t :: tokens) with ([t] ++ tokens). now rewrite filter_app.
    + eapply Permutation_trans; [exact P2|].
      change (t :: tokens) with ([t] ++ tokens).
      rewrite (filter_app _ [t] tokens), List.app_assoc.
      now apply Permutation_app_tail.
Qed.

End ShuntingYard.

(** X3.  The shunting yard neither loses nor invents operands or
    operators: the identifiers of the RPN are the identifiers of the
    token list in the same order, its operators are the operators of
    the token list rearranged, and besides them it holds nothing but
    opening parentheses that were never closed.  Tokens that are
    neither (a numeric literal, for instance) are dropped. *)
Theorem shunting_yard_keeps_operands_and_operators tokens :
  filter Py.match_identifier (_shunting_yard tokens)
  = filter Py.match_identifier tokens
  /\ Permutation (filter is_operator (_shunting_yard tokens))
                 (filter is_operator tokens)
  /\ Forall (fun t => rpn_token t = true) (_shunting_yard tokens).
Proof.
  destruct (sy_fold_keeps tokens ([], []) (Forall_nil _) (Forall_nil _))
    as [S [R [I P]]].
  unfold _shunting_yard, sy_flush. repeat split.
  - rewrite filter_app, I. cbn [fst snd filter app].
    now rewrite (stacked_no_identifier _ S), List.app_nil_r.
  - exact P.
  - apply Forall_app. split; [exact R|].
    revert S. apply Forall_impl. intros o [_ [H| ->]]; unfold rpn_token.
    + now rewrite H, orb_true_r.
    + reflexivity.
Qed.

(* ------------------------------------------------------------------ *)
(** ** Reading an expression back *)

Section ReadBack.

Lemma ident_char_word c : Py.is_ident_char c = true -> Py.is_word c = true.
Proof.
  destruct c as [[] [] [] [] [] [] [] []]; vm_compute; congruence.
Qed.

Lemma ident_start_char c :
  Py.is_ident_start c = true -> Py.is_ident_char c = true.
Proof. unfold Py.is_ident_char. now intros ->. Qed.

Lemma all_chars_impl (p q : ascii -> bool) s :
  (forall c, p c = true -> q c = true) ->
  Py.all_chars p s = true -> Py.all_chars q s = true.
Proof.
  intros PQ. induction s as [|c s IH]; simpl; [reflexivity|]. intros H.
  apply andb_true_iff in H as [Hc H]. now rewrite (PQ c Hc), (IH H).
Qed.

Lemma all_chars_absent (p : ascii -> bool) c s :
  p c = false -> Py.all_chars p s = true -> Py.contains c s = false.
Proof.
  intros Hc. induction s as [|d s IH]; simpl; [reflexivity|]. intros H.
  apply andb_true_iff in H as [Hd H]. rewrite (IH H), orb_false_r.
  destruct (Ascii.eqb_spec d c) as [->|]; [congruence|reflexivity].
Qed.

Lemma contains_app c s1 s2 :
  Py.contains c (s1 ++ s2) = Py.contains c s1 || Py.contains c s2.
Proof.
  induction s1 as [|d s1 IH]; simpl; [reflexivity|].
  now rewrite IH, orb_assoc.
Qed.

Lemma identifier_chars x :
  is_identifier x = true ->
  exists c tl, x = String c tl /\ Py.is_ident_start c = true
               /\ Py.all_chars Py.is_ident_char tl = true.
Proof.
  destruct x as [|c tl]; [discriminate|]. simpl. intros H.
  apply andb_true_iff in H as [H1 H2]. now exists c, tl.
Qed.

Lemma identifier_all_ident x :
  is_identifier x = true -> Py.all_chars Py.is_ident_char x = true.
Proof.
  intros H. destruct (identifier_chars x H) as [c [tl [-> [H1 H2]]]].
  simpl. now rewrite (ident_start_char c H1), H2.
Qed.

Lemma plus_dollar_all p s :
  s <> "" -> Py.all_chars p s = true -> Py.match_plus_dollar p s = true.
Proof.
  induction s as [|c s IH]; [contradiction|].
  intros _ H. cbn [Py.all_chars] in H. apply andb_true_iff in H as [Hc H].
  cbn [Py.match_plus_dollar]. rewrite Hc. simpl.
  destruct s as [|d s]; [reflexivity|].
  destruct d as [[] [] [] [] [] [] [] []]; destruct s;
    try (apply IH; [discriminate|exact H]); try reflexivity.
Qed.

Lemma identifier_matches x :
  is_identifier x = true -> Py.match_identifier x = true.
Proof.
  intros H. destruct (identifier_chars x H) as [c [tl [-> [H1 H2]]]].
  unfold Py.match_identifier. rewrite H1. simpl.
  destruct tl as [|d tl]; [reflexivity|].
  destruct d as [[] [] [] [] [] [] [] []]; destruct tl;
    try (apply plus_dollar_all; [discriminate|exact H2]); try reflexivity.
Qed.

Lemma span_run p run rest :
  Py.all_chars p run = true -> fst (Py.span p rest) = "" ->
  Py.span p (run ++ rest) = (run, rest).
Proof.
  intros R E. induction run as [|c run IH]; simpl in *.
  - destruct rest as [|d rest]; [reflexivity|]. simpl in *.
    destruct (p d); [|reflexivity].
    destruct (Py.span p rest); discriminate.
  - apply andb_true_iff in R as [Hc R]. now rewrite Hc, (IH R).
Qed.

(** The run of word characters at the head of [rest] is empty. *)
Let fresh (rest : string) : Prop := fst (Py.span Py.is_word rest) = "".

Lemma tokenize_identifier x rest tokens :
  is_identifier x = true -> fresh rest ->
  tokenize_from (x ++ rest) tokens = tokenize_from rest (tokens ++ [x]).
Proof.
  intros H F. destruct (identifier_chars x H) as [c [tl [-> [H1 H2]]]].
  cbn [append]. rewrite tokenize_word
    by now apply ident_char_word, ident_start_char.
  rewrite (span_run Py.is_word tl rest); [reflexivity| |exact F].
  revert H2. apply all_chars_impl, ident_char_word.
Qed.

Lemma tokenize_op c rest tokens :
  is_op_char c = true ->
  tokenize_from (String c rest) tokens
  = tokenize_from rest (tokens ++ [String c ""]).
Proof.
  intros O. rewrite tokenize_step, O.
  destruct (Py.isspace c) eqn:B; [|reflexivity].
  destruct c as [[] [] [] [] [] [] [] []]; vm_compute in O, B; congruence.
Qed.

Lemma symbol_char op :
  exists c, symbol op = String c "" /\ is_op_char c = true
            /\ Py.is_word c = false.
Proof. destruct op; eexists; repeat split. Qed.

Lemma tokenize_show e :
  Forall (fun x => is_identifier x = true) (identifiers e) ->
  forall rest tokens, fresh rest ->
    tokenize_from (show e ++ rest) tokens
    = tokenize_from rest (tokens ++ tokens_of e).
Proof.
  induction e as [x|a IHa|op a IHa b IHb]; intros I rest tokens F;
    cbn [show tokens_of identifiers] in *.
  - inversion I. now apply tokenize_identifier.
  - rewrite !append_assoc. cbn [append].
    rewrite (tokenize_op "("), (tokenize_op "~") by reflexivity.
    rewrite IHa by (auto; reflexivity).
    rewrite (tokenize_op ")") by reflexivity.
    now rewrite <- !List.app_assoc.
  - apply Forall_app in I as [Ia Ib].
    destruct (symbol_char op) as [c [-> [O W]]].
    rewrite !append_assoc. cbn [append].
    rewrite (tokenize_op "(") by reflexivity.
    rewrite IHa by (auto; reflexivity).
    rewrite tokenize_step. cbn [Py.isspace]. change (Py.isspace " ") with true.
    cbn iota. rewrite (tokenize_op c) by exact O.
    rewrite tokenize_step. change (Py.isspace " ") with true. cbn iota.
    rewrite IHb by (auto; reflexivity).
    rewrite (tokenize_op ")") by reflexivity.
    now rewrite <- !List.app_assoc.
Qed.

Lemma sy_tokens_of e :
  Forall (fun x => is_identifier x = true) (identifiers e) ->
  forall output ops,
    fold_left sy_step (tokens_of e) (output, ops)
    = (output ++ rpn_of e, ops).
Proof.
  induction e as [x|a IHa|op a IHa b IHb]; intros I output ops;
    cbn [tokens_of rpn_of identifiers] in *.
  - inversion I as [|? ? Hx _]. cbn [fold_left]. unfold sy_step.
    now rewrite (identifier_matches x Hx).
  - cbn [app fold_left].
    change (sy_step (output, ops) "(") with (output, "(" :: ops).
    change (sy_step (output, "(" :: ops) "~")
      with (output, "~" :: "(" :: ops).
    rewrite fold_left_app, IHa by exact I. cbn [fold_left].
    change (sy_step (output ++ rpn_of a, "~" :: "(" :: ops) ")")
      with ((output ++ rpn_of a) ++ ["~"], ops).
    now rewrite <- List.app_assoc.
  - apply Forall_app in I as [Ia Ib].
    cbn [app fold_left].
    change (sy_step (output, ops) "(") with (output, "(" :: ops).
    rewrite fold_left_app, IHa by exact Ia.
    cbn [app fold_left].
    assert (E : sy_step (output ++ rpn_of a, "(" :: ops) (symbol op)
                = (output ++ rpn_of a, symbol op :: "(" :: ops))
      by (destruct op; reflexivity).
    rewrite E, fold_left_app, IHb by exact Ib. cbn [fold_left].
    assert (E' : sy_step ((output ++ rpn_of a) ++ rpn_of b,
                          symbol op :: "(" :: ops) ")"
                 = (((output ++ rpn_of a) ++ rpn_of b) ++ [symbol op], ops))
      by (destruct op; reflexivity).
    now rewrite E', <- !List.app_assoc.
Qed.

Lemma rpn_loop_rpn_of e :
  Forall (fun x => is_identifier x = true) (identifiers e) ->
  forall rest stack,
    rpn_loop (rpn_of e ++ rest) stack = rpn_loop rest (e :: stack).
Proof.
  induction e as [x|a IHa|op a IHa b IHb]; intros I rest stack;
    cbn [rpn_of identifiers] in *.
  - inversion I as [|? ? Hx _]. cbn [app rpn_loop]. unfold rpn_step.
    now rewrite (identifier_matches x Hx).
  - rewrite <- List.app_assoc, IHa by exact I. reflexivity.
  - apply Forall_app in I as [Ia Ib].
    rewrite <- !List.app_assoc, IHa, IHb by assumption.
    destruct op; reflexivity.
Qed.

Lemma rpn_of_nonempty e : rpn_of e <> [].
Proof.
  destruct e; simpl; try discriminate;
    intros H; apply app_eq_nil in H as [_ H];
    try apply app_eq_nil in H as [_ H]; discriminate.
Qed.

Lemma show_no_question e :
  Forall (fun x => is_identifier x = true) (identifiers e) ->
  Py.contains "?" (show e) = false.
Proof.
  induction e as [x|a IHa|op a IHa b IHb]; intros I;
    cbn [show identifiers] in *.
  - inversion I as [|? ? Hx _].
    apply (all_chars_absent Py.is_ident_char); [reflexivity|].
    now apply identifier_all_ident.
  - rewrite !contains_app, IHa by exact I. reflexivity.
  - apply Forall_app in I as [Ia Ib].
    rewrite !contains_app, IHa, IHb by assumption. now destruct op.
Qed.

Lemma ident_char_not_blank c :
  Py.is_ident_char c = true -> Py.isspace c = false.
Proof. intros H. now apply word_not_blank, ident_char_word. Qed.

Lemma strip_show e :
  Forall (fun x => is_identifier x = true) (identifiers e) ->
  Py.strip (show e) = show e.
Proof.
  intros I. unfold Py.strip.
  assert (S : starts_clean (show e)).
  { destruct e as [x|a|op a b]; cbn [show identifiers] in *;
      try reflexivity.
    inversion I as [|? ? Hx _].
    destruct (identifier_chars x Hx) as [c [tl [-> [H1 _]]]].
    now apply ident_char_not_blank, ident_start_char. }
  rewrite (lstrip_clean _ S).
  destruct e as [x|a|op a b]; cbn [show identifiers] in *.
  - inversion I as [|? ? Hx _]. apply rstrip_by_all_kept.
    apply identifier_all_ident in Hx. revert Hx. apply all_chars_impl.
    intros c Hc. now rewrite (ident_char_not_blank c Hc).
  - assert (E : ends_clean ("(~" ++ show a ++ ")")).
    { rewrite <- append_assoc. apply ends_clean_app.
      split; [discriminate|reflexivity]. }
    apply E.
  - assert (E : ends_clean ("(" ++ show a ++ " " ++ symbol op ++ " "
                             ++ show b ++ ")")).
    { rewrite <- !append_assoc. apply ends_clean_app.
      split; [discriminate|reflexivity]. }
    apply E.
Qed.

End ReadBack.

(** X4.  Reading back what is written: an expression tree over
    identifiers, written with all its parentheses, is tokenized, put in
    RPN and rebuilt as the same tree, so the gates that
    [_parse_boolean_expr_to_gates] returns are the gates of that tree. *)
Theorem written_expression_is_read_back e target n :
  Forall (fun x => is_identifier x = true) (identifiers e) ->
  _parse_boolean_expr_to_gates (show e) target n = Ok (lowered e target n).
Proof.
  intros I. unfold _parse_boolean_expr_to_gates, _rewrite_ternary_to_bool.
  rewrite (strip_show e I), (show_no_question e I). cbn [negb].
  unfold _tokenize_boolean_expr.
  rewrite <- (append_nil_r (show e)) at 1.
  rewrite (tokenize_show e I "" []) by reflexivity.
  cbn [tokenize_from bind app].
  unfold _shunting_yard, sy_flush.
  rewrite (sy_tokens_of e I [] []). cbn [fst snd app].
  rewrite List.app_nil_r.
  destruct (rpn_of e) as [|t rpn] eqn:R; [now apply rpn_of_nonempty in R|].
  rewrite <- R. unfold _rpn_to_ast.
  rewrite <- (List.app_nil_r (rpn_of e)), (rpn_loop_rpn_of e I [] []).
  cbn [rpn_loop bind hd_error _ast_to_gates]. unfold lowered.
  now destruct (ast_to_gates e target n []) as [[sg c] gs].
Qed.

Lemma written_expression_is_read_back_witness :
  _parse_boolean_expr_to_gates "((~a) | (b & c1))" "y" 0
  = Ok (lowered (bin or (not (id "a")) (bin and (id "b") (id "c1"))) "y" 0).
Proof.
  apply (written_expression_is_read_back
           (bin or (not (id "a")) (bin and (id "b") (id "c1"))) "y" 0).
  repeat constructor.
Defined.

(* ------------------------------------------------------------------ *)
(** ** Precedence *)

Section Precedence.

Lemma parse_from_tokens s tokens e target n :
  Py.strip s = s -> Py.contains "?" s = false ->
  tokenize_from s [] = Ok tokens ->
  _rpn_to_ast (_shunting_yard tokens) = Ok (Some e) ->
  _parse_boolean_expr_to_gates s target n = Ok (lowered e target n).
Proof.
  intros S Q T R. unfold _parse_boolean_expr_to_gates, _rewrite_ternary_to_bool.
  rewrite S, Q. cbn [negb]. unfold _tokenize_boolean_expr. rewrite T.
  cbn [bind]. destruct (_shunting_yard tokens) as [|t rpn] eqn:Y.
  - discriminate.
  - rewrite R. cbn [bind _ast_to_gates]. unfold lowered.
    now destruct (ast_to_gates e target n []) as [[sg c] gs].
Qed.

Lemma sy_ident x output ops :
  is_identifier x = true -> sy_step (output, ops) x = (output ++ [x], ops).
Proof. intros H. unfold sy_step. now rewrite (identifier_matches x H). Qed.

Lemma rpn_ident x stack :
  is_identifier x = true -> rpn_step stack x = Ok (id x :: stack).
Proof. intros H. unfold rpn_step. now rewrite (identifier_matches x H). Qed.

Lemma identifier_starts_clean x rest :
  is_identifier x = true -> starts_clean (x ++ rest).
Proof.
  intros H. destruct (identifier_chars x H) as [c [tl [-> [H1 _]]]].
  now apply ident_char_not_blank, ident_start_char.
Qed.

Lemma identifier_ends_clean x : is_identifier x = true -> ends_clean x.
Proof.
  intros H. split.
  - destruct x; [discriminate|discriminate].
  - apply rstrip_by_all_kept. apply identifier_all_ident in H.
    revert H. apply all_chars_impl.
    intros c Hc. now rewrite (ident_char_not_blank c Hc).
Qed.

Lemma strip_clean s : starts_clean s -> ends_clean s -> Py.strip s = s.
Proof.
  intros S [_ E]. unfold Py.strip. now rewrite (lstrip_clean s S).
Qed.

Lemma identifier_no_question x :
  is_identifier x = true -> Py.contains "?" x = false.
Proof.
  intros H. apply (all_chars_absent Py.is_ident_char); [reflexivity|].
  now apply identifier_all_ident.
Qed.

Ltac sy_run :=
  repeat first
    [ rewrite sy_ident by assumption
    | match goal with
      | |- context [sy_step (?o, ?s) (String ?c ?r)] =>
          let v := eval cbn in (sy_step (o, s) (String c r)) in
          change (sy_step (o, s) (String c r)) with v
      end ].

Ltac rpn_run :=
  repeat first
    [ progress cbn [bind rpn_loop hd_error]
    | rewrite rpn_ident by assumption
    | match goal with
      | |- context [rpn_step ?s (String ?c ?r)] =>
          let v := eval cbn in (rpn_step s (String c r)) in
          change (rpn_step s (String c r)) with v
      end ].

Lemma two_operators_tree x y z o1 o2 :
  is_identifier x = true -> is_identifier y = true ->
  is_identifier z = true ->
  _rpn_to_ast (_shunting_yard [x; symbol o1; y; symbol o2; z])
  = Ok (Some (if tighter o2 o1
              then bin o1 (id x) (bin o2 (id y) (id z))
              else bin o2 (bin o1 (id x) (id y)) (id z))).
Proof.
  intros Hx Hy Hz. unfold _shunting_yard, _rpn_to_ast.
  destruct o1, o2; cbn [symbol fold_left]; sy_run;
    cbn [sy_flush fst snd app]; rpn_run; reflexivity.
Qed.

Lemma negated_left_tree x y o1 :
  is_identifier x = true -> is_identifier y = true ->
  _rpn_to_ast (_shunting_yard ["~"; x; symbol o1; y])
  = Ok (Some (bin o1 (not (id x)) (id y))).
Proof.
  intros Hx Hy. unfold _shunting_yard, _rpn_to_ast.
  destruct o1; cbn [symbol fold_left]; sy_run;
    cbn [sy_flush fst snd app]; rpn_run; reflexivity.
Qed.

Lemma negated_right_tree x y o1 :
  is_identifier x = true -> is_identifier y = true ->
  _rpn_to_ast (_shunting_yard [x; symbol o1; "~"; y])
  = Ok (Some (bin o1 (id x) (not (id y)))).
Proof.
  intros Hx Hy. unfold _shunting_yard, _rpn_to_ast.
  destruct o1; cbn [symbol fold_left]; sy_run;
    cbn [sy_flush fst snd app]; rpn_run; reflexivity.
Qed.

End Precedence.

(** X5.  Precedence and associativity of the expression reader, on
    expressions written without parentheses: of two binary operators
    the second takes the middle operand when it binds tighter
    ([&] before [^] before [|]), otherwise the first does, so equal
    operators group to the left; [~] binds tighter than every binary
    operator. *)
Theorem operators_bind_by_precedence x y z o1 o2 target n :
  is_identifier x = true -> is_identifier y = true ->
  is_identifier z = true ->
  _parse_boolean_expr_to_gates
    (x ++ symbol o1 ++ y ++ symbol o2 ++ z) target n
  = Ok (lowered (if tighter o2 o1
                 then bin o1 (id x) (bin o2 (id y) (id z))
                 else bin o2 (bin o1 (id x) (id y)) (id z)) target n)
  /\ _parse_boolean_expr_to_gates ("~" ++ x ++ symbol o1 ++ y) target n
     = Ok (lowered (bin o1 (not (id x)) (id y)) target n)
  /\ _parse_boolean_expr_to_gates (x ++ symbol o1 ++ "~" ++ y) target n
     = Ok (lowered (bin o1 (id x) (not (id y))) target n).
Proof.
  intros Hx Hy Hz.
  pose proof (identifier_no_question x Hx) as Qx.
  pose proof (identifier_no_question y Hy) as Qy.
  pose proof (identifier_no_question z Hz) as Qz.
  assert (Q1 : Py.contains "?" (symbol o1) = false) by now destruct o1.
  assert (Q2 : Py.contains "?" (symbol o2) = false) by now destruct o2.
  destruct (symbol_char o1) as [c1 [E1 [O1 W1]]].
  destruct (symbol_char o2) as [c2 [E2 [O2 W2]]].
  split; [|split].
  - apply (parse_from_tokens _ [x; symbol o1; y; symbol o2; z]).
    + apply strip_clean; [now apply identifier_starts_clean|].
      do 4 apply ends_clean_app. now apply identifier_ends_clean.
    + now rewrite !contains_app, Qx, Qy, Qz, Q1, Q2.
    + rewrite E1, E2. cbn [append].
      rewrite tokenize_identifier; [|exact Hx|simpl; now rewrite W1].
      rewrite (tokenize_op c1) by exact O1.
      rewrite tokenize_identifier; [|exact Hy|simpl; now rewrite W2].
      rewrite (tokenize_op c2) by exact O2.
      rewrite <- (append_nil_r z) at 1.
      rewrite tokenize_identifier; [|exact Hz|reflexivity].
      reflexivity.
    + now apply two_operators_tree.
  - apply (parse_from_tokens _ ["~"; x; symbol o1; y]).
    + apply strip_clean; [reflexivity|].
      do 3 apply ends_clean_app. now apply identifier_ends_clean.
    + now rewrite !contains_app, Qx, Qy, Q1.
    + rewrite E1. cbn [append].
      rewrite (tokenize_op "~") by reflexivity.
      rewrite tokenize_identifier; [|exact Hx|simpl; now rewrite W1].
      rewrite (tokenize_op c1) by exact O1.
      rewrite <- (append_nil_r y) at 1.
      rewrite tokenize_identifier; [|exact Hy|reflexivity].
      reflexivity.
    + now apply negated_left_tree.
  - apply (parse_from_tokens _ [x; symbol o1; "~"; y]).
    + apply strip_clean; [now apply identifier_starts_clean|].
      do 3 apply ends_clean_app. now apply identifier_ends_clean.
    + now rewrite !contains_app, Qx, Qy, Q1.
    + rewrite E1. cbn [append].
      rewrite tokenize_identifier; [|exact Hx|simpl; now rewrite W1].
      rewrite (tokenize_op c1) by exact O1.
      rewrite (tokenize_op "~") by reflexivity.
      rewrite <- (append_nil_r y) at 1.
      rewrite tokenize_identifier; [|exact Hy|reflexivity].
      reflexivity.
    + now apply negated_right_tree.
Qed.

Lemma operators_bind_by_precedence_witness :
  _parse_boolean_expr_to_gates "a|b&c" "y" 0
  = Ok (lowered (bin or (id "a") (bin and (id "b") (id "c"))) "y" 0)
  /\ _parse_boolean_expr_to_gates "~a|b" "y" 0
     = Ok (lowered (bin or (not (id "a")) (id "b")) "y" 0)
  /\ _parse_boolean_expr_to_gates "a|~b" "y" 0
     = Ok (lowered (bin or (id "a") (not (id "b"))) "y" 0).
Proof.
  apply (operators_bind_by_precedence "a" "b" "c" or and "y" 0);
    reflexivity.
Defined.

(* ------------------------------------------------------------------ *)
(** ** What the lowered gates compute *)

Section Lowering.

Lemma run_gates_app gs1 gs2 v :
  run_gates (gs1 ++ gs2) v
  = match run_gates gs1 v with
    | Some v1 => run_gates gs2 v1
    | None => None
    end.
Proof.
  revert v. induction gs1 as [|g gs1 IH]; intros v; simpl; [reflexivity|].
  destruct (gate_value g v); [apply IH|reflexivity].
Qed.

Lemma eval_ast_agree e v v' :
  (forall x, In x (identifiers e) -> v' x = v x) ->
  eval_ast e v' = eval_ast e v.
Proof.
  induction e as [x|a IHa|op a IHa b IHb]; simpl; intros H.
  - apply H. now left.
  - now rewrite IHa.
  - rewrite IHa, IHb; [reflexivity| |]; intros x Hx; apply H, in_or_app; auto.
Qed.

Lemma update_same v net b : update v net b net = b.
Proof. unfold update. now rewrite String.eqb_refl. Qed.

Lemma update_other v net b x : x <> net -> update v net b x = v x.
Proof.
  intros N. unfold update. destruct (String.eqb_spec x net); [contradiction|].
  reflexivity.
Qed.

Lemma not_tmp_not_temp k x : Py.startswith "tmp_" x = false -> ~ is_temp k x.
Proof. intros H T. apply is_temp_starts_tmp in T. congruence. Qed.

(** The gates added for [e] evaluate [e] on the returned net and write
    only the target and temporaries drawn during the call. *)
Lemma ast_to_gates_computes e :
  Forall (fun x => Py.startswith "tmp_" x = false) (identifiers e) ->
  forall target n acc v,
    exists sig n' new v',
      ast_to_gates e target n acc = (sig, n', acc ++ new)
      /\ n <= n'
      /\ (sig = target \/ In sig (identifiers e))
      /\ run_gates new v = Some v'
      /\ v' sig = eval_ast e v
      /\ (forall x, x <> target ->
                    (forall k, n < k <= n' -> ~ is_temp k x) ->
                    v' x = v x).
Proof.
  induction e as [src|a IHa|op a IHa b IHb]; intros I target n acc v;
    cbn [ast_to_gates identifiers] in *.
  - exists src, n, [], v. rewrite List.app_nil_r.
    repeat split; auto.
    + destruct (String.eqb_spec target src) as [->|]; reflexivity.
    + right. now left.
  - destruct (new_temp_eq "n" n) as [tn [-> T1]]; [simpl; auto|].
    destruct (IHa I tn (S n) acc v)
      as [a_sig [c2 [new1 [v1 [E [L [Sg [R [V Fr]]]]]]]]].
    rewrite E.
    exists target, c2,
      (new1 ++ [mkGate "NOT" [a_sig] target ("NOT_1_" ++ target)%string]),
      (update v1 target (negb (v1 a_sig))).
    rewrite <- List.app_assoc. repeat split; auto; try lia.
    + rewrite run_gates_app, R. reflexivity.
    + rewrite update_same. cbn [eval_ast]. now rewrite V.
    + intros x Nx Nt. rewrite update_other by exact Nx. apply Fr.
      * intros ->. apply (Nt (S n)); [lia|exact T1].
      * intros k Hk. apply Nt. lia.
  - apply Forall_app in I as [Ia Ib].
    destruct (new_temp_eq "l" n) as [tl [-> T1]]; [simpl; auto|].
    destruct (IHa Ia tl (S n) acc v)
      as [left_sig [c2 [new1 [v1 [E1 [L1 [S1 [R1 [V1 F1]]]]]]]]].
    rewrite E1.
    destruct (new_temp_eq "r" c2) as [tr [-> T3]]; [simpl; auto|].
    destruct (IHb Ib tr (S c2) (acc ++ new1) v1)
      as [right_sig [c4 [new2 [v2 [E2 [L2 [S2 [R2 [V2 F2]]]]]]]]].
    rewrite E2.
    assert (Vb : eval_ast b v1 = eval_ast b v).
    { apply eval_ast_agree. intros x Hx.
      rewrite Forall_forall in Ib. specialize (Ib x Hx). apply F1.
      - intros ->. now apply (not_tmp_not_temp (S n)) in Ib.
      - intros k _. now apply not_tmp_not_temp. }
    assert (Vl : v2 left_sig = v1 left_sig).
    { apply F2.
      - intros ->. destruct S1 as [->|S1].
        + pose proof (is_temp_inj _ _ _ T1 T3). lia.
        + rewrite Forall_forall in Ia.
          now apply (not_tmp_not_temp (S c2)) in T3; [|apply Ia].
      - intros k Hk Tk. destruct S1 as [->|S1].
        + pose proof (is_temp_inj _ _ _ T1 Tk). lia.
        + rewrite Forall_forall in Ia.
          now apply (not_tmp_not_temp k) in Tk; [|apply Ia]. }
    exists target, c4,
      (new1 ++ new2
       ++ [mkGate (op_map op) [left_sig; right_sig] target
                  (op_map op ++ "_2_" ++ target)%string]),
      (update v2 target
              (apply_op op (v2 left_sig) (v2 right_sig))).
    rewrite <- !List.app_assoc. repeat split; auto; try lia.
    + rewrite run_gates_app, R1, run_gates_app, R2. now destruct op.
    + rewrite update_same. cbn [eval_ast]. now rewrite Vl, V1, V2, Vb.
    + intros x Nx Nt. rewrite update_other by exact Nx.
      rewrite F2, F1; [reflexivity| | | |].
      * intros ->. apply (Nt (S n)); [lia|exact T1].
      * intros k Hk. apply Nt. lia.
      * intros ->. apply (Nt (S c2)); [lia|exact T3].
      * intros k Hk. apply Nt. lia.
Qed.

End Lowering.

(** X6.  The gates lowered from an expression compute it.  When no
    identifier of the tree looks like a temporary, evaluating the
    emitted gates in list order leaves on the returned net the value
    of the expression, and changes no net other than the target and
    the temporaries. *)
Theorem lowered_gates_compute_expression e target n v sig n' gates :
  Forall (fun x => Py.startswith "tmp_" x = false) (identifiers e) ->
  ast_to_gates e target n [] = (sig, n', gates) ->
  exists v',
    run_gates gates v = Some v'
    /\ v' sig = eval_ast e v
    /\ forall x, x <> target -> Py.startswith "tmp_" x = false ->
                 v' x = v x.
Proof.
  intros I E.
  destruct (ast_to_gates_computes e I target n [] v)
    as [sig0 [n0 [new [v' [E0 [_ [_ [R [V F]]]]]]]]].
  rewrite E in E0. injection E0 as -> -> ->.
  exists v'. repeat split; auto.
  intros x Nx Hx. apply F; [exact Nx|].
  intros k _. now apply not_tmp_not_temp.
Qed.

Lemma lowered_gates_compute_expression_witness :
  exists v',
    run_gates
      [ mkGate "AND" ["a"; "b"] "tmp_l_1" "AND_2_tmp_l_1";
        mkGate "NOT" ["c"] "tmp_r_4" "NOT_1_tmp_r_4";
        mkGate "OR" ["tmp_l_1"; "tmp_r_4"] "y" "OR_2_y" ]
      (fun x => (x =? "a")%string) = Some v'
    /\ v' "y" = eval_ast (bin or (bin and (id "a") (id "b")) (not (id "c")))
                         (fun x => (x =? "a")%string)
    /\ forall x, x <> "y" -> Py.startswith "tmp_" x = false ->
                 v' x = (x =? "a")%string.
Proof.
  apply (lowered_gates_compute_expression
           (bin or (bin and (id "a") (id "b")) (not (id "c")))
           "y" 0 (fun x => (x =? "a")%string) "y" 5).
  - repeat constructor.
  - reflexivity.
Defined.

(** X7.  Lowering emits one gate per operator of the tree and advances
    the temporary counter once per node below the root, whatever the
    target and the gates already collected. *)
Theorem lowering_emits_one_gate_per_operator e :
  forall target n acc,
  exists sig new,
    ast_to_gates e target n acc = (sig, n + (nodes e - 1), acc ++ new)
    /\ List.length new = operators e.
Proof.
  induction e as [src|a IHa|op a IHa b IHb]; intros target n acc;
    cbn [ast_to_gates nodes operators _new_temp].
  - exists (if negb (target =? src)%string then src else target), [].
    rewrite List.app_nil_r, Nat.add_0_r.
    split; [now destruct (negb _)|reflexivity].
  - destruct (IHa ("tmp_n_" ++ Py.str_of_nat (S n))%string (S n) acc)
      as [sg [new [E L]]].
    cbn [append] in *. rewrite E. eexists target, (new ++ [_]).
    rewrite <- List.app_assoc, length_app, L. cbn [List.length].
    split; [|lia].
    assert (0 < nodes a) by (destruct a; simpl; lia).
    replace (n + (S (nodes a) - 1)) with (S n + (nodes a - 1)) by lia.
    reflexivity.
  - destruct (IHa ("tmp_l_" ++ Py.str_of_nat (S n))%string (S n) acc)
      as [sg1 [new1 [E1 L1]]].
    cbn [append] in *. rewrite E1.
    destruct (IHb ("tmp_r_" ++ Py.str_of_nat (S (S n + (nodes a - 1))))%string
                  (S (S n + (nodes a - 1))) (acc ++ new1))
      as [sg2 [new2 [E2 L2]]].
    cbn [append] in *. rewrite E2. eexists target, (new1 ++ new2 ++ [_]).
    rewrite <- !List.app_assoc, !length_app, L1, L2. cbn [List.length].
    split; [|lia].
    assert (0 < nodes a) by (destruct a; simpl; lia).
    assert (0 < nodes b) by (destruct b; simpl; lia).
    replace (n + (S (nodes a + nodes b) - 1))
      with (S (S n + (nodes a - 1)) + (nodes b - 1)) by lia.
    reflexivity.
Qed.


(* ------------------------------------------------------------------ *)
(** ** Net names after [sanitize_signal_name] *)

Section Sanitize.

Lemma replace_char_removes c by_ s :
  Py.contains c by_ = false -> Py.contains c (replace_char c by_ s) = false.
Proof.
  intros B. induction s as [|d s IH]; simpl; [reflexivity|].
  destruct (Ascii.eqb_spec d c) as [->|N].
  - now rewrite contains_app, B, IH.
  - simpl. apply Ascii.eqb_neq in N. now rewrite N, IH.
Qed.

Lemma replace_char_keeps_absent c d by_ s :
  Py.contains c by_ = false -> Py.contains c s = false ->
  Py.contains c (replace_char d by_ s) = false.
Proof.
  intros B. induction s as [|e s IH]; simpl; [reflexivity|]. intros H.
  apply orb_false_iff in H as [He H].
  destruct (e =? d)%char.
  - now rewrite contains_app, B, IH.
  - simpl. now rewrite He, IH.
Qed.

End Sanitize.

(** X8.  A sanitized net name holds no bracket and no colon, whatever
    the name was. *)
Theorem sanitized_names_are_plain name :
  Py.contains "[" (sanitize_signal_name name) = false
  /\ Py.contains "]" (sanitize_signal_name name) = false
  /\ Py.contains ":" (sanitize_signal_name name) = false.
Proof.
  unfold sanitize_signal_name. repeat split.
  - apply replace_char_keeps_absent; [reflexivity|].
    apply replace_char_keeps_absent; [reflexivity|].
    now apply replace_char_removes.
  - apply replace_char_keeps_absent; [reflexivity|].
    now apply replace_char_removes.
  - now apply replace_char_removes.
Qed.

(* ------------------------------------------------------------------ *)
(** ** Hierarchies that do not flatten *)

Section Hierarchy.

Variable modules : Dict.t Module.

Lemma inline_instances_outcomes rec insts :
  (forall sub, (exists gs, rec sub = Ok gs) \/ rec sub = Raise RecursionError) ->
  forall flat,
    (exists gs, inline_instances rec modules insts flat = Ok gs)
    \/ inline_instances rec modules insts flat = Raise RecursionError.
Proof.
  intros R. induction insts as [|inst insts IH]; intros flat;
    cbn [inline_instances]; [left; eauto|].
  destruct (module_name inst =? "UNIT_DFFE")%string; [apply IH|].
  destruct (Dict.get modules (module_name inst)) as [sub|]; [|apply IH].
  destruct (R sub) as [[gs ->]| ->]; cbn [bind]; [apply IH|now right].
Qed.

Lemma flatten_outcomes fuel :
  forall m,
    (exists gs, flatten_module_gates fuel m modules = Ok gs)
    \/ flatten_module_gates fuel m modules = Raise RecursionError.
Proof.
  induction fuel as [|fuel IH]; intros m; cbn [flatten_module_gates];
    [now right|].
  now apply inline_instances_outcomes.
Qed.

Lemma inline_instances_raises rec insts inst sub :
  (forall sub, (exists gs, rec sub = Ok gs) \/ rec sub = Raise RecursionError) ->
  In inst insts ->
  module_name inst <> "UNIT_DFFE" ->
  Dict.get modules (module_name inst) = Some sub ->
  rec sub = Raise RecursionError ->
  forall flat,
    inline_instances rec modules insts flat = Raise RecursionError.
Proof.
  intros R HIn N G E. induction insts as [|i insts IH]; intros flat;
    [contradiction|]. cbn [inline_instances].
  destruct HIn as [->|HIn].
  - apply String.eqb_neq in N. now rewrite N, G, E.
  - destruct (i.(module_name) =? "UNIT_DFFE")%string; [now apply IH|].
    destruct (Dict.get modules (module_name i)) as [sub'|]; [|now apply IH].
    destruct (R sub') as [[gs ->]| ->]; cbn [bind]; [now apply IH|reflexivity].
Qed.

Lemma inline_instances_undeclared rec insts flat :
  (forall inst, In inst insts ->
     module_name inst <> "UNIT_DFFE"
     /\ Dict.get modules (module_name inst) = None) ->
  inline_instances rec modules insts flat = Ok flat.
Proof.
  induction insts as [|i insts IH]; intros H; cbn [inline_instances];
    [reflexivity|].
  destruct (H i (or_introl eq_refl)) as [N G].
  apply String.eqb_neq in N. rewrite N, G. apply IH.
  intros inst HIn. apply H. now right.
Qed.

End Hierarchy.

(** X9.  A hierarchy with a cycle is not detected.  When every module
    of a family instantiates a declared module of the family (a module
    that instantiates itself, or modules that instantiate each other),
    flattening a module of the family fails with [RecursionError]
    whatever the recursion limit is; it never returns a gate list. *)
Theorem cyclic_hierarchy_exhausts_recursion
    (family : Module -> Prop) modules :
  (forall m, family m ->
     exists inst sub,
       In inst (instances m) /\ module_name inst <> "UNIT_DFFE"
       /\ Dict.get modules (module_name inst) = Some sub /\ family sub) ->
  forall fuel m, family m ->
    flatten_module_gates fuel m modules = Raise RecursionError.
Proof.
  intros C. induction fuel as [|fuel IH]; intros m Fm;
    cbn [flatten_module_gates]; [reflexivity|].
  destruct (C m Fm) as [inst [sub [HIn [N [G Fs]]]]].
  apply (inline_instances_raises modules _ _ inst sub); auto.
  intros s. apply flatten_outcomes.
Qed.

Lemma cyclic_hierarchy_exhausts_recursion_witness :
  flatten_module_gates 1000 SelfInstance.loop [("loop", SelfInstance.loop)]
  = Raise RecursionError.
Proof.
  apply (cyclic_hierarchy_exhausts_recursion
           (fun m => m = SelfInstance.loop) [("loop", SelfInstance.loop)]).
  - intros m ->. eexists _, SelfInstance.loop.
    split; [left; reflexivity|]. split; [discriminate|]. split; reflexivity.
  - reflexivity.
Defined.

(** X10.  An instance of a module that is not declared is skipped
    without a message, and the gates of the instantiating module are
    not copied either: a module whose instances all name undeclared
    modules flattens to the empty gate list, whatever gates it has. *)
Theorem undeclared_instances_leave_nothing fuel m modules :
  instances m <> [] -> all_undeclared modules m ->
  flatten_module_gates (S fuel) m modules = Ok [].
Proof.
  intros N U. cbn [flatten_module_gates]. unfold all_undeclared in U.
  destruct (instances m) as [|i insts]; [contradiction|].
  apply inline_instances_undeclared. exact U.
Qed.

Lemma undeclared_instances_leave_nothing_witness :
  flatten_module_gates 1 Misspelt.top Misspelt.modules = Ok [].
Proof.
  apply (undeclared_instances_leave_nothing 0 Misspelt.top Misspelt.modules).
  - discriminate.
  - intros inst [<-|[]]. split; [discriminate|reflexivity].
Defined.

(* ------------------------------------------------------------------ *)
(** ** What the packed ICs hold *)

Section PackedGates.

Lemma chunks_from c (l : list Gate) n :
  forall s, List.length l <= (s + n) * c ->
    flat_map (fun i => firstn c (skipn (i * c) l)) (seq s n)
    = skipn (s * c) l.
Proof.
  induction n as [|n IH]; intros s L; cbn [seq flat_map].
  - rewrite skipn_all2; [reflexivity|]. now rewrite Nat.add_0_r in L.
  - rewrite IH by lia. cbn [Nat.mul].
    etransitivity; [|apply (firstn_skipn c)].
    now rewrite skipn_skipn.
Qed.

Lemma ic_count_covers n c : 0 < c -> n <= ic_count n c * c.
Proof.
  intros Hc. unfold ic_count.
  pose proof (Nat.mul_succ_div_gt (n + c - 1) c ltac:(lia)). nia.
Qed.

Lemma ic_count_tight n c i : 0 < c -> i < ic_count n c -> i * c < n.
Proof.
  intros Hc. unfold ic_count. intros Hi.
  pose proof (Nat.Div0.mul_div_le (n + c - 1) c). nia.
Qed.

Lemma chunks_cover c (l : list Gate) :
  0 < c ->
  flat_map (fun i => firstn c (skipn (i * c) l))
           (seq 0 (ic_count (List.length l) c))
  = l.
Proof.
  intros Hc. rewrite chunks_from; [reflexivity|].
  now apply ic_count_covers.
Qed.

Lemma catalog_capacity k m :
  Dict.get ic_mappings k = Some m -> 0 < gates_per_ic m.
Proof.
  intros Hm. pose proof (catalog_slots_first k m Hm) as S.
  unfold slots_first in S. apply andb_true_iff in S as [_ S].
  now apply Nat.ltb_lt.
Qed.

(** The ICs built for one group: numbered on from the ICs already
    there, each holding its slice of the group. *)
Lemma build_ics_gates k m gate_list ic_nums :
  Dict.get ic_mappings k = Some m ->
  forall ic_instances,
  exists new,
    build_ics m gate_list ic_nums ic_instances = Ok (ic_instances ++ new)
    /\ map instance_id new
       = map designator (seq (List.length ic_instances + 1)
                             (List.length ic_nums))
    /\ map gates_of_ic new
       = map (fun i => firstn (gates_per_ic m)
                              (skipn (i * gates_per_ic m) gate_list)) ic_nums
    /\ Forall (fun ic => part_number ic = m_part_number m) new.
Proof.
  intros Hm. induction ic_nums as [|i rest IH]; intros ics;
    cbn [build_ics].
  - exists []. now rewrite List.app_nil_r.
  - destruct (build_ic_ok k m gate_list i (List.length ics) Hm)
      as [ic [H1 [H2 [H3 H4]]]].
    rewrite H1. cbn [bind].
    destruct (IH (ics ++ [ic])) as [new [H5 [H6 [H7 H8]]]].
    exists (ic :: new). rewrite H5, <- List.app_assoc.
    split; [reflexivity|]. cbn [map List.length seq].
    rewrite H3, H4, H6, H7, length_app. cbn [List.length].
    repeat split; auto.
    now replace (List.length ics + 1 + 1) with (S (List.length ics + 1))
      by lia.
Qed.

Lemma flat_map_concat_map {A B} (f : A -> list B) l :
  flat_map f l = List.concat (map f l).
Proof. induction l as [|x l IH]; simpl; [reflexivity|now rewrite IH]. Qed.

Lemma filter_same_part p q (l : list ICInstance) :
  Forall (fun ic => part_number ic = q) l ->
  filter (has_part p) l = if (q =? p)%string then l else [].
Proof.
  unfold has_part. induction 1 as [|ic l Hq _ IH]; simpl.
  - now destruct (q =? p)%string.
  - rewrite Hq, IH. now destruct (q =? p)%string.
Qed.

Lemma map_designator_app a n1 n2 :
  map designator (seq a n1) ++ map designator (seq (a + n1) n2)
  = map designator (seq a (n1 + n2)).
Proof. now rewrite seq_app, map_app. Qed.

Lemma map_eq_In {A B C} (f : A -> C) (g : B -> C) l l' :
  map f l = map g l' ->
  forall x, In x l -> exists y, In y l' /\ f x = g y.
Proof.
  revert l'. induction l as [|a l IH]; intros l' E x Hx; [contradiction|].
  destruct l' as [|b l']; [discriminate|]. injection E as E1 E2.
  destruct Hx as [<-|Hx].
  - exists b. split; [now left|exact E1].
  - destruct (IH l' E2 x Hx) as [y [Hy Ey]]. exists y. split; [now right|exact Ey].
Qed.

Lemma pack_groups_gates gate_counts :
  forall ic_instances,
  exists new,
    pack_groups gate_counts ic_instances = Ok (ic_instances ++ new)
    /\ map instance_id new
       = map designator (seq (List.length ic_instances + 1)
                             (List.length new))
    /\ (forall p, flat_map gates_of_ic (filter (has_part p) new)
                  = gates_for gate_counts p)
    /\ Forall filled new.
Proof.
  induction gate_counts as [|[k l] rest IH]; intros ics;
    cbn [pack_groups gates_for].
  - exists []. rewrite List.app_nil_r. repeat split; auto.
  - destruct (Dict.get ic_mappings k) as [m|] eqn:Hm.
    + pose proof (catalog_capacity k m Hm) as Hc.
      destruct (build_ics_gates k m l
                  (seq 0 (ic_count (List.length l) (gates_per_ic m))) Hm ics)
        as [new1 [H1 [H2 [H3 H4]]]].
      rewrite H1. cbn [bind].
      destruct (IH (ics ++ new1)) as [new2 [H5 [H6 [H7 H8]]]].
      exists (new1 ++ new2). rewrite H5, List.app_assoc.
      split; [reflexivity|].
      assert (L1 : List.length new1
                   = ic_count (List.length l) (gates_per_ic m)).
      { rewrite <- (length_map instance_id), H2, length_map, !length_seq.
        reflexivity. }
      split; [|split].
      * rewrite map_app, H2, H6, !length_app, length_seq, <- L1.
        replace (List.length ics + List.length new1 + 1)
          with (List.length ics + 1 + List.length new1) by lia.
        apply map_designator_app.
      * intros p. rewrite filter_app, flat_map_app, H7.
        f_equal. rewrite (filter_same_part p _ _ H4).
        destruct (m_part_number m =? p)%string; [|reflexivity].
        rewrite flat_map_concat_map, H3, <- flat_map_concat_map.
        now apply chunks_cover.
      * apply Forall_app. split; [|exact H8].
        apply Forall_forall. intros ic Hic.
        destruct (map_eq_In _ _ _ _ H3 ic Hic) as [i [Hi G]].
        apply in_seq in Hi.
        exists k, m. split; [exact Hm|]. split.
        { rewrite Forall_forall in H4. now apply H4. }
        rewrite G, length_firstn, length_skipn.
        assert (Hi' : i < ic_count (List.length l) (gates_per_ic m)) by lia.
        pose proof (ic_count_tight _ _ _ Hc Hi'). lia.
    + destruct (IH ics) as [new [H5 [H6 [H7 H8]]]]. exists new. auto.
Qed.

(** With one entry per kind, the gates packed into a part are the
    group of its kind. *)
Lemma gates_for_kind gate_counts k m :
  NoDup (Dict.keys gate_counts) ->
  Dict.get ic_mappings k = Some m ->
  gates_for gate_counts (m_part_number m) = group_of gate_counts k.
Proof.
  intros ND Hm. unfold group_of.
  induction gate_counts as [|[k0 l0] rest IH]; cbn [gates_for Dict.get];
    [reflexivity|].
  inversion ND as [|? ? Hnotin ND']; subst.
  rewrite IH by assumption.
  destruct (String.eqb_spec k0 k) as [->|N].
  - rewrite Hm, String.eqb_refl.
    destruct (Dict.get rest k) eqn:E.
    + apply DictFacts.get_In_keys in E. contradiction.
    + apply List.app_nil_r.
  - destruct (Dict.get ic_mappings k0) as [m0|] eqn:Hm0; [|reflexivity].
    destruct (String.eqb_spec (m_part_number m0) (m_part_number m)) as [E|_];
      [|reflexivity].
    exfalso. apply N. exact (catalog_parts_inj k0 k m0 m Hm0 Hm E).
Qed.

Lemma designator_inj i j : designator i = designator j -> i = j.
Proof.
  unfold designator. intros H. injection H as H. now apply str_of_nat_inj.
Qed.

Lemma NoDup_designators a n : NoDup (map designator (seq a n)).
Proof.
  revert a. induction n as [|n IH]; intros a; cbn [seq map]; constructor.
  - intros H. apply in_map_iff in H as [i [E Hi]].
    apply designator_inj in E. apply in_seq in Hi. lia.
  - apply IH.
Qed.

End PackedGates.

(** X11.  The packer numbers the real ICs [U1], [U2], ... in the order
    in which it returns them, the alias pseudo-IC, when there is one,
    comes last under the reference [ALIAS], and no two entries of the
    result share a reference. *)
Theorem packed_ics_are_numbered gates ics :
  map_gates_to_ics gates = Ok ics ->
  exists n,
    map instance_id ics
    = map designator (seq 1 n)
      ++ match filter is_alias gates with
         | [] => []
         | _ => ["ALIAS"]
         end
    /\ NoDup (map instance_id ics).
Proof.
  intros H. pose proof (map_gates_ok_sources _ _ H) as HA.
  unfold map_gates_to_ics in H.
  destruct (group_gates_spec gates [] [] HA (NoDup_nil _))
    as [gc [H1 [H2 H3]]].
  unfold Dict.t in H1, H. rewrite H1 in H. cbn [bind app] in H.
  destruct (pack_groups_gates gc []) as [real [H4 [H5 _]]].
  rewrite H4 in H. cbn [bind app List.length Nat.add] in *.
  exists (List.length real).
  assert (E : map instance_id ics
              = map designator (seq 1 (List.length real))
                ++ match filter is_alias gates with
                   | [] => []
                   | _ => ["ALIAS"]
                   end).
  { destruct (filter is_alias gates) as [|a als]; cbn [map] in H;
      injection H as <-.
    - now rewrite List.app_nil_r.
    - now rewrite map_app, H5. }
  split; [exact E|]. rewrite E.
  apply NoDup_app; [apply NoDup_designators| |].
  - destruct (filter is_alias gates); repeat constructor; simpl; tauto.
  - intros s Hs Ha. apply in_map_iff in Hs as [i [<- _]].
    destruct (filter is_alias gates); [contradiction|].
    destruct Ha as [Ha|[]]. discriminate.
Qed.

Lemma packed_ics_are_numbered_witness :
  exists n,
    map instance_id MixedKinds.ics
    = map designator (seq 1 n)
      ++ match filter is_alias MixedKinds.gates with
         | [] => []
         | _ => ["ALIAS"]
         end
    /\ NoDup (map instance_id MixedKinds.ics).
Proof.
  apply (packed_ics_are_numbered MixedKinds.gates MixedKinds.ics).
  reflexivity.
Defined.

(** X12.  Packing neither loses nor duplicates a gate of a catalog
    kind and puts none into a part of another kind: the gates held by
    the ICs of a part, read in the order of the ICs, are the gates of
    its kind in the order of the gate list.  Every real IC holds at
    least one gate and at most as many as its part has slots.  Gates
    of a kind that the catalog does not list are in no IC. *)
Theorem packed_ics_hold_the_gates gates ics :
  map_gates_to_ics gates = Ok ics ->
  (forall k m, Dict.get ic_mappings k = Some m ->
     flat_map gates_of_ic (filter (has_part (m_part_number m)) ics)
     = filter (is_kind k) gates)
  /\ Forall (fun ic => has_part "ALIAS" ic = true \/ filled ic) ics.
Proof.
  intros H. pose proof (map_gates_ok_sources _ _ H) as HA.
  unfold map_gates_to_ics in H.
  destruct (group_gates_spec gates [] [] HA (NoDup_nil _))
    as [gc [H1 [H2 H3]]].
  unfold Dict.t in H1, H. rewrite H1 in H. cbn [bind app] in H.
  destruct (pack_groups_gates gc []) as [real [H4 [_ [H6 H7]]]].
  rewrite H4 in H. cbn [bind app] in H.
  assert (E : exists tail,
             ics = real ++ tail
             /\ Forall (fun ic => part_number ic = "ALIAS") tail).
  { destruct (filter is_alias gates) as [|a als]; injection H as <-.
    - exists []. now rewrite List.app_nil_r.
    - eexists. split; [reflexivity|]. repeat constructor. }
  destruct E as [tail [-> T]]. split.
  - intros k m Hm. rewrite filter_app, flat_map_app, H6.
    rewrite (filter_same_part _ _ _ T).
    assert (N : ("ALIAS" =? m_part_number m)%string = false).
    { apply catalog_cases in Hm.
      destruct Hm as [Hm|[Hm|[Hm|[Hm|Hm]]]];
        injection Hm as _ P _; now rewrite P. }
    rewrite N, List.app_nil_r, (gates_for_kind gc k m H2 Hm), H3.
    cbn [group_of Dict.get app]. apply filter_kind_not_alias.
    intros ->. discriminate.
  - apply Forall_app. split.
    + revert H7. apply Forall_impl. auto.
    + revert T. apply Forall_impl. intros ic E. left.
      unfold has_part. now rewrite E.
Qed.

Lemma packed_ics_hold_the_gates_witness :
  (forall k m, Dict.get ic_mappings k = Some m ->
     flat_map gates_of_ic
              (filter (has_part (m_part_number m)) MixedKinds.ics)
     = filter (is_kind k) MixedKinds.gates)
  /\ Forall (fun ic => has_part "ALIAS" ic = true \/ filled ic)
            MixedKinds.ics.
Proof.
  apply (packed_ics_hold_the_gates MixedKinds.gates MixedKinds.ics).
  reflexivity.
Defined.

(* ------------------------------------------------------------------ *)
(** ** The pins of the packed ICs *)

Section Wiring.

Import DictFacts.

Lemma distinct_NoDup l : distinct l = true -> NoDup l.
Proof.
  induction l as [|x l IH]; simpl; [constructor|]. intros H.
  apply andb_true_iff in H as [Hx H]. constructor; [|now apply IH].
  intros HIn. apply negb_true_iff in Hx.
  assert (E : existsb (String.eqb x) l = true).
  { apply existsb_exists. exists x. split; [exact HIn|apply String.eqb_refl]. }
  congruence.
Qed.

Lemma catalog_pins_distinct k m :
  Dict.get ic_mappings k = Some m -> pins_distinct m = true.
Proof.
  unfold ic_mappings. cbn [Dict.get].
  repeat match goal with
         | |- context [String.eqb ?a k] =>
             destruct (String.eqb_spec a k) as [<-|?]
         end; intros H; try discriminate; injection H as <-; reflexivity.
Qed.

Lemma bind_inputs_frame pins signals pa pin :
  ~ In pin pins ->
  Dict.get (bind_inputs pa pins signals) pin = Dict.get pa pin.
Proof.
  revert signals pa. induction pins as [|p pins IH]; intros signals pa N;
    cbn [bind_inputs]; [reflexivity|].
  destruct signals as [|s signals]; [reflexivity|].
  rewrite IH by (intros H; apply N; now right).
  apply get_set_other. intros ->. apply N. now left.
Qed.

Lemma bind_inputs_get pins :
  NoDup pins ->
  forall signals pa j pin net,
    nth_error pins j = Some pin -> nth_error signals j = Some net ->
    Dict.get (bind_inputs pa pins signals) pin = Some net.
Proof.
  induction 1 as [|p pins Hp ND IH]; intros signals pa j pin net Hj Hs.
  - now destruct j.
  - destruct signals as [|s signals]; [now destruct j|].
    cbn [bind_inputs]. destruct j as [|j]; simpl in Hj, Hs.
    + injection Hj as <-. injection Hs as <-.
      rewrite bind_inputs_frame by exact Hp. apply get_set_same.
    + now apply (IH signals _ j).
Qed.

Lemma place_gates_wired pinout gate_names :
  forall gs ic ic',
    NoDup (slot_pins pinout gate_names) ->
    place_gates pinout gate_names gs ic = Ok ic' ->
    (forall pin, ~ In pin (slot_pins pinout gate_names) ->
                 Dict.get (pin_assignments ic') pin
                 = Dict.get (pin_assignments ic) pin)
    /\ forall i g gate_name slot_inputs slot_output,
         nth_error gs i = Some g ->
         nth_error gate_names i = Some gate_name ->
         Dict.get pinout gate_name = Some (Slot slot_inputs slot_output) ->
         Dict.get (pin_assignments ic') slot_output = Some (output g)
         /\ forall j pin net,
              nth_error slot_inputs j = Some pin ->
              nth_error (inputs g) j = Some net ->
              Dict.get (pin_assignments ic') pin = Some net.
Proof.
  induction gate_names as [|nm names IH]; intros gs ic ic' ND H.
  - cbn [place_gates] in H. injection H as <-. split; [reflexivity|].
    intros i g gate_name si so _ Hn. now destruct i.
  - destruct gs as [|g0 gs].
    { cbn [place_gates] in H. injection H as <-. split; [reflexivity|].
      intros i g gate_name si so Hg. now destruct i. }
    cbn [place_gates] in H. cbn [slot_pins flat_map] in ND.
    fold (slot_pins pinout names) in ND.
    destruct (Dict.get pinout nm) as [[si0 so0|p]|] eqn:E;
      cbn [place_gate bind] in H; try discriminate.
    apply NoDup_app_remove_l in ND as ND'.
    destruct (IH gs _ ic' ND' H) as [Fr W]. cbn [pin_assignments] in Fr.
    assert (NDs : NoDup (si0 ++ [so0])).
    { now apply NoDup_app_remove_r in ND. }
    assert (Dj : forall pin, In pin (si0 ++ [so0]) ->
                             ~ In pin (slot_pins pinout names)).
    { intros pin H1 H2. revert pin H1 H2.
      clear -ND. induction (si0 ++ [so0]) as [|x l IHl]; intros pin H1 H2;
        [contradiction|].
      simpl in ND. inversion ND as [|? ? Hx ND0]; subst.
      destruct H1 as [->|H1].
      - apply Hx. apply in_or_app. now right.
      - now apply (IHl ND0 pin). }
    assert (So : ~ In so0 si0).
    { intros HIn. apply NoDup_remove_2 in NDs.
      apply NDs. rewrite List.app_nil_r. exact HIn. }
    split.
    + intros pin N. cbn [slot_pins flat_map] in N. rewrite E in N.
      fold (slot_pins pinout names) in N.
      rewrite Fr by (intros HIn; apply N, in_or_app; now right).
      rewrite get_set_other
        by (intros ->; apply N, in_or_app; left; apply in_or_app;
            right; now left).
      apply bind_inputs_frame.
      intros HIn. apply N, in_or_app. left. apply in_or_app. now left.
    + intros i g gate_name si so Hg Hn Hs. destruct i as [|i].
      * simpl in Hg, Hn. injection Hg as <-. injection Hn as <-.
        rewrite E in Hs. injection Hs as <- <-. split.
        -- rewrite Fr by (apply Dj, in_or_app; right; now left).
           apply get_set_same.
        -- intros j pin net Hp Hnet.
           assert (HIn : In pin si0) by (eapply nth_error_In; exact Hp).
           rewrite Fr by (apply Dj, in_or_app; now left).
           rewrite get_set_other by (intros ->; contradiction).
           apply (bind_inputs_get si0) with (j := j); auto.
           now apply NoDup_app_remove_r in NDs.
      * simpl in Hg, Hn. exact (W i g gate_name si so Hg Hn Hs).
Qed.

Lemma nth_error_keys_In {V} (d : Dict.t V) i k :
  nth_error (Dict.keys d) i = Some k -> In k (Dict.keys d).
Proof. apply nth_error_In. Qed.

Lemma slot_pin_In pinout gate_names gate_name si so pin :
  In gate_name gate_names ->
  Dict.get pinout gate_name = Some (Slot si so) ->
  In pin (si ++ [so]) -> In pin (slot_pins pinout gate_names).
Proof.
  intros HIn E Hp. unfold slot_pins. apply in_flat_map.
  exists gate_name. split; [exact HIn|]. now rewrite E.
Qed.

Lemma place_gates_placed pinout gate_names :
  forall gs ic ic',
    place_gates pinout gate_names gs ic = Ok ic' ->
    exists placed,
      gates_of_ic ic' = gates_of_ic ic ++ placed
      /\ forall i g, nth_error placed i = Some g -> nth_error gs i = Some g.
Proof.
  induction gate_names as [|nm names IH]; intros gs ic ic' H.
  - cbn [place_gates] in H. injection H as <-. exists [].
    rewrite List.app_nil_r. split; [reflexivity|]. intros i g Hi.
    now destruct i.
  - destruct gs as [|g0 gs].
    { cbn [place_gates] in H. injection H as <-. exists [].
      rewrite List.app_nil_r. split; [reflexivity|]. intros i g Hi.
      now destruct i. }
    cbn [place_gates] in H.
    destruct (Dict.get pinout nm) as [[si0 so0|p]|];
      cbn [place_gate bind] in H; try discriminate.
    destruct (IH gs _ ic' H) as [placed [G Hp]]. cbn [gates_of_ic] in G.
    exists (g0 :: placed). rewrite G, <- List.app_assoc.
    split; [reflexivity|]. intros i g Hi. destruct i as [|i]; [exact Hi|].
    now apply Hp.
Qed.

Lemma build_ic_wired k m gate_list ic_num n_ics ic :
  Dict.get ic_mappings k = Some m ->
  build_ic m gate_list ic_num n_ics = Ok ic ->
  wired_as m ic.
Proof.
  intros Hm H. pose proof (catalog_pins_distinct k m Hm) as D.
  apply distinct_NoDup in D.
  pose proof (NoDup_app_remove_r _ _ D) as NDs.
  unfold build_ic in H.
  destruct (place_gates _ _ _ _) as [ic1| |] eqn:P; cbn [bind] in H;
    try discriminate.
  injection H as <-.
  destruct (place_gates_placed _ _ _ _ _ P) as [placed [G Hpl]].
  destruct (place_gates_wired _ _ _ _ _ NDs P) as [_ W].
  intros i g si so Hg Hs. cbn [gates_of_ic pin_assignments] in *.
  rewrite G in Hg. cbn [app] in Hg. apply Hpl in Hg. unfold slot_of in Hs.
  destruct (nth_error (Dict.keys (pinout m)) i) as [nm|] eqn:En;
    [|discriminate].
  destruct (Dict.get (pinout m) nm) as [[si' so'|]|] eqn:Es;
    try discriminate.
  injection Hs as -> ->.
  destruct (W i g nm si so Hg En Es) as [Wo Wi].
  assert (Hp : forall pin, In pin (si ++ [so]) ->
                           pin <> pin_of (pinout m) "vcc"
                           /\ pin <> pin_of (pinout m) "gnd").
  { intros pin Hpin.
    pose proof (slot_pin_In _ _ _ _ _ pin (nth_error_In _ _ En) Es Hpin)
      as HIn.
    clear -D HIn. revert HIn.
    induction (slot_pins (pinout m) (Dict.keys (pinout m))) as [|x l IHl];
      intros HIn; [contradiction|].
    simpl in D. inversion D as [|? ? Hx D0]; subst.
    destruct HIn as [->|HIn]; [|now apply IHl].
    split; intros E; apply Hx, in_or_app; right; rewrite E; simpl; auto. }
  split.
  - destruct (Hp so) as [N1 N2]; [apply in_or_app; right; now left|].
    now rewrite !get_set_other by auto.
  - intros j pin net Hpin Hnet.
    destruct (Hp pin) as [N1 N2];
      [apply in_or_app; left; eapply nth_error_In; exact Hpin|].
    rewrite !get_set_other by auto. now apply (Wi j).
Qed.

Lemma build_ics_wired k m gate_list ic_nums :
  Dict.get ic_mappings k = Some m ->
  forall ic_instances ics,
    build_ics m gate_list ic_nums ic_instances = Ok ics ->
    exists new, ics = ic_instances ++ new /\ Forall wired new.
Proof.
  intros Hm. induction ic_nums as [|i rest IH]; intros ic_instances ics H;
    cbn [build_ics] in H.
  - injection H as <-. exists []. now rewrite List.app_nil_r.
  - destruct (build_ic m gate_list i (List.length ic_instances))
      as [ic| |] eqn:B; cbn [bind] in H; try discriminate.
    destruct (IH _ _ H) as [new [-> F]].
    exists (ic :: new). rewrite <- List.app_assoc. split; [reflexivity|].
    constructor; [|exact F]. exists k, m. split; [exact Hm|]. split.
    + destruct (build_ic_ok k m gate_list i (List.length ic_instances) Hm)
        as [ic0 [B0 [P0 _]]].
      rewrite B in B0. now injection B0 as <-.
    + exact (build_ic_wired k m _ _ _ ic Hm B).
Qed.

Lemma pack_groups_wired gate_counts :
  forall ic_instances ics,
    pack_groups gate_counts ic_instances = Ok ics ->
    exists new, ics = ic_instances ++ new /\ Forall wired new.
Proof.
  induction gate_counts as [|[k l] rest IH]; intros ic_instances ics H;
    cbn [pack_groups] in H.
  - injection H as <-. exists []. now rewrite List.app_nil_r.
  - destruct (Dict.get ic_mappings k) as [m|] eqn:Hm; [|now apply IH].
    destruct (build_ics m l _ ic_instances) as [ics1| |] eqn:B;
      cbn [bind] in H; try discriminate.
    destruct (build_ics_wired k m l _ Hm _ _ B) as [new1 [-> F1]].
    destruct (IH _ _ H) as [new2 [-> F2]].
    exists (new1 ++ new2). rewrite List.app_assoc. split; [reflexivity|].
    apply Forall_app. now split.
Qed.

End Wiring.

(** X13.  The pins of every real IC that the packer returns: the gate
    in slot [i] has its output net on the output pin of the slot and
    its [j]-th input net on the [j]-th input pin, as the catalog lays
    the slots out; pin 14 is bound to VCC and pin 7 to GND.  No later
    assignment overwrites an earlier one. *)
Theorem packed_ics_are_wired gates ics :
  map_gates_to_ics gates = Ok ics ->
  Forall (fun ic => has_part "ALIAS" ic = true \/ (wired ic /\ powered ic))
         ics.
Proof.
  intros H. pose proof H as H0. unfold map_gates_to_ics in H.
  destruct (group_gates gates ([], [])) as [[gc links]| |]; cbn [bind] in H;
    try discriminate.
  destruct (pack_groups gc []) as [real| |] eqn:P; cbn [bind] in H;
    try discriminate.
  destruct (pack_groups_wired gc [] real P) as [new [-> W]].
  cbn [app] in H.
  assert (R : Forall (fun ic => has_part "ALIAS" ic = true
                                \/ (wired ic /\ powered ic)) new).
  { apply Forall_forall. intros ic Hic. right.
    rewrite Forall_forall in W. split; [now apply W|].
    apply (packed_real_ics_powered gates ics ic H0).
    - destruct links; injection H as <-; [exact Hic|].
      apply in_or_app. now left.
    - destruct (W ic Hic) as [k [m [Hm [E _]]]]. rewrite E.
      apply catalog_cases in Hm.
      destruct Hm as [Hm|[Hm|[Hm|[Hm|Hm]]]];
        injection Hm as _ Pn _; now rewrite Pn. }
  destruct links; injection H as <-; [exact R|].
  apply Forall_app. split; [exact R|]. constructor; [|constructor].
  now left.
Qed.

Lemma packed_ics_are_wired_witness :
  Forall (fun ic => has_part "ALIAS" ic = true \/ (wired ic /\ powered ic))
         MixedKinds.ics.
Proof.
  apply (packed_ics_are_wired MixedKinds.gates MixedKinds.ics).
  reflexivity.
Defined.

(* ------------------------------------------------------------------ *)
(** ** Ports declared more than once *)

Section MergedPorts.

Import KiCadNetlistExporter DictFacts.

Lemma keys_set {V} (d : Dict.t V) k v :
  Dict.keys (Dict.set d k v)
  = if Dict.mem d k then Dict.keys d else Dict.keys d ++ [k].
Proof.
  unfold Dict.mem. induction d as [|[k0 v0] d IH]; simpl; [reflexivity|].
  destruct (String.eqb_spec k0 k) as [->|N]; simpl; [reflexivity|].
  rewrite IH. now destruct (Dict.get d k).
Qed.

Lemma NoDup_keys_set {V} (d : Dict.t V) k v :
  NoDup (Dict.keys d) -> NoDup (Dict.keys (Dict.set d k v)).
Proof.
  intros ND. rewrite keys_set. destruct (Dict.mem d k) eqn:E; [exact ND|].
  apply mem_false_not_In in E.
  apply NoDup_rev in ND. rewrite <- (rev_involutive (_ ++ _)).
  apply NoDup_rev. rewrite rev_app_distr. simpl. constructor; [|exact ND].
  now rewrite <- in_rev.
Qed.

Lemma In_set {V} (d : Dict.t V) k v k' v' :
  In (k', v') (Dict.set d k v) -> (k' = k /\ v' = v) \/ In (k', v') d.
Proof.
  induction d as [|[k0 v0] d IH]; simpl.
  - intros [E|[]]. injection E as <- <-. now left.
  - destruct (String.eqb_spec k0 k) as [->|N]; simpl.
    + intros [E|H]; [injection E as <- <-; now left|now right; right].
    + intros [E|H]; [now right; left|].
      destruct (IH H) as [H1|H1]; [now left|now right; right].
Qed.

Lemma In_get {V} (d : Dict.t V) k v :
  NoDup (Dict.keys d) -> In (k, v) d -> Dict.get d k = Some v.
Proof.
  induction d as [|[k0 v0] d IH]; simpl; [contradiction|].
  intros ND H. inversion ND as [|? ? Hk ND']; subst.
  destruct H as [E|H].
  - injection E as -> ->. now rewrite String.eqb_refl.
  - destruct (String.eqb_spec k0 k) as [->|N]; [|now apply IH].
    exfalso. apply Hk. change k with (fst (k, v)). now apply in_map.
Qed.

(** The dictionary [merged] after the loop has seen [signals]. *)
Lemma merge_fold signals :
  forall merged seen,
    NoDup (Dict.keys merged) ->
    (forall k v, In (k, v) merged -> sig_name v = k /\ In v seen) ->
    (forall s, In s seen ->
       exists v, Dict.get merged (sig_name s) = Some v
                 /\ width_or_1 (width s) <= width_or_1 (width v)) ->
    let merged' := fold_left merge_step signals merged in
    NoDup (Dict.keys merged')
    /\ (forall k v, In (k, v) merged' ->
          sig_name v = k /\ In v (seen ++ signals))
    /\ (forall s, In s (seen ++ signals) ->
          exists v, Dict.get merged' (sig_name s) = Some v
                    /\ width_or_1 (width s) <= width_or_1 (width v)).
Proof.
  induction signals as [|sg signals IH]; intros merged seen ND K W;
    cbn [fold_left].
  - cbn zeta. rewrite List.app_nil_r. auto.
  - cbn zeta.
    replace (seen ++ sg :: signals) with ((seen ++ [sg]) ++ signals)
      by now rewrite <- List.app_assoc.
    apply IH; unfold merge_step.
    + destruct (Dict.get merged (sig_name sg)) as [existing|];
        [destruct (_ <? _)%nat|]; auto using NoDup_keys_set.
    + intros k v H.
      assert (G : (k = sig_name sg /\ v = sg) \/ In (k, v) merged).
      { destruct (Dict.get merged (sig_name sg)) as [existing|];
          [destruct (_ <? _)%nat|]; auto using In_set. }
      destruct G as [[-> ->]|G].
      * split; [reflexivity|]. apply in_or_app. right. now left.
      * destruct (K k v G). split; [assumption|]. apply in_or_app. now left.
    + intros s Hs. apply in_app_or in Hs as [Hs|[<-|[]]].
      * destruct (W s Hs) as [v [G L]].
        destruct (String.eqb_spec (sig_name sg) (sig_name s)) as [E|N].
        -- rewrite E, G.
           destruct (Nat.ltb_spec (width_or_1 (width v))
                                  (width_or_1 (width sg))) as [Lt|Ge].
           ++ exists sg. rewrite <- E, get_set_same. split; [reflexivity|lia].
           ++ exists v. now split.
        -- exists v. split; [|exact L].
           destruct (Dict.get merged (sig_name sg)) as [existing|];
             [destruct (_ <? _)%nat|]; auto; now rewrite get_set_other.
      * destruct (Dict.get merged (sig_name sg)) as [existing|] eqn:G.
        -- destruct (Nat.ltb_spec (width_or_1 (width existing))
                                  (width_or_1 (width sg))) as [Lt|Ge].
           ++ exists sg. rewrite get_set_same. split; [reflexivity|lia].
           ++ exists existing. now split.
        -- exists sg. rewrite get_set_same. split; [reflexivity|lia].
Qed.

End MergedPorts.

(** X14.  Ports declared more than once are merged by name: the merged
    list holds every name once, each of its entries is one of the
    declarations, and for every declaration the entry of its name is at
    least as wide. *)
Theorem merged_ports_keep_the_widest signals :
  NoDup (map sig_name (KiCadNetlistExporter._merge_signals_by_name signals))
  /\ incl (KiCadNetlistExporter._merge_signals_by_name signals) signals
  /\ forall s, In s signals ->
       exists v,
         In v (KiCadNetlistExporter._merge_signals_by_name signals)
         /\ sig_name v = sig_name s
         /\ KiCadNetlistExporter.width_or_1 (width s)
            <= KiCadNetlistExporter.width_or_1 (width v).
Proof.
  destruct (merge_fold signals [] [] (NoDup_nil _)) as [ND [K W]].
  - intros k v [].
  - intros s [].
  - cbn [app] in *. unfold KiCadNetlistExporter._merge_signals_by_name.
    set (merged := fold_left KiCadNetlistExporter.merge_step signals []) in *.
    assert (E : map sig_name (map snd merged) = Dict.keys merged).
    { unfold Dict.keys. rewrite map_map. apply map_ext_in.
      intros [k v] H. now destruct (K k v H). }
    split; [now rewrite E|]. split.
    + intros v Hv. apply in_map_iff in Hv as [[k v'] [<- H]].
      now destruct (K k v' H).
    + intros s Hs. destruct (W s Hs) as [v [G L]]. exists v.
      apply get_In in G. split.
      * apply in_map_iff. now exists (sig_name s, v).
      * split; [now destruct (K _ _ G)|exact L].
Qed.

(* ------------------------------------------------------------------ *)
(** ** The nets dictionary *)

Section NetsDictionary.

Import KiCadNetlistExporter DictFacts.

Lemma In_keys_remove {V} (d : Dict.t V) k x :
  In x (Dict.keys (Dict.remove d k)) -> In x (Dict.keys d).
Proof.
  induction d as [|[k0 v0] d IH]; simpl; [auto|].
  destruct (k0 =? k)%string; simpl; [auto|]. intros [H|H]; auto.
Qed.

Lemma NoDup_keys_remove {V} (d : Dict.t V) k :
  NoDup (Dict.keys d) -> NoDup (Dict.keys (Dict.remove d k)).
Proof.
  induction d as [|[k0 v0] d IH]; simpl; [auto|]. intros ND.
  inversion ND as [|? ? Hk ND']; subst.
  destruct (k0 =? k)%string; simpl; [exact ND'|].
  constructor; [|now apply IH]. intros H. apply Hk.
  now apply In_keys_remove in H.
Qed.

Lemma NoDup_keys_nets_add nets k x :
  NoDup (Dict.keys nets) -> NoDup (Dict.keys (nets_add nets k x)).
Proof.
  unfold nets_add. destruct (Dict.get nets k); apply NoDup_keys_set.
Qed.

Lemma NoDup_keys_add_connectors prefix nets signal :
  NoDup (Dict.keys nets) ->
  NoDup (Dict.keys (add_connectors prefix nets signal)).
Proof.
  unfold add_connectors. destruct (1 <? width signal)%nat.
  - generalize (seq 0 (width signal)). intros l. revert nets.
    induction l as [|i l IH]; intros nets ND; cbn [fold_left]; [exact ND|].
    apply IH. now apply NoDup_keys_nets_add.
  - apply NoDup_keys_nets_add.
Qed.

Lemma NoDup_keys_fold_connectors prefix signals :
  forall nets,
    NoDup (Dict.keys nets) ->
    NoDup (Dict.keys (fold_left (add_connectors prefix) signals nets)).
Proof.
  induction signals as [|sg signals IH]; intros nets ND; cbn [fold_left];
    [exact ND|].
  apply IH. now apply NoDup_keys_add_connectors.
Qed.

Lemma NoDup_keys_add_ic_pins ic nets links :
  NoDup (Dict.keys nets) ->
  NoDup (Dict.keys (fst (add_ic_pins (nets, links) ic))).
Proof.
  unfold add_ic_pins. destruct (part_number ic =? "ALIAS")%string;
    cbn [fst]; [auto|].
  generalize (pin_assignments ic). intros pa. revert nets.
  induction pa as [|[pin sg] pa IH]; intros nets ND; cbn [fold_left];
    [exact ND|].
  apply IH. cbn [snd fst]. destruct (is_power sg); [exact ND|].
  now apply NoDup_keys_nets_add.
Qed.

Lemma NoDup_keys_fold_ic_pins ics :
  forall st,
    NoDup (Dict.keys (fst st)) ->
    NoDup (Dict.keys (fst (fold_left add_ic_pins ics st))).
Proof.
  induction ics as [|ic ics IH]; intros [nets links] ND; cbn [fold_left];
    [exact ND|].
  apply IH. now apply NoDup_keys_add_ic_pins.
Qed.

Lemma NoDup_keys_merge_alias nets link :
  NoDup (Dict.keys nets) -> NoDup (Dict.keys (merge_alias nets link)).
Proof.
  intros ND. unfold merge_alias. destruct link as [dst src].
  destruct (Dict.get nets src); [|exact ND].
  destruct (negb (dst =? src)%string).
  - now apply NoDup_keys_remove, NoDup_keys_set.
  - now apply NoDup_keys_set.
Qed.

Lemma NoDup_keys_fold_merge links :
  forall nets,
    NoDup (Dict.keys nets) ->
    NoDup (Dict.keys (fold_left merge_alias links nets)).
Proof.
  induction links as [|l links IH]; intros nets ND; cbn [fold_left];
    [exact ND|].
  apply IH. now apply NoDup_keys_merge_alias.
Qed.

Lemma NoDup_keys_signal_nets_dict module ics :
  NoDup (Dict.keys (signal_nets_dict module ics)).
Proof.
  unfold signal_nets_dict.
  pose proof (NoDup_keys_fold_ic_pins ics
                (fold_left (add_connectors "JOUT_")
                   (_merge_signals_by_name (mod_outputs module))
                   (fold_left (add_connectors "JIN_")
                      (_merge_signals_by_name (mod_inputs module)) []), [])) as H.
  destruct (fold_left add_ic_pins ics _) as [nets links]. cbn [fst] in H.
  apply NoDup_keys_fold_merge, H.
  apply NoDup_keys_fold_connectors, NoDup_keys_fold_connectors.
  constructor.
Qed.

End NetsDictionary.

(** X15.  No two signal nets of the nets section share a name. *)
Theorem signal_net_names_are_unique module ics :
  NoDup (net_names (KiCadNetlistExporter.signal_nets module ics)).
Proof.
  unfold net_names, KiCadNetlistExporter.signal_nets. rewrite map_map.
  cbn [KiCadNetlistExporter.net_name].
  exact (NoDup_keys_signal_nets_dict module ics).
Qed.

(* ------------------------------------------------------------------ *)
(** ** The nodes of the nets section *)

Section Nodes.

Import KiCadNetlistExporter DictFacts.

Lemma In_set_new {V} (d : Dict.t V) k v : In (k, v) (Dict.set d k v).
Proof.
  induction d as [|[k0 v0] d IH]; simpl; [now left|].
  destruct (k0 =? k)%string; [now left|now right].
Qed.

Lemma In_set_inv {V} (d : Dict.t V) k v k' v' :
  In (k', v') d ->
  In (k', v') (Dict.set d k v) \/ (k' = k /\ Dict.get d k = Some v').
Proof.
  induction d as [|[k0 v0] d IH]; simpl; [contradiction|].
  destruct (String.eqb_spec k0 k) as [->|N].
  - intros [E|H]; [injection E as <- <-; now right|left; now right].
  - intros [E|H]; [left; now left|].
    destruct (IH H) as [H1|H1]; [left; now right|now right].
Qed.

Lemma In_remove_inv {V} (d : Dict.t V) k k' v' :
  In (k', v') d ->
  In (k', v') (Dict.remove d k) \/ (k' = k /\ Dict.get d k = Some v').
Proof.
  induction d as [|[k0 v0] d IH]; simpl; [contradiction|].
  destruct (String.eqb_spec k0 k) as [->|N].
  - intros [E|H]; [injection E as <- <-; now right|now left].
  - intros [E|H]; [left; now left|].
    destruct (IH H) as [H1|H1]; [left; now right|now right].
Qed.

Lemma In_remove {V} (d : Dict.t V) k k' v' :
  In (k', v') (Dict.remove d k) -> In (k', v') d.
Proof.
  induction d as [|[k0 v0] d IH]; simpl; [auto|].
  destruct (k0 =? k)%string; [now right|].
  intros [E|H]; [now left|right; now apply IH].
Qed.

Lemma held_set_new nets k s x : In x s -> held (Dict.set nets k s) x.
Proof. intros H. exists k, s. split; [apply In_set_new|exact H]. Qed.

Lemma held_set_keep nets k v x :
  (forall s, Dict.get nets k = Some s -> incl s v) ->
  held nets x -> held (Dict.set nets k v) x.
Proof.
  intros I [k' [s [H Hx]]].
  destruct (In_set_inv nets k v k' s H) as [H1|[-> G]].
  - now exists k', s.
  - apply held_set_new. now apply (I s G).
Qed.

Lemma set_add_incl x s : incl s (set_add x s).
Proof. intros y Hy. apply set_add_In. now left. Qed.

Lemma held_nets_add_new nets k x : held (nets_add nets k x) x.
Proof.
  unfold nets_add. destruct (Dict.get nets k); apply held_set_new.
  - apply set_add_In. now right.
  - now left.
Qed.

Lemma held_nets_add_keep nets k x y :
  held nets y -> held (nets_add nets k x) y.
Proof.
  unfold nets_add. destruct (Dict.get nets k) as [s|] eqn:G;
    apply held_set_keep; intros s' E; rewrite G in E; try discriminate.
  injection E as <-. apply set_add_incl.
Qed.

Lemma set_union_In into from x :
  In x into \/ In x from -> In x (set_union into from).
Proof.
  unfold set_union. revert into.
  induction from as [|y from IH]; intros into; cbn [fold_left].
  - intros [H|[]]. exact H.
  - intros [H|[->|H]]; apply IH.
    + left. apply set_add_In. now left.
    + left. apply set_add_In. now right.
    + now right.
Qed.

Lemma held_merge_alias nets link x :
  held nets x -> held (merge_alias nets link) x.
Proof.
  destruct link as [dst src]. unfold merge_alias.
  destruct (Dict.get nets src) as [from_src|] eqn:G; [|auto].
  intros H.
  set (u := set_union _ from_src).
  assert (H1 : held (Dict.set nets dst u) x).
  { apply held_set_keep; [|exact H]. intros s E. unfold u. rewrite E.
    intros y Hy. apply set_union_In. now left. }
  destruct (String.eqb_spec dst src) as [E|N]; cbn [negb]; [exact H1|].
  destruct H1 as [k [s [Hk Hx]]].
  destruct (In_remove_inv _ src k s Hk) as [H2|[-> G2]].
  - now exists k, s.
  - rewrite get_set_other in G2 by exact N. rewrite G in G2.
    injection G2 as <-. exists dst, u. split.
    + destruct (In_remove_inv _ src dst u (In_set_new nets dst u))
        as [H3|[E _]]; [exact H3|contradiction].
    + apply set_union_In. now right.
Qed.

Lemma held_fold_merge links :
  forall nets x, held nets x -> held (fold_left merge_alias links nets) x.
Proof.
  induction links as [|l links IH]; intros nets x H; cbn [fold_left];
    [exact H|].
  now apply IH, held_merge_alias.
Qed.

Lemma held_pins_keep id pa :
  forall nets x,
    held nets x ->
    held (fold_left (fun nets ps =>
                       if is_power (snd ps) then nets
                       else nets_add nets (snd ps) (id, fst ps)) pa nets) x.
Proof.
  induction pa as [|[pin sg] pa IH]; intros nets x H; cbn [fold_left];
    [exact H|].
  apply IH. cbn [fst snd]. destruct (is_power sg); [exact H|].
  now apply held_nets_add_keep.
Qed.

Lemma held_pins_new id pa pin sg :
  In (pin, sg) pa -> is_power sg = false ->
  forall nets,
    held (fold_left (fun nets ps =>
                       if is_power (snd ps) then nets
                       else nets_add nets (snd ps) (id, fst ps)) pa nets)
         (id, pin).
Proof.
  intros HIn P. induction pa as [|[pin0 sg0] pa IH]; intros nets;
    [contradiction|]. cbn [fold_left fst snd].
  destruct HIn as [E|HIn]; [|now apply IH].
  injection E as -> ->. rewrite P. apply held_pins_keep, held_nets_add_new.
Qed.

Lemma held_add_ic_pins_keep ic nets links x :
  held nets x -> held (fst (add_ic_pins (nets, links) ic)) x.
Proof.
  unfold add_ic_pins. destruct (part_number ic =? "ALIAS")%string;
    cbn [fst]; [auto|]. apply held_pins_keep.
Qed.

Lemma held_fold_ic_pins_keep ics :
  forall st x,
    held (fst st) x -> held (fst (fold_left add_ic_pins ics st)) x.
Proof.
  induction ics as [|ic ics IH]; intros [nets links] x H; cbn [fold_left];
    [exact H|].
  now apply IH, held_add_ic_pins_keep.
Qed.

Lemma held_fold_ic_pins_new ics ic pin sg :
  In ic ics -> part_number ic <> "ALIAS" ->
  In (pin, sg) (pin_assignments ic) -> is_power sg = false ->
  forall st,
    held (fst (fold_left add_ic_pins ics st)) (instance_id ic, pin).
Proof.
  intros HIn N Hp P. induction ics as [|ic0 ics IH]; intros [nets links];
    [contradiction|]. cbn [fold_left].
  destruct HIn as [->|HIn]; [|now apply IH].
  apply held_fold_ic_pins_keep. unfold add_ic_pins.
  apply String.eqb_neq in N. rewrite N. cbn [fst].
  now apply (held_pins_new _ _ pin sg).
Qed.

Lemma insert_sorted_In x y l :
  In x (insert_sorted y l) <-> x = y \/ In x l.
Proof.
  induction l as [|z l IH]; simpl; [intuition|].
  destruct (node_leb y z); simpl; [intuition|].
  rewrite IH. intuition.
Qed.

Lemma sorted_In x s : In x (sorted s) <-> In x s.
Proof.
  unfold sorted. induction s as [|y s IH]; simpl; [tauto|].
  rewrite insert_sorted_In, IH. intuition.
Qed.

(** A node held by the dictionary is written in a signal net, unless
    its reference is [ALIAS]. *)
Lemma held_signal_net module ics x :
  held (signal_nets_dict module ics) x -> fst x <> "ALIAS" ->
  exists net, In net (signal_nets module ics) /\ In x (net_nodes net).
Proof.
  intros [k [s [H Hx]]] N. unfold signal_nets.
  eexists. split.
  - apply in_map_iff. exists (k, s). split; [reflexivity|exact H].
  - cbn [net_nodes fst snd]. apply filter_In. split.
    + now apply sorted_In.
    + apply String.eqb_neq in N. now rewrite N.
Qed.

Lemma signal_pin_held module ics ic pin sg :
  In ic ics -> part_number ic <> "ALIAS" ->
  In (pin, sg) (pin_assignments ic) -> is_power sg = false ->
  held (signal_nets_dict module ics) (instance_id ic, pin).
Proof.
  intros HIn N Hp P. unfold signal_nets_dict.
  pose proof (held_fold_ic_pins_new ics ic pin sg HIn N Hp P
                (fold_left (add_connectors "JOUT_")
                   (_merge_signals_by_name (mod_outputs module))
                   (fold_left (add_connectors "JIN_")
                      (_merge_signals_by_name (mod_inputs module)) []), []))
    as H.
  destruct (fold_left add_ic_pins ics _) as [nets links]. cbn [fst] in H.
  now apply held_fold_merge.
Qed.

Lemma power_connections_node rail cap_pin ics caps ic pin :
  In ic ics -> In (pin, rail) (pin_assignments ic) ->
  In (instance_id ic, pin) (power_connections rail cap_pin ics caps).
Proof.
  intros Hic Hpin. unfold power_connections.
  assert (M : forall caps acc n, In n acc ->
            In n (fold_left (fun acc cref => set_add (cref, cap_pin) acc)
                            caps acc)).
  { induction caps0 as [|c caps0 IH]; intros acc n H; simpl; [exact H|].
    apply IH, set_add_In. now left. }
  apply M. generalize (@nil node).
  induction ics as [|ic0 ics IH]; intros acc; [contradiction|].
  cbn [fold_left]. destruct Hic as [->|Hic].
  - assert (O : forall ics acc n, In n acc ->
              In n (fold_left
                      (fun acc ic =>
                         fold_left
                           (fun acc ps =>
                              if (snd ps =? rail)%string
                              then set_add (instance_id ic, fst ps) acc
                              else acc) (pin_assignments ic) acc)
                      ics acc)).
    { induction ics0 as [|i ics0 IH0]; intros acc0 n H; simpl; [exact H|].
      apply IH0. now apply power_pins_fold_mono. }
    apply O. now apply power_pins_fold_adds.
  - now apply IH.
Qed.

Lemma power_net_node rail cap_pin ics caps ic pin :
  In ic ics -> In (pin, rail) (pin_assignments ic) ->
  exists net,
    In net (power_net rail cap_pin ics caps)
    /\ In (instance_id ic, pin) (net_nodes net).
Proof.
  intros Hic Hpin.
  pose proof (power_connections_node rail cap_pin ics caps ic pin Hic Hpin)
    as N.
  unfold power_net.
  destruct (power_connections rail cap_pin ics caps) as [|c conns] eqn:E;
    [contradiction|].
  eexists. split; [now left|]. cbn [net_nodes]. now apply sorted_In.
Qed.

Lemma unused_node ics ic pin :
  In ic ics -> In pin (unused_ic_pins ic) ->
  exists net,
    In net (_add_unused_pins_to_gnd ics)
    /\ In (instance_id ic, pin) (net_nodes net).
Proof.
  intros Hic Hpin. unfold _add_unused_pins_to_gnd.
  assert (N : In (instance_id ic, pin) (unused_pins ics)).
  { unfold unused_pins. apply in_flat_map. exists ic.
    split; [exact Hic|]. now apply in_map. }
  destruct (unused_pins ics); [contradiction|].
  eexists. split; [now left|exact N].
Qed.

(** Every pin of a powered 74xx IC is a node of some net. *)
Lemma pin_is_connected module ics caps ic pin :
  In ic ics -> is_74xx_part (part_number ic) = true ->
  instance_id ic <> "ALIAS" -> powered ic ->
  In pin pin_numbers ->
  exists net,
    In net (_write_nets module ics caps)
    /\ In (instance_id ic, pin) (net_nodes net).
Proof.
  intros Hic Hp Hid [P14 P7] Hpin. unfold _write_nets.
  assert (Na : part_number ic <> "ALIAS") by (intros E; now rewrite E in Hp).
  destruct (mem_string pin (Dict.keys (pin_assignments ic))) eqn:K.
  - apply existsb_exists in K as [pin' [HIn E]].
    apply String.eqb_eq in E. subst pin'.
    apply in_map_iff in HIn as [[pin' sg] [E HIn]]. cbn [fst] in E.
    subst pin'.
    destruct (is_power sg) eqn:Pw.
    + unfold is_power in Pw. apply orb_true_iff in Pw as [Pw|Pw];
        apply String.eqb_eq in Pw; subst sg.
      * destruct (power_net_node "VCC" "1" ics caps ic pin Hic HIn)
          as [net [H1 H2]].
        exists net. split; [|exact H2]. apply in_or_app. now left.
      * destruct (power_net_node "GND" "2" ics caps ic pin Hic HIn)
          as [net [H1 H2]].
        exists net. split; [|exact H2].
        apply in_or_app. right. apply in_or_app. now left.
    + destruct (held_signal_net module ics (instance_id ic, pin))
        as [net [H1 H2]].
      * now apply (signal_pin_held module ics ic pin sg).
      * exact Hid.
      * exists net. split; [|exact H2].
        apply in_or_app. right. apply in_or_app. right.
        apply in_or_app. now left.
  - assert (Np : mem_string pin (power_pins (part_number ic)) = false).
    { unfold power_pins. rewrite Hp. unfold mem_string. cbn [existsb].
      apply get_In_keys in P14. apply get_In_keys in P7.
      destruct (String.eqb_spec pin "7") as [->|_].
      - apply mem_string_In in P7. congruence.
      - destruct (String.eqb_spec pin "14") as [->|_]; [|reflexivity].
        apply mem_string_In in P14. congruence. }
    destruct (unused_node ics ic pin Hic) as [net [H1 H2]].
    + unfold unused_ic_pins. apply filter_In. split.
      * unfold all_pins. now rewrite Hp.
      * now rewrite K, Np.
    + exists net. split; [|exact H2].
      apply in_or_app. right. apply in_or_app. right.
      apply in_or_app. now right.
Qed.

(** The real ICs of a packer result. *)
Lemma packed_real_ic gates ics ic :
  map_gates_to_ics gates = Ok ics ->
  In ic ics -> part_number ic <> "ALIAS" ->
  is_74xx_part (part_number ic) = true
  /\ powered ic
  /\ exists i, instance_id ic = designator i.
Proof.
  intros H Hic Na. pose proof H as H0.
  pose proof (map_gates_ok_sources _ _ H) as HA.
  unfold map_gates_to_ics in H.
  destruct (group_gates_spec gates [] [] HA (NoDup_nil _))
    as [gc [H1 [H2 H3]]].
  unfold Dict.t in H1, H. rewrite H1 in H. cbn [bind app] in H.
  destruct (pack_groups_gates gc []) as [real [H4 [H5 [_ H7]]]].
  rewrite H4 in H. cbn [bind app] in H.
  assert (R : In ic real).
  { destruct (filter is_alias gates); injection H as <-; [exact Hic|].
    apply in_app_or in Hic as [Hic|[<-|[]]]; [exact Hic|].
    now contradiction Na. }
  assert (P : is_74xx_part (part_number ic) = true).
  { rewrite Forall_forall in H7. destruct (H7 ic R) as [k [m [Hm [E _]]]].
    rewrite E. apply catalog_cases in Hm.
    destruct Hm as [Hm|[Hm|[Hm|[Hm|Hm]]]];
      injection Hm as _ Pn _; now rewrite Pn. }
  split; [exact P|]. split.
  - exact (packed_real_ics_powered gates ics ic H0 Hic P).
  - apply (in_map instance_id) in R. rewrite H5 in R.
    apply in_map_iff in R as [i [E _]]. now exists i.
Qed.

End Nodes.

(** X16.  No pin is left floating.  In the nets section written for
    the ICs that the packer returns, every pin 1..14 of every real IC
    is a node of some net: of a signal net or a power net when the pin
    is assigned, of [GND_UNUSED] otherwise. *)
Theorem every_pin_is_connected module gates ics caps ic pin :
  map_gates_to_ics gates = Ok ics ->
  In ic ics -> part_number ic <> "ALIAS" -> In pin pin_numbers ->
  exists net,
    In net (KiCadNetlistExporter._write_nets module ics caps)
    /\ In (instance_id ic, pin) (KiCadNetlistExporter.net_nodes net).
Proof.
  intros H Hic Na Hpin.
  destruct (packed_real_ic gates ics ic H Hic Na) as [P [Pw [i E]]].
  apply pin_is_connected; auto.
  rewrite E. discriminate.
Qed.

Lemma every_pin_is_connected_witness :
  exists net,
    In net (KiCadNetlistExporter._write_nets
              EmptyAndFull.full MixedKinds.ics ["C1"; "C2"])
    /\ In ("U2", "9") (KiCadNetlistExporter.net_nodes net).
Proof.
  apply (every_pin_is_connected EmptyAndFull.full MixedKinds.gates
           MixedKinds.ics ["C1"; "C2"]
           (nth 1 MixedKinds.ics (mkIC "" "" "" [] [])) "9").
  - reflexivity.
  - right. left. reflexivity.
  - discriminate.
  - unfold pin_numbers. simpl. tauto.
Defined.

(* ------------------------------------------------------------------ *)
(** ** Components and the nodes that name them *)

Section Components.

Import KiCadNetlistExporter NetlistComponents DictFacts.

(** [seen_refs] holds the references of the connectors written. *)
Lemma write_connector_seen st ref :
  snd st = map comp_ref (fst st) ->
  let st' := write_connector st ref in
  snd st' = map comp_ref (fst st')
  /\ In ref (map comp_ref (fst st'))
  /\ (forall r, In r (map comp_ref (fst st)) -> In r (map comp_ref (fst st')))
  /\ (NoDup (snd st) -> NoDup (snd st'))
  /\ (forall r, In r (snd st') -> In r (snd st) \/ r = ref).
Proof.
  destruct st as [comps seen]. cbn [fst snd]. intros ->.
  unfold write_connector.
  destruct (mem_string ref (map comp_ref comps)) eqn:M; cbn [fst snd].
  - repeat split; auto.
    unfold mem_string in M. apply existsb_exists in M as [r [H1 H2]].
    apply String.eqb_eq in H2. now subst r.
  - rewrite map_app. cbn [map comp_ref connector]. repeat split; auto.
    + apply in_or_app. right. now left.
    + intros r H. apply in_or_app. now left.
    + intros ND.
      apply NoDup_rev in ND. rewrite <- (rev_involutive (_ ++ _)).
      apply NoDup_rev. rewrite rev_app_distr. simpl.
      constructor; [|exact ND]. rewrite <- in_rev. intros H.
      apply mem_string_In in H. congruence.
    + intros r H. apply in_app_or in H as [H|[<-|[]]]; auto.
Qed.

Lemma fold_write_connector_seen (f : nat -> string) l :
  forall st,
    snd st = map comp_ref (fst st) ->
    let st' := fold_left (fun st i => write_connector st (f i)) l st in
    snd st' = map comp_ref (fst st')
    /\ (forall i, In i l -> In (f i) (map comp_ref (fst st')))
    /\ (forall r, In r (map comp_ref (fst st)) ->
                  In r (map comp_ref (fst st')))
    /\ (NoDup (snd st) -> NoDup (snd st'))
    /\ (forall r, In r (snd st') -> In r (snd st) \/ exists i, r = f i).
Proof.
  induction l as [|i l IH]; intros st E; cbn [fold_left].
  - cbn zeta. repeat split; auto. intros i [].
  - destruct (write_connector_seen st (f i) E) as [E1 [I1 [M1 [N1 S1]]]].
    destruct (IH _ E1) as [E2 [I2 [M2 [N2 S2]]]].
    cbn zeta. repeat split; auto.
    + intros j [<-|Hj]; auto.
    + intros r Hr. destruct (S2 r Hr) as [H|H]; [|now right].
      destruct (S1 r H) as [H'| ->]; [now left|right; now exists i].
Qed.

(** The references that the connectors of one port can have. *)
Let port_ref (prefix : string) (sig : Signal) (r : string) : Prop :=
  r = (prefix ++ sig_name sig)%string
  \/ exists i, r = (prefix ++ sig_name sig ++ "_" ++ Py.str_of_nat i)%string.

Lemma write_connectors_seen prefix st sig :
  snd st = map comp_ref (fst st) ->
  let st' := write_connectors prefix st sig in
  snd st' = map comp_ref (fst st')
  /\ (forall r, In r (map (fun nd => fst nd)
                          (map (fun bit => ((prefix ++ bit)%string, "1"))
                               (connector_names sig))) ->
                In r (map comp_ref (fst st')))
  /\ (forall r, In r (map comp_ref (fst st)) ->
                In r (map comp_ref (fst st')))
  /\ (NoDup (snd st) -> NoDup (snd st'))
  /\ (forall r, In r (snd st') -> In r (snd st) \/ port_ref prefix sig r).
Proof.
  intros E. unfold write_connectors, connector_names, port_ref.
  destruct (1 <? width sig)%nat.
  - destruct (fold_write_connector_seen
                (fun i => (prefix ++ sig_name sig ++ "_" ++ Py.str_of_nat i)%string)
                (seq 0 (width sig)) st E) as [E1 [I1 [M1 [N1 S1]]]].
    cbn zeta. repeat split; auto.
    + intros r Hr. rewrite !map_map in Hr. cbn [fst] in Hr.
      apply in_map_iff in Hr as [i [<- Hi]]. now apply I1.
    + intros r Hr. destruct (S1 r Hr) as [H|[i H]]; [now left|].
      right. right. now exists i.
  - destruct (write_connector_seen st (prefix ++ sig_name sig)%string E)
      as [E1 [I1 [M1 [N1 S1]]]].
    cbn zeta. repeat split; auto.
    + intros r [<-|[]]. exact I1.
    + intros r Hr. destruct (S1 r Hr) as [H|H]; [now left|].
      right. now left.
Qed.

Lemma fold_write_connectors_seen prefix signals :
  forall st,
    snd st = map comp_ref (fst st) ->
    let st' := fold_left (write_connectors prefix) signals st in
    snd st' = map comp_ref (fst st')
    /\ (forall sig r,
          In sig signals ->
          In r (map (fun nd => fst nd)
                    (map (fun bit => ((prefix ++ bit)%string, "1"))
                         (connector_names sig))) ->
          In r (map comp_ref (fst st')))
    /\ (forall r, In r (map comp_ref (fst st)) ->
                  In r (map comp_ref (fst st')))
    /\ (NoDup (snd st) -> NoDup (snd st'))
    /\ (forall r, In r (snd st') ->
                  In r (snd st) \/ exists sig, port_ref prefix sig r).
Proof.
  induction signals as [|sg signals IH]; intros st E; cbn [fold_left].
  - cbn zeta. repeat split; auto. intros sig r [].
  - destruct (write_connectors_seen prefix st sg E) as [E1 [I1 [M1 [N1 S1]]]].
    destruct (IH _ E1) as [E2 [I2 [M2 [N2 S2]]]].
    cbn zeta. repeat split; auto.
    + intros sig r [<-|Hs] Hr; [now apply M2, I1|now apply (I2 sig)].
    + intros r Hr. destruct (S2 r Hr) as [H|H]; [|now right].
      destruct (S1 r H) as [H'|H']; [now left|right; now exists sg].
Qed.

(** *** The nodes of the nets dictionary *)

Lemma all_nodes_set P nets k v :
  all_nodes P nets -> (forall x, In x v -> P x) ->
  all_nodes P (Dict.set nets k v).
Proof.
  intros A V k' s x H Hx.
  destruct (In_set nets k v k' s H) as [[_ ->]|H']; [now apply V|].
  exact (A k' s x H' Hx).
Qed.

Lemma all_nodes_remove P nets k :
  all_nodes P nets -> all_nodes P (Dict.remove nets k).
Proof.
  intros A k' s x H Hx. apply In_remove in H. exact (A k' s x H Hx).
Qed.

Lemma set_add_inv x y s : In y (set_add x s) -> y = x \/ In y s.
Proof.
  unfold set_add. destruct (existsb (node_eqb x) s); [now right|].
  intros H. apply in_app_or in H as [H|[<-|[]]]; auto.
Qed.

Lemma set_union_inv into from x :
  In x (set_union into from) -> In x into \/ In x from.
Proof.
  unfold set_union. revert into.
  induction from as [|y from IH]; intros into; cbn [fold_left]; [auto|].
  intros H. destruct (IH _ H) as [H1|H1]; [|right; now right].
  apply set_add_inv in H1 as [->|H1]; [right; now left|now left].
Qed.

Lemma all_nodes_nets_add P nets k x :
  all_nodes P nets -> P x -> all_nodes P (nets_add nets k x).
Proof.
  intros A Px. unfold nets_add.
  destruct (Dict.get nets k) as [s|] eqn:G; apply all_nodes_set; auto.
  - intros y Hy. apply set_add_inv in Hy as [->|Hy]; [exact Px|].
    apply get_In in G. exact (A k s y G Hy).
  - intros y [<-|[]]. exact Px.
Qed.

Lemma all_nodes_add_connectors P prefix nets sig :
  all_nodes P nets ->
  (forall nd, In nd (map (fun bit => ((prefix ++ bit)%string, "1"))
                         (connector_names sig)) -> P nd) ->
  all_nodes P (add_connectors prefix nets sig).
Proof.
  unfold add_connectors, connector_names.
  destruct (1 <? width sig)%nat.
  - generalize (seq 0 (width sig)). intros l. revert nets.
    induction l as [|i l IH]; intros nets A C; cbn [fold_left]; [exact A|].
    apply IH.
    + apply all_nodes_nets_add; [exact A|]. apply C. now left.
    + intros nd H. apply C. now right.
  - intros A C. apply all_nodes_nets_add; [exact A|]. apply C. now left.
Qed.

Lemma all_nodes_fold_connectors P prefix signals :
  forall nets,
    all_nodes P nets ->
    (forall sig nd,
       In sig signals ->
       In nd (map (fun bit => ((prefix ++ bit)%string, "1"))
                  (connector_names sig)) -> P nd) ->
    all_nodes P (fold_left (add_connectors prefix) signals nets).
Proof.
  induction signals as [|sg signals IH]; intros nets A C; cbn [fold_left];
    [exact A|].
  apply IH.
  - apply all_nodes_add_connectors; [exact A|].
    intros nd. apply C. now left.
  - intros sig nd H. apply C. now right.
Qed.

Lemma all_nodes_fold_ic_pins P ics :
  (forall ic pin, In ic ics -> part_number ic <> "ALIAS" ->
                  P (instance_id ic, pin)) ->
  forall st,
    all_nodes P (fst st) ->
    all_nodes P (fst (fold_left add_ic_pins ics st)).
Proof.
  induction ics as [|ic ics IH]; intros C [nets links] A; cbn [fold_left];
    [exact A|].
  apply IH; [intros ic' pin H; apply C; now right|].
  unfold add_ic_pins.
  destruct (String.eqb_spec (part_number ic) "ALIAS") as [E|N]; cbn [fst];
    [exact A|].
  cbn [fst] in A. generalize (pin_assignments ic). intros pa. revert nets A.
  induction pa as [|[pin sg] pa IHp]; intros nets A; cbn [fold_left];
    [exact A|].
  apply IHp. cbn [fst snd]. destruct (is_power sg); [exact A|].
  apply all_nodes_nets_add; [exact A|]. apply C; [now left|exact N].
Qed.

Lemma all_nodes_merge_alias P nets link :
  all_nodes P nets -> all_nodes P (merge_alias nets link).
Proof.
  intros A. destruct link as [dst src]. unfold merge_alias.
  destruct (Dict.get nets src) as [from_src|] eqn:G; [|exact A].
  assert (S : all_nodes P
                (Dict.set nets dst
                   (set_union match Dict.get nets dst with
                              | Some s => s
                              | None => []
                              end from_src))).
  { apply all_nodes_set; [exact A|]. intros x Hx.
    apply set_union_inv in Hx as [Hx|Hx].
    - destruct (Dict.get nets dst) as [s|] eqn:Gd; [|contradiction].
      apply get_In in Gd. exact (A dst s x Gd Hx).
    - apply get_In in G. exact (A src from_src x G Hx). }
  destruct (negb (dst =? src)%string); [now apply all_nodes_remove|exact S].
Qed.

Lemma all_nodes_fold_merge P links :
  forall nets,
    all_nodes P nets -> all_nodes P (fold_left merge_alias links nets).
Proof.
  induction links as [|l links IH]; intros nets A; cbn [fold_left];
    [exact A|].
  now apply IH, all_nodes_merge_alias.
Qed.

Lemma power_connections_inv rail cap_pin ics caps x :
  In x (power_connections rail cap_pin ics caps) ->
  (exists ic pin, In ic ics /\ In (pin, rail) (pin_assignments ic)
                  /\ x = (instance_id ic, pin))
  \/ (exists cref, In cref caps /\ x = (cref, cap_pin)).
Proof.
  unfold power_connections.
  set (pins := fold_left _ ics []).
  assert (C : forall caps acc,
            In x (fold_left (fun acc cref => set_add (cref, cap_pin) acc)
                            caps acc) ->
            In x acc \/ exists cref, In cref caps /\ x = (cref, cap_pin)).
  { induction caps0 as [|c caps0 IH]; intros acc H; cbn [fold_left] in H;
      [now left|].
    destruct (IH _ H) as [H1|[cref [H1 H2]]].
    - apply set_add_inv in H1 as [->|H1]; [|now left].
      right. exists c. split; [now left|reflexivity].
    - right. exists cref. split; [now right|exact H2]. }
  intros H. destruct (C caps pins H) as [H1|H1]; [left|now right].
  clear H C. unfold pins in H1. clear pins.
  assert (G : forall ics acc,
            In x (fold_left
                    (fun acc ic =>
                       fold_left
                         (fun acc ps =>
                            if (snd ps =? rail)%string
                            then set_add (instance_id ic, fst ps) acc
                            else acc) (pin_assignments ic) acc) ics acc) ->
            In x acc
            \/ exists ic pin, In ic ics /\ In (pin, rail) (pin_assignments ic)
                              /\ x = (instance_id ic, pin)).
  { clear H1. induction ics0 as [|ic ics0 IH]; intros acc H;
      cbn [fold_left] in H; [now left|].
    destruct (IH _ H) as [H1|[ic' [pin [H1 [H2 H3]]]]].
    - assert (Q : forall pa acc,
                In x (fold_left
                        (fun acc ps =>
                           if (snd ps =? rail)%string
                           then set_add (instance_id ic, fst ps) acc
                           else acc) pa acc) ->
                In x acc \/ exists pin, In (pin, rail) pa
                                        /\ x = (instance_id ic, pin)).
      { induction pa as [|[pin sg] pa IHp]; intros acc0 H0;
          cbn [fold_left fst snd] in H0; [now left|].
        destruct (IHp _ H0) as [H2|[pin' [H2 H3]]].
        - destruct (String.eqb_spec sg rail) as [->|_]; [|now left].
          apply set_add_inv in H2 as [->|H2]; [|now left].
          right. exists pin. split; [now left|reflexivity].
        - right. exists pin'. split; [now right|exact H3]. }
      destruct (Q _ _ H1) as [H2|[pin [H2 H3]]]; [now left|].
      right. exists ic, pin. split; [now left|now split].
    - right. exists ic', pin. split; [now right|now split]. }
  destruct (G ics [] H1) as [[]|H2]. exact H2.
Qed.

Lemma startswith_74_not_alias p :
  is_74xx_part p = true -> p <> "ALIAS".
Proof. intros H ->. discriminate. Qed.

Lemma filter_real_app (real tail : list ICInstance) :
  Forall (fun ic => part_number ic <> "ALIAS") real ->
  Forall (fun ic => part_number ic = "ALIAS") tail ->
  filter (fun ic => negb (part_number ic =? "ALIAS")%string) (real ++ tail)
  = real.
Proof.
  intros R T. rewrite filter_app.
  assert (E1 : filter (fun ic => negb (part_number ic =? "ALIAS")%string) real
               = real).
  { induction R as [|ic real N _ IH]; simpl; [reflexivity|].
    apply String.eqb_neq in N. now rewrite N, IH. }
  assert (E2 : filter (fun ic => negb (part_number ic =? "ALIAS")%string) tail
               = []).
  { induction T as [|ic tail E _ IH]; simpl; [reflexivity|].
    now rewrite E, IH. }
  now rewrite E1, E2, List.app_nil_r.
Qed.

(** The references of the real ICs of a packer result. *)
Lemma packed_real_references gates ics :
  map_gates_to_ics gates = Ok ics ->
  exists n,
    map instance_id
        (filter (fun ic => negb (part_number ic =? "ALIAS")%string) ics)
    = map designator (seq 1 n).
Proof.
  intros H. pose proof (map_gates_ok_sources _ _ H) as HA.
  unfold map_gates_to_ics in H.
  destruct (group_gates_spec gates [] [] HA (NoDup_nil _))
    as [gc [H1 [H2 H3]]].
  unfold Dict.t in H1, H. rewrite H1 in H. cbn [bind app] in H.
  destruct (pack_groups_gates gc []) as [real [H4 [H5 [_ H7]]]].
  rewrite H4 in H. cbn [bind app] in H.
  assert (R : Forall (fun ic => part_number ic <> "ALIAS") real).
  { revert H7. apply Forall_impl. intros ic [k [m [Hm [E _]]]].
    rewrite E. apply catalog_cases in Hm.
    destruct Hm as [Hm|[Hm|[Hm|[Hm|Hm]]]];
      injection Hm as _ Pn _; now rewrite Pn. }
  exists (List.length real).
  destruct (filter is_alias gates); injection H as <-.
  - rewrite <- (List.app_nil_r real) at 1.
    rewrite (filter_real_app real []); [exact H5|exact R|constructor].
  - rewrite filter_real_app; [exact H5|exact R|].
    repeat constructor.
Qed.

End Components.

(** X17.  Every node of the nets section names a component of the
    components section: a connector of a port, a real IC, or a
    decoupling capacitor.  The one way out is an alias whose source is
    called [VCC] or [GND], which puts the pseudo-IC [ALIAS] on the
    power net; it is excluded here. *)
Theorem net_nodes_name_components module ics :
  no_power_alias ics ->
  Forall (fun net =>
            Forall (fun nd =>
                      In (fst nd)
                         (map NetlistComponents.comp_ref
                              (NetlistComponents.components module ics)))
                   (KiCadNetlistExporter.net_nodes net))
         (KiCadNetlistExporter._write_nets module ics
            (KiCadNetlistExporter.cap_refs ics)).
Proof.
  intros NP.
  set (P := fun nd : KiCadNetlistExporter.node =>
              In (fst nd)
                 (map NetlistComponents.comp_ref
                      (NetlistComponents.components module ics))).
  pose (st1 := fold_left (NetlistComponents.write_connectors "JIN_")
                 (KiCadNetlistExporter._merge_signals_by_name
                    (mod_inputs module)) ([], [])).
  pose (st2 := fold_left (NetlistComponents.write_connectors "JOUT_")
                 (KiCadNetlistExporter._merge_signals_by_name
                    (mod_outputs module)) st1).
  destruct (fold_write_connectors_seen "JIN_"
              (KiCadNetlistExporter._merge_signals_by_name (mod_inputs module))
              ([], []) eq_refl) as [E1 [I1 [_ _]]].
  fold st1 in E1, I1.
  destruct (fold_write_connectors_seen "JOUT_"
              (KiCadNetlistExporter._merge_signals_by_name (mod_outputs module))
              st1 E1) as [E2 [I2 [M2 _]]].
  fold st2 in E2, I2, M2.
  assert (Pc : forall r, In r (map NetlistComponents.comp_ref (fst st2)) ->
                         In r (map NetlistComponents.comp_ref
                                   (NetlistComponents.components module ics))).
  { intros r H. unfold NetlistComponents.components. fold st1. fold st2.
    rewrite map_app. apply in_or_app. now left. }
  assert (Pi : forall ic pin, In ic ics -> part_number ic <> "ALIAS" ->
                              P (instance_id ic, pin)).
  { intros ic pin Hic N. unfold P, NetlistComponents.components.
    cbn [fst]. rewrite !map_app. apply in_or_app. right.
    apply in_or_app. left. rewrite map_map.
    cbn [NetlistComponents.comp_ref NetlistComponents.ic_component].
    apply in_map. apply filter_In. split; [exact Hic|].
    apply String.eqb_neq in N. now rewrite N. }
  assert (Pcap : forall cref pin,
            In cref (KiCadNetlistExporter.cap_refs ics) -> P (cref, pin)).
  { intros cref pin H. unfold P, NetlistComponents.components.
    cbn [fst]. rewrite !map_app. apply in_or_app. right.
    apply in_or_app. right. rewrite map_map.
    cbn [NetlistComponents.comp_ref NetlistComponents.capacitor].
    now rewrite map_id. }
  assert (Ppow : forall rail cap_pin,
            KiCadNetlistExporter.is_power rail = true ->
            Forall (fun net => Forall P (KiCadNetlistExporter.net_nodes net))
                   (KiCadNetlistExporter.power_net rail cap_pin ics
                      (KiCadNetlistExporter.cap_refs ics))).
  { intros rail cap_pin Hr. unfold KiCadNetlistExporter.power_net.
    destruct (KiCadNetlistExporter.power_connections rail cap_pin ics _)
      as [|c conns] eqn:E; constructor; [|constructor].
    cbn [KiCadNetlistExporter.net_nodes]. apply Forall_forall.
    intros x Hx. apply (proj1 (sorted_In _ _)) in Hx. rewrite <- E in Hx.
    apply power_connections_inv in Hx
      as [[ic [pin [Hic [Hp ->]]]]|[cref [Hc ->]]]; [|now apply Pcap].
    apply Pi; [exact Hic|]. intros Ea.
    pose proof (NP ic (pin, rail) Hic Ea Hp) as F. cbn [snd] in F.
    congruence. }
  unfold KiCadNetlistExporter._write_nets.
  apply Forall_app. split; [now apply Ppow|].
  apply Forall_app. split; [now apply Ppow|].
  apply Forall_app. split.
  - assert (A : all_nodes P
                  (KiCadNetlistExporter.signal_nets_dict module ics)).
    { unfold KiCadNetlistExporter.signal_nets_dict.
      pose proof (all_nodes_fold_ic_pins P ics Pi
                    (fold_left (KiCadNetlistExporter.add_connectors "JOUT_")
                       (KiCadNetlistExporter._merge_signals_by_name
                          (mod_outputs module))
                       (fold_left (KiCadNetlistExporter.add_connectors "JIN_")
                          (KiCadNetlistExporter._merge_signals_by_name
                             (mod_inputs module)) []), [])) as H.
      destruct (fold_left KiCadNetlistExporter.add_ic_pins ics _)
        as [nets links]. cbn [fst] in H.
      apply all_nodes_fold_merge, H.
      apply all_nodes_fold_connectors.
      - apply all_nodes_fold_connectors; [intros k s x []|].
        intros sig nd Hs Hn. apply Pc, M2. apply (I1 sig); [exact Hs|].
        now apply in_map.
      - intros sig nd Hs Hn. apply Pc. apply (I2 sig); [exact Hs|].
        now apply in_map. }
    unfold KiCadNetlistExporter.signal_nets. apply Forall_forall.
    intros net Hn. apply in_map_iff in Hn as [[k s] [<- Hks]].
    cbn [KiCadNetlistExporter.net_nodes fst snd]. apply Forall_forall.
    intros x Hx. apply filter_In in Hx as [Hx _]. apply (proj1 (sorted_In _ _)) in Hx.
    exact (A k s x Hks Hx).
  - unfold KiCadNetlistExporter._add_unused_pins_to_gnd.
    destruct (KiCadNetlistExporter.unused_pins ics) as [|u us] eqn:E;
      constructor; [|constructor].
    cbn [KiCadNetlistExporter.net_nodes]. rewrite <- E.
    apply Forall_forall. intros x Hx.
    unfold KiCadNetlistExporter.unused_pins in Hx.
    apply in_flat_map in Hx as [ic [Hic Hx]].
    apply in_map_iff in Hx as [pin [<- Hp]].
    apply Pi; [exact Hic|].
    unfold KiCadNetlistExporter.unused_ic_pins in Hp.
    apply filter_In in Hp as [Hp _].
    unfold KiCadNetlistExporter.all_pins in Hp.
    destruct (KiCadNetlistExporter.is_74xx_part (part_number ic)) eqn:F;
      [|contradiction].
    now apply startswith_74_not_alias.
Qed.

Lemma net_nodes_name_components_witness :
  Forall (fun net =>
            Forall (fun nd =>
                      In (fst nd)
                         (map NetlistComponents.comp_ref
                              (NetlistComponents.components
                                 EmptyAndFull.full MixedKinds.ics)))
                   (KiCadNetlistExporter.net_nodes net))
         (KiCadNetlistExporter._write_nets EmptyAndFull.full MixedKinds.ics
            (KiCadNetlistExporter.cap_refs MixedKinds.ics)).
Proof.
  apply (net_nodes_name_components EmptyAndFull.full MixedKinds.ics).
  intros ic ps Hic Ea Hp. unfold MixedKinds.ics in Hic. simpl in Hic.
  repeat (destruct Hic as [<-|Hic]; [try discriminate Ea|]);
    try contradiction.
  simpl in Hp. destruct Hp as [<-|[]]. reflexivity.
Defined.

(** X18.  The components section written for the ICs that the packer
    returns names every component once: no two connectors, ICs and
    capacitors share a reference, whatever the ports of the module. *)
Theorem component_references_are_unique module gates ics :
  map_gates_to_ics gates = Ok ics ->
  NoDup (map NetlistComponents.comp_ref
             (NetlistComponents.components module ics)).
Proof.
  intros H. unfold NetlistComponents.components.
  set (st1 := fold_left (NetlistComponents.write_connectors "JIN_")
                (KiCadNetlistExporter._merge_signals_by_name
                   (mod_inputs module)) ([], [])).
  set (st2 := fold_left (NetlistComponents.write_connectors "JOUT_")
                (KiCadNetlistExporter._merge_signals_by_name
                   (mod_outputs module)) st1).
  destruct (fold_write_connectors_seen "JIN_"
              (KiCadNetlistExporter._merge_signals_by_name (mod_inputs module))
              ([], []) eq_refl) as [E1 [_ [_ [N1 S1]]]].
  fold st1 in E1, N1, S1.
  destruct (fold_write_connectors_seen "JOUT_"
              (KiCadNetlistExporter._merge_signals_by_name (mod_outputs module))
              st1 E1) as [E2 [_ [_ [N2 S2]]]].
  fold st2 in E2, N2, S2.
  assert (J : forall r, In r (snd st2) -> exists tl, r = String "J" tl).
  { intros r Hr. destruct (S2 r Hr) as [Hr1|[sig [->|[i ->]]]];
      [|eexists; reflexivity|eexists; reflexivity].
    destruct (S1 r Hr1) as [[]|[sig [->|[i ->]]]]; eexists; reflexivity. }
  destruct (packed_real_references gates ics H) as [n En].
  rewrite !map_app, !map_map.
  cbn [NetlistComponents.comp_ref NetlistComponents.ic_component
       NetlistComponents.capacitor].
  rewrite map_id, <- E2.
  change (map (fun x : ICInstance => instance_id x)) with (map instance_id).
  rewrite En.
  apply NoDup_app; [|apply NoDup_app|].
  - apply N2, N1. constructor.
  - apply NoDup_designators.
  - unfold KiCadNetlistExporter.cap_refs.
    generalize (List.length
                  (filter (fun ic => Py.startswith "74" (part_number ic)) ics)).
    intros k. generalize 1.
    induction k as [|k IH]; intros a; cbn [seq map]; constructor.
    + intros Hin. apply in_map_iff in Hin as [i [E Hi]].
      injection E as E. apply str_of_nat_inj in E. apply in_seq in Hi. lia.
    + apply IH.
  - intros r H1 H2. apply in_map_iff in H1 as [i [<- _]].
    unfold KiCadNetlistExporter.cap_refs in H2.
    apply in_map_iff in H2 as [j [E _]]. discriminate.
  - intros r H1 H2. destruct (J r H1) as [tl ->].
    apply in_app_or in H2 as [H2|H2].
    + apply in_map_iff in H2 as [i [E _]]. discriminate.
    + unfold KiCadNetlistExporter.cap_refs in H2.
      apply in_map_iff in H2 as [j [E _]]. discriminate.
Qed.

Lemma component_references_are_unique_witness :
  NoDup (map NetlistComponents.comp_ref
             (NetlistComponents.components EmptyAndFull.full MixedKinds.ics)).
Proof.
  apply (component_references_are_unique EmptyAndFull.full MixedKinds.gates
           MixedKinds.ics).
  reflexivity.
Defined.

(* ------------------------------------------------------------------ *)
(** ** Comments *)

Section Comments.

Import SourceReader.

Lemma line_comments_step c tl :
  line_comments false (String c tl)
  = if (c =? "/")%char && Py.startswith "/" tl
    then line_comments true (Py.drop 1 tl)
    else String c (line_comments false tl).
Proof.
  destruct c as [[] [] [] [] [] [] [] []]; try reflexivity.
  destruct tl as [|d tl]; [reflexivity|].
  destruct d as [[] [] [] [] [] [] [] []]; reflexivity.
Qed.

Lemma block_comments_step c tl :
  block_comments false (String c tl)
  = if (c =? "/")%char && Py.startswith "*" tl
    then if Py.has_substring "*/" (Py.drop 1 tl)
         then block_comments true (Py.drop 1 tl)
         else String c tl
    else String c (block_comments false tl).
Proof.
  destruct c as [[] [] [] [] [] [] [] []]; try reflexivity.
  destruct tl as [|d tl]; [reflexivity|].
  destruct d as [[] [] [] [] [] [] [] []]; reflexivity.
Qed.

Lemma block_comments_inside c tl :
  block_comments true (String c tl)
  = if (c =? "*")%char && Py.startswith "/" tl
    then block_comments false (Py.drop 1 tl)
    else block_comments true tl.
Proof.
  destruct c as [[] [] [] [] [] [] [] []]; try reflexivity.
  destruct tl as [|d tl]; [reflexivity|].
  destruct d as [[] [] [] [] [] [] [] []]; reflexivity.
Qed.

Lemma double_slash_cons c s :
  Py.has_substring "//" (String c s)
  = ((c =? "/")%char && Py.startswith "/" s) || Py.has_substring "//" s.
Proof.
  cbn [Py.has_substring Py.startswith]. rewrite (Ascii.eqb_sym "/" c).
  destruct s as [|d s]; [now rewrite andb_false_r|].
  cbn [Py.startswith]. now rewrite andb_true_r.
Qed.

Lemma starts_slash_cons c s :
  Py.startswith "/" (String c s) = (c =? "/")%char.
Proof. cbn [Py.startswith]. now rewrite andb_true_r, Ascii.eqb_sym. Qed.

(** Behind a line comment the text resumes at a newline. *)
Lemma line_comments_clean s :
  (Py.has_substring "//" (line_comments true s) = false
   /\ Py.startswith "/" (line_comments true s) = false)
  /\ (Py.has_substring "//" (line_comments false s) = false
      /\ (Py.startswith "/" s = false ->
          Py.startswith "/" (line_comments false s) = false)).
Proof.
  induction s as [|c tl [[T1 T2] [F1 F2]]]; [repeat split; reflexivity|].
  split.
  - cbn [line_comments].
    destruct (Ascii.eqb_spec c newline) as [->|N]; [|now split].
    rewrite double_slash_cons, F1. split; reflexivity.
  - rewrite line_comments_step.
    destruct (Ascii.eqb_spec c "/") as [->|N]; cbn [andb].
    + destruct (Py.startswith "/" tl) eqn:S.
      * destruct tl as [|d tl']; [discriminate|].
        rewrite starts_slash_cons in S. apply Ascii.eqb_eq in S. subst d.
        cbn [Py.drop].
        assert (E : line_comments true (String "/" tl')
                    = line_comments true tl') by reflexivity.
        rewrite E in T1, T2. split; [exact T1|]. intros _. exact T2.
      * rewrite double_slash_cons, F1, (F2 eq_refl).
        split; [reflexivity|]. rewrite starts_slash_cons. discriminate.
    + rewrite double_slash_cons, F1. apply Ascii.eqb_neq in N.
      rewrite N. split; [reflexivity|]. now rewrite !starts_slash_cons.
Qed.

Lemma block_comments_head s :
  Py.startswith "/" s = false ->
  Py.startswith "/" (block_comments false s) = false.
Proof.
  destruct s as [|c tl]; [reflexivity|]. rewrite starts_slash_cons.
  intros N. rewrite block_comments_step, N. cbn [andb].
  now rewrite starts_slash_cons.
Qed.

Lemma block_comments_clean n :
  forall s, String.length s <= n ->
    Py.has_substring "//" s = false ->
    Py.has_substring "//" (block_comments false s) = false
    /\ Py.has_substring "//" (block_comments true s) = false.
Proof.
  induction n as [|n IH]; intros s L H.
  - destruct s; [split; reflexivity|simpl in L; lia].
  - destruct s as [|c tl]; [split; reflexivity|]. simpl in L.
    rewrite double_slash_cons in H. apply orb_false_iff in H as [H1 H2].
    assert (Ltl : String.length tl <= n) by lia.
    destruct (IH tl Ltl H2) as [F T].
    assert (D : forall b,
              Py.has_substring "//" (block_comments b (Py.drop 1 tl))
              = false).
    { intros b. destruct tl as [|d tl']; [now destruct b|].
      cbn [Py.drop]. simpl in Ltl.
      rewrite double_slash_cons in H2. apply orb_false_iff in H2 as [_ H3].
      destruct (IH tl' ltac:(lia) H3) as [F' T']. now destruct b. }
    split.
    + rewrite block_comments_step.
      destruct ((c =? "/")%char && Py.startswith "*" tl) eqn:E.
      * destruct (Py.has_substring "*/" (Py.drop 1 tl)); [apply D|].
        now rewrite double_slash_cons, H1, H2.
      * rewrite double_slash_cons, F, orb_false_r.
        destruct (Ascii.eqb_spec c "/") as [->|N]; [|reflexivity].
        cbn [andb] in *. now rewrite block_comments_head.
    + rewrite block_comments_inside.
      destruct ((c =? "*")%char && Py.startswith "/" tl); [apply D|exact T].
Qed.

End Comments.

(** X19.  No line comment survives: the text that [_remove_comments]
    returns holds no [//], whatever the content was. *)
Theorem comments_leave_no_double_slash content :
  Py.has_substring "//" (SourceReader._remove_comments content) = false.
Proof.
  unfold SourceReader._remove_comments.
  apply (block_comments_clean _ _ (Nat.le_refl _)).
  apply line_comments_clean.
Qed.

(* ------------------------------------------------------------------ *)
(** ** The body of a module *)

Section ModuleBody.

Import SourceReader.

Lemma scan_calm b follow :
  calm b follow = true ->
  forall pos brace_count in_module,
    scan_body (b ++ follow) 0 pos brace_count in_module
    = scan_body follow 0 (pos + String.length b) brace_count in_module.
Proof.
  induction b as [|c b IH]; intros C pos bc im.
  - cbn [append String.length]. now rewrite Nat.add_0_r.
  - cbn [calm] in C. apply andb_true_iff in C as [C C3].
    apply andb_true_iff in C as [C1 C2].
    apply negb_true_iff in C1, C2.
    change (String c b ++ follow)%string with (String c (b ++ follow)) in *.
    cbn [scan_body]. rewrite C1, C2, (IH C3). cbn [String.length].
    f_equal. lia.
Qed.

Lemma scan_skip w t :
  forall pos brace_count in_module,
    scan_body (w ++ t) (String.length w) pos brace_count in_module
    = scan_body t 0 (pos + String.length w) brace_count in_module.
Proof.
  induction w as [|c w IH]; intros pos bc im; cbn [append String.length].
  - now rewrite Nat.add_0_r.
  - cbn [scan_body]. rewrite IH. f_equal. lia.
Qed.

Lemma scan_module t pos brace_count in_module :
  scan_body ("module" ++ t) 0 pos brace_count in_module
  = scan_body t 0 (pos + 6) (brace_count + 1)%Z true.
Proof.
  change ("module" ++ t)%string with (String "m" ("odule" ++ t)).
  cbn [scan_body].
  change (keyword_at "module" (String "m" ("odule" ++ t))) with true.
  cbn iota. rewrite (scan_skip "odule" t). f_equal. simpl. lia.
Qed.

Lemma scan_endmodule t pos brace_count in_module :
  scan_body ("endmodule" ++ t) 0 pos brace_count in_module
  = if in_module && (brace_count =? 1)%Z then Some pos
    else scan_body t 0 (pos + 9) (brace_count - 1)%Z in_module.
Proof.
  change ("endmodule" ++ t)%string with (String "e" ("ndmodule" ++ t)).
  cbn [scan_body].
  change (keyword_at "module" (String "e" ("ndmodule" ++ t))) with false.
  change (keyword_at "endmodule" (String "e" ("ndmodule" ++ t))) with true.
  cbn iota. destruct (in_module && _); [reflexivity|].
  rewrite (scan_skip "ndmodule" t). f_equal. simpl. lia.
Qed.

(** Behind the first [endmodule] the counter is negative, and modules
    that follow one another bring it back to zero at most. *)
Lemma scan_later_modules ms tail :
  all_calm ms tail = true ->
  forall pos in_module,
    scan_body (later_modules ms tail) 0 pos (-1)%Z in_module = None.
Proof.
  induction ms as [|[gap body] ms IH]; intros C pos im;
    cbn [all_calm later_modules] in *.
  - rewrite <- (append_nil_r tail), (scan_calm tail "" C). reflexivity.
  - apply andb_true_iff in C as [C C3].
    apply andb_true_iff in C as [C1 C2].
    rewrite (scan_calm gap _ C1), scan_module.
    rewrite (scan_calm body _ C2), scan_endmodule.
    cbn [andb Z.add Z.eqb Z.sub Z.opp Z.pos_sub]. now apply IH.
Qed.

End ModuleBody.

(** X20.  The [endmodule] of a module does not end its body.  For the
    text behind the header of a module that holds no further keyword
    before its [endmodule], in a file where modules follow one another,
    [_extract_module_body] returns everything up to the end of the
    file: the body of a module also holds the text of all modules
    that come behind it. *)
Theorem module_body_runs_to_the_end header body ms tail :
  calm body ("endmodule" ++ later_modules ms tail) = true ->
  all_calm ms tail = true ->
  SourceReader._extract_module_body
    (header ++ body ++ "endmodule" ++ later_modules ms tail)
    (String.length header)
  = Py.strip (body ++ "endmodule" ++ later_modules ms tail).
Proof.
  intros C1 C2. unfold SourceReader._extract_module_body.
  rewrite drop_append, (scan_calm body _ C1), scan_endmodule.
  cbn [andb Z.sub Z.opp Z.pos_sub].
  now rewrite (scan_later_modules ms tail C2).
Qed.

Lemma module_body_runs_to_the_end_witness :
  SourceReader._extract_module_body
    ("module inv(input a, output y);"
     ++ " assign y = ~a; "
     ++ "endmodule"
     ++ later_modules [(" ", " top(input x, output z); inv u1(.a(x), .y(z)); ")]
                      " ")
    30
  = "assign y = ~a; endmodule module top(input x, output z); inv u1(.a(x), .y(z)); endmodule".
Proof.
  apply (module_body_runs_to_the_end
           "module inv(input a, output y);" " assign y = ~a; "
           [(" ", " top(input x, output z); inv u1(.a(x), .y(z)); ")] " ");
    reflexivity.
Defined.

(** X21.  The body is cut at an [endmodule] only when the keyword
    [module] was met behind the header: with one occurrence of the
    keyword in the text (in an identifier such as [submodule_x], for
    instance) the body ends before the first [endmodule] behind it,
    whatever follows. *)
Theorem module_body_ends_after_a_keyword header b0 b1 rest :
  calm b0 ("module" ++ b1 ++ "endmodule" ++ rest) = true ->
  calm b1 ("endmodule" ++ rest) = true ->
  SourceReader._extract_module_body
    (header ++ b0 ++ "module" ++ b1 ++ "endmodule" ++ rest)
    (String.length header)
  = Py.strip (b0 ++ "module" ++ b1).
Proof.
  intros C0 C1. unfold SourceReader._extract_module_body.
  rewrite drop_append, (scan_calm b0 _ C0), scan_module.
  rewrite (scan_calm b1 _ C1), scan_endmodule.
  cbn [andb Z.add Z.eqb Pos.eqb].
  unfold Py.slice.
  rewrite drop_append.
  replace (String.length header + String.length b0 + 6 + String.length b1
           - String.length header)
    with (String.length (b0 ++ "module" ++ b1)).
  - rewrite <- (take_append (b0 ++ "module" ++ b1) ("endmodule" ++ rest)) at 2.
    now rewrite !append_assoc.
  - rewrite !length_append. simpl. lia.
Qed.

Lemma module_body_ends_after_a_keyword_witness :
  SourceReader._extract_module_body
    ("module top(input x, output z);"
     ++ " wire sub" ++ "module" ++ "_x; assign z = x; "
     ++ "endmodule" ++ " trailing text") 30
  = "wire submodule_x; assign z = x;".
Proof.
  apply (module_body_ends_after_a_keyword
           "module top(input x, output z);" " wire sub"
           "_x; assign z = x; " " trailing text"); reflexivity.
Defined.

(* ------------------------------------------------------------------ *)
(** ** Port declarations *)

Section PortDeclarations.

Import SourceReader.

Lemma int_from_uint d :
  forall acc, int_from acc (NilEmpty.string_of_uint d) = Nat.of_uint_acc d acc.
Proof.
  induction d; intros acc; cbn [NilEmpty.string_of_uint int_from Nat.of_uint_acc];
    try reflexivity; rewrite IHd, Nat.tail_mul_spec; f_equal;
    change (N.to_nat (Py.code _) - 48) with 0 + 0 || idtac;
    vm_compute (N.to_nat (Py.code _) - 48); lia.
Qed.

Lemma int_str_of_nat n : int (Py.str_of_nat n) = n.
Proof.
  unfold int, Py.str_of_nat. rewrite int_from_uint.
  apply DecimalNat.Unsigned.of_to.
Qed.

Lemma digits_are_digits d :
  Py.all_chars Py.is_digit (NilEmpty.string_of_uint d) = true.
Proof. induction d; simpl; auto. Qed.

Lemma str_of_nat_digits n : Py.all_chars Py.is_digit (Py.str_of_nat n) = true.
Proof. apply digits_are_digits. Qed.

Lemma str_of_nat_nonempty n : Py.str_of_nat n <> "".
Proof.
  unfold Py.str_of_nat. intros E.
  assert (N : Nat.to_uint n = Decimal.Nil).
  { destruct (Nat.to_uint n); try discriminate. reflexivity. }
  pose proof (DecimalNat.Unsigned.of_to n) as O. rewrite N in O.
  cbn in O. subst n. discriminate.
Qed.

Lemma name_chars nm :
  is_name nm = true ->
  exists c tl, nm = String c tl /\ Py.is_word c = true
               /\ Py.all_chars Py.is_word nm = true.
Proof.
  destruct nm as [|c tl]; [discriminate|]. intros H. exists c, tl.
  split; [reflexivity|]. split; [|exact H].
  cbn [is_name Py.all_chars] in H. now apply andb_true_iff in H as [H _].
Qed.

Lemma match_range_word c tl :
  Py.is_word c = true -> match_range (String c tl) = None.
Proof.
  destruct c as [[] [] [] [] [] [] [] []]; intros W; try reflexivity.
  vm_compute in W. discriminate.
Qed.

Lemma match_range_shown msb lsb nm rest :
  is_name nm = true ->
  match_range (show_range (Some (msb, lsb)) ++ nm ++ rest)
  = Some (Py.str_of_nat msb, Py.str_of_nat lsb, (nm ++ rest)%string).
Proof.
  intros Hn. destruct (name_chars nm Hn) as [c [tl [-> [W _]]]].
  cbn [show_range]. rewrite !append_assoc. cbn [append match_range].
  rewrite (span_run Py.is_digit (Py.str_of_nat msb));
    [|apply str_of_nat_digits|reflexivity].
  pose proof (str_of_nat_nonempty msb) as N1.
  destruct (Py.str_of_nat msb) as [|d1 s1] eqn:E1; [contradiction|].
  rewrite (span_run Py.is_digit (Py.str_of_nat lsb));
    [|apply str_of_nat_digits|reflexivity].
  pose proof (str_of_nat_nonempty lsb) as N2.
  destruct (Py.str_of_nat lsb) as [|d2 s2] eqn:E2; [contradiction|].
  cbn [Py.span]. change (Py.isspace " ") with true. cbn iota.
  now rewrite (word_not_blank c W).
Qed.

Lemma match_ranged_name_shown range nm rest :
  is_name nm = true -> fst (Py.span Py.is_word rest) = "" ->
  match_ranged_name (" " ++ show_range range ++ nm ++ rest)
  = Some (match range with
          | Some (msb, lsb) => Some (Py.str_of_nat msb, Py.str_of_nat lsb)
          | None => None
          end, nm, rest).
Proof.
  intros Hn F. destruct (name_chars nm Hn) as [c [tl [E [W A]]]].
  unfold match_ranged_name.
  assert (B : Py.span Py.isspace (" " ++ show_range range ++ nm ++ rest)
              = (" ", (show_range range ++ nm ++ rest)%string)).
  { cbn [append Py.span]. change (Py.isspace " ") with true. cbn iota.
    destruct range as [[msb lsb]|]; [reflexivity|].
    cbn [show_range append]. rewrite E. cbn [append Py.span].
    now rewrite (word_not_blank c W). }
  rewrite B. destruct range as [[msb lsb]|].
  - rewrite (match_range_shown msb lsb nm rest Hn).
    rewrite (span_run Py.is_word nm rest A F). now rewrite E.
  - cbn [show_range append].
    assert (R : match_range (nm ++ rest) = None)
      by (rewrite E; cbn [append]; apply (match_range_word c _ W)).
    rewrite R, (span_run Py.is_word nm rest A F). now rewrite E.
Qed.

Lemma port_signal_declared d :
  port_signal (if d_input d then "input" else "output")
              match d_range d with
              | Some (msb, lsb) => Some (Py.str_of_nat msb, Py.str_of_nat lsb)
              | None => None
              end (d_name d)
  = declared d.
Proof.
  unfold port_signal, declared, range_width.
  destruct (d_range d) as [[msb lsb]|]; [rewrite !int_str_of_nat|];
    now destruct (d_input d).
Qed.

Lemma match_port_shown d rest :
  is_name (d_name d) = true -> fst (Py.span Py.is_word rest) = "" ->
  match_port (show_declaration d ++ rest)
  = Some (if d_input d then "input" else "output",
          match d_range d with
          | Some (msb, lsb) => Some (Py.str_of_nat msb, Py.str_of_nat lsb)
          | None => None
          end, d_name d, rest).
Proof.
  intros Hn F. unfold match_port, show_declaration.
  pose proof (match_ranged_name_shown (d_range d) (d_name d) rest Hn F) as M.
  rewrite !append_assoc.
  destruct (d_input d).
  - cbn [append] in *.
    change (match_direction (String "i" (String "n" (String "p" (String "u"
              (String "t" ?x))))))
      with (Some ("input", x)).
    cbn beta iota. now rewrite M.
  - cbn [append] in *.
    change (match_direction (String "o" (String "u" (String "t" (String "p"
              (String "u" (String "t" ?x)))))))
      with (Some ("output", x)).
    cbn beta iota. now rewrite M.
Qed.

Lemma show_declaration_length d : 0 < String.length (show_declaration d).
Proof. unfold show_declaration. destruct (d_input d); simpl; lia. Qed.

Lemma finditer_ports_shown ds :
  Forall (fun d => is_name (d_name d) = true) ds ->
  forall fuel, String.length (show_header ds) <= fuel ->
    finditer_ports fuel (show_header ds) = map declared ds.
Proof.
  induction 1 as [|d ds Hd _ IH]; intros fuel L.
  - cbn [show_header]. now destruct fuel.
  - cbn [show_header map] in *. rewrite length_append in L.
    pose proof (show_declaration_length d) as P.
    destruct fuel as [|fuel]; [lia|].
    set (rest := match ds with [] => "" | _ => (", " ++ show_header ds)%string end)
      in *.
    assert (F : fst (Py.span Py.is_word rest) = "")
      by (unfold rest; now destruct ds).
    pose proof (match_port_shown d rest Hd F) as M.
    destruct (show_declaration d ++ rest)%string as [|c0 tl0] eqn:E.
    { apply (f_equal String.length) in E. rewrite length_append in E.
      simpl in E. lia. }
    cbn [finditer_ports]. rewrite M, port_signal_declared. f_equal.
    unfold rest in *. destruct ds as [|d' ds'].
    + now destruct fuel.
    + cbn [String.length append] in L.
      destruct fuel as [|[|fuel]]; try lia.
      change (", " ++ show_header (d' :: ds'))%string
        with (String "," (String " " (show_header (d' :: ds')))).
      cbn [finditer_ports].
      change (match_port (String "," ?x)) with (@None (string * option (string * string) * string * string)).
      change (match_port (String " " ?x)) with (@None (string * option (string * string) * string * string)).
      cbn iota. apply IH. lia.
Qed.

Lemma names_ok_Forall ds :
  names_ok ds = true -> Forall (fun d => is_name (d_name d) = true) ds.
Proof. intros H. apply Forall_forall. now apply forallb_forall. Qed.

Lemma digits_no_newline s :
  Py.all_chars Py.is_digit s = true -> Py.contains newline s = false.
Proof.
  induction s as [|c s IH]; cbn [Py.all_chars Py.contains]; [reflexivity|].
  intros H. apply andb_true_iff in H as [Hc H]. rewrite (IH H), orb_false_r.
  destruct (Ascii.eqb_spec c newline) as [->|]; [discriminate|reflexivity].
Qed.

Lemma word_no_newline s :
  Py.all_chars Py.is_word s = true -> Py.contains newline s = false.
Proof.
  induction s as [|c s IH]; cbn [Py.all_chars Py.contains]; [reflexivity|].
  intros H. apply andb_true_iff in H as [Hc H]. rewrite (IH H), orb_false_r.
  destruct (Ascii.eqb_spec c newline) as [->|]; [discriminate|reflexivity].
Qed.

Lemma declaration_no_newline d :
  is_name (d_name d) = true ->
  Py.contains newline (show_declaration d) = false.
Proof.
  intros Hn. destruct (name_chars _ Hn) as [c [tl [_ [_ A]]]].
  unfold show_declaration. rewrite !contains_app, (word_no_newline _ A).
  assert (R : Py.contains newline (show_range (d_range d)) = false).
  { destruct (d_range d) as [[msb lsb]|]; [|reflexivity].
    cbn [show_range]. rewrite !contains_app.
    now rewrite !(digits_no_newline _ (str_of_nat_digits _)). }
  rewrite R. now destruct (d_input d).
Qed.

Lemma header_no_newline ds :
  Forall (fun d => is_name (d_name d) = true) ds ->
  Py.contains newline (show_header ds) = false.
Proof.
  induction 1 as [|d ds Hd _ IH]; [reflexivity|].
  cbn [show_header]. rewrite contains_app, (declaration_no_newline d Hd).
  destruct ds; [reflexivity|]. now rewrite contains_app, IH.
Qed.

Lemma body_without_ports m lines :
  forallb (fun line => negb (is_port_line (Py.strip line))) lines = true ->
  fold_left
    (fun module line =>
       let line := Py.strip line in
       if (line =? "")%string || Py.startswith "//" line then module
       else if is_port_line line then _parse_port_declaration module line
       else module)
    lines m = m.
Proof.
  induction lines as [|l lines IH]; [reflexivity|].
  cbn [forallb fold_left]. intros H. apply andb_true_iff in H as [Hl H].
  apply negb_true_iff in Hl. cbv zeta. rewrite Hl.
  destruct ((Py.strip l =? "")%string || Py.startswith "//" (Py.strip l));
    now apply IH.
Qed.

Lemma add_ports_inputs ds :
  forall m,
    mod_inputs (fold_left add_port (map declared ds) m)
    = mod_inputs m ++ inputs_of ds.
Proof.
  unfold inputs_of.
  induction ds as [|d ds IH]; intros m; cbn [map fold_left filter].
  - now rewrite List.app_nil_r.
  - rewrite IH. unfold add_port.
    change (is_input (declared d)) with (d_input d).
    destruct (d_input d); cbn [mod_inputs map]; [|reflexivity].
    now rewrite <- List.app_assoc.
Qed.

Lemma add_ports_outputs ds :
  forall m,
    mod_outputs (fold_left add_port (map declared ds) m)
    = mod_outputs m ++ outputs_of ds.
Proof.
  unfold outputs_of.
  induction ds as [|d ds IH]; intros m; cbn [map fold_left filter].
  - now rewrite List.app_nil_r.
  - rewrite IH. unfold add_port.
    change (is_input (declared d)) with (d_input d).
    destruct (d_input d); cbn [mod_outputs map negb]; [reflexivity|].
    now rewrite <- List.app_assoc.
Qed.

Lemma parse_ports_shown m ds body :
  names_ok ds = true -> no_port_lines body = true ->
  _parse_ports m (show_header ds) body
  = fold_left add_port (map declared ds) m.
Proof.
  intros Hn Hb. apply names_ok_Forall in Hn. unfold _parse_ports. cbv zeta.
  rewrite (replace_char_absent _ _ _ (header_no_newline ds Hn)).
  rewrite (finditer_ports_shown ds Hn _ (Nat.le_refl _)).
  now apply body_without_ports.
Qed.

End PortDeclarations.

(** X22.  A header written as a list of declarations (direction, an
    optional range [[msb:lsb]] and a name, separated by commas) is read
    back in order: the inputs are appended to the module's inputs and
    the outputs to its outputs, each with the width [|msb - lsb| + 1],
    or 1 without a range, as long as no line of the body declares a
    port. *)
Theorem written_ports_are_read_back m ds body :
  names_ok ds = true -> no_port_lines body = true ->
  mod_inputs (SourceReader._parse_ports m (show_header ds) body)
  = mod_inputs m ++ inputs_of ds
  /\ mod_outputs (SourceReader._parse_ports m (show_header ds) body)
     = mod_outputs m ++ outputs_of ds.
Proof.
  intros Hn Hb. rewrite (parse_ports_shown m ds body Hn Hb).
  split; [apply add_ports_inputs|apply add_ports_outputs].
Qed.

Lemma written_ports_are_read_back_witness :
  let m :=
    SourceReader._parse_ports
      (mkModule "adder" [] [] [] [] [])
      "input [3:0] a, input [0:3] b, output [4:0] sum, output cout"
      (" wire c;" ++ String SourceReader.newline " assign cout = c;") in
  mod_inputs m
  = [mkSignal "a" 4 true false false false;
     mkSignal "b" 4 true false false false]
  /\ mod_outputs m
     = [mkSignal "sum" 5 false true false false;
        mkSignal "cout" 1 false true false false].
Proof.
  apply (written_ports_are_read_back
           (mkModule "adder" [] [] [] [] [])
           [mkDeclaration true (Some (3, 0)) "a";
            mkDeclaration true (Some (0, 3)) "b";
            mkDeclaration false (Some (4, 0)) "sum";
            mkDeclaration false None "cout"]
           (" wire c;" ++ String SourceReader.newline " assign cout = c;"));
    reflexivity.
Defined.

(** X23.  A declaration line of the body gives one port: the pattern
    is matched once at the head of the line, so the first name is
    declared and whatever follows it, further names behind commas
    included, is left out. *)
Theorem declaration_line_gives_first_name m d rest :
  is_name (d_name d) = true ->
  fst (Py.span Py.is_word rest) = "" ->
  SourceReader._parse_port_declaration m (show_declaration d ++ rest)
  = SourceReader.add_port m (declared d).
Proof.
  intros Hn F. unfold SourceReader._parse_port_declaration.
  now rewrite (match_port_shown d rest Hn F), port_signal_declared.
Qed.

Lemma declaration_line_gives_first_name_witness :
  mod_inputs
    (SourceReader._parse_port_declaration
       (mkModule "and3" [] [] [] [] []) "input [1:0] a, b, c;")
  = [mkSignal "a" 2 true false false false].
Proof.
  apply (f_equal mod_inputs
           (declaration_line_gives_first_name
              (mkModule "and3" [] [] [] [] [])
              (mkDeclaration true (Some (1, 0)) "a") ", b, c;"
              eq_refl eq_refl)).
Defined.

(* ------------------------------------------------------------------ *)
(** ** Instantiations *)

Section Instantiations.

Import SourceReader.

Lemma until_close_other c x :
  not_close c = true -> until_close (String c x) = prepend (String c "") (until_close x).
Proof.
  destruct c as [[] [] [] [] [] [] [] []]; intros H; try discriminate H;
    cbn [until_close prepend append]; destruct x; reflexivity.
Qed.

Lemma until_close_paren d x :
  (d =? ";")%char = false ->
  until_close (String ")" (String d x))
  = prepend ")" (until_close (String d x)).
Proof.
  destruct d as [[] [] [] [] [] [] [] []]; intros H; try discriminate H;
    reflexivity.
Qed.

Lemma prepend_prepend p q r :
  prepend p (prepend q r) = prepend (p ++ q) r.
Proof. destruct r as [[a rest]|]; cbn [prepend]; [|reflexivity]. now rewrite append_assoc. Qed.

Lemma until_close_skip s r :
  Py.all_chars not_close s = true ->
  until_close (s ++ r) = prepend s (until_close r).
Proof.
  induction s as [|c s IH]; cbn [Py.all_chars append]; intros H.
  - now destruct (until_close r) as [[a rest]|].
  - apply andb_true_iff in H as [Hc H].
    rewrite (until_close_other c _ Hc), (IH H), prepend_prepend.
    reflexivity.
Qed.

Lemma word_not_close s :
  Py.all_chars Py.is_word s = true -> Py.all_chars not_close s = true.
Proof.
  induction s as [|c s IH]; cbn [Py.all_chars]; [reflexivity|].
  intros H. apply andb_true_iff in H as [Hc H]. rewrite (IH H), andb_true_r.
  destruct c as [[] [] [] [] [] [] [] []]; try reflexivity; discriminate Hc.
Qed.

Lemma connected_chars s :
  is_connected s = true ->
  exists c tl, s = String c tl /\ Py.isspace c = false
               /\ Py.all_chars not_close s = true.
Proof.
  destruct s as [|c tl]; [discriminate|]. intros H. exists c, tl.
  cbn [is_connected] in H. apply andb_true_iff in H as [H1 H2].
  apply negb_true_iff in H1. auto.
Qed.

Lemma match_connection_shown p s rest :
  is_name p = true -> is_connected s = true ->
  match_connection (show_connection (p, s) ++ rest) = Some (p, s, rest).
Proof.
  intros Hp Hs. destruct (name_chars p Hp) as [c [tl [Ep [_ Ap]]]].
  destruct (connected_chars s Hs) as [c' [tl' [Es [Bs As]]]].
  unfold show_connection. cbn [fst snd]. rewrite !append_assoc.
  cbn [append]. unfold match_connection.
  rewrite (span_run Py.is_word p (String "(" _) Ap eq_refl).
  rewrite Ep at 1. cbn [Py.span snd].
  change (Py.isspace "(") with false. cbn iota. cbn [snd].
  assert (B : Py.span Py.isspace (s ++ String ")" rest)
              = ("", (s ++ String ")" rest)%string)).
  { rewrite Es. cbn [append Py.span]. now rewrite Bs. }
  rewrite B.
  change (fun c0 : ascii => negb (c0 =? ")")%char) with not_close.
  rewrite (span_run not_close s (String ")" rest) As eq_refl).
  now rewrite Es.
Qed.

Lemma show_connection_length ps : 0 < String.length (show_connection ps).
Proof. unfold show_connection. simpl. lia. Qed.

Lemma connections_ok_Forall cs :
  connections_ok cs = true ->
  Forall (fun ps => is_name (fst ps) = true /\ is_connected (snd ps) = true)
         cs.
Proof.
  intros H. apply Forall_forall. intros ps I.
  apply andb_true_iff. revert ps I. now apply forallb_forall.
Qed.

Lemma finditer_connections_shown cs :
  Forall (fun ps => is_name (fst ps) = true /\ is_connected (snd ps) = true)
         cs ->
  forall fuel, String.length (show_connections cs) <= fuel ->
    finditer_connections fuel (show_connections cs) = cs.
Proof.
  induction 1 as [|[p s] cs [Hp Hs] _ IH]; intros fuel L.
  - cbn [show_connections]. now destruct fuel.
  - cbn [show_connections fst snd] in *. rewrite length_append in L.
    pose proof (show_connection_length (p, s)) as P.
    destruct fuel as [|fuel]; [lia|].
    set (rest := match cs with
                 | [] => ""
                 | _ => (", " ++ show_connections cs)%string
                 end) in *.
    pose proof (match_connection_shown p s rest Hp Hs) as M.
    destruct (show_connection (p, s) ++ rest)%string as [|c0 tl0] eqn:E.
    { apply (f_equal String.length) in E. rewrite length_append in E.
      simpl in E. lia. }
    cbn [finditer_connections]. rewrite M. f_equal.
    unfold rest in *. destruct cs as [|d' cs'].
    + now destruct fuel.
    + cbn [String.length append] in L.
      destruct fuel as [|[|fuel]]; try lia.
      change (", " ++ show_connections (d' :: cs'))%string
        with (String "," (String " " (show_connections (d' :: cs')))).
      cbn [finditer_connections].
      change (match_connection (String "," ?x))
        with (@None (string * string * string)).
      change (match_connection (String " " ?x))
        with (@None (string * string * string)).
      cbn iota. apply IH. lia.
Qed.

Lemma until_close_connection p s x :
  is_name p = true -> is_connected s = true ->
  until_close (show_connection (p, s) ++ x)
  = prepend ("." ++ p ++ "(" ++ s) (until_close (String ")" x)).
Proof.
  intros Hp Hs. destruct (name_chars p Hp) as [c [tl [_ [_ Ap]]]].
  destruct (connected_chars s Hs) as [c' [tl' [_ [_ As]]]].
  unfold show_connection. cbn [fst snd].
  replace (("." ++ p ++ "(" ++ s ++ ")") ++ x)%string
    with (("." ++ p ++ "(" ++ s) ++ String ")" x)%string
    by (now rewrite !append_assoc).
  apply until_close_skip.
  rewrite !all_chars_app, (word_not_close p Ap), As. reflexivity.
Qed.

Lemma until_close_shown cs rest :
  Forall (fun ps => is_name (fst ps) = true /\ is_connected (snd ps) = true)
         cs ->
  until_close (show_connections cs ++ ");" ++ rest)
  = Some (show_connections cs, rest).
Proof.
  induction 1 as [|[p s] cs [Hp Hs] _ IH]; [reflexivity|].
  cbn [show_connections fst snd]. rewrite append_assoc.
  rewrite (until_close_connection p s _ Hp Hs).
  destruct cs as [|d' cs'].
  - cbn [append prepend until_close].
    unfold show_connection. cbn [fst snd].
    now rewrite !append_assoc.
  - rewrite append_assoc.
    change (", " ++ ?x)%string with (String "," (String " " x)).
    rewrite (until_close_paren "," _ eq_refl).
    rewrite (until_close_other "," _ eq_refl).
    rewrite (until_close_other " " _ eq_refl).
    rewrite IH, !prepend_prepend. cbn [prepend]. f_equal. f_equal.
    unfold show_connection. cbn [fst snd].
    rewrite !append_assoc. reflexivity.
Qed.

Lemma match_instance_head_shown mn inm x :
  is_name mn = true -> is_name inm = true ->
  match_instance_head (mn ++ " " ++ inm ++ "(" ++ x) = Some (mn, inm, x).
Proof.
  intros Hm Hi. destruct (name_chars mn Hm) as [c [tl [Em [_ Am]]]].
  destruct (name_chars inm Hi) as [c' [tl' [Ei [Wi Ai]]]].
  unfold match_instance_head. cbn [append].
  rewrite (span_run Py.is_word mn (String " " _) Am eq_refl).
  rewrite Em at 1.
  assert (B : Py.span Py.isspace (String " " (inm ++ String "(" x))
              = (" ", (inm ++ String "(" x)%string)).
  { rewrite Ei. cbn [append Py.span]. change (Py.isspace " ") with true.
    cbn iota. now rewrite (word_not_blank c' Wi). }
  rewrite B, (span_run Py.is_word inm (String "(" _) Ai eq_refl).
  now rewrite Ei.
Qed.

Lemma parse_instance_shown mn inm cs rest :
  is_name mn = true -> is_name inm = true -> connections_ok cs = true ->
  _parse_module_instantiation (show_instance mn inm cs ++ rest)
  = Some (mkInstance mn inm (bindings cs)).
Proof.
  intros Hm Hi Hc. apply connections_ok_Forall in Hc.
  unfold _parse_module_instantiation, show_instance.
  rewrite !append_assoc.
  rewrite (match_instance_head_shown mn inm _ Hm Hi).
  rewrite (until_close_shown cs rest Hc).
  now rewrite (finditer_connections_shown cs Hc _ (Nat.le_refl _)).
Qed.

End Instantiations.

(** X24.  An instantiation written with named connections is read
    back: the names of the module and of the instance, and a
    dictionary that binds every port to the text between its
    parentheses (trailing blanks included), a port that is connected
    twice keeping its last signal.  The text behind the closing [);]
    is ignored. *)
Theorem written_instance_is_read_back mn inm cs rest :
  is_name mn = true -> is_name inm = true -> connections_ok cs = true ->
  SourceReader._parse_module_instantiation (show_instance mn inm cs ++ rest)
  = Some (mkInstance mn inm (bindings cs)).
Proof. exact (parse_instance_shown mn inm cs rest). Qed.

Lemma written_instance_is_read_back_witness :
  SourceReader._parse_module_instantiation
    "full_adder fa0(.a(x), .b(y ), .cin(c0), .a(z)); // bit 0"
  = Some (mkInstance "full_adder" "fa0"
            [("a", "z"); ("b", "y "); ("cin", "c0")]).
Proof.
  apply (written_instance_is_read_back
           "full_adder" "fa0"
           [("a", "x"); ("b", "y "); ("cin", "c0"); ("a", "z")]
           " // bit 0"); reflexivity.
Defined.

(** X25.  A [wire] line declares one internal signal: the first name
    behind the keyword, with the width of its range, and whatever
    follows that name, further names behind commas included, is left
    out. *)
Theorem wire_line_declares_first_name m range nm rest :
  is_name nm = true ->
  fst (Py.span Py.is_word rest) = "" ->
  internal_signals
    (SourceReader._parse_wire_declaration
       m ("wire " ++ show_range range ++ nm ++ rest))
  = internal_signals m
    ++ [mkSignal nm
          match range with
          | Some (msb, lsb) => SourceReader.abs_diff msb lsb + 1
          | None => 1
          end
          false false true true].
Proof.
  intros Hn F. unfold SourceReader._parse_wire_declaration.
  change (SourceReader.keyword_at "wire" ("wire " ++ ?x)) with true.
  cbn iota.
  change (Py.drop 4 ("wire " ++ ?x)) with (" " ++ x)%string.
  rewrite (match_ranged_name_shown range nm rest Hn F).
  cbn [internal_signals]. unfold SourceReader.range_width.
  destruct range as [[msb lsb]|]; [|reflexivity].
  now rewrite !int_str_of_nat.
Qed.

Lemma wire_line_declares_first_name_witness :
  internal_signals
    (SourceReader._parse_wire_declaration
       (mkModule "alu" [] [] [] [] []) "wire [7:0] t0, t1, t2;")
  = [mkSignal "t0" 8 false false true true].
Proof.
  apply (wire_line_declares_first_name
           (mkModule "alu" [] [] [] [] []) (Some (7, 0)) "t0" ", t1, t2;");
    reflexivity.
Defined.

(* ------------------------------------------------------------------ *)
(** ** Placement *)

Section Placement.

Import KiCadExporter.

Lemma ceil_sqrt_covers n : n <= ceil_sqrt n * ceil_sqrt n.
Proof.
  unfold ceil_sqrt. destruct (Nat.eqb_spec (Nat.sqrt n * Nat.sqrt n) n) as [E|_].
  - now rewrite E.
  - pose proof (Nat.sqrt_spec n (Nat.le_0_l n)) as [_ H]. lia.
Qed.

Lemma ceil_sqrt_pos n : 0 < n -> 0 < ceil_sqrt n.
Proof. intros H. pose proof (ceil_sqrt_covers n). nia. Qed.

Lemma ceil_sqrt_least n c : n <= c * c -> ceil_sqrt n <= c.
Proof.
  intros H. unfold ceil_sqrt.
  pose proof (Nat.sqrt_spec n (Nat.le_0_l n)) as [L U].
  destruct (Nat.eqb_spec (Nat.sqrt n * Nat.sqrt n) n) as [E|N]; nia.
Qed.

Lemma cell_determines_index cols i j :
  0 < cols -> i / cols = j / cols -> i mod cols = j mod cols -> i = j.
Proof.
  intros C D M.
  rewrite (Nat.div_mod_eq i cols), (Nat.div_mod_eq j cols). now rewrite D, M.
Qed.

Lemma position_injective cols i j :
  0 < cols -> position cols i = position cols j -> i = j.
Proof.
  intros C E. unfold position in E. cbv zeta in E.
  assert (E1 := f_equal fst E). assert (E2 := f_equal snd E).
  cbn [fst snd] in E1, E2.
  apply (cell_determines_index cols i j C); lia.
Qed.

Lemma NoDup_map_on {A B} (f : A -> B) l :
  (forall x y, In x l -> In y l -> f x = f y -> x = y) ->
  NoDup l -> NoDup (map f l).
Proof.
  intros I N. induction N as [|a l Ha N IH]; cbn [map]; constructor.
  - intros H. apply in_map_iff in H as [x [E Hx]].
    apply Ha. rewrite <- (I x a); auto using in_eq, in_cons.
  - apply IH. intros x y Hx Hy. apply I; now apply in_cons.
Qed.

Lemma nth_position ics i :
  i < List.length ics ->
  nth i (_calculate_positions ics) (0%Z, 0%Z)
  = position (ceil_sqrt (List.length ics)) i.
Proof.
  intros H. unfold _calculate_positions. cbv zeta.
  rewrite (nth_indep _ _ (position (ceil_sqrt (List.length ics)) 0))
    by (now rewrite length_map, length_seq).
  rewrite map_nth, seq_nth; [reflexivity|exact H].
Qed.

End Placement.

(** X26.  No two ICs are drawn at the same place: the positions that
    [_calculate_positions] assigns are pairwise distinct, whatever the
    number of ICs. *)
Theorem ics_are_placed_apart (ics : list ICInstance) :
  List.length (KiCadExporter._calculate_positions ics) = List.length ics
  /\ NoDup (KiCadExporter._calculate_positions ics).
Proof.
  unfold KiCadExporter._calculate_positions. cbv zeta. split.
  - now rewrite length_map, length_seq.
  - apply NoDup_map_on; [|apply seq_NoDup].
    intros x y Hx _. apply position_injective, ceil_sqrt_pos.
    apply in_seq in Hx. lia.
Qed.

(** X27.  The grid of the placement is square: with [n] ICs every IC
    lies in one of the first [c] columns and of the first [c] rows,
    where [c] is the least number with [n <= c * c]. *)
Theorem placement_grid_is_square (ics : list ICInstance) x y :
  In (x, y) (KiCadExporter._calculate_positions ics) ->
  exists col row,
    x = (1000 + Z.of_nat col * 2000)%Z /\ y = (1000 + Z.of_nat row * 1500)%Z
    /\ col < KiCadExporter.ceil_sqrt (List.length ics)
    /\ row < KiCadExporter.ceil_sqrt (List.length ics)
    /\ List.length ics
       <= KiCadExporter.ceil_sqrt (List.length ics)
          * KiCadExporter.ceil_sqrt (List.length ics)
    /\ forall c, List.length ics <= c * c ->
                 KiCadExporter.ceil_sqrt (List.length ics) <= c.
Proof.
  unfold KiCadExporter._calculate_positions. cbv zeta. intros H.
  apply in_map_iff in H as [i [E Hi]]. apply in_seq in Hi.
  set (n := List.length ics) in *.
  assert (C : 0 < KiCadExporter.ceil_sqrt n)
    by (apply ceil_sqrt_pos; lia).
  pose proof (ceil_sqrt_covers n) as V.
  unfold KiCadExporter.position in E. cbv zeta in E.
  assert (E1 := f_equal fst E). assert (E2 := f_equal snd E).
  cbn [fst snd] in E1, E2.
  exists (i mod KiCadExporter.ceil_sqrt n), (i / KiCadExporter.ceil_sqrt n).
  repeat split; auto.
  - apply Nat.mod_upper_bound. lia.
  - apply Nat.Div0.div_lt_upper_bound. lia.
  - apply ceil_sqrt_least.
Qed.

Lemma placement_grid_is_square_witness :
  exists col row,
    3000%Z = (1000 + Z.of_nat col * 2000)%Z
    /\ 2500%Z = (1000 + Z.of_nat row * 1500)%Z
    /\ col < KiCadExporter.ceil_sqrt (List.length MixedKinds.ics)
    /\ row < KiCadExporter.ceil_sqrt (List.length MixedKinds.ics)
    /\ List.length MixedKinds.ics
       <= KiCadExporter.ceil_sqrt (List.length MixedKinds.ics)
          * KiCadExporter.ceil_sqrt (List.length MixedKinds.ics)
    /\ forall c, List.length MixedKinds.ics <= c * c ->
                 KiCadExporter.ceil_sqrt (List.length MixedKinds.ics) <= c.
Proof.
  apply (placement_grid_is_square MixedKinds.ics 3000%Z 2500%Z).
  vm_compute. tauto.
Defined.

(** X28.  No two pins are drawn at the same point: on the ICs as
    [_calculate_positions] places them, the points that
    [_get_pin_position] gives to two pins of DIP-14 packages differ
    unless it is the same pin of the same IC. *)
Theorem pins_are_drawn_apart (ics : list ICInstance) i j p q :
  i < List.length ics -> j < List.length ics ->
  is_pin p = true -> is_pin q = true ->
  i <> j \/ p <> q ->
  same_point (pin_point ics i p) (pin_point ics j q) = false.
Proof.
  intros Hi Hj Hp Hq D. unfold pin_point. cbv zeta.
  rewrite (nth_position ics i Hi), (nth_position ics j Hj).
  set (cols := KiCadExporter.ceil_sqrt (List.length ics)).
  assert (C : 0 < cols) by (apply ceil_sqrt_pos; lia).
  assert (K : (i mod cols <> j mod cols \/ i / cols <> j / cols)
              \/ (i = j /\ p <> q)).
  { destruct (Nat.eq_dec (i mod cols) (j mod cols)) as [M|M]; [|auto].
    destruct (Nat.eq_dec (i / cols) (j / cols)) as [Q|Q]; [|auto].
    right. pose proof (cell_determines_index cols i j C Q M). split; [auto|].
    destruct D; [contradiction|assumption]. }
  unfold is_pin in Hp, Hq.
  apply andb_true_iff in Hp as [P1 P2]. apply andb_true_iff in Hq as [Q1 Q2].
  apply Z.leb_le in P1, P2, Q1, Q2.
  unfold KiCadExporter.position. cbv zeta. cbn [fst snd].
  unfold KiCadExporter._get_pin_position, same_point.
  apply andb_false_iff.
  destruct (Z.leb_spec p 7), (Z.leb_spec q 7); cbn [fst snd];
    rewrite !Z.eqb_neq;
    destruct K as [[K|K]|[-> K]]; lia.
Qed.

Lemma pins_are_drawn_apart_witness :
  same_point (pin_point MixedKinds.ics 0 7) (pin_point MixedKinds.ics 1 14)
  = false.
Proof.
  apply (pins_are_drawn_apart MixedKinds.ics 0 1 7%Z 14%Z);
    [vm_compute; lia | vm_compute; lia | reflexivity | reflexivity
    | left; discriminate].
Defined.

(* ------------------------------------------------------------------ *)
(** ** Headers met in a body *)

Section LeakedHeaders.

Import SourceReader.

Lemma all_chars_weaken (p q : ascii -> bool) s :
  (forall c, p c = true -> q c = true) ->
  Py.all_chars p s = true -> Py.all_chars q s = true.
Proof.
  intros I. induction s as [|c s IH]; cbn [Py.all_chars]; [reflexivity|].
  intros H. apply andb_true_iff in H as [Hc H]. now rewrite (I c Hc), IH.
Qed.

Lemma word_header_char c : Py.is_word c = true -> header_char c = true.
Proof. unfold header_char. now intros ->. Qed.

Lemma digit_header_char c : Py.is_digit c = true -> header_char c = true.
Proof.
  destruct c as [[] [] [] [] [] [] [] []]; intros H; try discriminate H;
    reflexivity.
Qed.

Lemma declaration_chars d :
  is_name (d_name d) = true ->
  Py.all_chars header_char (show_declaration d) = true.
Proof.
  intros Hn. destruct (name_chars _ Hn) as [c [tl [_ [_ A]]]].
  unfold show_declaration. rewrite !all_chars_app.
  rewrite (all_chars_weaken _ _ _ word_header_char A).
  assert (R : Py.all_chars header_char (show_range (d_range d)) = true).
  { destruct (d_range d) as [[msb lsb]|]; [|reflexivity].
    cbn [show_range]. rewrite !all_chars_app.
    now rewrite !(all_chars_weaken _ _ _ digit_header_char
                    (str_of_nat_digits _)). }
  rewrite R. now destruct (d_input d).
Qed.

Lemma header_chars ds :
  Forall (fun d => is_name (d_name d) = true) ds ->
  Py.all_chars header_char (show_header ds) = true.
Proof.
  induction 1 as [|d ds Hd _ IH]; [reflexivity|].
  cbn [show_header]. rewrite all_chars_app, (declaration_chars d Hd).
  destruct ds; [reflexivity|]. now rewrite all_chars_app, IH.
Qed.

Lemma header_char_not_close c : header_char c = true -> not_close c = true.
Proof.
  destruct c as [[] [] [] [] [] [] [] []]; intros H; try discriminate H;
    reflexivity.
Qed.

Lemma match_connection_other c x :
  (c =? ".")%char = false -> match_connection (String c x) = None.
Proof.
  destruct c as [[] [] [] [] [] [] [] []]; intros H; try discriminate H;
    reflexivity.
Qed.

Lemma finditer_connections_none s :
  Py.contains "." s = false ->
  forall fuel, finditer_connections fuel s = [].
Proof.
  induction s as [|c s IH]; intros H fuel; destruct fuel as [|fuel];
    try reflexivity.
  cbn [Py.contains] in H. apply orb_false_iff in H as [Hc H].
  cbn [finditer_connections]. rewrite (match_connection_other c s Hc).
  now apply IH.
Qed.

Lemma split_cons h rest :
  Py.contains newline h = false ->
  split newline (h ++ String newline rest) = h :: split newline rest.
Proof.
  induction h as [|c h IH]; cbn [Py.contains append]; intros H.
  - cbn [split]. now rewrite Ascii.eqb_refl.
  - apply orb_false_iff in H as [Hc H]. cbn [split].
    now rewrite Hc, (IH H).
Qed.

Lemma endswith_append p s : endswith p (s ++ p) = true.
Proof.
  induction s as [|c s IH]; cbn [append].
  - destruct p; cbn [endswith]; now rewrite String.eqb_refl.
  - cbn [endswith]. now rewrite IH, orb_true_r.
Qed.

Lemma module_header_strip nm ds :
  Py.strip (show_module_header nm ds) = show_module_header nm ds.
Proof.
  apply strip_clean; [reflexivity|].
  unfold show_module_header. do 4 apply ends_clean_app.
  split; [discriminate|reflexivity].
Qed.

Lemma module_header_no_newline nm ds :
  is_name nm = true ->
  Forall (fun d => is_name (d_name d) = true) ds ->
  Py.contains newline (show_module_header nm ds) = false.
Proof.
  intros Hn Hd. destruct (name_chars nm Hn) as [c [tl [_ [_ A]]]].
  unfold show_module_header. rewrite !contains_app.
  rewrite (word_no_newline nm A), (header_no_newline ds Hd). reflexivity.
Qed.

Lemma module_header_instance nm ds :
  is_name nm = true ->
  Forall (fun d => is_name (d_name d) = true) ds ->
  _parse_module_instantiation (show_module_header nm ds)
  = Some (mkInstance "module" nm []).
Proof.
  intros Hn Hd. pose proof (header_chars ds Hd) as A.
  unfold _parse_module_instantiation, show_module_header.
  change ("module " ++ ?x)%string with ("module" ++ " " ++ x)%string.
  rewrite (match_instance_head_shown "module" nm _ eq_refl Hn).
  rewrite (until_close_skip (show_header ds) ");"
             (all_chars_weaken _ _ _ header_char_not_close A)).
  cbn [until_close prepend]. rewrite append_nil_r.
  rewrite (finditer_connections_none (show_header ds)
             (all_chars_absent header_char "." _ eq_refl A)).
  reflexivity.
Qed.

Lemma parse_lines_header fuel nm ds rest m counter :
  is_name nm = true ->
  Forall (fun d => is_name (d_name d) = true) ds ->
  parse_lines (S fuel) (show_module_header nm ds :: rest) m counter
  = parse_lines fuel rest
      (with_instance m (Some (mkInstance "module" nm []))) counter.
Proof.
  intros Hn Hd. cbn [parse_lines]. cbv zeta.
  rewrite !module_header_strip.
  assert (C0 : ((show_module_header nm ds =? "")%string
                || Py.startswith "//" (show_module_header nm ds)) = false)
    by reflexivity.
  assert (C1 : Py.startswith "wire" (show_module_header nm ds) = false)
    by reflexivity.
  assert (C2 : Py.startswith "assign" (show_module_header nm ds) = false)
    by reflexivity.
  assert (C3 : Py.startswith "always" (show_module_header nm ds) = false)
    by reflexivity.
  assert (E : endswith ");" (show_module_header nm ds) = true).
  { unfold show_module_header. rewrite <- !append_assoc.
    apply endswith_append. }
  assert (M : match_instance_head (show_module_header nm ds)
              = Some ("module", nm, (show_header ds ++ ");")%string)).
  { unfold show_module_header.
    change ("module " ++ ?x)%string with ("module" ++ " " ++ x)%string.
    apply (match_instance_head_shown "module" nm _ eq_refl Hn). }
  rewrite C0, C1, C2, C3, M, E.
  now rewrite (module_header_instance nm ds Hn Hd).
Qed.

End LeakedHeaders.

(** X29.  The header of a module that stands on a line of a body is
    read as an instantiation: [_parse_body] records an instance with
    the name of the declared module, of a module called [module] and
    without connections, and goes on with the lines behind it. *)
Theorem header_in_a_body_is_an_instance m nm ds rest counter :
  is_name nm = true -> names_ok ds = true ->
  SourceReader._parse_body
    m (show_module_header nm ds ++ String SourceReader.newline rest) counter
  = SourceReader._parse_body
      (mkModule (name m) (mod_inputs m) (mod_outputs m) (internal_signals m)
                (gates m) (instances m ++ [mkInstance "module" nm []]))
      rest counter.
Proof.
  intros Hn Hd. apply names_ok_Forall in Hd.
  unfold SourceReader._parse_body. cbv zeta.
  rewrite (split_cons _ rest (module_header_no_newline nm ds Hn Hd)).
  cbn [List.length].
  apply (parse_lines_header _ nm ds _ m counter Hn Hd).
Qed.

Lemma header_in_a_body_is_an_instance_witness :
  SourceReader._parse_body
    (mkModule "inv" [] [] [] [] [])
    ("module top(input x, output z);"
     ++ String SourceReader.newline "inv u1(.a(x), .y(z));") 0
  = Ok (mkModule "inv" [] [] [] []
          [mkInstance "module" "top" [];
           mkInstance "inv" "u1" [("a", "x"); ("y", "z")]], 0).
Proof.
  exact (eq_trans
           (header_in_a_body_is_an_instance
              (mkModule "inv" [] [] [] [] []) "top"
              [mkDeclaration true None "x"; mkDeclaration false None "z"]
              "inv u1(.a(x), .y(z));" 0 eq_refl eq_refl)
           eq_refl).
Defined.

(* ------------------------------------------------------------------ *)
(** ** A file of one module *)

Section OneModule.

Import SourceReader.

Lemma line_comments_none s :
  Py.contains "/" s = false -> line_comments false s = s.
Proof.
  induction s as [|c s IH]; [reflexivity|]. cbn [Py.contains]. intros H.
  apply orb_false_iff in H as [Hc H].
  now rewrite line_comments_step, Hc, (IH H).
Qed.

Lemma block_comments_none s :
  Py.contains "/" s = false -> block_comments false s = s.
Proof.
  induction s as [|c s IH]; [reflexivity|]. cbn [Py.contains]. intros H.
  apply orb_false_iff in H as [Hc H].
  now rewrite block_comments_step, Hc, (IH H).
Qed.

Lemma remove_comments_none s :
  Py.contains "/" s = false -> _remove_comments s = s.
Proof.
  intros H. unfold _remove_comments.
  now rewrite (line_comments_none s H), (block_comments_none s H).
Qed.

Lemma match_module_header_shown nm ds rest :
  is_name nm = true ->
  Forall (fun d => is_name (d_name d) = true) ds ->
  match_module_header (show_module_header nm ds ++ rest)
  = Some (nm, show_header ds, rest).
Proof.
  intros Hn Hd. pose proof (header_chars ds Hd) as A.
  destruct (name_chars nm Hn) as [c [tl [En [Wn An]]]].
  unfold match_module_header, show_module_header.
  rewrite !append_assoc.
  change (keyword_at "module" ("module " ++ ?x)) with true. cbn iota.
  change (Py.drop 6 ("module " ++ ?x)) with (" " ++ x)%string.
  assert (B : Py.span Py.isspace
                (" " ++ nm ++ "(" ++ show_header ds ++ ");" ++ rest)
              = (" ", (nm ++ "(" ++ show_header ds ++ ");" ++ rest)%string)).
  { rewrite En. cbn [append Py.span]. change (Py.isspace " ") with true.
    cbn iota. now rewrite (word_not_blank c Wn). }
  rewrite B. cbn [append].
  rewrite (span_run Py.is_word nm (String "(" _) An eq_refl).
  rewrite En at 1. cbn [Py.span snd].
  change (Py.isspace "(") with false. cbn iota. cbn [snd].
  rewrite (until_close_skip (show_header ds) _
             (all_chars_weaken _ _ _ header_char_not_close A)).
  cbn [until_close prepend]. now rewrite append_nil_r.
Qed.

Lemma match_module_header_none s :
  keyword_at "module" s = false -> match_module_header s = None.
Proof. intros H. unfold match_module_header. now rewrite H. Qed.

Lemma finditer_headers_endmodule fuel pos :
  finditer_headers fuel "endmodule" pos = [].
Proof.
  do 9 (destruct fuel as [|fuel]; [reflexivity|]). now destruct fuel.
Qed.

Lemma finditer_headers_calm b :
  calm b "endmodule" = true ->
  forall fuel pos, finditer_headers fuel (b ++ "endmodule") pos = [].
Proof.
  induction b as [|c b IH]; intros C fuel pos.
  - apply finditer_headers_endmodule.
  - cbn [calm] in C. apply andb_true_iff in C as [C C3].
    apply andb_true_iff in C as [C1 _]. apply negb_true_iff in C1.
    destruct fuel as [|fuel]; [reflexivity|].
    change (String c b ++ "endmodule")%string
      with (String c (b ++ "endmodule")) in *.
    cbn [finditer_headers]. rewrite (match_module_header_none _ C1).
    now apply IH.
Qed.

Lemma extract_single_body header body :
  calm body "endmodule" = true ->
  _extract_module_body (header ++ body ++ "endmodule") (String.length header)
  = Py.strip (body ++ "endmodule").
Proof.
  intros C. unfold _extract_module_body.
  rewrite drop_append, (scan_calm body _ C).
  rewrite <- (append_nil_r "endmodule") at 1. rewrite scan_endmodule.
  reflexivity.
Qed.

Lemma add_ports_module ds :
  forall m,
    fold_left add_port (map declared ds) m
    = mkModule (name m) (mod_inputs m ++ inputs_of ds)
               (mod_outputs m ++ outputs_of ds) (internal_signals m)
               (gates m) (instances m).
Proof.
  unfold inputs_of, outputs_of.
  induction ds as [|d ds IH]; intros m; cbn [map fold_left filter].
  - rewrite !List.app_nil_r. now destruct m.
  - rewrite IH. unfold add_port.
    change (is_input (declared d)) with (d_input d).
    destruct (d_input d);
      cbn [name mod_inputs mod_outputs internal_signals gates instances
           map negb];
      now rewrite <- List.app_assoc.
Qed.

Lemma header_length_positive nm ds rest :
  exists c tl, (show_module_header nm ds ++ rest)%string = String c tl.
Proof. unfold show_module_header. cbn [append]. eauto. Qed.

Lemma parse_single_module nm ds body :
  is_name nm = true -> names_ok ds = true ->
  Py.contains "/" body = false ->
  calm body "endmodule" = true ->
  no_port_lines (Py.strip (body ++ "endmodule")) = true ->
  parse_content (show_module_header nm ds ++ body ++ "endmodule")
  = (mc <- _parse_body (mkModule nm (inputs_of ds) (outputs_of ds) [] [] [])
                       (Py.strip (body ++ "endmodule")) 0 ;;
     Ok [(nm, fst mc)]).
Proof.
  intros Hn Hds Hs C P. pose proof (names_ok_Forall ds Hds) as Hd.
  destruct (name_chars nm Hn) as [c [tl [_ [_ An]]]].
  set (content := (show_module_header nm ds ++ body ++ "endmodule")%string).
  assert (R : _remove_comments content = content).
  { apply remove_comments_none. unfold content, show_module_header.
    rewrite !contains_app, Hs.
    rewrite (all_chars_absent Py.is_word "/" nm eq_refl An).
    rewrite (all_chars_absent header_char "/" _ eq_refl (header_chars ds Hd)).
    reflexivity. }
  unfold parse_content. cbv zeta. rewrite R.
  assert (F : finditer_headers (String.length content) content 0
              = [(nm, show_header ds,
                  String.length (show_module_header nm ds))]).
  { pose proof (match_module_header_shown nm ds (body ++ "endmodule") Hn Hd)
      as M. fold content in M.
    assert (L : String.length content
                - String.length (body ++ "endmodule")%string
                = String.length (show_module_header nm ds))
      by (unfold content; rewrite !length_append; lia).
    destruct (header_length_positive nm ds (body ++ "endmodule"))
      as [c0 [tl0 E]]. fold content in E.
    rewrite E in *. cbn [String.length finditer_headers].
    rewrite M. cbn [String.length] in L. rewrite L. cbn [Nat.add].
    now rewrite (finditer_headers_calm body C). }
  rewrite F. cbn [parse_modules]. unfold content at 1.
  rewrite (extract_single_body _ body C).
  unfold _parse_module. cbv zeta.
  rewrite (parse_ports_shown _ ds _ Hds P), add_ports_module.
  cbn [name mod_inputs mod_outputs internal_signals gates instances app].
  destruct (_parse_body _ _ 0) as [[m k]| |]; reflexivity.
Qed.

End OneModule.

(** X30.  A file of one module is read as its header says: with a
    header written on one line, and a text behind it that holds no
    comment, no keyword before its [endmodule] and no declaration of a
    port, [parse_content] returns one module under the name of the
    header, with the ports of the header in order, and with what
    [_parse_body] reads in the text behind the header, the closing
    [endmodule] included. *)
Theorem single_module_file_is_parsed nm ds body :
  is_name nm = true -> names_ok ds = true ->
  Py.contains "/" body = false ->
  calm body "endmodule" = true ->
  no_port_lines (Py.strip (body ++ "endmodule")) = true ->
  SourceReader.parse_content
    (show_module_header nm ds ++ body ++ "endmodule")
  = (mc <- SourceReader._parse_body
             (mkModule nm (inputs_of ds) (outputs_of ds) [] [] [])
             (Py.strip (body ++ "endmodule")) 0 ;;
     Ok [(nm, fst mc)]).
Proof. exact (parse_single_module nm ds body). Qed.

Lemma single_module_file_is_parsed_witness :
  SourceReader.parse_content
    ("module inv(input a, output y);"
     ++ String SourceReader.newline
          ("  assign y = ~a;" ++ String SourceReader.newline "")
     ++ "endmodule")
  = Ok [("inv",
         mkModule "inv"
           [mkSignal "a" 1 true false false false]
           [mkSignal "y" 1 false true false false]
           [] [mkGate "NOT" ["a"] "y" "NOT_1_y"] [])].
Proof.
  exact (eq_trans
           (single_module_file_is_parsed
              "inv"
              [mkDeclaration true None "a"; mkDeclaration false None "y"]
              (String SourceReader.newline
                 ("  assign y = ~a;" ++ String SourceReader.newline ""))
              eq_refl eq_refl eq_refl eq_refl eq_refl)
           eq_refl).
Defined.

(* ------------------------------------------------------------------ *)
(** ** Parentheses without a partner (C4) *)

Section UnbalancedParentheses.

Lemma tokenize_acc n :
  forall s acc, String.length s <= n ->
    tokenize_from s acc = (ts <- tokenize_from s [] ;; Ok (acc ++ ts)).
Proof.
  induction n as [|n IH]; intros s acc L.
  - destruct s; [|simpl in L; lia]. cbn. now rewrite List.app_nil_r.
  - destruct s as [|c tl]; [cbn; now rewrite List.app_nil_r|].
    simpl in L. rewrite !tokenize_step.
    destruct (Py.isspace c); [apply IH; lia|].
    destruct (is_op_char c).
    { rewrite (IH tl (acc ++ [String c ""])), (IH tl ([] ++ [String c ""]))
        by lia.
      destruct (tokenize_from tl []) as [ts| |]; cbn [bind]; try reflexivity.
      now rewrite <- List.app_assoc. }
    destruct (Py.is_word c); [|reflexivity].
    pose proof (span_length Py.is_word tl) as SL.
    rewrite (IH _ (acc ++ [_])), (IH _ ([] ++ [_])) by lia.
    destruct (tokenize_from _ []) as [ts| |]; cbn [bind]; try reflexivity.
    now rewrite <- List.app_assoc.
Qed.

Lemma span_app_stop p s c r :
  p c = false ->
  Py.span p (s ++ String c r)
  = (fst (Py.span p s), (snd (Py.span p s) ++ String c r)%string).
Proof.
  intros Hc. induction s as [|d s IH]; cbn [append Py.span fst snd].
  - now rewrite Hc.
  - destruct (p d); [|reflexivity]. rewrite IH.
    now destruct (Py.span p s).
Qed.

(** A closing parenthesis behind the text is one more token. *)
Lemma tokenize_close n :
  forall s acc, String.length s <= n ->
    tokenize_from (s ++ ")") acc
    = (ts <- tokenize_from s acc ;; Ok (ts ++ [")"])).
Proof.
  induction n as [|n IH]; intros s acc L.
  - destruct s; [reflexivity|simpl in L; lia].
  - destruct s as [|c tl]; [reflexivity|].
    simpl in L. cbn [append]. rewrite !tokenize_step.
    destruct (Py.isspace c); [apply IH; lia|].
    destruct (is_op_char c); [apply IH; lia|].
    destruct (Py.is_word c); [|reflexivity].
    rewrite (span_app_stop Py.is_word tl ")" "" eq_refl). cbn [fst snd].
    apply IH. pose proof (span_length Py.is_word tl). lia.
Qed.

Lemma tokenize_lstrip s acc :
  tokenize_from (Py.lstrip s) acc = tokenize_from s acc.
Proof.
  induction s as [|c s IH]; [reflexivity|]. cbn [Py.lstrip].
  destruct (Py.isspace c) eqn:B; [|reflexivity].
  now rewrite (tokenize_step c s), B.
Qed.

Lemma rstrip_cons c tl :
  Py.isspace c = false -> Py.rstrip (String c tl) = String c (Py.rstrip tl).
Proof.
  intros B. unfold Py.rstrip. cbn [Py.rstrip_by].
  destruct (Py.rstrip_by Py.isspace tl); [now rewrite B|reflexivity].
Qed.

Lemma span_word_rstrip s :
  Py.span Py.is_word (Py.rstrip s)
  = (fst (Py.span Py.is_word s), Py.rstrip (snd (Py.span Py.is_word s))).
Proof.
  induction s as [|d s IH]; [reflexivity|].
  destruct (Py.is_word d) eqn:W.
  - rewrite (rstrip_cons d s (word_not_blank d W)). cbn [Py.span].
    rewrite W, IH. now destruct (Py.span Py.is_word s).
  - cbn [Py.span]. rewrite W. cbn [fst snd].
    unfold Py.rstrip. cbn [Py.rstrip_by].
    destruct (Py.rstrip_by Py.isspace s); destruct (Py.isspace d);
      cbn [Py.span]; rewrite ?W; reflexivity.
Qed.

Lemma tokenize_rstrip n :
  forall s acc, String.length s <= n ->
    tokenize_from (Py.rstrip s) acc = tokenize_from s acc.
Proof.
  induction n as [|n IH]; intros s acc L.
  - destruct s; [reflexivity|simpl in L; lia].
  - destruct s as [|c tl]; [reflexivity|]. simpl in L.
    destruct (Py.isspace c) eqn:B.
    + rewrite (tokenize_step c tl), B, <- (IH tl acc) by lia.
      unfold Py.rstrip. cbn [Py.rstrip_by].
      destruct (Py.rstrip_by Py.isspace tl) as [|d r]; rewrite ?B;
        [reflexivity|].
      now rewrite (tokenize_step c (String d r)), B.
    + rewrite (rstrip_cons c tl B), !tokenize_step, B.
      destruct (is_op_char c); [apply IH; lia|].
      destruct (Py.is_word c); [|reflexivity].
      rewrite span_word_rstrip. cbn [fst snd].
      apply IH. pose proof (span_length Py.is_word tl). lia.
Qed.

(** The blanks around an expression do not count. *)
Lemma tokenize_strip s acc :
  tokenize_from (Py.strip s) acc = tokenize_from s acc.
Proof.
  unfold Py.strip.
  now rewrite (tokenize_rstrip _ _ _ (Nat.le_refl _)), tokenize_lstrip.
Qed.

Lemma absent_all c s :
  Py.contains c s = false ->
  Py.all_chars (fun d => negb (d =? c)%char) s = true.
Proof.
  induction s as [|d s IH]; cbn [Py.contains Py.all_chars]; [reflexivity|].
  intros H. apply orb_false_iff in H as [Hd H]. now rewrite Hd, (IH H).
Qed.

Lemma contains_strip c s :
  Py.contains c s = false -> Py.contains c (Py.strip s) = false.
Proof.
  intros H. apply (all_chars_absent (fun d => negb (d =? c)%char)).
  - now rewrite Ascii.eqb_refl.
  - now apply all_chars_strip, absent_all.
Qed.

(** *** The operator stack over an opening parenthesis *)

Lemma close_paren_over_open output ops :
  close_paren output (ops ++ ["("])
  = if (open_parens ops =? 0)%nat then (output ++ ops, [])
    else (fst (close_paren output ops), snd (close_paren output ops) ++ ["("]).
Proof.
  revert output. induction ops as [|o ops IH]; intros output;
    cbn [app close_paren].
  - now rewrite List.app_nil_r.
  - rewrite open_parens_cons. destruct (o =? "(")%string; [reflexivity|].
    rewrite IH. destruct (open_parens ops =? 0)%nat; [|reflexivity].
    now rewrite <- List.app_assoc.
Qed.

Lemma pop_higher_over_open pt output ops :
  pop_higher pt output (ops ++ ["("])
  = (fst (pop_higher pt output ops), snd (pop_higher pt output ops) ++ ["("]).
Proof.
  revert output. induction ops as [|o ops IH]; intros output;
    cbn [app pop_higher]; [reflexivity|].
  destruct (prec o) as [po|]; [|reflexivity].
  destruct (_ || _); [apply IH|reflexivity].
Qed.

Lemma sy_step_over_open output ops t :
  sy_step (output, ops ++ ["("]) t
  = if (t =? ")")%string && (open_parens ops =? 0)%nat
    then sy_step (output, ops) t
    else (fst (sy_step (output, ops) t),
          snd (sy_step (output, ops) t) ++ ["("]).
Proof.
  destruct (String.eqb_spec t ")") as [->|N].
  - change (sy_step (output, ops ++ ["("]) ")")
      with (close_paren output (ops ++ ["("])).
    change (sy_step (output, ops) ")") with (close_paren output ops).
    rewrite close_paren_over_open. cbn [andb].
    destruct (Nat.eqb_spec (open_parens ops) 0) as [E|_]; [|reflexivity].
    now rewrite (close_paren_none_open output ops E).
  - cbn [andb]. unfold sy_step.
    destruct (Py.match_identifier t); [reflexivity|].
    destruct (t =? "(")%string; [reflexivity|].
    apply String.eqb_neq in N. rewrite N.
    destruct (prec t) as [pt|]; [|reflexivity].
    rewrite pop_higher_over_open.
    now destruct (pop_higher pt output ops).
Qed.

(** An opening parenthesis at the bottom of the stack stays there, or
    is taken by the first closing parenthesis that has no partner. *)
Lemma sy_fold_over_open tokens :
  forall output ops,
    fold_left sy_step tokens (output, ops ++ ["("])
    = fold_left sy_step tokens (output, ops)
    \/ fold_left sy_step tokens (output, ops ++ ["("])
       = (fst (fold_left sy_step tokens (output, ops)),
          snd (fold_left sy_step tokens (output, ops)) ++ ["("]).
Proof.
  induction tokens as [|t tokens IH]; intros output ops; cbn [fold_left].
  - now right.
  - rewrite sy_step_over_open.
    destruct ((t =? ")")%string && (open_parens ops =? 0)%nat); [now left|].
    destruct (sy_step (output, ops) t) as [output' ops']. apply IH.
Qed.

(** *** Opening parentheses in the RPN *)

Lemma rpn_loop_skips_open l1 l2 :
  forall stack,
    rpn_loop (l1 ++ "(" :: l2) stack = rpn_loop (l1 ++ l2) stack.
Proof.
  induction l1 as [|t l1 IH]; intros stack; cbn [app rpn_loop].
  - reflexivity.
  - destruct (rpn_step stack t) as [stack'| |]; cbn [bind];
      [apply IH|reflexivity|reflexivity].
Qed.

Variables (output : string) (counter : nat).

(** What [_parse_boolean_expr_to_gates] does with the RPN. *)
Let finish (rpn : list string) : outcome (list Gate * nat) :=
  match rpn with
  | [] => Ok ([], counter)
  | _ =>
      tree <- _rpn_to_ast rpn ;;
      let '(_, counter', gates) := _ast_to_gates tree output counter [] in
      Ok (gates, counter')
  end.

Lemma finish_skips_open l1 l2 :
  finish (l1 ++ "(" :: l2) = finish (l1 ++ l2).
Proof.
  unfold finish, _rpn_to_ast.
  destruct l1 as [|t l1]; [destruct l2 as [|t l2]|]; cbn [app].
  - reflexivity.
  - now rewrite (rpn_loop_skips_open [] (t :: l2)).
  - change (t :: l1 ++ "(" :: l2) with ((t :: l1) ++ "(" :: l2).
    now rewrite (rpn_loop_skips_open (t :: l1) l2).
Qed.

Lemma close_paren_flush out ops :
  finish (sy_flush (close_paren out ops)) = finish (sy_flush (out, ops)).
Proof.
  revert out. induction ops as [|o ops IH]; intros out; cbn [close_paren].
  - reflexivity.
  - destruct (String.eqb_spec o "(") as [->|N].
    + unfold sy_flush. cbn [fst snd]. now rewrite finish_skips_open.
    + rewrite IH. unfold sy_flush. cbn [fst snd].
      now rewrite <- List.app_assoc.
Qed.

Lemma finish_close tokens :
  finish (_shunting_yard (tokens ++ [")"])) = finish (_shunting_yard tokens).
Proof.
  unfold _shunting_yard. rewrite fold_left_app. cbn [fold_left].
  destruct (fold_left sy_step tokens ([], [])) as [out ops].
  change (sy_step (out, ops) ")") with (close_paren out ops).
  apply close_paren_flush.
Qed.

Lemma finish_open tokens :
  finish (_shunting_yard ("(" :: tokens)) = finish (_shunting_yard tokens).
Proof.
  unfold _shunting_yard. cbn [fold_left].
  change (sy_step ([], []) "(") with (@nil string, [] ++ ["("]).
  destruct (sy_fold_over_open tokens [] []) as [-> | ->]; [reflexivity|].
  destruct (fold_left sy_step tokens ([], [])) as [out ops].
  unfold sy_flush. cbn [fst snd]. rewrite List.app_assoc.
  rewrite (finish_skips_open (out ++ ops) []). now rewrite List.app_nil_r.
Qed.

Lemma parse_through_finish expr :
  Py.contains "?" expr = false ->
  _parse_boolean_expr_to_gates expr output counter
  = (ts <- tokenize_from expr [] ;; finish (_shunting_yard ts)).
Proof.
  intros Q. unfold _parse_boolean_expr_to_gates, _rewrite_ternary_to_bool.
  rewrite (contains_strip "?" expr Q). cbn [negb].
  unfold _tokenize_boolean_expr. now rewrite tokenize_strip.
Qed.

Lemma parse_closed expr :
  Py.contains "?" expr = false ->
  _parse_boolean_expr_to_gates (expr ++ ")") output counter
  = _parse_boolean_expr_to_gates expr output counter.
Proof.
  intros Q. rewrite (parse_through_finish expr Q), parse_through_finish
    by (now rewrite contains_app, Q).
  rewrite (tokenize_close _ _ _ (Nat.le_refl _)).
  destruct (tokenize_from expr []) as [ts| |]; cbn [bind];
    [apply finish_close|reflexivity|reflexivity].
Qed.

Lemma parse_opened expr :
  Py.contains "?" expr = false ->
  _parse_boolean_expr_to_gates ("(" ++ expr) output counter
  = _parse_boolean_expr_to_gates expr output counter.
Proof.
  intros Q. rewrite (parse_through_finish expr Q), parse_through_finish
    by (cbn [append Py.contains]; now rewrite Q).
  change (tokenize_from ("(" ++ expr) []) with (tokenize_from expr ["("]).
  rewrite (tokenize_acc _ _ _ (Nat.le_refl _)).
  destruct (tokenize_from expr []) as [ts| |]; cbn [bind];
    [apply finish_open|reflexivity|reflexivity].
Qed.

End UnbalancedParentheses.

Lemma lowered_length e :
  forall target n acc,
    List.length (snd (ast_to_gates e target n acc))
    = List.length acc + operators e.
Proof.
  induction e as [x|a IHa|op a IHa b IHb]; intros target n acc;
    cbn [ast_to_gates operators].
  - destruct (negb (target =? x)%string); cbn [snd]; lia.
  - destruct (_new_temp "n" n) as [tn c1].
    specialize (IHa tn c1 acc).
    destruct (ast_to_gates a tn c1 acc) as [[sg c2] acc1]. cbn [snd] in *.
    rewrite length_app. cbn [List.length]. lia.
  - destruct (_new_temp "l" n) as [tl c1].
    specialize (IHa tl c1 acc).
    destruct (ast_to_gates a tl c1 acc) as [[sg1 c2] acc1]. cbn [snd] in *.
    destruct (_new_temp "r" c2) as [tr c3].
    specialize (IHb tr c3 acc1).
    destruct (ast_to_gates b tr c3 acc1) as [[sg2 c4] acc2]. cbn [snd] in *.
    rewrite length_app. cbn [List.length]. lia.
Qed.

Lemma parse_show e target n :
  Forall (fun x => is_identifier x = true) (identifiers e) ->
  _parse_boolean_expr_to_gates (show e) target n = Ok (lowered e target n).
Proof.
  intros I. unfold _parse_boolean_expr_to_gates, _rewrite_ternary_to_bool.
  rewrite (strip_show e I), (show_no_question e I). cbn [negb].
  unfold _tokenize_boolean_expr.
  rewrite <- (append_nil_r (show e)) at 1.
  rewrite (tokenize_show e I "" []) by reflexivity.
  cbn [tokenize_from bind app].
  unfold _shunting_yard, sy_flush.
  rewrite (sy_tokens_of e I [] []). cbn [fst snd app].
  rewrite List.app_nil_r.
  destruct (rpn_of e) as [|t rpn] eqn:R; [now apply rpn_of_nonempty in R|].
  rewrite <- R. unfold _rpn_to_ast.
  rewrite <- (List.app_nil_r (rpn_of e)), (rpn_loop_rpn_of e I [] []).
  cbn [rpn_loop bind hd_error _ast_to_gates]. unfold lowered.
  now destruct (ast_to_gates e target n []) as [[sg c] gs].
Qed.

(** C4, amended.  A right-hand side made only of blanks and parentheses
    (the empty one, or an empty subexpression [()] on its own) compiles
    to the empty gate list, and the compiler does not throw.
    Unbalanced parentheses do not empty the assignment; they are
    completed at the ends of the expression.  In an expression without
    the ternary operator, a closing parenthesis put behind it and an
    opening parenthesis put in front of it never change the result: a
    parenthesis left open compiles as if it were closed at the end, a
    closing one without partner as if its partner stood in front.  So
    an expression written with all its parentheses behind an opening
    parenthesis that is never closed compiles to the gates of the
    expression, one for each of its operators. *)
Theorem unbalanced_parentheses_are_completed :
  (forall expr output counter,
     Py.all_chars blank_or_paren expr = true ->
     _parse_boolean_expr_to_gates expr output counter = Ok ([], counter))
  /\ (forall expr output counter,
        Py.contains "?" expr = false ->
        _parse_boolean_expr_to_gates (expr ++ ")") output counter
        = _parse_boolean_expr_to_gates expr output counter
        /\ _parse_boolean_expr_to_gates ("(" ++ expr) output counter
           = _parse_boolean_expr_to_gates expr output counter)
  /\ (forall e output counter,
        Forall (fun x => is_identifier x = true) (identifiers e) ->
        _parse_boolean_expr_to_gates ("(" ++ show e) output counter
        = Ok (lowered e output counter)
        /\ List.length (fst (lowered e output counter)) = operators e).
Proof.
  split; [|split].
  - intros expr output counter H.
    unfold _parse_boolean_expr_to_gates, _rewrite_ternary_to_bool.
    apply all_chars_strip in H.
    rewrite (blank_or_paren_no_question _ H). simpl.
    unfold _tokenize_boolean_expr.
    destruct (tokenize_blank_or_paren _ H []) as [parens [-> F]]. simpl.
    unfold _shunting_yard.
    destruct (sy_parens_only parens F [] (Forall_nil _)) as [ops [-> Fo]].
    unfold sy_flush. simpl.
    destruct ops as [|o ops]; [reflexivity|].
    unfold _rpn_to_ast. now rewrite (rpn_loop_open_parens _ _ Fo).
  - intros expr output counter Q. split.
    + exact (parse_closed output counter expr Q).
    + exact (parse_opened output counter expr Q).
  - intros e output counter I. split.
    + rewrite (parse_opened output counter (show e) (show_no_question e I)).
      exact (parse_show e output counter I).
    + unfold lowered.
      pose proof (lowered_length e output counter []) as L.
      destruct (ast_to_gates e output counter []) as [[sg c] gs].
      exact L.
Qed.

Lemma unbalanced_parentheses_are_completed_witness :
  _parse_boolean_expr_to_gates " ( () " "y" 3 = Ok ([], 3)
  /\ (_parse_boolean_expr_to_gates ("a & (b | c" ++ ")") "y" 0
      = _parse_boolean_expr_to_gates "a & (b | c" "y" 0
      /\ _parse_boolean_expr_to_gates ("(" ++ "a | b) & c") "y" 0
         = _parse_boolean_expr_to_gates "a | b) & c" "y" 0)
  /\ (_parse_boolean_expr_to_gates ("(" ++ show (bin and (id "a") (id "b")))
                                   "y" 0
      = Ok (lowered (bin and (id "a") (id "b")) "y" 0)
      /\ List.length (fst (lowered (bin and (id "a") (id "b")) "y" 0)) = 1).
Proof.
  destruct unbalanced_parentheses_are_completed as [Hblank [Hends Hopen]].
  split; [|split].
  - apply Hblank. reflexivity.
  - split.
    + apply (proj1 (Hends "a & (b | c" "y" 0 eq_refl)).
    + apply (proj2 (Hends "a | b) & c" "y" 0 eq_refl)).
  - apply (Hopen (bin and (id "a") (id "b")) "y" 0). repeat constructor.
Defined.

(* ------------------------------------------------------------------ *)
(** ** Arity and order of the inputs, from the text to the flat list (C6) *)

Section Provenance.

Import SourceReader.







(** *** The parser *)

Lemma add_port_gates m sg : gates (add_port m sg) = gates m.
Proof. unfold add_port. now destruct (is_input sg). Qed.

Lemma add_ports_gates sigs :
  forall m, gates (fold_left add_port sigs m) = gates m.
Proof.
  induction sigs as [|sg sigs IH]; intros m; cbn [fold_left];
    [reflexivity|].
  now rewrite IH, add_port_gates.
Qed.

Lemma parse_port_declaration_gates m line :
  gates (_parse_port_declaration m line) = gates m.
Proof.
  unfold _parse_port_declaration.
  destruct (match_port line) as [[[[direction range] nm] rest]|];
    [apply add_port_gates|reflexivity].
Qed.

Lemma parse_ports_gates m port_list body :
  gates (_parse_ports m port_list body) = gates m.
Proof.
  unfold _parse_ports. cbv zeta.
  rewrite <- (add_ports_gates
                (finditer_ports
                   (String.length (replace_char newline " " port_list))
                   (replace_char newline " " port_list)) m).
  generalize (fold_left add_port
                (finditer_ports
                   (String.length (replace_char newline " " port_list))
                   (replace_char newline " " port_list)) m).
  generalize (split newline body).
  intros lines. induction lines as [|l lines IH]; intros m0; cbn [fold_left];
    [reflexivity|].
  rewrite IH.
  destruct ((Py.strip l =? "")%string || Py.startswith "//" (Py.strip l));
    [reflexivity|].
  destruct (is_port_line (Py.strip l)); [|reflexivity].
  apply parse_port_declaration_gates.
Qed.

Lemma parse_wire_declaration_gates m line :
  gates (_parse_wire_declaration m line) = gates m.
Proof.
  unfold _parse_wire_declaration.
  destruct (keyword_at "wire" line); [|reflexivity].
  now destruct (match_ranged_name _) as [[[range nm] rest]|].
Qed.

Lemma with_instance_gates m i : gates (with_instance m i) = gates m.
Proof. now destruct i. Qed.







(** *** The flattener *)









End Provenance.



(* ------------------------------------------------------------------ *)
(** ** Drivers of the nets, across the hierarchy (C7) *)

Section Drivers.

Variables (fuel : nat) (modules : Dict.t Module).

(** The gates that the loop over the instances appends for [inst]. *)
Let inlined (inst : ModuleInstance) : list Gate :=
  if (module_name inst =? "UNIT_DFFE")%string then unit_dffe_gates inst
  else map (inline_gate inst (port_map_of (connections inst)))
           (sub_flat fuel modules inst).

Lemma inline_instances_inlined insts :
  forall flat flat',
    inline_instances (fun sub => flatten_module_gates fuel sub modules)
                     modules insts flat = Ok flat' ->
    flat' = flat ++ flat_map inlined insts.
Proof.
  induction insts as [|inst rest IH]; intros flat flat' H;
    cbn [inline_instances flat_map] in *.
  - injection H as <-. now rewrite List.app_nil_r.
  - unfold inlined at 1, sub_flat.
    destruct (module_name inst =? "UNIT_DFFE")%string.
    + rewrite (IH _ _ H). now rewrite <- List.app_assoc.
    + destruct (Dict.get modules (module_name inst)) as [sub|].
      * destruct (flatten_module_gates fuel sub modules) as [sub_gates| |];
          cbn [bind] in H; try discriminate.
        rewrite (IH _ _ H). now rewrite <- List.app_assoc.
      * rewrite (IH _ _ H). reflexivity.
Qed.

Lemma flatten_inlined module flat :
  instances module <> [] ->
  flatten_module_gates (S fuel) module modules = Ok flat ->
  flat = flat_map inlined (instances module).
Proof.
  intros N H. cbn [flatten_module_gates] in H. cbv zeta in H.
  apply inline_instances_inlined in H.
  destruct (instances module); [contradiction|exact H].
Qed.

Lemma inlined_outputs inst :
  map output (inlined inst)
  = if (module_name inst =? "UNIT_DFFE")%string
    then driven_nets fuel modules inst
    else map (map_net inst (port_map_of (connections inst)))
             (map output (sub_flat fuel modules inst)).
Proof.
  unfold inlined, driven_nets.
  destruct (module_name inst =? "UNIT_DFFE")%string; [reflexivity|].
  now rewrite !map_map.
Qed.

(** An inlined gate drives a net that the instance drives in its
    parent, or a local net. *)
Lemma inlined_output_cases inst x :
  In x (map output (inlined inst)) ->
  In x (driven_nets fuel modules inst)
  \/ exists o, x = (inst_name inst ++ "_" ++ o)%string.
Proof.
  rewrite inlined_outputs. unfold driven_nets.
  destruct (module_name inst =? "UNIT_DFFE")%string; [now left|].
  intros H. apply in_map_iff in H as [o [<- Ho]]. unfold map_net.
  destruct (Dict.get _ o) as [actual|] eqn:G; [left|right; now exists o].
  apply in_flat_map. exists o. split; [exact Ho|]. rewrite G. now left.
Qed.

Lemma startswith_append p s : Py.startswith p (p ++ s) = true.
Proof.
  induction p as [|c p IH]; [now destruct s|].
  cbn [append Py.startswith]. now rewrite Ascii.eqb_refl, IH.
Qed.

Lemma append_eq_prefix p q :
  forall x y, (p ++ x = q ++ y)%string ->
    Py.startswith p q = true \/ Py.startswith q p = true.
Proof.
  revert q. induction p as [|a p IH]; intros q x y E; [now left|].
  destruct q as [|b q]; [now right|].
  cbn [append] in E. injection E as -> E.
  cbn [Py.startswith]. rewrite Ascii.eqb_refl. cbn [andb].
  exact (IH q x y E).
Qed.

Lemma local_names_differ a b o o' :
  apart a b -> (a ++ "_" ++ o)%string <> (b ++ "_" ++ o')%string.
Proof.
  intros [A B] E. rewrite <- !append_assoc in E.
  destruct (append_eq_prefix _ _ _ _ E); congruence.
Qed.

Lemma NoDup_flat_map_in {A B} (f : A -> list B) l x :
  NoDup (flat_map f l) -> In x l -> NoDup (f x).
Proof.
  induction l as [|a l IH]; [contradiction|]. cbn [flat_map].
  intros N [->|H].
  - now apply NoDup_app_remove_r in N.
  - apply IH; [|exact H]. now apply NoDup_app_remove_l in N.
Qed.

Lemma NoDup_app_disjoint {A} (l1 l2 : list A) x :
  NoDup (l1 ++ l2) -> In x l1 -> In x l2 -> False.
Proof.
  induction l1 as [|a l1 IH]; [contradiction|]. cbn [app].
  intros N H1 H2. inversion N as [|? ? Hn N']; subst.
  destruct H1 as [->|H1]; [|exact (IH N' H1 H2)].
  apply Hn, in_or_app. now right.
Qed.

(** Inside one instance: distinct driven nets of the module stay
    distinct. *)
Lemma inlined_NoDup inst :
  single_driver (sub_flat fuel modules inst) ->
  NoDup (driven_nets fuel modules inst) ->
  (forall net, In net (driven_nets fuel modules inst) ->
               Py.startswith (inst_name inst ++ "_") net = false) ->
  NoDup (map output (inlined inst)).
Proof.
  intros S D L. rewrite inlined_outputs.
  destruct (module_name inst =? "UNIT_DFFE")%string eqn:U; [exact D|].
  unfold driven_nets in D, L. rewrite U in D, L.
  unfold single_driver in S.
  set (pm := port_map_of (connections inst)) in *.
  induction (map output (sub_flat fuel modules inst)) as [|o os IH];
    [constructor|].
  cbn [map flat_map] in *. inversion S as [|? ? Ho S']; subst.
  assert (D' : NoDup (flat_map
                        (fun o => match Dict.get pm o with
                                  | Some actual => [actual]
                                  | None => []
                                  end) os))
    by (now apply NoDup_app_remove_l in D).
  constructor.
  - intros H. apply in_map_iff in H as [o' [E Ho']]. unfold map_net in E.
    destruct (Dict.get pm o) as [a|] eqn:G;
      destruct (Dict.get pm o') as [a'|] eqn:G'.
    + subst a'. apply (NoDup_app_disjoint _ _ a D); [now left|].
      apply in_flat_map. exists o'. split; [exact Ho'|]. rewrite G'.
      now left.
    + assert (Ha : Py.startswith (inst_name inst ++ "_") a = false)
        by (apply L, in_or_app; left; now left).
      rewrite <- E, <- append_assoc, startswith_append in Ha. discriminate.
    + assert (Ha : Py.startswith (inst_name inst ++ "_") a' = false).
      { apply L, in_or_app. right. apply in_flat_map. exists o'.
        split; [exact Ho'|]. rewrite G'. now left. }
      rewrite E, <- append_assoc, startswith_append in Ha. discriminate.
    + apply append_inj_l, append_inj_l in E. now subst o'.
  - apply IH; [exact S'|exact D'|].
    intros net Hn. apply L, in_or_app. now right.
Qed.

(** Across the instances of a module. *)
Lemma inlined_all_NoDup insts :
  (forall inst, In inst insts ->
                single_driver (sub_flat fuel modules inst)) ->
  names_apart insts ->
  NoDup (flat_map (driven_nets fuel modules) insts) ->
  no_local_name insts (flat_map (driven_nets fuel modules) insts) ->
  NoDup (flat_map (fun inst => map output (inlined inst)) insts).
Proof.
  induction insts as [|inst rest IH]; intros S A D L; [constructor|].
  cbn [flat_map] in *. inversion A as [|? ? Ainst Arest]; subst.
  apply NoDup_app.
  - apply inlined_NoDup.
    + apply S. now left.
    + now apply NoDup_app_remove_r in D.
    + intros net Hn. apply (L net inst); [apply in_or_app|]; now left.
  - apply IH.
    + intros i Hi. apply S. now right.
    + exact Arest.
    + now apply NoDup_app_remove_l in D.
    + intros net i Hn Hi. apply (L net i); [apply in_or_app|]; now right.
  - intros x H1 H2. apply in_flat_map in H2 as [j [Hj H2]].
    destruct (inlined_output_cases inst x H1) as [B1|[o E1]];
      destruct (inlined_output_cases j x H2) as [B2|[o' E2]].
    + apply (NoDup_app_disjoint _ _ x D B1).
      apply in_flat_map. now exists j.
    + assert (F : Py.startswith (inst_name j ++ "_") x = false)
        by (apply (L x j); [apply in_or_app; now left|now right]).
      rewrite E2, <- append_assoc, startswith_append in F. discriminate.
    + assert (F : Py.startswith (inst_name inst ++ "_") x = false).
      { apply (L x inst); [apply in_or_app; right|now left].
        apply in_flat_map. now exists j. }
      rewrite E1, <- append_assoc, startswith_append in F. discriminate.
    + rewrite Forall_forall in Ainst. subst x.
      exact (local_names_differ _ _ _ _ (Ainst j Hj) E2).
Qed.

Lemma flat_map_outputs insts :
  map output (flat_map inlined insts)
  = flat_map (fun inst => map output (inlined inst)) insts.
Proof.
  induction insts as [|inst rest IH]; [reflexivity|].
  cbn [flat_map]. now rewrite map_app, IH.
Qed.

(** A module with instances: the conditions on its instances give the
    single-driver property. *)
Lemma instances_single_driver module flat :
  instances module <> [] ->
  flatten_module_gates (S fuel) module modules = Ok flat ->
  (forall inst, In inst (instances module) ->
                single_driver (sub_flat fuel modules inst)) ->
  names_apart (instances module) ->
  NoDup (flat_map (driven_nets fuel modules) (instances module)) ->
  no_local_name (instances module)
                (flat_map (driven_nets fuel modules) (instances module)) ->
  single_driver flat.
Proof.
  intros N H S A D L. rewrite (flatten_inlined module flat N H).
  unfold single_driver. rewrite flat_map_outputs.
  now apply inlined_all_NoDup.
Qed.

Lemma renamed_outputs_permutation inst os :
  Permutation
    (map (map_net inst (port_map_of (connections inst))) os)
    (flat_map (fun o => match Dict.get (port_map_of (connections inst)) o with
                        | Some actual => [actual]
                        | None => []
                        end) os
     ++ flat_map (fun o => match Dict.get (port_map_of (connections inst)) o
                           with
                           | Some _ => []
                           | None => [(inst_name inst ++ "_" ++ o)%string]
                           end) os).
Proof.
  induction os as [|o os IH]; [constructor|].
  cbn [map flat_map]. unfold map_net at 1.
  destruct (Dict.get (port_map_of (connections inst)) o) as [actual|];
    cbn [app].
  - now constructor.
  - now apply Permutation_cons_app.
Qed.

Lemma inlined_outputs_permutation inst :
  Permutation (map output (inlined inst))
              (driven_nets fuel modules inst ++ local_nets fuel modules inst).
Proof.
  rewrite inlined_outputs. unfold driven_nets, local_nets.
  destruct (module_name inst =? "UNIT_DFFE")%string eqn:U.
  - unfold sub_flat. rewrite U. cbn [map flat_map].
    now rewrite List.app_nil_r.
  - apply renamed_outputs_permutation.
Qed.

Lemma flat_map_permutation {A B} (f g : A -> list B) l :
  (forall x, Permutation (f x) (g x)) ->
  Permutation (flat_map f l) (flat_map g l).
Proof.
  intros H. induction l as [|x l IH]; [constructor|].
  cbn [flat_map]. now apply Permutation_app.
Qed.

(** A module with instances: the flat list is single-driver exactly
    when the nets of its instances bear different names. *)
Lemma instances_single_driver_iff module flat :
  instances module <> [] ->
  flatten_module_gates (S fuel) module modules = Ok flat ->
  single_driver flat
  <-> NoDup (instance_nets fuel modules (instances module)).
Proof.
  intros N H. rewrite (flatten_inlined module flat N H).
  unfold single_driver, instance_nets. rewrite flat_map_outputs.
  pose proof (flat_map_permutation
                (fun inst => map output (inlined inst))
                (fun inst => driven_nets fuel modules inst
                             ++ local_nets fuel modules inst)
                (instances module) inlined_outputs_permutation) as P.
  split; intros D.
  - exact (Permutation_NoDup P D).
  - exact (Permutation_NoDup (Permutation_sym P) D).
Qed.

(** A net driven twice inside an instance is driven twice in the
    parent. *)
Lemma instance_drivers_persist module flat inst :
  flatten_module_gates (S fuel) module modules = Ok flat ->
  In inst (instances module) ->
  single_driver flat ->
  single_driver (sub_flat fuel modules inst).
Proof.
  intros H Hin S.
  assert (N : instances module <> [])
    by (intros E; rewrite E in Hin; contradiction).
  rewrite (flatten_inlined module flat N H) in S.
  unfold single_driver in *. rewrite flat_map_outputs in S.
  pose proof (NoDup_flat_map_in _ _ inst S Hin) as Si. cbv beta in Si.
  rewrite inlined_outputs in Si. unfold sub_flat in *.
  destruct (module_name inst =? "UNIT_DFFE")%string; [constructor|].
  now apply NoDup_map_inv in Si.
Qed.

End Drivers.

(** A module without instances: the flat list names the sanitized
    output of every gate, in order. *)
Lemma leaf_flat_outputs fuel m modules :
  instances m = [] ->
  exists flat,
    flatten_module_gates (S fuel) m modules = Ok flat
    /\ map output flat = map sanitize_signal_name (map output (gates m)).
Proof.
  intros E. exists (map copy_gate (gates m)). split.
  - cbn [flatten_module_gates]. now rewrite E.
  - now rewrite !map_map.
Qed.

Section ParsedLeaf.

Import SourceReader.

Lemma word_plain_char c : Py.is_word c = true -> plain_char c = true.
Proof.
  destruct c as [[] [] [] [] [] [] [] []]; intros H; try discriminate H;
    reflexivity.
Qed.

Lemma word_plain s :
  Py.all_chars Py.is_word s = true -> Py.all_chars plain_char s = true.
Proof.
  induction s as [|c s IH]; cbn [Py.all_chars]; [reflexivity|].
  intros H. apply andb_true_iff in H as [Hc H].
  now rewrite (word_plain_char c Hc), IH.
Qed.

Lemma nonblocking_words fuel :
  forall s q d,
    In (q, d) (finditer_nonblocking fuel s) ->
    Py.all_chars Py.is_word q = true.
Proof.
  induction fuel as [|fuel IH]; intros s q d H; [contradiction|].
  destruct s as [|c tl]; [contradiction|]. cbn [finditer_nonblocking] in H.
  destruct (match_nonblocking_at (String c tl)) as [[[q0 d0] r]|] eqn:M;
    [|exact (IH _ _ _ H)].
  destruct H as [E|H]; [|exact (IH _ _ _ H)].
  injection E as -> ->. unfold match_nonblocking_at in M.
  pose proof (span_all Py.is_word (String c tl)) as A.
  destruct (Py.span Py.is_word (String c tl)) as [q1 r1]. cbn [fst] in A.
  destruct q1 as [|c1 q1]; [discriminate|].
  destruct (snd (Py.span Py.isspace r1)) as [|c2 [|c3 r3]]; try discriminate.
  - destruct c2 as [[] [] [] [] [] [] [] []]; discriminate.
  - destruct c2 as [[] [] [] [] [] [] [] []]; try discriminate.
    destruct c3 as [[] [] [] [] [] [] [] []]; try discriminate.
    destruct (Py.span Py.is_word (snd (Py.span Py.isspace r3))) as [d1 r5].
    destruct d1; [discriminate|]. now injection M as <- _ _.
Qed.

(** The registers of an always block keep their names in the flat
    list. *)
Lemma always_flat_outputs header block :
  flat_outputs (always_gates header block)
  = map output (always_gates header block).
Proof.
  unfold flat_outputs. rewrite map_map.
  apply map_ext_in. intros g Hg. cbn [copy_gate output].
  destruct (always_gates_shape header block g Hg)
    as [clk [q [d [_ [Hq ->]]]]].
  cbn [output]. unfold nonblocking_assignments in Hq.
  pose proof (nonblocking_words _ _ _ _ Hq) as W.
  now rewrite !(sanitize_plain q (word_plain q W)).
Qed.

Lemma flat_outputs_app l1 l2 :
  flat_outputs (l1 ++ l2) = flat_outputs l1 ++ flat_outputs l2.
Proof. unfold flat_outputs. now rewrite !map_app. Qed.

Lemma not_temp_target k t :
  Py.startswith "tmp_" t = false -> ~ is_temp k t.
Proof. intros H T. apply is_temp_starts_tmp in T. congruence. Qed.

(** The nets that the gates of a body drive in the flat list: the
    targets of its statements and temporaries of the counter. *)
Lemma parse_lines_outputs :
  forall fuel lines m n m' n',
    parse_lines fuel lines m n = Ok (m', n') ->
    no_temporary_names (statement_targets fuel lines) ->
    exists new,
      gates m' = gates m ++ new
      /\ n <= n'
      /\ Forall (fun o => In o (statement_targets fuel lines)
                          \/ exists k, n < k <= n' /\ is_temp k o)
                (flat_outputs new)
      /\ (NoDup (statement_targets fuel lines) -> NoDup (flat_outputs new)).
Proof.
  unfold no_temporary_names.
  induction fuel as [|fuel IH]; intros lines m n m' n' H T.
  { cbn [parse_lines] in H. injection H as <- <-. exists [].
    rewrite List.app_nil_r. repeat split; auto; constructor. }
  destruct lines as [|l rest].
  { cbn [parse_lines] in H. injection H as <- <-. exists [].
    rewrite List.app_nil_r. repeat split; auto; constructor. }
  cbn [parse_lines statement_targets] in H, T |- *. cbv zeta in H, T |- *.
  destruct ((Py.strip l =? "")%string || Py.startswith "//" (Py.strip l));
    [exact (IH _ _ _ _ _ H T)|].
  destruct (Py.startswith "wire" (Py.strip l)).
  { destruct (IH _ _ _ _ _ H T) as [new [G R]]. exists new.
    rewrite parse_wire_declaration_gates in G. now split. }
  destruct (Py.startswith "assign" (Py.strip l)).
  { destruct (_parse_assign_statement (Py.strip l) n) as [[gs n1]| |] eqn:E;
      cbn [bind] in H; try discriminate.
    inversion T as [|? ? Tl Trest]; subst.
    destruct (assign_statement_flat_outputs _ _ _ _ Tl E) as [L1 [F1 ND1]].
    destruct (IH _ _ _ _ _ H Trest) as [new [G [L2 [F2 ND2]]]].
    cbn [with_more_gates gates fst snd] in G, L2, F2.
    exists (gs ++ new). rewrite List.app_assoc. split; [exact G|].
    split; [lia|]. rewrite flat_outputs_app. split.
    - apply Forall_app. split.
      + eapply Forall_impl; [|exact F1]. intros o [->|[k [Hk Tk]]].
        * left. now left.
        * right. exists k. split; [lia|assumption].
      + eapply Forall_impl; [|exact F2]. intros o [Hin|[k [Hk Tk]]].
        * left. now right.
        * right. exists k. split; [lia|assumption].
    - intros ND. inversion ND as [|? ? Hnotin NDrest]; subst.
      apply NoDup_app; [exact ND1|now apply ND2|].
      intros o Ho1 Ho2. rewrite Forall_forall in F1, F2, Trest.
      destruct (F1 _ Ho1) as [->|[k1 [Hk1 T1]]];
        destruct (F2 _ Ho2) as [Hin|[k2 [Hk2 T2]]].
      + contradiction.
      + exact (not_temp_target _ _ Tl T2).
      + exact (not_temp_target _ _ (Trest _ Hin) T1).
      + pose proof (is_temp_inj _ _ _ T1 T2). lia. }
  destruct (Py.startswith "always" (Py.strip l)).
  { apply Forall_app in T as [Ta Trest].
    destruct (IH _ _ _ _ _ H Trest) as [new [G [L2 [F2 ND2]]]].
    cbn [with_more_gates gates] in G.
    exists (always_gates (Py.strip l) (always_block (Py.strip l) rest)
            ++ new).
    rewrite List.app_assoc. split; [exact G|]. split; [exact L2|].
    rewrite flat_outputs_app, always_flat_outputs. split.
    - apply Forall_app. split.
      + apply Forall_forall. intros o Ho. left. apply in_or_app. now left.
      + eapply Forall_impl; [|exact F2]. intros o [Hin|Hk]; [left|now right].
        apply in_or_app. now right.
    - intros ND. apply NoDup_app.
      + now apply NoDup_app_remove_r in ND.
      + apply ND2. now apply NoDup_app_remove_l in ND.
      + intros o Ho1 Ho2. rewrite Forall_forall in F2, Ta.
        destruct (F2 _ Ho2) as [Hin|[k [_ Tk]]].
        * exact (NoDup_app_disjoint _ _ o ND Ho1 Hin).
        * exact (not_temp_target _ _ (Ta _ Ho1) Tk). }
  destruct (match_instance_head (Py.strip l)); [|exact (IH _ _ _ _ _ H T)].
  destruct (if endswith ");" (Py.strip (Py.strip l))
            then (Py.strip l, rest)
            else accumulate_instance rest (Py.strip l))
    as [inst_text rest'].
  destruct (IH _ _ _ _ _ H T) as [new [G R]]. exists new.
  rewrite with_instance_gates in G. now split.
Qed.

(** A module parsed from its text, without instances: when the targets
    of its statements are pairwise distinct and none begins like a
    temporary, no two gates of its flat list drive the same net. *)
Lemma parsed_leaf_single_driver nm port_list body n m n' modules fuel :
  _parse_module nm port_list body n = Ok (m, n') ->
  instances m = [] ->
  NoDup (body_targets body) ->
  no_temporary_names (body_targets body) ->
  exists flat,
    flatten_module_gates (S fuel) m modules = Ok flat /\ single_driver flat.
Proof.
  unfold _parse_module, _parse_body, body_targets. cbv zeta.
  intros H Hi ND T. exists (map copy_gate (gates m)). split.
  - cbn [flatten_module_gates]. now rewrite Hi.
  - destruct (parse_lines_outputs _ _ _ _ _ _ H T) as [new [G [_ [_ N]]]].
    rewrite parse_ports_gates in G. cbn [gates app] in G.
    unfold single_driver. rewrite G. exact (N ND).
Qed.

End ParsedLeaf.

(** The conditions on the names cannot be dropped.  In [LocalClash]
    every net of the source has one driver: the local net [t] of [u1]
    and the net [u1_t] of the top module, which [u2] drives.  The flat
    list calls both [u1_t]. *)
Lemma local_names_can_collide :
  exists flat,
    flatten_module_gates 2 LocalClash.top LocalClash.modules = Ok flat
    /\ map output flat = ["u1_t"; "u1_t"]
    /\ ~ single_driver flat
    /\ (forall inst, In inst (instances LocalClash.top) ->
                     single_driver (sub_flat 1 LocalClash.modules inst))
    /\ names_apart (instances LocalClash.top)
    /\ NoDup (flat_map (driven_nets 1 LocalClash.modules)
                       (instances LocalClash.top)).
Proof.
  eexists. split; [reflexivity|]. split; [reflexivity|].
  split; [|split; [|split]].
  - unfold single_driver. cbn. intros H.
    inversion H as [|? ? Hn _]. apply Hn. now left.
  - intros inst [<-|[<-|[]]]; vm_compute; repeat constructor; auto.
  - repeat constructor.
  - vm_compute. repeat constructor. auto.
Qed.

(** C7, amended.  No stage checks for multiple drivers, and the
    flattener neither removes nor merges drivers.  For a module
    without instances, the flat list names the sanitized output of
    every gate of the module, in order: it has the single-driver
    property exactly when these names are pairwise distinct.  That is
    the case for a module parsed from a body whose statement targets
    (the sanitized left-hand sides of its assign statements and the
    registers of its always blocks) are pairwise distinct and do not
    begin with [tmp_]: every other gate drives a temporary numbered by
    the increasing counter.  For a module with instances, the flat
    list has the property when the flat list of every instantiated
    module has it, no net is driven through two ports or registers of
    instances, no driven net begins with an instance name followed by
    an underscore, and no instance name followed by an underscore
    starts another one.  In general it has the property exactly when
    the nets that the gates of its instances drive (the nets connected
    to driven ports, the outputs of [UNIT_DFFE] registers and the
    local nets behind their instance names) are pairwise distinct;
    and whenever the flat list has the property, so has the flat list
    of every instantiated module: a net driven twice in the source
    stays driven twice. *)
Theorem drivers_follow_the_source :
  (forall fuel m modules,
     instances m = [] ->
     exists flat,
       flatten_module_gates (S fuel) m modules = Ok flat
       /\ map output flat
          = map sanitize_signal_name (map output (gates m))
       /\ (single_driver flat
           <-> NoDup (map sanitize_signal_name (map output (gates m)))))
  /\ (forall nm port_list body n m n' modules fuel,
        SourceReader._parse_module nm port_list body n = Ok (m, n') ->
        instances m = [] ->
        NoDup (body_targets body) ->
        no_temporary_names (body_targets body) ->
        exists flat,
          flatten_module_gates (S fuel) m modules = Ok flat
          /\ single_driver flat)
  /\ (forall fuel modules module flat,
        instances module <> [] ->
        flatten_module_gates (S fuel) module modules = Ok flat ->
        (forall inst, In inst (instances module) ->
                      single_driver (sub_flat fuel modules inst)) ->
        names_apart (instances module) ->
        NoDup (flat_map (driven_nets fuel modules) (instances module)) ->
        no_local_name (instances module)
          (flat_map (driven_nets fuel modules) (instances module)) ->
        single_driver flat)
  /\ (forall fuel modules module flat,
        instances module <> [] ->
        flatten_module_gates (S fuel) module modules = Ok flat ->
        (single_driver flat
         <-> NoDup (instance_nets fuel modules (instances module))))
  /\ (forall fuel modules module flat inst,
        flatten_module_gates (S fuel) module modules = Ok flat ->
        In inst (instances module) ->
        single_driver flat ->
        single_driver (sub_flat fuel modules inst)).
Proof.
  split; [|split; [|split; [|split]]].
  - intros fuel m modules E.
    destruct (leaf_flat_outputs fuel m modules E) as [flat [H O]].
    exists flat. split; [exact H|]. split; [exact O|].
    unfold single_driver. now rewrite O.
  - intros nm port_list body n m n' modules fuel H Hi ND T.
    exact (parsed_leaf_single_driver nm port_list body n m n' modules fuel
             H Hi ND T).
  - intros fuel modules module flat N H S A D L.
    exact (instances_single_driver fuel modules module flat N H S A D L).
  - intros fuel modules module flat N H.
    exact (instances_single_driver_iff fuel modules module flat N H).
  - intros fuel modules module flat inst H Hin S.
    exact (instance_drivers_persist fuel modules module flat inst H Hin S).
Qed.

Lemma drivers_follow_the_source_witness :
  (exists flat,
     flatten_module_gates 1 FullAdder.fa [] = Ok flat
     /\ map output flat
        = map sanitize_signal_name (map output (gates FullAdder.fa))
     /\ (single_driver flat
         <-> NoDup (map sanitize_signal_name
                        (map output (gates FullAdder.fa)))))
  /\ (exists flat,
        flatten_module_gates 1 clocked_module [] = Ok flat
        /\ single_driver flat)
  /\ single_driver HalfConnected.flat
  /\ NoDup (instance_nets 1 HalfConnected.modules
              (instances HalfConnected.top))
  /\ single_driver (sub_flat 1 HalfConnected.modules HalfConnected.u1).
Proof.
  destruct drivers_follow_the_source
    as [Hleaf [Hparsed [Hinst [Hiff Hsub]]]].
  assert (S : single_driver HalfConnected.flat).
  { apply (Hinst 1 HalfConnected.modules HalfConnected.top).
    - discriminate.
    - reflexivity.
    - intros inst [<-|[]]. vm_compute.
      repeat constructor; simpl; intuition discriminate.
    - repeat constructor.
    - vm_compute. repeat constructor; simpl; intuition discriminate.
    - intros net inst Hn [<-|[]]. vm_compute in Hn.
      destruct Hn as [<-|[]]. reflexivity. }
  split; [|split; [|split; [|split]]].
  - apply (Hleaf 0 FullAdder.fa []). reflexivity.
  - apply (Hparsed "c" "input a, input b, input clk, output q" clocked_body
             0 clocked_module 3 [] 0).
    + vm_compute. reflexivity.
    + reflexivity.
    + vm_compute. repeat constructor; simpl; intuition discriminate.
    + vm_compute. repeat constructor.
  - exact S.
  - apply (Hiff 1 HalfConnected.modules HalfConnected.top HalfConnected.flat).
    + discriminate.
    + reflexivity.
    + exact S.
  - apply (Hsub 1 HalfConnected.modules HalfConnected.top HalfConnected.flat
             HalfConnected.u1).
    + reflexivity.
    + now left.
    + exact S.
Defined.

(* ------------------------------------------------------------------ *)
(** ** The nets section, by its parts (C8) *)

Section NetsSection.

Import KiCadNetlistExporter.

Lemma mem_string_keys {V} (d : Dict.t V) p :
  mem_string p (Dict.keys d) = Dict.mem d p.
Proof.
  unfold mem_string, Dict.keys, Dict.mem.
  induction d as [|[k v] d IH]; cbn [map existsb Dict.get fst];
    [reflexivity|].
  rewrite (String.eqb_sym p k).
  destruct (k =? p)%string; [reflexivity|exact IH].
Qed.

Lemma mem_string_true p l : mem_string p l = true -> In p l.
Proof.
  unfold mem_string. intros H. apply existsb_exists in H as [x [Hx E]].
  apply String.eqb_eq in E. now subst x.
Qed.

Lemma In_keys_mem {V} (d : Dict.t V) p :
  In p (Dict.keys d) -> Dict.mem d p = true.
Proof.
  intros H. rewrite <- mem_string_keys. now apply mem_string_In.
Qed.

(** *** The unused pins *)

Lemma unused_ic_pins_spec ic pin :
  In pin (unused_ic_pins ic)
  <-> is_74xx_part (part_number ic) = true
      /\ In pin pin_numbers
      /\ Dict.mem (pin_assignments ic) pin = false
      /\ pin <> "7" /\ pin <> "14".
Proof.
  unfold unused_ic_pins, all_pins, power_pins.
  rewrite filter_In, mem_string_keys.
  destruct (is_74xx_part (part_number ic)).
  - fold pin_numbers. rewrite andb_true_iff, !negb_true_iff.
    unfold mem_string. cbn [existsb]. rewrite orb_false_r, orb_false_iff.
    rewrite !String.eqb_neq. tauto.
  - cbn [In]. intuition discriminate.
Qed.

Lemma unused_pins_unassigned ics nd :
  In nd (unused_pins ics) <-> unassigned ics nd.
Proof.
  unfold unused_pins, unassigned. rewrite in_flat_map. split.
  - intros [ic [Hic H]]. apply in_map_iff in H as [pin [<- Hp]].
    apply unused_ic_pins_spec in Hp. exists ic. cbn [fst snd]. tauto.
  - intros [ic [Hic [E H]]]. exists ic. split; [exact Hic|].
    apply in_map_iff. exists (snd nd). split.
    + destruct nd as [r p]. cbn [fst snd] in *. now subst r.
    + apply unused_ic_pins_spec. tauto.
Qed.

(** *** The names of the signal nets *)

Lemma mem_remove_sub {V} (d : Dict.t V) k p :
  Dict.mem (Dict.remove d k) p = true -> Dict.mem d p = true.
Proof.
  unfold Dict.mem. induction d as [|[k0 v0] d IH];
    cbn [Dict.remove Dict.get]; [auto|].
  destruct (k0 =? k)%string.
  - intros H. now destruct (k0 =? p)%string.
  - cbn [Dict.get]. now destruct (k0 =? p)%string.
Qed.

Lemma merge_alias_sound nets link p :
  Dict.mem (merge_alias nets link) p = true ->
  Dict.mem nets p = true \/ fst link = p.
Proof.
  destruct link as [dst src]. unfold merge_alias. cbn [fst].
  destruct (Dict.get nets src) as [from_src|]; [|now left].
  intros H.
  assert (M : Dict.mem (Dict.set nets dst
                          (set_union match Dict.get nets dst with
                                     | Some s => s
                                     | None => []
                                     end from_src)) p = true).
  { destruct (negb (dst =? src)%string);
      [now apply mem_remove_sub in H|exact H]. }
  rewrite mem_set in M. apply orb_true_iff in M as [M|M]; [now left|].
  right. now apply String.eqb_eq.
Qed.

Lemma fold_merge_alias_sound links :
  forall nets p,
    Dict.mem (fold_left merge_alias links nets) p = true ->
    Dict.mem nets p = true \/ In p (map fst links).
Proof.
  induction links as [|link links IH]; intros nets p H; cbn [fold_left] in H;
    [now left|].
  destruct (IH _ _ H) as [M|M]; [|right; now right].
  destruct (merge_alias_sound _ _ _ M) as [M'|E]; [now left|].
  right. now left.
Qed.

(** A signal net bears the name of a connector net, of a net on a pin
    of a real IC, or of the destination of an alias link. *)
Lemma signal_nets_sound module ics p :
  In p (net_names (signal_nets module ics)) ->
  In p (signal_names module ics) \/ In p (alias_targets ics).
Proof.
  unfold net_names, signal_nets. rewrite map_map. cbn [net_name].
  change (map (fun x => fst x) (signal_nets_dict module ics))
    with (Dict.keys (signal_nets_dict module ics)).
  intros H. apply In_keys_mem in H. unfold signal_nets_dict in H.
  destruct (fold_add_ic_pins_spec ics
              (fold_left (add_connectors "JOUT_")
                 (_merge_signals_by_name (mod_outputs module))
                 (fold_left (add_connectors "JIN_")
                    (_merge_signals_by_name (mod_inputs module)) []))
              []) as [nets' [E M]].
  rewrite E in H. cbn [app] in H.
  destruct (fold_merge_alias_sound _ _ _ H) as [K|K]; [left|now right].
  rewrite M, !fold_add_connectors_mem in K. cbn [Dict.mem Dict.get] in K.
  unfold signal_names. rewrite !in_app_iff.
  apply orb_true_iff in K as [K|K]; [apply orb_true_iff in K as [K|K]|];
    try discriminate; apply mem_string_true in K; tauto.
Qed.

Lemma power_net_name rail cap_pin ics caps p :
  In p (net_names (power_net rail cap_pin ics caps)) -> p = rail.
Proof.
  unfold power_net, net_names.
  destruct (power_connections rail cap_pin ics caps); [contradiction|].
  intros [<-|[]]. reflexivity.
Qed.

(** *** Without a real IC *)

Lemma no_rail_pins rail id pa acc :
  (forall ps, In ps pa -> (snd ps =? rail)%string = false) ->
  fold_left (fun acc ps =>
               if (snd ps =? rail)%string
               then set_add (id, fst ps) acc else acc) pa acc = acc.
Proof.
  revert acc. induction pa as [|ps pa IH]; intros acc H; cbn [fold_left];
    [reflexivity|].
  rewrite (H ps) by now left. apply IH. intros ps' Hp. apply H. now right.
Qed.

Lemma alias_power_connections rail cap_pin ics :
  is_power rail = true ->
  Forall (fun ic => part_number ic = "ALIAS") ics ->
  no_power_alias ics ->
  power_connections rail cap_pin ics (cap_refs ics) = [].
Proof.
  intros R A P. unfold power_connections.
  assert (C : cap_refs ics = []).
  { unfold cap_refs.
    assert (F : filter (fun ic => Py.startswith "74" (part_number ic)) ics
                = []).
    { clear P. induction A as [|ic ics E A IH]; [reflexivity|].
      cbn [filter]. now rewrite E, IH. }
    now rewrite F. }
  rewrite C. clear C. cbn [fold_left].
  assert (G : forall acc,
             fold_left
               (fun acc ic =>
                  fold_left
                    (fun acc ps =>
                       if (snd ps =? rail)%string
                       then set_add (instance_id ic, fst ps) acc else acc)
                    (pin_assignments ic) acc) ics acc = acc).
  { induction ics as [|ic ics IH]; intros acc; cbn [fold_left];
      [reflexivity|].
    inversion A as [|? ? E A']; subst.
    rewrite no_rail_pins.
    - apply IH; [exact A'|intros ic' ps Hic; apply P; now right].
    - intros ps Hp.
      assert (Q : is_power (snd ps) = false)
        by (apply (P ic ps); [now left|exact E|exact Hp]).
      destruct (String.eqb_spec (snd ps) rail) as [Eq|]; [|reflexivity].
      rewrite Eq in Q. congruence. }
  apply G.
Qed.

Lemma alias_unused_pins ics :
  Forall (fun ic => part_number ic = "ALIAS") ics -> unused_pins ics = [].
Proof.
  induction 1 as [|ic ics E A IH]; [reflexivity|].
  unfold unused_pins in *. cbn [flat_map]. rewrite IH.
  unfold unused_ic_pins, all_pins. now rewrite E.
Qed.

Lemma only_alias_nets module ics :
  Forall (fun ic => part_number ic = "ALIAS") ics ->
  no_power_alias ics ->
  written_nets module ics = signal_nets module ics.
Proof.
  intros A P. unfold written_nets, _write_nets, power_net.
  rewrite (alias_power_connections "VCC" "1" ics eq_refl A P).
  rewrite (alias_power_connections "GND" "2" ics eq_refl A P).
  unfold _add_unused_pins_to_gnd. rewrite (alias_unused_pins ics A).
  cbn [app]. apply List.app_nil_r.
Qed.

Lemma real_part_is_74xx p : In p real_parts -> is_74xx_part p = true.
Proof.
  unfold real_parts. cbn [In].
  intros [<-|[<-|[<-|[<-|[<-|[]]]]]]; reflexivity.
Qed.

(** When the packer returns no real IC, it returns the alias pseudo-IC
    at most. *)
Lemma packed_without_real gates ics :
  map_gates_to_ics gates = Ok ics ->
  (forall ic, In ic ics -> is_74xx_part (part_number ic) = false) ->
  Forall (fun ic => part_number ic = "ALIAS") ics.
Proof.
  intros H N.
  destruct (map_gates_to_ics_spec gates (map_gates_ok_sources _ _ H))
    as [real [E [R _]]].
  rewrite E in H. injection H as <-.
  destruct real as [|ic real].
  - cbn [app]. destruct (filter is_alias gates); repeat constructor.
  - exfalso. inversion R as [|? ? Hp _]; subst.
    apply real_part_is_74xx in Hp.
    rewrite (N ic) in Hp by (now left). discriminate.
Qed.

End NetsSection.

(** C8, amended.  The nets section of a synthesized top-level module
    holds a net for every connector net (single-endpoint ones included)
    and every net on a pin of a real IC that no alias link merged into
    another net, and a VCC net and a GND net as soon as one real IC is
    packed.  When some real IC has a pin that is neither assigned nor a
    power pin, the section holds a GND_UNUSED net whose nodes are
    exactly these pins; when there is no such pin, a net called
    GND_UNUSED is a signal net, written because a port, a net on a pin
    or an alias destination bears that name.  Every net of the section
    is called VCC, GND or GND_UNUSED, or bears the name of such a
    signal.  When no real IC is packed and no alias ties a net to VCC
    or GND, the section holds the signal nets alone. *)
Theorem synthesized_nets_contents fuel module modules flat ics :
  flatten_module_gates fuel module modules = Ok flat ->
  map_gates_to_ics flat = Ok ics ->
  synthesized_nets fuel module modules = Ok (written_nets module ics)
  /\ ((exists ic, In ic ics
                  /\ KiCadNetlistExporter.is_74xx_part (part_number ic)
                     = true) ->
      In "VCC" (net_names (written_nets module ics))
      /\ In "GND" (net_names (written_nets module ics)))
  /\ (forall p,
        In p (signal_names module ics) -> ~ In p (alias_sources ics) ->
        In p (net_names (written_nets module ics)))
  /\ ((exists nd, unassigned ics nd) ->
      exists net,
        In net (written_nets module ics)
        /\ KiCadNetlistExporter.net_name net = "GND_UNUSED"
        /\ forall nd, In nd (KiCadNetlistExporter.net_nodes net)
                      <-> unassigned ics nd)
  /\ ((forall nd, ~ unassigned ics nd) ->
      In "GND_UNUSED" (net_names (written_nets module ics)) ->
      In "GND_UNUSED" (signal_names module ics ++ alias_targets ics))
  /\ (forall p,
        In p (net_names (written_nets module ics)) ->
        p = "VCC" \/ p = "GND" \/ p = "GND_UNUSED"
        \/ In p (signal_names module ics ++ alias_targets ics))
  /\ ((forall ic, In ic ics ->
                  KiCadNetlistExporter.is_74xx_part (part_number ic)
                  = false) ->
      no_power_alias ics ->
      written_nets module ics
      = KiCadNetlistExporter.signal_nets module ics).
Proof.
  intros Hflat Hpack.
  assert (Names : forall p,
            In p (net_names (written_nets module ics)) ->
            p = "VCC" \/ p = "GND"
            \/ In p (net_names
                       (KiCadNetlistExporter._add_unused_pins_to_gnd ics))
            \/ In p (signal_names module ics ++ alias_targets ics)).
  { intros p. unfold written_nets, KiCadNetlistExporter._write_nets, net_names.
    rewrite !map_app, !in_app_iff. fold net_names.
    intros [H|[H|[H|H]]].
    - left. exact (power_net_name _ _ _ _ _ H).
    - right. left. exact (power_net_name _ _ _ _ _ H).
    - right. right. right. now apply signal_nets_sound.
    - right. right. now left. }
  split; [|split; [|split; [|split; [|split; [|split]]]]].
  - unfold synthesized_nets. rewrite Hflat. cbn [bind].
    rewrite Hpack. reflexivity.
  - intros [ic [Hin Hpart]].
    destruct (packed_real_ics_powered flat ics ic Hpack Hin Hpart) as [V G].
    apply get_In in V, G.
    unfold written_nets, KiCadNetlistExporter._write_nets, net_names.
    rewrite !map_app, !in_app_iff. fold net_names. split.
    + left. now apply (power_net_present _ _ _ _ ic "14").
    + right. left. now apply (power_net_present _ _ _ _ ic "7").
  - intros p Hp Ha.
    unfold written_nets, KiCadNetlistExporter._write_nets, net_names.
    rewrite !map_app, !in_app_iff. fold net_names.
    right. right. left. now apply signal_nets_complete.
  - intros [nd0 U0]. apply unused_pins_unassigned in U0.
    exists (KiCadNetlistExporter.mkNet
              "GND_UNUSED" (KiCadNetlistExporter.unused_pins ics)).
    split; [|split; [reflexivity|]].
    + unfold written_nets, KiCadNetlistExporter._write_nets.
      rewrite !in_app_iff. right. right. right.
      unfold KiCadNetlistExporter._add_unused_pins_to_gnd.
      destruct (KiCadNetlistExporter.unused_pins ics);
        [contradiction|now left].
    + intros nd. cbn [KiCadNetlistExporter.net_nodes].
      apply unused_pins_unassigned.
  - intros N H. destruct (Names _ H) as [E|[E|[E|E]]];
      try discriminate E; [|exact E].
    exfalso. unfold KiCadNetlistExporter._add_unused_pins_to_gnd in E.
    destruct (KiCadNetlistExporter.unused_pins ics) as [|nd nds] eqn:U;
      [contradiction|].
    apply (N nd), unused_pins_unassigned. rewrite U. now left.
  - intros p H. destruct (Names _ H) as [E|[E|[E|E]]]; auto.
    right. right. left.
    unfold KiCadNetlistExporter._add_unused_pins_to_gnd, net_names in E.
    destruct (KiCadNetlistExporter.unused_pins ics); [contradiction|].
    destruct E as [<-|[]]. reflexivity.
  - intros N P. apply only_alias_nets; [|exact P].
    exact (packed_without_real flat ics Hpack N).
Qed.

Lemma synthesized_nets_contents_witness :
  ((In "VCC" (net_names (written_nets UnusedPins.one_and
                            UnusedPins.one_and_ics))
    /\ In "GND" (net_names (written_nets UnusedPins.one_and
                              UnusedPins.one_and_ics)))
   /\ exists net,
        In net (written_nets UnusedPins.one_and UnusedPins.one_and_ics)
        /\ KiCadNetlistExporter.net_name net = "GND_UNUSED"
        /\ forall nd, In nd (KiCadNetlistExporter.net_nodes net)
                      <-> unassigned UnusedPins.one_and_ics nd)
  /\ In "GND_UNUSED"
        (signal_names UnusedPins.named UnusedPins.named_ics
         ++ alias_targets UnusedPins.named_ics)
  /\ written_nets UnusedPins.alias_only UnusedPins.alias_only_ics
     = KiCadNetlistExporter.signal_nets UnusedPins.alias_only
         UnusedPins.alias_only_ics.
Proof.
  split; [|split].
  - destruct (synthesized_nets_contents
                1 UnusedPins.one_and []
                (map copy_gate (gates UnusedPins.one_and))
                UnusedPins.one_and_ics eq_refl eq_refl)
      as [_ [Hpower [_ [Hunused _]]]].
    split.
    + apply Hpower. exists (hd (alias_ic []) UnusedPins.one_and_ics).
      split; [now left|reflexivity].
    + apply Hunused. exists ("U1", "4").
      exists (hd (alias_ic []) UnusedPins.one_and_ics).
      split; [now left|]. split; [reflexivity|]. split; [reflexivity|].
      split; [cbn; tauto|]. split; [reflexivity|].
      split; discriminate.
  - destruct (synthesized_nets_contents
                1 UnusedPins.named []
                (map copy_gate (gates UnusedPins.named))
                UnusedPins.named_ics eq_refl eq_refl)
      as [_ [_ [_ [_ [Honly _]]]]].
    apply Honly.
    + intros nd U. apply unused_pins_unassigned in U. exact U.
    + vm_compute. tauto.
  - destruct (synthesized_nets_contents
                1 UnusedPins.alias_only []
                (map copy_gate (gates UnusedPins.alias_only))
                UnusedPins.alias_only_ics eq_refl eq_refl)
      as [_ [_ [_ [_ [_ [_ Halias]]]]]].
    apply Halias.
    + intros ic [<-|[]]. reflexivity.
    + intros ic ps [<-|[]] _ [<-|[]]. reflexivity.
Defined.
